(** * BATSim: the path planner, the Fibonacci heap and the tick loop

    A shallow embedding of the core of BATSim (include/FiboHeap.hpp,
    src/Network.cpp, src/Strategy.cpp, src/Individual.cpp and the agent
    loop of Model::step in src/Model.cpp), with the properties of the
    specification proved or refuted on it.

    Conventions.
    - [float] is IEEE 754 binary32 and [double] is binary64, both as
      [spec_float] with the operations of [SpecFloat] at the matching
      precision; every arithmetic operation of the source is the
      correspondingly rounded operation here.
    - [unsigned int] is an [N] below 2^32 with the wrap-around written out.
    - C++ exceptions and undefined behaviour are results [Err _]; nothing
      is proved about what happens after them.
    - [std::map<std::string,T>] is an association list kept in key order,
      so that iteration visits the keys as [std::map] does.
    - the nodes of the Fibonacci heap live in a store addressed by
      pointers; [previous], [next], [child] and [parent] are pointer
      fields that are read and written one at a time, as in the source. *)

From Stdlib Require Import ZArith NArith Floats.SpecFloat.
From Stdlib Require OrderedTypeEx.
From stdpp Require Import base decidable option list numbers strings gmap fin_maps.


(** ** Machine numbers *)

Module UInt.
Definition modulus : N := 2 ^ 32.
Definition wrap (x : Z) : N := Z.to_N (x mod Z.of_N modulus).
Definition add (x y : N) : N := ((x + y) mod modulus)%N.
(** [x++] *)
Definition incr (x : N) : N := add x 1.
(** [x--]: 0 wraps to 2^32 - 1 *)
Definition decr (x : N) : N := ((x + (modulus - 1)) mod modulus)%N.
End UInt.

Module SInt.
(** [int]: 32 bits, two's complement. *)
Definition wrap (x : Z) : Z := ((x + 2 ^ 31) mod 2 ^ 32 - 2 ^ 31)%Z.
Definition incr (x : Z) : Z := wrap (x + 1).
(** [a % b] truncates towards zero; [b = 0] is undefined. *)
Definition rem (a b : Z) : Z := Z.rem a b.
End SInt.

Module F32.
Definition prec : Z := 24.
Definition emax : Z := 128.
Definition add := SFadd prec emax.
Definition sub := SFsub prec emax.
Definition mul := SFmul prec emax.
Definition div := SFdiv prec emax.
Definition ltb := SFltb.
Definition leb := SFleb.
Definition gtb (x y : spec_float) := SFltb y x.
Definition geb (x y : spec_float) := SFleb y x.
Definition of_Z (z : Z) : spec_float := binary_normalize prec emax z 0 false.
Definition of_N (n : N) : spec_float := of_Z (Z.of_N n).
Definition zero : spec_float := S754_zero false.
Definition one : spec_float := of_Z 1.
(** [std::numeric_limits<float>::max()] *)
Definition max_value : spec_float := SFmax_float prec emax.
(** the literal [0.15f]: 0x3E19999A *)
Definition c0_15 : spec_float := S754_finite false 10066330 (-26).
(** the literal [0.5f] *)
Definition half : spec_float := S754_finite false 8388608 (-24).
(** [std::max<float>(a, b)]: [(a < b) ? b : a] *)
Definition max (a b : spec_float) : spec_float := if ltb a b then b else a.
(** [boost::math::pow<4,float>(x)]: two squarings *)
Definition pow4 (x : spec_float) : spec_float :=
  let x2 := mul x x in mul x2 x2.
End F32.

Module F64.
Definition prec : Z := 53.
Definition emax : Z := 1024.
Definition add := SFadd prec emax.
Definition sub := SFsub prec emax.
Definition of_Z (z : Z) : spec_float := binary_normalize prec emax z 0 false.
Definition zero : spec_float := S754_zero false.
Definition half : spec_float := S754_finite false 4503599627370496 (-53).
Definition abs := SFabs.
(** conversion of a [double] to [float], rounding to nearest even *)
Definition to_f32 (x : spec_float) : spec_float :=
  match x with
  | S754_finite s m e => binary_round F32.prec F32.emax s m e
  | _ => x
  end.
(** conversion of a [float] to [double] is exact *)
Definition of_f32 (x : spec_float) : spec_float := x.
End F64.

Arguments F32.add : simpl never.
Arguments F32.sub : simpl never.
Arguments F32.mul : simpl never.
Arguments F32.div : simpl never.
Arguments F32.of_Z : simpl never.
Arguments F32.of_N : simpl never.
Arguments F32.ltb : simpl never.
Arguments F32.leb : simpl never.
Arguments F32.gtb : simpl never.
Arguments F32.geb : simpl never.
Arguments F32.max_value : simpl never.
Arguments F32.one : simpl never.
Arguments F64.add : simpl never.
Arguments F64.sub : simpl never.
Arguments F64.of_Z : simpl never.
Arguments F64.to_f32 : simpl never.

Abbreviation float := spec_float (only parsing).
Abbreviation double := spec_float (only parsing).

(** ** Exceptions and undefined behaviour *)

Inductive exn : Type :=
  | ThrowString (msg : string)   (* throw string("...") *)
  | OutOfRange                   (* std::out_of_range of map::at and vector::at *)
  | Undefined                    (* null or dangling dereference, back() of an
                                    empty vector, operator[] out of bounds *)
  | OutOfFuel.                   (* a loop of the model ran out of steps *)

Inductive res (A : Type) : Type :=
  | Ok (a : A)
  | Err (e : exn).
Arguments Ok {A} a.
Arguments Err {A} e.

Definition is_Ok {A} (r : res A) : Prop := ∃ a, r = Ok a.

Definition res_bind {A B} (r : res A) (k : A → res B) : res B :=
  match r with Ok a => k a | Err e => Err e end.

(** State and exceptions: a computation over a state [S]. *)
Definition ST (S A : Type) : Type := S → res (A * S).

Definition st_throw {S A} (e : exn) : ST S A := λ _, Err e.
Definition st_get {S} : ST S S := λ s, Ok (s, s).
Definition st_put {S} (s : S) : ST S unit := λ _, Ok (tt, s).
(** A computation that fails or returns without touching the state. *)
Definition of_res {S A} (r : res A) : ST S A := λ s,
  match r with Ok a => Ok (a, s) | Err e => Err e end.

#[global] Instance st_ret {S} : MRet (ST S) := λ A a s, Ok (a, s).
#[global] Instance st_bind {S} : MBind (ST S) := λ A B k c s,
  match c s with Ok (a, s') => k a s' | Err e => Err e end.

#[global] Instance res_ret : MRet res := λ A a, Ok a.
#[global] Instance res_mbind : MBind res := λ A B k r, res_bind r k.

(** ** [std::map<std::string, T>] *)

Module StdMap.
Section Defs.
Context {T : Type}.

Definition t := list (string * T).

Fixpoint find (k : string) (m : list (string * T)) : option T :=
  match m with
  | [] => None
  | (k', v) :: m' => if String.eqb k k' then Some v else find k m'
  end.

(** [m.at(k)] *)
Definition at_ (k : string) (m : list (string * T)) : res T :=
  match find k m with Some v => Ok v | None => Err OutOfRange end.

(** [m.count(k)] *)
Definition count (k : string) (m : list (string * T)) : nat :=
  match find k m with Some _ => 1 | None => 0 end.

(** [m[k] = v]: the entry is replaced or put at its place in key order. *)
Fixpoint put (k : string) (v : T) (m : list (string * T)) : list (string * T) :=
  match m with
  | [] => [(k, v)]
  | (k', v') :: m' =>
      match String.compare k k' with
      | Lt => (k, v) :: (k', v') :: m'
      | Eq => (k, v) :: m'
      | Gt => (k', v') :: put k v m'
      end
  end.

(** [m.insert(make_pair(k, v))]: an existing entry is kept. *)
Definition insert (k : string) (v : T) (m : list (string * T)) : list (string * T) :=
  match find k m with Some _ => m | None => put k v m end.

(** [m[k]] as an rvalue: a missing entry is created from [dflt]. *)
Definition index (dflt : T) (k : string) (m : list (string * T)) : T * list (string * T) :=
  match find k m with
  | Some v => (v, m)
  | None => (dflt, put k dflt m)
  end.

Definition keys (m : list (string * T)) : list string := m.*1.
End Defs.
Arguments t : clear implicits.
End StdMap.

(** [std::set<std::string>] used only for membership. *)
Definition set_mem (k : string) (s : list string) : bool :=
  bool_decide (k ∈ s).


(** ** include/FiboHeap.hpp *)

(** The comparisons the heap template applies to its [Key]. *)
Class KeyOps (K : Type) := {
  key_lt : K → K → bool;   (* operator<  *)
  key_gt : K → K → bool;   (* operator>  *)
  key_le : K → K → bool;   (* operator<= *)
  key_ge : K → K → bool;   (* operator>= *)
}.

#[global] Instance float_KeyOps : KeyOps float :=
  {| key_lt := F32.ltb; key_gt := F32.gtb; key_le := F32.leb; key_ge := F32.geb |}.

#[global] Instance Z_KeyOps : KeyOps Z :=
  {| key_lt := Z.ltb; key_gt := Z.gtb; key_le := Z.leb; key_ge := Z.geb |}.

Definition ptr := nat.

Section FiboHeap.
Context {Data Key : Type} `{KeyOps Key}.

(** [FibonacciHeapNode<Data,Key>] *)
Record FibonacciHeapNode := mkNode {
  myKey : Key;
  myData : Data;
  degree : N;
  mark : bool;
  previous : ptr;
  next : ptr;
  child : option ptr;
  parent : option ptr;
}.

Definition set_myKey (v : Key) (n : FibonacciHeapNode) :=
  mkNode v (myData n) (degree n) (mark n) (previous n) (next n) (child n) (parent n).
Definition set_degree (v : N) (n : FibonacciHeapNode) :=
  mkNode (myKey n) (myData n) v (mark n) (previous n) (next n) (child n) (parent n).
Definition set_mark (v : bool) (n : FibonacciHeapNode) :=
  mkNode (myKey n) (myData n) (degree n) v (previous n) (next n) (child n) (parent n).
Definition set_previous (v : ptr) (n : FibonacciHeapNode) :=
  mkNode (myKey n) (myData n) (degree n) (mark n) v (next n) (child n) (parent n).
Definition set_next (v : ptr) (n : FibonacciHeapNode) :=
  mkNode (myKey n) (myData n) (degree n) (mark n) (previous n) v (child n) (parent n).
Definition set_child (v : option ptr) (n : FibonacciHeapNode) :=
  mkNode (myKey n) (myData n) (degree n) (mark n) (previous n) (next n) v (parent n).
Definition set_parent (v : option ptr) (n : FibonacciHeapNode) :=
  mkNode (myKey n) (myData n) (degree n) (mark n) (previous n) (next n) (child n) v.

(** The free store: the allocated nodes and the next fresh address. *)
Record store := mkStore {
  cells : gmap ptr FibonacciHeapNode;
  fresh : ptr;
}.

Definition empty_store : store := mkStore ∅ 0.

Abbreviation HM := (ST store).

(** [p->f] *)
Definition rd {A} (f : FibonacciHeapNode → A) (p : ptr) : HM A := λ s,
  match cells s !! p with
  | Some n => Ok (f n, s)
  | None => Err Undefined
  end.

(** [p->f = v] *)
Definition wr (upd : FibonacciHeapNode → FibonacciHeapNode) (p : ptr) : HM unit := λ s,
  match cells s !! p with
  | Some n => Ok (tt, mkStore (<[p := upd n]> (cells s)) (fresh s))
  | None => Err Undefined
  end.

(** [new FibonacciHeapNode<Data,Key>(d, k)] *)
Definition new_node (d : Data) (k : Key) : HM ptr := λ s,
  let p := fresh s in
  Ok (p, mkStore (<[p := mkNode k d 0 false p p None None]> (cells s)) (S p)).

(** [delete p] *)
Definition delete_node (p : ptr) : HM unit := λ s,
  match cells s !! p with
  | Some _ => Ok (tt, mkStore (delete p (cells s)) (fresh s))
  | None => Err Undefined
  end.

(** A bound on the length of any walk through distinct nodes. *)
Definition fuel_of : HM nat := λ s, Ok (S (size (cells s)), s).

(** *** Member functions of the node *)

Definition isSingle (this : ptr) : HM bool :=
  n ← rd next this; mret (bool_decide (this = n)).

Definition node_insert (this : ptr) (other : option ptr) : HM unit :=
  match other with
  | None => mret tt
  | Some o =>
      tn ← rd next this; op ← rd previous o; wr (set_previous op) tn;;
      op ← rd previous o; tn ← rd next this; wr (set_next tn) op;;
      wr (set_next o) this;;
      wr (set_previous this) o
  end.

Definition node_remove (this : ptr) : HM unit :=
  tp ← rd previous this; tn ← rd next this; wr (set_next tn) tp;;
  tn ← rd next this; tp ← rd previous this; wr (set_previous tp) tn;;
  wr (set_previous this) this;;
  wr (set_next this) this.

Definition addChild (this other : ptr) : HM unit :=
  c ← rd child this;
  match c with
  | None => wr (set_child (Some other)) this
  | Some c => node_insert c (Some other)
  end;;
  wr (set_parent (Some this)) other;;
  wr (set_mark false) other;;
  d ← rd degree this; wr (set_degree (UInt.incr d)) this.

Definition removeChild (this other : ptr) : HM unit :=
  op ← rd parent other;
  (if bool_decide (op = Some this) then mret tt
   else st_throw (ThrowString "Trying to remove a child from a non-parent"));;
  single ← isSingle other;
  (if (single : bool) then
     c ← rd child this;
     (if bool_decide (c = Some other) then mret tt
      else st_throw (ThrowString "Trying to remove a non-child"));;
     wr (set_child None) this
   else
     c ← rd child this;
     (if bool_decide (c = Some other)
      then on ← rd next other; wr (set_child (Some on)) this
      else mret tt);;
     node_remove other);;
  wr (set_parent None) other;;
  wr (set_mark false) other;;
  d ← rd degree this; wr (set_degree (UInt.decr d)) this.

(** *** [FibonacciHeap<Data,Key>] *)

Record FibonacciHeap := mkHeap {
  rootWithMinKey : option ptr;
  count : N;
  maxDegree : N;
}.

(** The constructor. *)
Definition new_heap : FibonacciHeap := mkHeap None 0 0.

Definition empty (h : FibonacciHeap) : bool := bool_decide (count h = 0%N).

Definition getCount (h : FibonacciHeap) : N := count h.

Definition insertNode (h : FibonacciHeap) (newNode : ptr) : HM FibonacciHeap :=
  match rootWithMinKey h with
  | None => mret (mkHeap (Some newNode) (count h) (maxDegree h))
  | Some r =>
      node_insert r (Some newNode);;
      kn ← rd myKey newNode; kr ← rd myKey r;
      if key_lt kn kr then mret (mkHeap (Some newNode) (count h) (maxDegree h))
      else mret h
  end.

Definition minimum (h : FibonacciHeap) : HM ptr :=
  match rootWithMinKey h with
  | None => st_throw (ThrowString "no minimum element")
  | Some r => mret r
  end.

(** [this->merge(other)]: the receiver's root is dereferenced first. *)
Definition merge (h other : FibonacciHeap) : HM FibonacciHeap :=
  match rootWithMinKey h with
  | None => st_throw Undefined
  | Some r =>
      node_insert r (rootWithMinKey other);;
      take ← match rootWithMinKey other with
             | None => mret false
             | Some o => ko ← rd myKey o; kr ← rd myKey r; mret (key_lt ko kr)
             end;
      mret (mkHeap (if (take : bool) then rootWithMinKey other else Some r)
                   (UInt.add (count h) (count other)) (maxDegree h))
  end.

Definition insert (h : FibonacciHeap) (d : Data) (k : Key) : HM (ptr * FibonacciHeap) :=
  let h := mkHeap (rootWithMinKey h) (UInt.incr (count h)) (maxDegree h) in
  p ← new_node d k;
  h ← insertNode h p;
  mret (p, h).

(** Phase 1 of [deletemin]:
    [do { c->parent = NULL; c = c->next; } while (c != rootWithMinKey->child)] *)
Fixpoint clear_parents (fuel : nat) (r c : ptr) : HM ptr :=
  match fuel with
  | 0 => st_throw OutOfFuel
  | S fuel =>
      wr (set_parent None) c;;
      c ← rd next c;
      rc ← rd child r;
      if bool_decide (Some c = rc) then mret c else clear_parents fuel r c
  end.

(** [degreeRoots[i]]: reading outside the vector is undefined. *)
Definition vec_get (v : list (option ptr)) (i : N) : HM (option ptr) :=
  match v !! N.to_nat i with
  | Some x => mret x
  | None => st_throw Undefined
  end.

Definition vec_set (v : list (option ptr)) (i : N) (x : option ptr) : HM (list (option ptr)) :=
  if bool_decide (N.to_nat i < length v) then mret (<[N.to_nat i := x]> v)
  else st_throw Undefined.

(** The inner loop of phase 2:
    [while (degreeRoots[currentDegree] != NULL) { ... }] *)
Fixpoint merge_same_degree (fuel : nat) (degreeRoots : list (option ptr))
    (currentDegree : N) (current : ptr) : HM (list (option ptr) * N * ptr) :=
  match fuel with
  | 0 => st_throw OutOfFuel
  | S fuel =>
      o ← vec_get degreeRoots currentDegree;
      match o with
      | None => mret (degreeRoots, currentDegree, current)
      | Some other =>
          kc ← rd myKey current; ko ← rd myKey other;
          let '(other, current) :=
            if key_gt kc ko then (current, other) else (other, current) in
          node_remove other;;
          addChild current other;;
          degreeRoots ← vec_set degreeRoots currentDegree None;
          let currentDegree := UInt.incr currentDegree in
          let degreeRoots :=
            if bool_decide (length degreeRoots ≤ N.to_nat currentDegree)
            then degreeRoots ++ [None] else degreeRoots in
          merge_same_degree fuel degreeRoots currentDegree current
      end
  end.

(** The outer loop of phase 2: [do { ... } while (currentPointer != rootWithMinKey)] *)
Fixpoint consolidate (fuel : nat) (r : ptr) (degreeRoots : list (option ptr))
    (currentPointer : ptr) : HM (list (option ptr)) :=
  match fuel with
  | 0 => st_throw OutOfFuel
  | S fuel =>
      currentDegree ← rd degree currentPointer;
      let current := currentPointer in
      currentPointer ← rd next currentPointer;
      inner ← fuel_of;
      '(degreeRoots, currentDegree, current) ←
        merge_same_degree inner degreeRoots currentDegree current;
      degreeRoots ← vec_set degreeRoots currentDegree (Some current);
      if bool_decide (currentPointer = r) then mret degreeRoots
      else consolidate fuel r degreeRoots currentPointer
  end.

(** Phase 3: [for (d = 0; d < degreeRoots.size(); ++d) if (degreeRoots[d]) { ... }];
    the state of the loop is the heap under reconstruction and [newMaxDegree]. *)
Fixpoint rebuild (degreeRoots : list (option ptr)) (d : N)
    (h : FibonacciHeap) (newMaxDegree : N) : HM (FibonacciHeap * N) :=
  match degreeRoots with
  | [] => mret (h, newMaxDegree)
  | None :: rest => rebuild rest (d + 1)%N h newMaxDegree
  | Some p :: rest =>
      wr (set_previous p) p;;
      wr (set_next p) p;;
      h ← insertNode h p;
      rebuild rest (d + 1)%N h (if (newMaxDegree <? d)%N then d else newMaxDegree)
  end.

Definition deletemin (h : FibonacciHeap) : HM FibonacciHeap :=
  match rootWithMinKey h with
  | None => st_throw (ThrowString "trying to remove from an empty heap")
  | Some r =>
      let count' := UInt.decr (count h) in
      (* Phase 1 *)
      rc ← rd child r;
      match rc with
      | None => mret tt
      | Some c =>
          fuel ← fuel_of;
          c ← clear_parents fuel r c;
          wr (set_child None) r;;
          node_insert r (Some c)
      end;;
      (* Phase 2-a *)
      rn ← rd next r;
      if bool_decide (rn = r) then
        if bool_decide (count' ≠ 0%N)
        then st_throw (ThrowString "Internal error: should have 0 keys")
        else mret (mkHeap None count' (maxDegree h))
      else
        (* Phase 2 *)
        let degreeRoots := replicate (N.to_nat (UInt.add (maxDegree h) 250)) None in
        currentPointer ← rd next r;
        fuel ← fuel_of;
        degreeRoots ← consolidate fuel r degreeRoots currentPointer;
        (* Phase 3 *)
        delete_node r;;
        '(h', newMaxDegree) ← rebuild degreeRoots 0 (mkHeap None count' 0) 0;
        mret (mkHeap (rootWithMinKey h') count' newMaxDegree)
  end.

(** The cascading cut of [decreaseKey]: [for(;;) { ... }] *)
Fixpoint cut_loop (fuel : nat) (h : FibonacciHeap) (node parent' : ptr) : HM FibonacciHeap :=
  match fuel with
  | 0 => st_throw OutOfFuel
  | S fuel =>
      removeChild parent' node;;
      h ← insertNode h node;
      pp ← rd parent parent';
      match pp with
      | None => mret h
      | Some pp =>
          m ← rd mark parent';
          if negb m then wr (set_mark true) parent';; mret h
          else cut_loop fuel h parent' pp
      end
  end.

Definition decreaseKey (h : FibonacciHeap) (node : ptr) (newKey : Key) : HM FibonacciHeap :=
  k ← rd myKey node;
  (if key_gt newKey k
   then st_throw (ThrowString "Trying to decrease key to a greater key")
   else mret tt);;
  wr (set_myKey newKey) node;;
  p ← rd parent node;
  match p with
  | None =>
      match rootWithMinKey h with
      | None => st_throw Undefined
      | Some r =>
          kr ← rd myKey r;
          if key_lt newKey kr then mret (mkHeap (Some node) (count h) (maxDegree h))
          else mret h
      end
  | Some p =>
      kp ← rd myKey p;
      if key_le kp newKey then mret h
      else fuel ← fuel_of; cut_loop fuel h node p
  end.

Definition remove (h : FibonacciHeap) (node : ptr) (minusInfinity : Key) : HM FibonacciHeap :=
  m ← minimum h;
  km ← rd myKey m;
  (if key_ge minusInfinity km
   then st_throw (ThrowString "2nd argument to remove must be a key that is smaller than all other keys")
   else mret tt);;
  h ← decreaseKey h node minusInfinity;
  deletemin h.

(** The client loop that empties a heap:
    [while (!h.empty()) { out.push_back(h.minimum()); h.deletemin(); }] *)
Fixpoint drain (fuel : nat) (h : FibonacciHeap) : HM (list (Data * Key)) :=
  if empty h then mret []
  else
    match fuel with
    | 0 => st_throw OutOfFuel
    | S fuel =>
        m ← minimum h;
        d ← rd myData m;
        k ← rd myKey m;
        h ← deletemin h;
        rest ← drain fuel h;
        mret ((d, k) :: rest)
    end.

End FiboHeap.
Arguments FibonacciHeapNode : clear implicits.
Arguments store : clear implicits.


(** ** include/Network.hpp and src/Network.cpp *)

Module Node.
(** [class Node]; the map of indicators plays no part in the core. *)
Record t := mk {
  _id : string;
  _x : double;
  _y : double;
  _links_out_id : list string;
  _x_data : double;
  _y_data : double;
}.
(** [Node()] *)
Definition default : t := mk "0" F64.zero F64.zero [] F64.zero F64.zero.
(** [Node(id, x, y)] *)
Definition make (id : string) (x y : double) : t := mk id x y [] x y.
Definition setX (x : double) (n : t) : t :=
  mk (_id n) x (_y n) (_links_out_id n) (_x_data n) (_y_data n).
Definition setY (y : double) (n : t) : t :=
  mk (_id n) (_x n) y (_links_out_id n) (_x_data n) (_y_data n).
Definition setXData (x : double) (n : t) : t :=
  mk (_id n) (_x n) (_y n) (_links_out_id n) x (_y_data n).
Definition setYData (y : double) (n : t) : t :=
  mk (_id n) (_x n) (_y n) (_links_out_id n) (_x_data n) y.
Definition addLinkOutId (l : string) (n : t) : t :=
  mk (_id n) (_x n) (_y n) (_links_out_id n ++ [l]) (_x_data n) (_y_data n).
End Node.

Module Link.
(** [class Link] *)
Record t := mk {
  _id : string;
  _start_node_id : string;
  _end_node_id : string;
  _length : float;
  _n_agents : N;
  _free_flow_time : float;
  _capacity : float;
  _x : double;
  _y : double;
}.
(** [Link()] *)
Definition default : t :=
  mk "0" "0" "0" F32.zero 0 F32.zero F32.zero F64.zero F64.zero.
(** [Link(id, start_node, end_node, length, free_flow_speed, capacity, x, y)] *)
Definition make (id s e : string) (length free_flow_speed capacity : float) (x y : double) : t :=
  mk id s e length 0 (F32.div length free_flow_speed) capacity x y.
Definition setLength (v : float) (l : t) : t :=
  mk (_id l) (_start_node_id l) (_end_node_id l) v (_n_agents l)
     (_free_flow_time l) (_capacity l) (_x l) (_y l).
Definition setFreeFlowTime (v : float) (l : t) : t :=
  mk (_id l) (_start_node_id l) (_end_node_id l) (_length l) (_n_agents l)
     v (_capacity l) (_x l) (_y l).
Definition setNAgents (v : N) (l : t) : t :=
  mk (_id l) (_start_node_id l) (_end_node_id l) (_length l) v
     (_free_flow_time l) (_capacity l) (_x l) (_y l).
(** [_n_agents++] *)
Definition increaseAgents (l : t) : t := setNAgents (UInt.incr (_n_agents l)) l.
(** [_n_agents--] *)
Definition decrementAgents (l : t) : t := setNAgents (UInt.decr (_n_agents l)) l.

(** [_free_flow_time * (1.0f + 0.15f * pow<4,float>((float)(_n_agents / _capacity)))] *)
Definition timeOnLink (l : t) : float :=
  F32.mul (_free_flow_time l)
    (F32.add F32.one
       (F32.mul F32.c0_15 (F32.pow4 (F32.div (F32.of_N (_n_agents l)) (_capacity l))))).
End Link.

(** [class Network]; the bounding box and the unused look-up table of paths
    play no part in the planner. *)
Record Network := mkNetwork {
  _Nodes : StdMap.t Node.t;
  _Links : StdMap.t Link.t;
}.

Definition set_Links (ls : StdMap.t Link.t) (net : Network) : Network :=
  mkNetwork (_Nodes net) ls.
Definition set_Nodes (ns : StdMap.t Node.t) (net : Network) : Network :=
  mkNetwork ns (_Links net).

Abbreviation NM := (ST Network).

(** [_Links.at(id)] *)
Definition links_at (id : string) : NM Link.t := λ net,
  of_res (StdMap.at_ id (_Links net)) net.

(** [_Nodes.at(id)] *)
Definition nodes_at (id : string) : NM Node.t := λ net,
  of_res (StdMap.at_ id (_Nodes net)) net.

(** [_Links[id]]: a missing link is created by [Link()]. *)
Definition links_index (id : string) : NM Link.t := λ net,
  let '(l, ls) := StdMap.index Link.default id (_Links net) in Ok (l, set_Links ls net).

(** [_Links.at(id).set...(v)] *)
Definition links_update (id : string) (f : Link.t → Link.t) : NM unit := λ net,
  match StdMap.at_ id (_Links net) with
  | Ok l => Ok (tt, set_Links (StdMap.put id (f l) (_Links net)) net)
  | Err e => Err e
  end.

Definition incrementAgentOnLink (aLinkId : string) : NM unit :=
  links_update aLinkId Link.increaseAgents.

Definition decrementAgentOnLink (aLinkId : string) : NM unit :=
  links_update aLinkId Link.decrementAgents.

(** [Network::euclidian_distance]: the L1 distance of the saved coordinates,
    computed in [double] and returned as [float]. *)
Definition euclidian_distance (source_id dest_id : string) : NM float :=
  d ← nodes_at dest_id; s ← nodes_at source_id;
  mret (F64.to_f32
          (F64.add (F64.abs (F64.sub (Node._x_data d) (Node._x_data s)))
                   (F64.abs (F64.sub (Node._y_data d) (Node._y_data s))))).

(** The cost of a link: [getFreeFlowTime()] or [getLength()]. *)
Definition link_cost (fastest : bool) (l : Link.t) : float :=
  if fastest then Link._free_flow_time l else Link._length l.

(** *** The planners

    The planners run on the network and on the store of their local heap. *)
Abbreviation PM := (ST (Network * store string float)).

Definition liftN {A} (c : NM A) : PM A := λ '(net, st),
  match c net with Ok (a, net') => Ok (a, (net', st)) | Err e => Err e end.

Definition liftH {A} (c : ST (store string float) A) : PM A := λ '(net, st),
  match c st with Ok (a, st') => Ok (a, (net, st')) | Err e => Err e end.

(** Runs a planner with a heap store of its own. *)
Definition run_planner {A} (c : PM A) : NM A := λ net,
  match c (net, empty_store) with Ok (a, (net', _)) => Ok (a, net') | Err e => Err e end.

(** The reconstruction of the path, shared by the planners:
    [do { result.push_back(prec.at(curr_node));
          curr_node = _Links.at(prec.at(curr_node)).getStartNodeId(); }
     while (curr_node != source_id)] *)
Fixpoint reconstruct (fuel : nat) (prec : StdMap.t string) (source_id curr_node : string)
    (result : list string) : NM (list string) :=
  match fuel with
  | 0 => st_throw OutOfFuel
  | S fuel =>
      l ← of_res (StdMap.at_ curr_node prec);
      let result := result ++ [l] in
      lk ← links_at l;
      let curr_node := Link._start_node_id lk in
      if bool_decide (curr_node ≠ source_id) then reconstruct fuel prec source_id curr_node result
      else mret result
  end.

Definition reconstruct_fuel (net : Network) : nat :=
  S (length (_Nodes net) + length (_Links net)).

Section Dijkstra.
Variable fastest : bool.

(** The local variables of [computePath] that its loops update. *)
Record dstate := mkD {
  d_prec : StdMap.t string;
  d_Q : FibonacciHeap;
  d_Q_nodes : StdMap.t ptr;
  d_Q_marked : list string;
}.

(** [for (itr = _Nodes.begin(); itr != _Nodes.end(); itr++)
       Q_nodes.insert(pair(itr->first, Q.insert(itr->first, FLT_MAX)))] *)
Fixpoint dijkstra_init (nodes : list (string * Node.t)) (Q : FibonacciHeap)
    (Q_nodes : StdMap.t ptr) : PM (FibonacciHeap * StdMap.t ptr) :=
  match nodes with
  | [] => mret (Q, Q_nodes)
  | (id, _) :: nodes =>
      '(p, Q) ← liftH (insert Q id F32.max_value);
      dijkstra_init nodes Q (StdMap.insert id p Q_nodes)
  end.

(** The body of [for (j = 0; j < i->getLinksOutId().size(); j++)]. *)
Fixpoint dijkstra_relax (links_out : list string) (d : float) (st : dstate) : PM dstate :=
  match links_out with
  | [] => mret st
  | lid :: links_out =>
      lk ← liftN (links_index lid);
      let id := Link._end_node_id lk in
      if set_mem id (d_Q_marked st) then dijkstra_relax links_out d st
      else
        match StdMap.find id (d_Q_nodes st) with
        | None => st_throw Undefined   (* Q_nodes[id] is a null pointer *)
        | Some pn =>
            key_j ← liftH (rd myKey pn);
            lk ← liftN (links_index lid);
            let w_ij := F32.add (link_cost fastest lk) d in
            if F32.ltb w_ij key_j then
              Q ← liftH (decreaseKey (d_Q st) pn w_ij);
              dijkstra_relax links_out d
                (mkD (StdMap.put id lid (d_prec st)) Q (d_Q_nodes st) (d_Q_marked st))
            else dijkstra_relax links_out d st
        end
  end.

(** [while (curr_node != dest_id) { ... }] *)
Fixpoint dijkstra_loop (fuel : nat) (dest_id curr_node : string) (st : dstate)
    : PM (string * dstate) :=
  if bool_decide (curr_node ≠ dest_id) then
    match fuel with
    | 0 => st_throw OutOfFuel
    | S fuel =>
        m ← liftH (minimum (d_Q st));
        curr_node ← liftH (rd myData m);
        m ← liftH (minimum (d_Q st));
        d ← liftH (rd myKey m);
        i ← liftN (nodes_at curr_node);
        let st := mkD (d_prec st) (d_Q st) (d_Q_nodes st) (curr_node :: d_Q_marked st) in
        st ← dijkstra_relax (Node._links_out_id i) d st;
        Q ← liftH (deletemin (d_Q st));
        dijkstra_loop fuel dest_id curr_node
          (mkD (d_prec st) Q (d_Q_nodes st) (d_Q_marked st))
    end
  else mret (curr_node, st).

(** [Network::computePath(source_id, dest_id, fastest)] *)
Definition computePath (source_id dest_id : string) : NM (list string) :=
  net ← st_get;
  '(curr_node, st) ← run_planner (
    '(Q, Q_nodes) ← dijkstra_init (_Nodes net) new_heap [];
    '(p, Q) ← liftH (insert Q source_id F32.zero);
    let Q_nodes := StdMap.put source_id p Q_nodes in
    dijkstra_loop (S (S (length (_Nodes net)))) dest_id source_id
      (mkD [] Q Q_nodes [source_id]));
  net ← st_get;
  reconstruct (reconstruct_fuel net) (d_prec st) source_id curr_node [].
End Dijkstra.

Section AStar.
Variable fastest : bool.

(** The local variables of [computePathAStar] that its loops update. *)
Record astate := mkA {
  a_prec : StdMap.t string;
  a_Q_open : FibonacciHeap;
  a_Q_nodes : StdMap.t ptr;
  a_Q_closed : list string;
  a_g_score : StdMap.t float;
}.

(** The body of [for (j = 0; j < i->getLinksOutId().size(); j++)]. *)
Fixpoint astar_relax (links_out : list string) (dest_id : string) (d : float)
    (st : astate) : PM astate :=
  match links_out with
  | [] => mret st
  | lid :: links_out =>
      lk ← liftN (links_index lid);
      let id := Link._end_node_id lk in
      if set_mem id (a_Q_closed st) then astar_relax links_out dest_id d st
      else
        lk ← liftN (links_index lid);
        let w_ij := F32.add (link_cost fastest lk) d in
        (* Q_nodes.count(id) == 0 || w_ij < g_score[id] *)
        let '(better, g_score) :=
          match StdMap.find id (a_Q_nodes st) with
          | None => (true, a_g_score st)
          | Some _ =>
              let '(g, g_score) := StdMap.index F32.zero id (a_g_score st) in
              (F32.ltb w_ij g, g_score)
          end in
        if better then
          let prec := StdMap.put id lid (a_prec st) in
          let g_score := StdMap.put id w_ij g_score in
          h ← liftN (euclidian_distance id dest_id);
          let f_score := F32.add w_ij h in
          match StdMap.find id (a_Q_nodes st) with
          | Some pn =>
              Q ← liftH (decreaseKey (a_Q_open st) pn f_score);
              astar_relax links_out dest_id d
                (mkA prec Q (a_Q_nodes st) (a_Q_closed st) g_score)
          | None =>
              '(pn, Q) ← liftH (insert (a_Q_open st) id f_score);
              astar_relax links_out dest_id d
                (mkA prec Q (StdMap.put id pn (a_Q_nodes st)) (a_Q_closed st) g_score)
          end
        else
          astar_relax links_out dest_id d
            (mkA (a_prec st) (a_Q_open st) (a_Q_nodes st) (a_Q_closed st) g_score)
  end.

(** [while (curr_node != dest_id) { ... }] *)
Fixpoint astar_loop (fuel : nat) (dest_id curr_node : string) (st : astate)
    : PM (string * astate) :=
  if bool_decide (curr_node ≠ dest_id) then
    match fuel with
    | 0 => st_throw OutOfFuel
    | S fuel =>
        m ← liftH (minimum (a_Q_open st));
        curr_node ← liftH (rd myData m);
        i ← liftN (nodes_at curr_node);
        let Q_closed := curr_node :: a_Q_closed st in
        let '(d, g_score) := StdMap.index F32.zero curr_node (a_g_score st) in
        Q ← liftH (deletemin (a_Q_open st));
        st ← astar_relax (Node._links_out_id i) dest_id d
               (mkA (a_prec st) Q (a_Q_nodes st) Q_closed g_score);
        astar_loop fuel dest_id curr_node st
    end
  else mret (curr_node, st).

(** [Network::computePathAStar(source_id, dest_id, fastest)] *)
Definition computePathAStar (source_id dest_id : string) : NM (list string) :=
  if bool_decide (source_id = dest_id) then mret []
  else
    net ← st_get;
    '(curr_node, st) ← run_planner (
      h ← liftN (euclidian_distance source_id dest_id);
      '(p, Q) ← liftH (insert new_heap source_id h);
      astar_loop (S (length (_Nodes net))) dest_id source_id
        (mkA [] Q (StdMap.put source_id p []) [] (StdMap.put source_id F32.zero [])));
    net ← st_get;
    reconstruct (reconstruct_fuel net) (a_prec st) source_id curr_node [].

(** [Network::computePath(source_id, dest_id, link_id_to_avoid, fastest)] *)
Definition computePath_avoid (source_id dest_id link_id_to_avoid : string)
    : NM (list string) :=
  l ← links_at link_id_to_avoid;
  let init_data_link := link_cost fastest l in
  let inflated := F32.mul F32.max_value F32.half in
  (if fastest
   then links_update link_id_to_avoid (Link.setFreeFlowTime inflated)
   else links_update link_id_to_avoid (Link.setLength inflated));;
  result ← computePathAStar source_id dest_id;
  (if fastest
   then links_update link_id_to_avoid (Link.setFreeFlowTime init_data_link)
   else links_update link_id_to_avoid (Link.setLength init_data_link));;
  mret result.
End AStar.

(** The total cost of a path on a network. *)
Fixpoint path_cost (fastest : bool) (net : Network) (path : list string) : res float :=
  match path with
  | [] => Ok F32.zero
  | l :: path =>
      match StdMap.at_ l (_Links net), path_cost fastest net path with
      | Ok lk, Ok c => Ok (F32.add (link_cost fastest lk) c)
      | Err e, _ | _, Err e => Err e
      end
  end.

(** [Network::shuffleNodesCoordinates]: the loop over [_Nodes] in key order,
    with the counter [cur_node]; [n_proc] is [worldSize()]. The generator
    [Ranq1 rnd(0)] is constructed and never drawn from. *)
Fixpoint shuffle_loop (n_proc cur_node : Z) (nodes : StdMap.t Node.t) : StdMap.t Node.t :=
  match nodes with
  | [] => []
  | (k, n) :: nodes =>
      let n := Node.setXData (Node._x n) n in
      let n := Node.setYData (Node._y n) n in
      let node_proc := SInt.rem cur_node n_proc in
      let x := F64.add (F64.of_Z node_proc) F64.half in
      let y := F64.half in
      let cur_node := SInt.incr cur_node in
      let n := Node.setX x n in
      let n := Node.setY y n in
      (k, n) :: shuffle_loop n_proc cur_node nodes
  end.

(** [cur_node % n_proc] is undefined for [n_proc = 0]. *)
Definition shuffleNodesCoordinates (n_proc : Z) : NM unit := λ net,
  if bool_decide (n_proc = 0%Z ∧ _Nodes net ≠ []) then Err Undefined
  else Ok (tt, set_Nodes (shuffle_loop n_proc 0 (_Nodes net)) net).

(** ** src/Strategy.cpp, include/Trip.hpp, src/Individual.cpp *)

Module Strategy.
Record t := mk {
  _sin_alpha : float;
  _cos_alpha : float;
  _theta : float;
  _optimized : bool;
}.
(** [Strategy()] *)
Definition default : t := mk F32.zero F32.zero F32.zero false.
(** [Strategy(alpha, theta)], given [(float)sin(alpha)] and [(float)cos(alpha)] *)
Definition make (sin_alpha cos_alpha theta : float) : t := mk sin_alpha cos_alpha theta true.

(** [(x1 * _cos_alpha + x2 * _sin_alpha) - _theta > 0.0f] *)
Definition computeStrategy (s : t) (x1 x2 : float) : bool :=
  F32.gtb (F32.sub (F32.add (F32.mul x1 (_cos_alpha s)) (F32.mul x2 (_sin_alpha s)))
                   (_theta s))
          F32.zero.
End Strategy.

Module Trip.
Record t := mk {
  _id_origin : string;
  _id_destination : string;
  _starting_time : float;
}.
End Trip.

Module Individual.
(** [class Individual]: the fields its constructors initialise. Link ids
    hold no NUL character, so [_cur_link.c_str()] names the same link as
    [_cur_link]. *)
Record t := mk {
  _id : Z;
  _trips : list Trip.t;
  _x : float;
  _y : float;
  _remaining_time : float;
  _strategy : Strategy.t;
  _path : list string;
  _en_route : bool;
  _at_node : bool;
  _cur_link : string;
  _size : Z;
  _cur_trip_duration_theo : float;
  _n_path_performed : Z;
  _n_link_in_path : Z;
}.

Definition setTrips v a := mk (_id a) v (_x a) (_y a) (_remaining_time a) (_strategy a)
  (_path a) (_en_route a) (_at_node a) (_cur_link a) (_size a)
  (_cur_trip_duration_theo a) (_n_path_performed a) (_n_link_in_path a).
Definition setX v a := mk (_id a) (_trips a) v (_y a) (_remaining_time a) (_strategy a)
  (_path a) (_en_route a) (_at_node a) (_cur_link a) (_size a)
  (_cur_trip_duration_theo a) (_n_path_performed a) (_n_link_in_path a).
Definition setY v a := mk (_id a) (_trips a) (_x a) v (_remaining_time a) (_strategy a)
  (_path a) (_en_route a) (_at_node a) (_cur_link a) (_size a)
  (_cur_trip_duration_theo a) (_n_path_performed a) (_n_link_in_path a).
Definition setRemainingTime v a := mk (_id a) (_trips a) (_x a) (_y a) v (_strategy a)
  (_path a) (_en_route a) (_at_node a) (_cur_link a) (_size a)
  (_cur_trip_duration_theo a) (_n_path_performed a) (_n_link_in_path a).
Definition setPath v a := mk (_id a) (_trips a) (_x a) (_y a) (_remaining_time a)
  (_strategy a) v (_en_route a) (_at_node a) (_cur_link a) (_size a)
  (_cur_trip_duration_theo a) (_n_path_performed a) (_n_link_in_path a).
Definition setEnRoute v a := mk (_id a) (_trips a) (_x a) (_y a) (_remaining_time a)
  (_strategy a) (_path a) v (_at_node a) (_cur_link a) (_size a)
  (_cur_trip_duration_theo a) (_n_path_performed a) (_n_link_in_path a).
Definition setAtNode v a := mk (_id a) (_trips a) (_x a) (_y a) (_remaining_time a)
  (_strategy a) (_path a) (_en_route a) v (_cur_link a) (_size a)
  (_cur_trip_duration_theo a) (_n_path_performed a) (_n_link_in_path a).
Definition setCurLink v a := mk (_id a) (_trips a) (_x a) (_y a) (_remaining_time a)
  (_strategy a) (_path a) (_en_route a) (_at_node a) v (_size a)
  (_cur_trip_duration_theo a) (_n_path_performed a) (_n_link_in_path a).
Definition setCurTripDurationTheo v a := mk (_id a) (_trips a) (_x a) (_y a)
  (_remaining_time a) (_strategy a) (_path a) (_en_route a) (_at_node a) (_cur_link a)
  (_size a) v (_n_path_performed a) (_n_link_in_path a).
Definition setNPathPerformed v a := mk (_id a) (_trips a) (_x a) (_y a)
  (_remaining_time a) (_strategy a) (_path a) (_en_route a) (_at_node a) (_cur_link a)
  (_size a) (_cur_trip_duration_theo a) v (_n_link_in_path a).
Definition setNLinkInPath v a := mk (_id a) (_trips a) (_x a) (_y a)
  (_remaining_time a) (_strategy a) (_path a) (_en_route a) (_at_node a) (_cur_link a)
  (_size a) (_cur_trip_duration_theo a) (_n_path_performed a) v.

(** [v.back()] and [v.pop_back()]: the path is stored in reverse, the next
    link is its last element; both are undefined on an empty vector. *)
Definition back {A} (v : list A) : res A :=
  match last v with Some x => Ok x | None => Err Undefined end.
Definition pop_back {A} (v : list A) : list A := removelast v.
(** [v.front()] *)
Definition front {A} (v : list A) : res A :=
  match v with x :: _ => Ok x | [] => Err Undefined end.

Definition getNextLinkAndRemove (a : t) : res (string * t) :=
  link ← back (_path a);
  let a := setPath (pop_back (_path a)) a in
  let a := setNLinkInPath (SInt.incr (_n_link_in_path a)) a in
  mret (link, a).

(** The two inputs of the strategy computed by [isRerouting]. *)
Definition rerouting_x1 (a : t) (simulation_time : float) : res float :=
  if F32.gtb (_cur_trip_duration_theo a) F32.zero then
    tr ← front (_trips a);
    mret (F32.div (F32.sub simulation_time (Trip._starting_time tr))
                  (_cur_trip_duration_theo a))
  else mret F32.zero.

(** [getNAgents() / getCapacity()] of the link [_cur_link] *)
Definition rerouting_x2 (l : Link.t) : float :=
  F32.div (F32.of_N (Link._n_agents l)) (Link._capacity l).

Definition isRerouting (a : t) (simulation_time : float) : NM bool :=
  x1 ← of_res (rerouting_x1 a simulation_time);
  l ← links_at (_cur_link a);
  let x2 := rerouting_x2 l in
  if F32.gtb x2 F32.zero then mret (Strategy.computeStrategy (_strategy a) x1 x2)
  else mret false.

Definition setNextTrip (a : t) (time : float) : NM t :=
  match _trips a with
  | [] => st_throw Undefined          (* erase(begin()) of an empty vector *)
  | _ :: trips =>
      let a := setTrips trips a in
      tr ← of_res (front trips);
      let origin_node_id := Trip._id_origin tr in
      let destination_node_id := Trip._id_destination tr in
      path ← computePath true origin_node_id destination_node_id;
      let a := setPath path a in
      o ← nodes_at origin_node_id;
      let a := setX (F64.to_f32 (Node._x o)) a in
      o ← nodes_at origin_node_id;
      let a := setY (F64.to_f32 (Node._y o)) a in
      let a := setEnRoute false a in
      let a := setAtNode true a in
      let a := setCurTripDurationTheo F32.zero a in
      let a := setRemainingTime
                 (F32.max (F32.sub (Trip._starting_time tr) time) F32.zero) a in
      let a := setNPathPerformed (SInt.incr (_n_path_performed a)) a in
      mret (setNLinkInPath 0 a)
  end.

Definition decreaseRemainingTime (time : float) (a : t) : t :=
  setRemainingTime (F32.max (F32.sub (_remaining_time a) time) F32.zero) a.

Definition increaseTripDurationTheo (time : float) (a : t) : t :=
  setCurTripDurationTheo (F32.add (_cur_trip_duration_theo a) time) a.
End Individual.

(** ** src/Model.cpp: the agent loop of [Model::step]

    The state holds what the loop reads and what the claims are about.
    The output files, the per-link recordings of the time series, the
    continuous space and the map of agents to migrate are written by the
    loop and never read by it; they are left out. *)

Record Model := mkModel {
  _network : Network;
  _time : float;
  _time_tolerance : float;
  _total_agents : Z;
  _total_moving_agents : Z;
  _total_trips_performed : Z;
  _total_rerouting : Z;
  _trips_starting_time : list float;
  _map_agent_fitness : gmap Z float;
  agents : list Individual.t;
}.

Definition set_network v m := mkModel v (_time m) (_time_tolerance m) (_total_agents m)
  (_total_moving_agents m) (_total_trips_performed m) (_total_rerouting m)
  (_trips_starting_time m) (_map_agent_fitness m) (agents m).
Definition set_time v m := mkModel (_network m) v (_time_tolerance m) (_total_agents m)
  (_total_moving_agents m) (_total_trips_performed m) (_total_rerouting m)
  (_trips_starting_time m) (_map_agent_fitness m) (agents m).
Definition set_total_agents v m := mkModel (_network m) (_time m) (_time_tolerance m) v
  (_total_moving_agents m) (_total_trips_performed m) (_total_rerouting m)
  (_trips_starting_time m) (_map_agent_fitness m) (agents m).
Definition set_total_moving_agents v m := mkModel (_network m) (_time m)
  (_time_tolerance m) (_total_agents m) v (_total_trips_performed m) (_total_rerouting m)
  (_trips_starting_time m) (_map_agent_fitness m) (agents m).
Definition set_total_trips_performed v m := mkModel (_network m) (_time m)
  (_time_tolerance m) (_total_agents m) (_total_moving_agents m) v (_total_rerouting m)
  (_trips_starting_time m) (_map_agent_fitness m) (agents m).
Definition set_total_rerouting v m := mkModel (_network m) (_time m)
  (_time_tolerance m) (_total_agents m) (_total_moving_agents m)
  (_total_trips_performed m) v (_trips_starting_time m) (_map_agent_fitness m) (agents m).
Definition set_trips_starting_time v m := mkModel (_network m) (_time m)
  (_time_tolerance m) (_total_agents m) (_total_moving_agents m)
  (_total_trips_performed m) (_total_rerouting m) v (_map_agent_fitness m) (agents m).
Definition set_map_agent_fitness v m := mkModel (_network m) (_time m)
  (_time_tolerance m) (_total_agents m) (_total_moving_agents m)
  (_total_trips_performed m) (_total_rerouting m) (_trips_starting_time m) v (agents m).
Definition set_agents v m := mkModel (_network m) (_time m)
  (_time_tolerance m) (_total_agents m) (_total_moving_agents m)
  (_total_trips_performed m) (_total_rerouting m) (_trips_starting_time m)
  (_map_agent_fitness m) v.

Abbreviation MM := (ST Model).

(** A call on [_network]. *)
Definition on_network {A} (c : NM A) : MM A := λ m,
  match c (_network m) with
  | Ok (a, net) => Ok (a, set_network net m)
  | Err e => Err e
  end.

Definition modify (f : Model → Model) : MM unit := λ m, Ok (tt, f m).

(** [AggregateSum::incrementData] and [decrementData] on an [int]. *)
Definition incrementData (x : Z) : Z := SInt.wrap (x + 1).
Definition decrementData (x : Z) : Z := SInt.wrap (x - 1).

Import Individual.

(** The strategy part of the depart-node transition:
    [if (getStrategy().isOptimized() == true && isRerouting(_network, _time) == true) { ... }];
    [reroute_decision] is the condition, and the result of [reroute] is the
    agent and [id_next_link]. *)
Definition reroute_decision (a : Individual.t) : MM bool :=
  m ← st_get;
  if Strategy._optimized (_strategy a)
  then on_network (isRerouting a (_time m)) else mret false.

Definition reroute (a : Individual.t) (id_next_link : string) : MM (Individual.t * string) :=
  decision ← reroute_decision a;
  if (decision : bool) then
    modify (λ m, set_total_rerouting (incrementData (_total_rerouting m)) m);;
    l ← on_network (links_at (_cur_link a));
    let cur_node_id := Link._start_node_id l in
    n ← on_network (nodes_at cur_node_id);
    if bool_decide (1 < length (Node._links_out_id n)) then
      tr ← of_res (front (_trips a));
      let dest_node_id := Trip._id_destination tr in
      new_path ← on_network (computePath_avoid true cur_node_id dest_node_id id_next_link);
      let a := setPath new_path a in
      '(id_next_link, a) ← of_res (getNextLinkAndRemove a);
      mret (setCurLink id_next_link a, id_next_link)
    else mret (a, id_next_link)
  else mret (a, id_next_link).

(** The end of the depart-node transition: the theoretical duration, the
    time on the link and the count of agents of the link. *)
Definition enter_link (a : Individual.t) (id_next_link : string) : MM Individual.t :=
  l ← on_network (links_at id_next_link);
  let a := increaseTripDurationTheo (Link._free_flow_time l) a in
  l ← on_network (links_at id_next_link);
  let a := setRemainingTime (Link.timeOnLink l) a in
  on_network (incrementAgentOnLink id_next_link);;
  mret a.

(** The agent is at a node: it departs on its next link. *)
Definition depart_node (a : Individual.t) : MM Individual.t :=
  a ← (if negb (_en_route a) then
         m ← st_get;
         modify (λ m, set_total_moving_agents (incrementData (_total_moving_agents m)) m);;
         modify (set_trips_starting_time (_trips_starting_time m ++ [_time m]));;
         mret (setEnRoute true a)
       else mret a);
  let a := setAtNode false a in
  '(id_next_link, a) ← of_res (getNextLinkAndRemove a);
  let a := setCurLink id_next_link a in
  '(a, id_next_link) ← reroute a id_next_link;
  enter_link a id_next_link.

(** The agent was on a link: it reaches the next node or ends its trip;
    the flag tells whether the agent is to be removed. *)
Definition arrive_node (a : Individual.t) : MM (Individual.t * bool) :=
  if bool_decide (0 < length (_path a)) then
    let id_prev_link := _cur_link a in
    on_network (decrementAgentOnLink id_prev_link);;
    l ← on_network (links_at id_prev_link);
    newNode ← on_network (nodes_at (Link._end_node_id l));
    let a := setX (F64.to_f32 (Node._x newNode)) a in
    let a := setY (F64.to_f32 (Node._y newNode)) a in
    mret (setAtNode true a, false)
  else
    m ← st_get;
    tr ← of_res (front (_trips a));
    let start_time_trip := Trip._starting_time tr in
    let trip_duration_teo := _cur_trip_duration_theo a in
    let trip_duration_sim := F32.sub (_time m) start_time_trip in
    let fitness := F32.div trip_duration_teo trip_duration_sim in
    modify (λ m, set_map_agent_fitness
      (match _map_agent_fitness m !! _id a with
       | None => <[_id a := fitness]> (_map_agent_fitness m)
       | Some old => <[_id a := F32.mul (F32.add old fitness) F32.half]> (_map_agent_fitness m)
       end) m);;
    modify (λ m, set_total_trips_performed (incrementData (_total_trips_performed m)) m);;
    modify (λ m, set_total_moving_agents (decrementData (_total_moving_agents m)) m);;
    on_network (decrementAgentOnLink (_cur_link a));;
    if bool_decide (1 < length (_trips a)) then
      m ← st_get;
      a ← on_network (setNextTrip a (_time m));
      mret (a, false)
    else mret (a, true).

(** One turn of the main loop for the agent [a]. *)
Definition agent_turn (global_remaining_time : float) (a : Individual.t)
    : MM (Individual.t * bool) :=
  let a := decreaseRemainingTime global_remaining_time a in
  m ← st_get;
  if F32.leb (_remaining_time a) (_time_tolerance m) then
    if _at_node a then a ← depart_node a; mret (a, false)
    else arrive_node a
  else mret (a, false).

(** [while (it_cur != agents->localEnd()) { ... }]: the agents that stay,
    in the order of the iteration. *)
Fixpoint agents_loop (global_remaining_time : float) (todo : list Individual.t)
    : MM (list Individual.t) :=
  match todo with
  | [] => mret []
  | a :: todo =>
      '(a, remove_agent) ← agent_turn global_remaining_time a;
      rest ← agents_loop global_remaining_time todo;
      mret (if (remove_agent : bool) then rest else a :: rest)
  end.

(** [Model::step] on a single worker. *)
Definition step : MM unit :=
  let global_remaining_time := F32.one in
  modify (λ m, set_time (F32.add (_time m) F32.one) m);;
  m ← st_get;
  kept ← agents_loop global_remaining_time (agents m);
  modify (set_agents kept);;
  modify (set_total_agents (SInt.wrap (Z.of_nat (length kept)))).

(** ** Small worlds used as concrete inputs *)

Module Examples.
Definition dbl (z : Z) : double := F64.of_Z z.
Definition flt (z : Z) : float := F32.of_Z z.

Definition node (id : string) (x y : Z) (outs : list string) : string * Node.t :=
  (id, Node.mk id (dbl x) (dbl y) outs (dbl x) (dbl y)).

(** A link whose free-flow time equals its length (free-flow speed 1). *)
Definition link (id s e : string) (len : Z) (n_agents : N) (capacity : Z) : string * Link.t :=
  (id, Link.mk id s e (flt len) n_agents (flt len) (flt capacity) (dbl 0) (dbl 0)).

(** One road from A to B, of free-flow time 10 and capacity 1, carrying
    [n] agents. *)
Definition road (n : N) : Network :=
  mkNetwork [node "A" 0 0 ["AB"]; node "B" 10 0 []]
            [link "AB" "A" "B" 10 n 1].

(** An agent waiting at A for its trip to B, with the strategy [s]. *)
Definition waiting (s : Strategy.t) : Individual.t :=
  Individual.mk 1 [Trip.mk "A" "B" F32.zero] F32.zero F32.zero F32.zero s
    ["AB"] false true "" 1 F32.zero 1 0.

Definition world (net : Network) (ags : list Individual.t) : Model :=
  mkModel net F32.zero (flt 0) (Z.of_nat (length ags)) 0 0 0 [] ∅ ags.

(** The strategy with alpha = pi/2 and theta = 0: sin = 1, cos = 0. *)
Definition eager : Strategy.t := Strategy.make (flt 1) (flt 0) (flt 0).

(** Three nodes: the road S -> D of length 13 and the roads S -> A -> D of
    lengths 2 and 10, with S = (0,-2), A = (0,0), D = (6,8); every length
    is at least the straight-line distance of its end points. *)
Definition triangle : Network :=
  mkNetwork [node "A" 0 0 ["AD"]; node "D" 6 8 []; node "S" 0 (-2) ["SA"; "SD"]]
            [link "AD" "A" "D" 10 0 1000; link "SA" "S" "A" 2 0 1000;
             link "SD" "S" "D" 13 0 1000].
End Examples.

(** ** Notions the claims are stated with *)

(** The reroute that actually occurs, that is the
    replacement of the planned path, which takes a true decision at a node
    with more than one outgoing link. *)
Definition path_is_replaced (a : Individual.t) (m : Model) : Prop :=
  reroute_decision a m = Ok (true, m) ∧
  ∃ l n, StdMap.find (_cur_link a) (_Links (_network m)) = Some l ∧
    StdMap.find (Link._start_node_id l) (_Nodes (_network m)) = Some n ∧
    1 < length (Node._links_out_id n).

(** An eager agent at A on the road from A to B, which three other agents
    are on: the decision is true and A has a single outgoing link. *)
Definition eager_at_A : Individual.t :=
  setCurLink "AB" (Examples.waiting Examples.eager).

(** The keys of a [std::map] are in strictly increasing order. *)
Definition str_lt (k k' : string) : Prop := String.compare k k' = Lt.

Fixpoint sorted_map {T} (m : StdMap.t T) : Prop :=
  match m with
  | [] => True
  | (k, _) :: m' => Forall (str_lt k) (StdMap.keys m') ∧ sorted_map m'
  end.

(** What a planner may do to the links: each link is as it was, or it was
    missing and [_Links[id]] has created it by [Link()]. *)
Definition links_ext (ls ls' : StdMap.t Link.t) : Prop :=
  ∀ k, StdMap.find k ls' = StdMap.find k ls ∨
       (StdMap.find k ls = None ∧ StdMap.find k ls' = Some Link.default).

Definition net_ext (net net' : Network) : Prop :=
  _Nodes net' = _Nodes net ∧
  links_ext (_Links net) (_Links net') ∧
  (sorted_map (_Links net) → sorted_map (_Links net')).

(** Every link a node lists as outgoing is in the network. *)
Definition links_out_known (net : Network) : Prop :=
  ∀ k n l, StdMap.find k (_Nodes net) = Some n → l ∈ Node._links_out_id n →
    is_Some (StdMap.find l (_Links net)).

(** A computation of a planner that extends the network. *)
Definition pm_frame {A} (c : PM A) : Prop :=
  ∀ net st a net' st', c (net, st) = Ok (a, (net', st')) → net_ext net net'.

(** The link with its cost set to half of the largest [float]. *)
Definition inflate (fastest : bool) (l : Link.t) : Link.t :=
  if fastest then Link.setFreeFlowTime (F32.mul F32.max_value F32.half) l
  else Link.setLength (F32.mul F32.max_value F32.half) l.

(** The agent is on the link [k]: it is not at a node and [k] is its
    current link. *)
Definition on_link (k : string) (a : Individual.t) : bool :=
  negb (_at_node a) && bool_decide (_cur_link a = k).

(** The number of agents on the link [k]. *)
Definition count_on (k : string) (ags : list Individual.t) : nat :=
  sum_list_with (λ a, if on_link k a then 1 else 0) ags.

(** The occupancy of the link [k]; a link that is not in the network has
    none. *)
Definition occupancy (net : Network) (k : string) : nat :=
  match StdMap.find k (_Links net) with
  | Some l => N.to_nat (Link._n_agents l)
  | None => 0
  end.

(** The sum over all links of their occupancy. *)
Definition total_occupancy (net : Network) : nat :=
  sum_list_with (λ kl, N.to_nat (Link._n_agents kl.2)) (_Links net).

(** The number of agents with [en_route] true and [at_node] false. *)
Definition travelling (ags : list Individual.t) : nat :=
  sum_list_with (λ a, if _en_route a && negb (_at_node a) then 1 else 0) ags.

(** The invariants of the agents of a worker and of its links: the links
    are a [std::map]; the occupancy of every link is the number of agents on
    it (invariants 3 and 4 of the data model); an agent that is not at a
    node is en route (the three states of the agent state machine); and the
    agents are few enough for an [unsigned int] to count them. *)
Definition agents_inv (net : Network) (ags : list Individual.t) : Prop :=
  sorted_map (_Links net) ∧
  (∀ k, occupancy net k = count_on k ags) ∧
  (∀ a, a ∈ ags → _at_node a = false → _en_route a = true) ∧
  (N.of_nat (length ags) < UInt.modulus)%N.

(** ** The shape of the Fibonacci heap in the store *)

(** *** Circular doubly linked lists

    [N] and [P] are the [next] and [previous] fields of a store, as partial
    functions. *)
Section Rings.
Variables (N P : ptr → option ptr).

(** [b] follows [a]. *)
Definition adj (a b : ptr) : Prop := N a = Some b ∧ P b = Some a.

(** Each element of the list is followed by the next one. *)
Fixpoint path (l : list ptr) : Prop :=
  match l with
  | [] => True
  | a :: l' => match l' with [] => True | b :: _ => adj a b ∧ path l' end
  end.

(** The list is a circular list: its elements are distinct, each is
    followed by the next one and the last one by the first one. *)
Definition cyc (l : list ptr) : Prop :=
  NoDup l ∧ path l ∧ ∃ a b, last l = Some a ∧ head l = Some b ∧ adj a b.

(** The elements of the list form a circular list, in some order. *)
Definition ring (l : list ptr) : Prop := ∃ l', l' ≡ₚ l ∧ cyc l'.
End Rings.

(** *** The fields of the nodes of a store *)

Section StoreViews.
Context {Data Key : Type}.
Implicit Types (s : store Data Key).

(** The field [f] of the node at [p], when it is allocated. *)
Definition fld {A} (f : FibonacciHeapNode Data Key → A) s (p : ptr) : option A :=
  f <$> cells s !! p.

(** The store with the node at [p] changed by [u]. *)
Definition upd (u : FibonacciHeapNode Data Key → FibonacciHeapNode Data Key) (p : ptr) s
    : store Data Key :=
  mkStore (alter u p (cells s)) (fresh s).

(** The field [f] is the same in both stores. *)
Definition same {A} (f : FibonacciHeapNode Data Key → A) s s' : Prop :=
  ∀ p, fld f s' p = fld f s p.

Definition same_payload s s' : Prop :=
  fresh s' = fresh s ∧ same myKey s s' ∧ same myData s s'.

Definition same_tree s s' : Prop :=
  same parent s s' ∧ same child s s' ∧ same degree s s' ∧ same mark s s'.
End StoreViews.

(** *** The forest of a heap

    The keys are totally preordered by [operator<=], and the other
    comparisons are the ones it induces. *)
Class KeyTotal (K : Type) `{KeyOps K} : Prop := {
  key_le_total a b : key_le a b = true ∨ key_le b a = true;
  key_le_trans a b c : key_le a b = true → key_le b c = true → key_le a c = true;
  key_lt_le a b : key_lt a b = negb (key_le b a);
  key_gt_le a b : key_gt a b = negb (key_le a b);
  key_ge_le a b : key_ge a b = key_le b a;
}.

(** The structure that the pointers of the nodes of a heap draw: the nodes
    that have no parent, the children of each node in the order in which
    they became its children, and all the nodes. *)
Record forest := mkForest {
  f_tops : list ptr;
  f_kids : ptr → list ptr;
  f_live : list ptr;
}.

(** The children lists of a forest, changed at one node. *)
Definition set_kids (f : ptr → list ptr) (p : ptr) (l : list ptr) : ptr → list ptr :=
  fun q => if decide (q = p) then l else f q.

Section Forest.
Context {Data Key : Type} `{KeyOps Key}.
Implicit Types (s : store Data Key) (G : forest) (p q : ptr).

(** The key of [p] is at most the key of [q]. *)
Definition kle s p q : Prop :=
  ∃ kp kq, fld myKey s p = Some kp ∧ fld myKey s q = Some kq ∧ key_le kp kq = true.

(** The store holds the forest [G]. The node [ex], if any, is exempted from
    the order of the keys and from the bound on the number of children: its
    key has been decreased or it has lost a second child, and it is about to
    be cut from its parent. *)
Record wf s G (ex : option ptr) : Prop := mkWf {
  wf_small : (N.of_nat (length (f_live G)) < UInt.modulus)%N;
  wf_live_nodup : NoDup (f_live G);
  wf_tops_nodup : NoDup (f_tops G);
  wf_tops_live : ∀ p, p ∈ f_tops G → p ∈ f_live G;
  wf_kids_nodup : ∀ q, q ∈ f_live G → NoDup (f_kids G q);
  wf_kids_live : ∀ q c, q ∈ f_live G → c ∈ f_kids G q → c ∈ f_live G;
  wf_cover : ∀ p, p ∈ f_live G →
    p ∈ f_tops G ∨ ∃ q, q ∈ f_live G ∧ p ∈ f_kids G q;
  wf_alloc : ∀ p, p ∈ f_live G → is_Some (cells s !! p) ∧ p < fresh s;
  wf_parent_top : ∀ p, p ∈ f_tops G → fld parent s p = Some None;
  wf_parent_kid : ∀ q c, q ∈ f_live G → c ∈ f_kids G q → fld parent s c = Some (Some q);
  wf_child : ∀ p, p ∈ f_live G →
    match fld child s p with
    | Some None => f_kids G p = []
    | Some (Some c) => c ∈ f_kids G p
    | None => False
    end;
  wf_degree : ∀ p, p ∈ f_live G → fld degree s p = Some (N.of_nat (length (f_kids G p)));
  wf_order : ∀ q c, q ∈ f_live G → c ∈ f_kids G q → Some c ≠ ex → kle s q c;
  wf_ring_kids : ∀ q, q ∈ f_live G → f_kids G q ≠ [] →
    ring (fld next s) (fld previous s) (f_kids G q);
  wf_rank : ∃ rk : ptr → nat, ∀ q c, q ∈ f_live G → c ∈ f_kids G q → rk c < rk q;
  wf_fib : ∀ q i c, q ∈ f_live G → f_kids G q !! i = Some c → Some c ≠ ex →
    ∃ mk : bool, fld mark s c = Some mk ∧
      i ≤ length (f_kids G c) + (if mk then 1 else 0);
}.

(** [root] is a node of the list [l] with a least key. *)
Definition min_root s (root : option ptr) (l : list ptr) : Prop :=
  match root with
  | None => l = []
  | Some r => r ∈ l ∧ ∀ x, x ∈ l → kle s r x
  end.

(** No node of a forest of fewer than [2^32] nodes has this many
    children. *)
Definition degree_bound : nat := 46.

(** The heap [h] is the forest [G] in the store: the nodes without parent
    are the circular list of roots, the root the heap points to has a least
    key among them, and the heap counts the nodes. *)
Record heap_inv s (h : FibonacciHeap) G : Prop := mkHeapInv {
  hi_wf : wf s G None;
  hi_ring : f_tops G ≠ [] → ring (fld next s) (fld previous s) (f_tops G);
  hi_root : min_root s (rootWithMinKey h) (f_tops G);
  hi_count : count h = N.of_nat (length (f_live G));
  hi_maxDegree : N.to_nat (maxDegree h) < degree_bound;
}.

(** The items of the heap: the data and the key of each node. *)
Definition item_of s p : option (Data * Key) :=
  d ← fld myData s p; k ← fld myKey s p; Some (d, k).
End Forest.

(** *** The number of children of a node

    A tree whose root has [d] children has at least [fib_size d] nodes, a
    Fibonacci number. *)
Fixpoint fib_pair (d : nat) : N * N :=
  match d with
  | 0 => (1, 2)%N
  | S d => let '(a, b) := fib_pair d in (b, (a + b)%N)
  end.

Definition fib_size (d : nat) : N := fst (fib_pair d).

(** The nodes of the tree of [p], down to the depth [n]. *)
Fixpoint desc (kids : ptr → list ptr) (n : nat) (p : ptr) : list ptr :=
  match n with
  | 0 => [p]
  | S n => p :: (kids p ≫= desc kids n)
  end.

(** The [k]-th ancestor of a node. *)
Fixpoint up (par : ptr → option (option ptr)) (k : nat) (y : ptr) : option ptr :=
  match k with
  | 0 => Some y
  | S k => match par y with Some (Some q) => up par k q | _ => None end
  end.

(** The sum of the least sizes of the trees of the children. *)
Fixpoint sum_fib (d : nat) : N :=
  match d with
  | 0 => 0
  | S d => sum_fib d + fib_size (d - 1)
  end.


(** *** Notions of the proofs of the operations *)

Section Moves.
Context {Data Key : Type} `{KeyOps Key}.
Implicit Types (s : store Data Key) (G : forest) (p q : ptr).

(** What is known of a node that has lost a child and is not yet marked
    or cut. *)
Definition lost_child s G q : Prop :=
  ∀ pp i, pp ∈ f_live G → f_kids G pp !! i = Some q →
    kle s pp q ∧
    ∃ mk : bool, fld mark s q = Some mk ∧
      i ≤ S (length (f_kids G q)) + (if mk then 1 else 0).


(** The parents of the nodes of a list are cleared. *)
Definition clear_all (l : list ptr) s : store Data Key :=
  foldl (λ s x, upd (set_parent None) x s) s l.


(** The table [degreeRoots] of phase 2 holds the roots [W], each at the
    index that is the number of its children. *)
Definition table_ok (D : list (option ptr)) (W : list ptr) G : Prop :=
  (∀ d p, D !! d = Some (Some p) → p ∈ W ∧ length (f_kids G p) = d) ∧
  (∀ p, p ∈ W → D !! length (f_kids G p) = Some (Some p)).

(** The nodes of the table. *)
Definition table_nodes (D : list (option ptr)) : list ptr := omap id D.
End Moves.

(** *** The clients of the heap

    A client builds a heap by a sequence of [insert] and [decreaseKey]; it
    names the node of a [decreaseKey] by the rank of the [insert] that
    returned it. *)
Section HeapClient.
Context {Data Key : Type} `{KeyOps Key}.

Inductive heap_op :=
  | Insert (d : Data) (k : Key)
  | DecreaseKey (i : nat) (k : Key).

Definition run_op (st : FibonacciHeap * list ptr) (o : heap_op)
    : ST (store Data Key) (FibonacciHeap * list ptr) :=
  let '(h, handles) := st in
  match o with
  | Insert d k => '(p, h') ← insert h d k; mret (h', handles ++ [p])
  | DecreaseKey i k =>
      match handles !! i with
      | None => st_throw Undefined
      | Some p => h' ← decreaseKey h p k; mret (h', handles)
      end
  end.

Fixpoint run_ops (ops : list heap_op) (st : FibonacciHeap * list ptr)
    : ST (store Data Key) (FibonacciHeap * list ptr) :=
  match ops with
  | [] => mret st
  | o :: ops => st ← run_op st o; run_ops ops st
  end.

(** The items that the client has stored: the key of a [decreaseKey] is
    not greater than the key it replaces. *)
Definition apply_op (items : list (Data * Key)) (o : heap_op) : option (list (Data * Key)) :=
  match o with
  | Insert d k => Some (items ++ [(d, k)])
  | DecreaseKey i k =>
      match items !! i with
      | None => None
      | Some (d, k0) => if key_gt k k0 then None else Some (<[i := (d, k)]> items)
      end
  end.

Fixpoint apply_ops (ops : list heap_op) (items : list (Data * Key))
    : option (list (Data * Key)) :=
  match ops with
  | [] => Some items
  | o :: ops => match apply_op items o with None => None | Some items => apply_ops ops items end
  end.

(** The keys of the list do not decrease. *)
Fixpoint nondecreasing (l : list (Data * Key)) : bool :=
  match l with
  | [] => true
  | a :: l' =>
      match l' with
      | [] => true
      | b :: _ => key_le (snd a) (snd b) && nondecreasing l'
      end
  end.
End HeapClient.

Arguments heap_op : clear implicits.

(** The forest of no node, and the forest of two heaps with no common
    node. *)
Definition empty_forest : forest := mkForest [] (λ _, []) [].

Definition forest_union (G1 G2 : forest) : forest :=
  mkForest (f_tops G1 ++ f_tops G2)
    (λ q, if decide (q ∈ f_live G1) then f_kids G1 q else f_kids G2 q)
    (f_live G1 ++ f_live G2).

(** The client's view of the heap: its handles are the nodes of the heap,
    and they hold the items that it has stored. *)
Definition client_inv {Data Key : Type} `{KeyOps Key} (s : store Data Key)
    (h : FibonacciHeap) (handles : list ptr) (items : list (Data * Key)) (G : forest) : Prop :=
  heap_inv s h G ∧ handles ≡ₚ f_live G ∧ item_of s <$> handles = Some <$> items.

(** The forest of a heap of one node. *)
Definition forest_of_one (p : ptr) : forest := mkForest [p] (λ _, []) [p].

(** Two heaps of one node each, in one store. *)
Module HeapExamples.
Definition two_heaps_store : store string Z :=
  mkStore (<[1 := mkNode 3%Z "b" 0%N false 1 1 None None]>
             (<[0 := mkNode 5%Z "a" 0%N false 0 0 None None]> ∅)) 2.
Definition heap_a : FibonacciHeap := mkHeap (Some 0) 1 0.
Definition heap_b : FibonacciHeap := mkHeap (Some 1) 1 0.
End HeapExamples.


(** ** The construction of the network

    [Network::addNode], [addLink] and [addLinkOutToNode] of
    include/Network.hpp and src/Network.cpp, and the loops of
    [Data::read_network_matsim] of src/Data.cpp that call them. *)

(** The bounding box of [class Network]. *)
Record Bounds := mkBounds {
  min_x : double;
  max_x : double;
  min_y : double;
  max_y : double;
}.

(** [Network()]: the maxima start from [numeric_limits<double>::min()],
    the least positive normal number, and the minima from
    [numeric_limits<double>::max()]. *)
Definition dbl_max : double := SFmax_float F64.prec F64.emax.
Definition dbl_min : double := S754_finite false 4503599627370496 (-1074).

Definition new_bounds : Bounds := mkBounds dbl_max dbl_min dbl_max dbl_min.

Definition new_network : Network := mkNetwork [] [].

(** The network with its bounding box. *)
Abbreviation BM := (ST (Network * Bounds)).

Definition liftB {A} (c : NM A) : BM A := λ '(net, b),
  match c net with Ok (a, net') => Ok (a, (net', b)) | Err e => Err e end.

(** [Network::addNode(aNode)] *)
Definition addNode (aNode : Node.t) : BM unit := λ '(net, b),
  let net := set_Nodes (StdMap.insert (Node._id aNode) aNode (_Nodes net)) net in
  let x := Node._x aNode in
  let y := Node._y aNode in
  let b := if SFltb x (min_x b) then mkBounds x (max_x b) (min_y b) (max_y b) else b in
  let b := if SFltb (max_x b) x then mkBounds (min_x b) x (min_y b) (max_y b) else b in
  let b := if SFltb y (min_y b) then mkBounds (min_x b) (max_x b) y (max_y b) else b in
  let b := if SFltb (max_y b) y then mkBounds (min_x b) (max_x b) (min_y b) y else b in
  Ok (tt, (net, b)).

(** [Network::addLink(aLink)] *)
Definition addLink (aLink : Link.t) : NM unit := λ net,
  Ok (tt, set_Links (StdMap.insert (Link._id aLink) aLink (_Links net)) net).

(** [Network::addLinkOutToNode(nodeId, linkId)]:
    [_Nodes[nodeId].addLinkOutId(linkId)], which creates a missing node by
    [Node()]. *)
Definition addLinkOutToNode (nodeId linkId : string) : NM unit := λ net,
  let '(n, ns) := StdMap.index Node.default nodeId (_Nodes net) in
  Ok (tt, set_Nodes (StdMap.put nodeId (Node.addLinkOutId linkId n) ns) net).

(** The attributes of an element [node] and of an element [link] of the
    network file, as [StringValue()] and [FloatValue()] return them. *)
Record node_elt := mkNodeElt {
  ne_id : string;
  ne_x : float;
  ne_y : float;
}.

Record link_elt := mkLinkElt {
  le_id : string;
  le_from : string;
  le_to : string;
  le_length : float;
  le_freespeed : float;
  le_capacity : float;
}.

(** The loop over the elements [node]. *)
Fixpoint read_nodes (nodes : list node_elt) : BM unit :=
  match nodes with
  | [] => mret tt
  | ele :: nodes =>
      let x := F64.of_f32 (ne_x ele) in
      let y := F64.of_f32 (ne_y ele) in
      addNode (Node.make (ne_id ele) x y);;
      read_nodes nodes
  end.

(** The loop over the elements [link]. *)
Fixpoint read_links (links : list link_elt) : NM unit :=
  match links with
  | [] => mret tt
  | ele :: links =>
      addLinkOutToNode (le_from ele) (le_id ele);;
      s ← nodes_at (le_from ele);
      let link_x := Node._x s in
      e ← nodes_at (le_to ele);
      let link_y := Node._y e in
      addLink (Link.make (le_id ele) (le_from ele) (le_to ele) (le_length ele)
                 (le_freespeed ele) (le_capacity ele) link_x link_y);;
      read_links links
  end.

(** [Data::read_network_matsim] on the elements of the file, for [n_proc]
    worker processes. *)
Definition read_network_matsim (n_proc : Z) (nodes : list node_elt) (links : list link_elt)
    : BM unit :=
  read_nodes nodes;;
  liftB (shuffleNodesCoordinates n_proc);;
  liftB (read_links links).

(** The node that the loop makes of an element, and the first element of
    the list with a given identifier. *)
Definition node_of (ele : node_elt) : Node.t :=
  Node.make (ne_id ele) (F64.of_f32 (ne_x ele)) (F64.of_f32 (ne_y ele)).

Fixpoint first_with_id (k : string) (nodes : list node_elt) : option node_elt :=
  match nodes with
  | [] => None
  | ele :: nodes => if String.eqb k (ne_id ele) then Some ele else first_with_id k nodes
  end.

(** The point is not outside the box, by the comparisons of [addNode]. *)
Definition in_box (b : Bounds) (x y : double) : bool :=
  negb (SFltb x (min_x b)) && negb (SFltb (max_x b) x) &&
  negb (SFltb y (min_y b)) && negb (SFltb (max_y b) y).

(** Every link of the network is listed by the node it starts from. *)
Definition links_listed (net : Network) : Prop :=
  ∀ k lk, StdMap.find k (_Links net) = Some lk →
    ∃ n, StdMap.find (Link._start_node_id lk) (_Nodes net) = Some n ∧
      k ∈ Node._links_out_id n.

(** Small inputs of the construction and of the rerouting: the file of the
    road from A to B, and the triangle with three agents on the link from
    S to A and an eager agent that is about to take it. *)
Module BuildExamples.
Definition road_nodes : list node_elt :=
  [mkNodeElt "A" (Examples.flt 0) (Examples.flt 0);
   mkNodeElt "B" (Examples.flt 10) (Examples.flt 0)].
Definition road_links : list link_elt :=
  [mkLinkElt "AB" "A" "B" (Examples.flt 10) (Examples.flt 1) (Examples.flt 1)].
Definition busy_triangle : Network :=
  mkNetwork (_Nodes Examples.triangle)
    [Examples.link "AD" "A" "D" 10 0 1000; Examples.link "SA" "S" "A" 2 3 1000;
     Examples.link "SD" "S" "D" 13 0 1000].
Definition eager_at_S : Individual.t :=
  Individual.mk 1 [Trip.mk "S" "D" F32.zero] F32.zero F32.zero F32.zero Examples.eager
    ["AD"] true false "SA" 1 F32.zero 1 1.
Definition two_trips : Individual.t :=
  Individual.mk 1 [Trip.mk "D" "S" F32.zero; Trip.mk "S" "D" (Examples.flt 100)]
    F32.zero F32.zero F32.zero Strategy.default [] true false "SD" 1 F32.zero 1 1.
End BuildExamples.

(** The box [b'] holds what the box [b] holds. *)
Definition box_le (b b' : Bounds) : Prop :=
  (∀ z, SFltb z (min_x b) = false → SFltb z (min_x b') = false) ∧
  (∀ z, SFltb (max_x b) z = false → SFltb (max_x b') z = false) ∧
  (∀ z, SFltb z (min_y b) = false → SFltb z (min_y b') = false) ∧
  (∀ z, SFltb (max_y b) z = false → SFltb (max_y b') z = false).

(** ** Notions of the further properties *)

(** The links of the list lead from the node [from] to the node [to]: each
    link is in the map and starts where the one before it ends. *)
Fixpoint route (ls : StdMap.t Link.t) (from : string) (path : list string) (to : string)
    : bool :=
  match path with
  | [] => bool_decide (from = to)
  | l :: path =>
      match StdMap.find l ls with
      | Some lk => bool_decide (Link._start_node_id lk = from) &&
                   route ls (Link._end_node_id lk) path to
      | None => false
      end
  end.

(** The map [prec] of a planner gives each node a link of the network that
    ends at the node. *)
Definition prec_ok (ls : StdMap.t Link.t) (prec : StdMap.t string) : Prop :=
  ∀ id lid, StdMap.find id prec = Some lid →
    ∃ lk, StdMap.find lid ls = Some lk ∧ Link._end_node_id lk = id.

(** The links of the list are in the network. *)
Definition links_known (net : Network) (links_out : list string) : Prop :=
  ∀ l, l ∈ links_out → is_Some (StdMap.find l (_Links net)).

(** The number of agents that are en route. *)
Definition moving (ags : list Individual.t) : nat :=
  sum_list_with (λ a, if _en_route a then 1 else 0) ags.

(** The number of trips that the agents have not ended, the current ones
    included. *)
Definition remaining_trips (ags : list Individual.t) : nat :=
  sum_list_with (λ a, length (_trips a)) ags.

(** What the turn of an agent does to the counters of the moving agents
    and of the trips performed: nothing, or the agent starts a trip, or it
    ends one and is removed or waits for its next trip. *)
Definition turn_effect (a : Individual.t) (m : Model) (a' : Individual.t) (rm : bool)
    (m1 : Model) : Prop :=
  (_total_moving_agents m1 = _total_moving_agents m ∧
   _total_trips_performed m1 = _total_trips_performed m ∧
   rm = false ∧ _en_route a' = _en_route a ∧ _trips a' = _trips a ∧
   (_at_node a' = false → _at_node a = false ∨ _en_route a' = true)) ∨
  (_total_moving_agents m1 = incrementData (_total_moving_agents m) ∧
   _total_trips_performed m1 = _total_trips_performed m ∧
   rm = false ∧ _en_route a = false ∧ _en_route a' = true ∧ _trips a' = _trips a) ∨
  (_total_moving_agents m1 = decrementData (_total_moving_agents m) ∧
   _total_trips_performed m1 = incrementData (_total_trips_performed m) ∧
   _at_node a = false ∧
   ((rm = true ∧ length (_trips a) = 1) ∨
    (rm = false ∧ _en_route a' = false ∧ _at_node a' = true ∧
     S (length (_trips a')) = length (_trips a)))).

(** * Properties *)

(** ** The state monad *)

Lemma st_bind_Ok {S A B} (c : ST S A) (k : A → ST S B) s r :
  (c ≫= k) s = Ok r → ∃ a s', c s = Ok (a, s') ∧ k a s' = Ok r.
Proof.
  unfold mbind, st_bind. destruct (c s) as [[a s']|e]; [eauto | discriminate].
Qed.

Lemma st_bind_eq {S A B} (c : ST S A) (k : A → ST S B) s a s' :
  c s = Ok (a, s') → (c ≫= k) s = k a s'.
Proof. unfold mbind, st_bind. intros ->. reflexivity. Qed.

Lemma st_ret_Ok {S A} (a b : A) (s s' : S) :
  (mret a : ST S A) s = Ok (b, s') → a = b ∧ s = s'.
Proof. unfold mret, st_ret. intros [= -> ->]. done. Qed.

Lemma of_res_Ok {S A} (r : res A) (s s' : S) a : of_res r s = Ok (a, s') → r = Ok a ∧ s = s'.
Proof. unfold of_res. destruct r; intros [= -> ->]; done. Qed.

Lemma of_res_eq {S A} (a : A) (s : S) : of_res (Ok a) s = Ok (a, s).
Proof. done. Qed.

Lemma res_bind_Ok {A B} (r : res A) (k : A → res B) b :
  (r ≫= k) = Ok b → ∃ a, r = Ok a ∧ k a = Ok b.
Proof. unfold mbind, res_mbind, res_bind. destruct r; [eauto | discriminate]. Qed.

(** Splits a successful run of a sequence of binds into its steps. *)
Ltac inv_st H :=
  lazymatch type of H with
  | (_ ≫= _) _ = Ok _ =>
      let a := fresh "a" in let s := fresh "s" in
      let H1 := fresh "Hrun" in let H2 := fresh "Hrun" in
      apply st_bind_Ok in H as (a & s & H1 & H2); inv_st H1; inv_st H2
  | mret _ _ = Ok _ => apply st_ret_Ok in H as [? ?]; simplify_eq
  | st_throw _ _ = Ok _ => discriminate H
  | st_get _ = Ok _ => injection H as ? ?; subst
  | of_res _ _ = Ok _ => apply of_res_Ok in H as [H ?]; subst
  | _ => idtac
  end.

Lemma set_network_id m : set_network (_network m) m = m.
Proof. by destruct m. Qed.

Lemma on_network_Ok {A} (c : NM A) m a m' :
  on_network c m = Ok (a, m') →
  ∃ net, c (_network m) = Ok (a, net) ∧ m' = set_network net m.
Proof.
  unfold on_network. destruct (c (_network m)) as [[a' net]|]; [|discriminate].
  intros [= -> <-]. eauto.
Qed.

Lemma at_Ok {T} k (m : StdMap.t T) v : StdMap.at_ k m = Ok v ↔ StdMap.find k m = Some v.
Proof. unfold StdMap.at_. destruct (StdMap.find k m); split; congruence. Qed.

Lemma links_at_Ok id net l net' :
  links_at id net = Ok (l, net') ↔ StdMap.find id (_Links net) = Some l ∧ net' = net.
Proof.
  unfold links_at. split.
  - intros H. apply of_res_Ok in H as [H ->]. by apply at_Ok in H.
  - intros [H ->]. apply at_Ok in H. by rewrite H.
Qed.

Lemma nodes_at_Ok id net n net' :
  nodes_at id net = Ok (n, net') ↔ StdMap.find id (_Nodes net) = Some n ∧ net' = net.
Proof.
  unfold nodes_at. split.
  - intros H. apply of_res_Ok in H as [H ->]. by apply at_Ok in H.
  - intros [H ->]. apply at_Ok in H. by rewrite H.
Qed.

(** ** The reroute decision *)

Lemma isRerouting_eq a now net l x1 :
  StdMap.find (_cur_link a) (_Links net) = Some l →
  rerouting_x1 a now = Ok x1 →
  isRerouting a now net =
    Ok (F32.gtb (rerouting_x2 l) F32.zero && Strategy.computeStrategy (_strategy a) x1 (rerouting_x2 l), net).
Proof.
  intros Hl Hx. unfold isRerouting.
  rewrite (st_bind_eq _ _ net x1 net); [|by rewrite Hx].
  rewrite (st_bind_eq _ _ net l net); [|by apply links_at_Ok].
  by destruct (F32.gtb _ _).
Qed.

(** C6. With x1 = (now - trip.start)/D_theo when D_theo > 0 and 0
    otherwise, and x2 = occupancy/capacity of the next link, the decision to
    reroute taken at depart-node is true exactly when the strategy is
    optimized, x2 > 0 and x1*cos_alpha + x2*sin_alpha - theta > 0; and an
    agent whose strategy is not optimized never reroutes, whatever the
    state. *)
Theorem reroute_decision_spec (m : Model) (a : Individual.t) :
  (Strategy._optimized (_strategy a) = false → reroute_decision a m = Ok (false, m)) ∧
  ∀ (l : Link.t) (tr : Trip.t) (rest : list Trip.t),
    StdMap.find (_cur_link a) (_Links (_network m)) = Some l →
    _trips a = tr :: rest →
    let D_theo := _cur_trip_duration_theo a in
    let x1 := if F32.gtb D_theo F32.zero
              then F32.div (F32.sub (_time m) (Trip._starting_time tr)) D_theo
              else F32.zero in
    let x2 := F32.div (F32.of_N (Link._n_agents l)) (Link._capacity l) in
    let s := _strategy a in
    ∃ b : bool, reroute_decision a m = Ok (b, m) ∧
      (b = true ↔
         Strategy._optimized s = true ∧
         F32.gtb x2 F32.zero = true ∧
         F32.gtb (F32.sub (F32.add (F32.mul x1 (Strategy._cos_alpha s))
                                   (F32.mul x2 (Strategy._sin_alpha s)))
                          (Strategy._theta s)) F32.zero = true).
Proof.
  split.
  - intros Hopt. unfold reroute_decision.
    rewrite (st_bind_eq _ _ m m m); [|done]. by rewrite Hopt.
  - intros l tr rest Hl Htr D_theo x1 x2 s.
    assert (Hx1 : rerouting_x1 a (_time m) = Ok x1).
    { unfold rerouting_x1, x1, D_theo. rewrite Htr. by destruct (F32.gtb _ _). }
    unfold reroute_decision. rewrite (st_bind_eq _ _ m m m); [|done].
    destruct (Strategy._optimized (_strategy a)) eqn:Hopt.
    + unfold on_network. rewrite (isRerouting_eq a _ _ l x1 Hl Hx1), set_network_id.
      eexists; split; [done|].
      fold x2 s. unfold Strategy.computeStrategy, rerouting_x2. fold x2.
      rewrite andb_true_iff. unfold s. rewrite Hopt. tauto.
    + exists false. split; [done|]. unfold s. rewrite Hopt. split; [done|]. by intros [? _].
Qed.

(** ** [std::map]: lookups after updates *)

Section StdMapFacts.
Context {T : Type}.
Implicit Types (m : list (string * T)) (k : string) (v : T).

Lemma compare_Eq k k' : String.compare k k' = Eq ↔ k = k'.
Proof. apply OrderedTypeEx.String_as_OT.cmp_eq. Qed.

Lemma compare_refl k : String.compare k k = Eq.
Proof. by apply compare_Eq. Qed.

Lemma eqb_compare k k' : String.eqb k k' = true ↔ String.compare k k' = Eq.
Proof. by rewrite String.eqb_eq, compare_Eq. Qed.

Lemma find_put_eq k v m : StdMap.find k (StdMap.put k v m) = Some v.
Proof.
  induction m as [|[k' v'] m IH]; simpl.
  - by rewrite String.eqb_refl.
  - destruct (String.compare k k') eqn:Hc; simpl.
    + by rewrite String.eqb_refl.
    + by rewrite String.eqb_refl.
    + destruct (String.eqb k k') eqn:He; [|done].
      apply eqb_compare in He. congruence.
Qed.

Lemma find_put_ne k k' v m : k ≠ k' → StdMap.find k' (StdMap.put k v m) = StdMap.find k' m.
Proof.
  intros Hne. induction m as [|[k'' v''] m IH]; simpl.
  - destruct (String.eqb k' k) eqn:He; [|done].
    apply String.eqb_eq in He. congruence.
  - destruct (String.compare k k'') eqn:Hc; simpl.
    + apply compare_Eq in Hc as <-.
      destruct (String.eqb k' k) eqn:He; [|done].
      apply String.eqb_eq in He. congruence.
    + destruct (String.eqb k' k) eqn:He; [|done].
      apply String.eqb_eq in He. congruence.
    + by rewrite IH.
Qed.

Lemma find_put k k' v m :
  StdMap.find k' (StdMap.put k v m) = if decide (k = k') then Some v else StdMap.find k' m.
Proof.
  case_decide as Hk; [subst; apply find_put_eq | by apply find_put_ne].
Qed.

Lemma find_index dflt k k' m :
  StdMap.find k' (StdMap.index dflt k m).2 =
    if decide (k = k' ∧ StdMap.find k m = None) then Some dflt else StdMap.find k' m.
Proof.
  unfold StdMap.index. destruct (StdMap.find k m) eqn:Hf; simpl.
  - case_decide as Hk; [by destruct Hk | done].
  - rewrite find_put. destruct (decide (k = k')) as [->|Hne].
    + by rewrite decide_True.
    + rewrite decide_False; [done | by intros [? _]].
Qed.

Lemma index_fst dflt k m :
  (StdMap.index dflt k m).1 = default dflt (StdMap.find k m).
Proof. unfold StdMap.index. by destruct (StdMap.find k m). Qed.

Lemma find_elem_of k v m : StdMap.find k m = Some v → (k, v) ∈ m.
Proof.
  induction m as [|[k' v'] m IH]; simpl; [done|].
  destruct (String.eqb k k') eqn:He.
  - apply String.eqb_eq in He as ->. intros [= ->]. left.
  - intros. right. auto.
Qed.
End StdMapFacts.

(** ** The depart-node transition *)

(** Inversion of a successful run, one primitive at a time. *)
Ltac inv_net H :=
  lazymatch type of H with
  | on_network _ _ = Ok _ =>
      let net := fresh "net" in let Hn := fresh "Hnet" in
      apply on_network_Ok in H as (net & Hn & ?); subst; inv_net Hn
  | links_at _ _ = Ok _ => apply links_at_Ok in H as [H ?]; subst
  | nodes_at _ _ = Ok _ => apply nodes_at_Ok in H as [H ?]; subst
  | modify _ _ = Ok _ => unfold modify in H; simplify_eq
  | _ => inv_st H
  end.

Lemma isRerouting_state a now net b net' : isRerouting a now net = Ok (b, net') → net' = net.
Proof.
  unfold isRerouting. intros H.
  apply st_bind_Ok in H as (x1 & s1 & H1 & H). inv_net H1.
  apply st_bind_Ok in H as (l & s2 & H2 & H). inv_net H2.
  by destruct (F32.gtb _ _); inv_st H.
Qed.

Lemma reroute_decision_state a m b m' : reroute_decision a m = Ok (b, m') → m' = m.
Proof.
  unfold reroute_decision. intros H.
  apply st_bind_Ok in H as (x & s1 & H1 & H). inv_net H1.
  destruct (Strategy._optimized _); [|by inv_st H].
  apply on_network_Ok in H as (net & Hr & ->).
  apply isRerouting_state in Hr as ->. apply set_network_id.
Qed.

Lemma getNextLinkAndRemove_Ok a id a' :
  getNextLinkAndRemove a = Ok (id, a') →
  back (_path a) = Ok id ∧
  a' = setNLinkInPath (SInt.incr (_n_link_in_path a)) (setPath (pop_back (_path a)) a).
Proof.
  unfold getNextLinkAndRemove. intros H. apply res_bind_Ok in H as (l & Hb & H).
  injection H as <- <-. done.
Qed.

Lemma front_Ok {A} (v : list A) x : front v = Ok x ↔ ∃ rest, v = x :: rest.
Proof.
  unfold front. destruct v as [|y v]; split.
  - discriminate.
  - intros [? [=]].
  - intros [= ->]. eauto.
  - intros [rest [= -> _]]. done.
Qed.

(** What a successful run of [reroute] did. *)
Lemma reroute_Ok a id m a' id' m' :
  reroute a id m = Ok ((a', id'), m') →
  ∃ decision : bool, reroute_decision a m = Ok (decision, m) ∧
    if decision then
      let m1 := set_total_rerouting (incrementData (_total_rerouting m)) m in
      ∃ l n, StdMap.find (_cur_link a) (_Links (_network m)) = Some l ∧
        StdMap.find (Link._start_node_id l) (_Nodes (_network m)) = Some n ∧
        if bool_decide (1 < length (Node._links_out_id n)) then
          ∃ tr rest new_path net',
            _trips a = tr :: rest ∧
            computePath_avoid true (Link._start_node_id l) (Trip._id_destination tr) id
              (_network m) = Ok (new_path, net') ∧
            back new_path = Ok id' ∧
            a' = setCurLink id' (setNLinkInPath (SInt.incr (_n_link_in_path a))
                   (setPath (pop_back new_path) a)) ∧
            m' = set_network net' m1
        else a' = a ∧ id' = id ∧ m' = m1
    else a' = a ∧ id' = id ∧ m' = m.
Proof.
  unfold reroute. intros H.
  apply st_bind_Ok in H as (decision & s1 & Hd & H).
  pose proof (reroute_decision_state _ _ _ _ Hd) as ->.
  exists decision. split; [done|]. destruct decision; [|by inv_st H].
  apply st_bind_Ok in H as ([] & s2 & H1 & H). inv_net H1.
  apply st_bind_Ok in H as (l & s3 & H1 & H). inv_net H1.
  rewrite set_network_id in *.
  apply st_bind_Ok in H as (n & s4 & H2 & H). inv_net H2.
  rewrite set_network_id in *. simpl in *.
  exists l, n. split; [done|]. split; [done|].
  destruct (bool_decide _); [|by inv_st H].
  apply st_bind_Ok in H as (tr & s5 & H3 & H). inv_net H3.
  apply front_Ok in H3 as [rest Htr].
  apply st_bind_Ok in H as (new_path & s6 & H4 & H). inv_net H4.
  apply st_bind_Ok in H as ([id2 a2] & s7 & H5 & H). inv_net H5. inv_st H.
  apply getNextLinkAndRemove_Ok in H5 as [Hb ->]. simpl in *.
  exists tr, rest, new_path, net. by destruct a.
Qed.

Lemma reroute_cur_link a id m a' id' m' :
  reroute a id m = Ok ((a', id'), m') → _cur_link a = id → _cur_link a' = id'.
Proof.
  intros H Hc. apply reroute_Ok in H as (decision & _ & H).
  destruct decision; [|by destruct H as (-> & -> & _)].
  destruct H as (l & n & _ & _ & H). destruct (bool_decide _).
  - by destruct H as (? & ? & ? & ? & _ & _ & _ & -> & _).
  - by destruct H as (-> & -> & _).
Qed.

Lemma enter_link_Ok a id m a' m' :
  enter_link a id m = Ok (a', m') →
  ∃ l, StdMap.find id (_Links (_network m)) = Some l ∧
    a' = setRemainingTime (Link.timeOnLink l)
           (increaseTripDurationTheo (Link._free_flow_time l) a) ∧
    m' = set_network
           (set_Links (StdMap.put id (Link.increaseAgents l) (_Links (_network m)))
              (_network m)) m.
Proof.
  unfold enter_link. intros H.
  apply st_bind_Ok in H as (l & s1 & H1 & H). inv_net H1.
  apply st_bind_Ok in H as (l2 & s2 & H2 & H). inv_net H2.
  apply st_bind_Ok in H as ([] & s3 & H3 & H). inv_net H3. inv_st H.
  rewrite !set_network_id in *.
  assert (l2 = l) as -> by congruence.
  unfold incrementAgentOnLink, links_update, StdMap.at_ in *.
  destruct (StdMap.find id _) as [l'|]; [|done]. simplify_eq. by exists l.
Qed.




(** ** The rerouting counter *)

Lemma incrementData_ne x : incrementData x ≠ x.
Proof.
  unfold incrementData, SInt.wrap. intros Heq.
  pose proof (Z.mod_pos_bound (x + 1 + 2 ^ 31) (2 ^ 32) eq_refl) as Hb.
  destruct (decide (x = 2 ^ 31 - 1)%Z) as [->|Hne]; [done|].
  rewrite Z.mod_small in Heq; lia.
Qed.

(** C4, as the code has it. In a depart-node transition the rerouting
    counter is incremented exactly when the reroute decision is true,
    whether or not the path is then replaced. The path is replaced (by the
    path that avoids the popped link, whose last link becomes the next
    link) exactly when, moreover, the node has more than one outgoing link;
    otherwise the agent and its next link are unchanged. So every
    replacement of a path increments the counter once, and the counter is
    also incremented at a node with a single outgoing link. *)
Theorem reroute_counter (a : Individual.t) (id : string) (m : Model)
    (a' : Individual.t) (id' : string) (m' : Model) :
  reroute a id m = Ok ((a', id'), m') →
  (_total_rerouting m' = incrementData (_total_rerouting m) ∨
   _total_rerouting m' = _total_rerouting m) ∧
  (_total_rerouting m' = incrementData (_total_rerouting m) ↔
     reroute_decision a m = Ok (true, m)) ∧
  (path_is_replaced a m →
     ∃ l tr rest new_path net',
       StdMap.find (_cur_link a) (_Links (_network m)) = Some l ∧
       _trips a = tr :: rest ∧
       computePath_avoid true (Link._start_node_id l) (Trip._id_destination tr) id
         (_network m) = Ok (new_path, net') ∧
       back new_path = Ok id' ∧
       _path a' = pop_back new_path) ∧
  (¬ path_is_replaced a m → a' = a ∧ id' = id).
Proof.
  intros H. apply reroute_Ok in H as (decision & Hd & H). destruct decision.
  - destruct H as (l & n & Hl & Hn & H).
    assert (_total_rerouting m' = incrementData (_total_rerouting m)) as Hc.
    { destruct (bool_decide _).
      - by destruct H as (? & ? & ? & ? & _ & _ & _ & _ & ->).
      - by destruct H as (_ & _ & ->). }
    split; [by left|]. split; [done|].
    destruct (bool_decide (1 < length (Node._links_out_id n))) eqn:Hout.
    + apply bool_decide_eq_true in Hout.
      destruct H as (tr & rest & new_path & net' & Htr & Hp & Hb & -> & ->).
      split.
      * intros _. by exists l, tr, rest, new_path, net'.
      * intros Hnot. destruct Hnot. split; [done|]. by exists l, n.
    + apply bool_decide_eq_false in Hout. destruct H as (-> & -> & ->).
      split; [|done]. intros (_ & l2 & n2 & Hl2 & Hn2 & Hlen).
      rewrite Hl in Hl2. injection Hl2 as <-. rewrite Hn in Hn2. injection Hn2 as <-. lia.
  - destruct H as (-> & -> & ->). split; [by right|]. split.
    + split; [|by rewrite Hd]. intros Heq. symmetry in Heq. by apply incrementData_ne in Heq.
    + split; [|done]. intros [Hd' _]. by rewrite Hd in Hd'.
Qed.

Lemma reroute_counter_witness :
  ∃ a' id' m',
    reroute eager_at_A "AB" (Examples.world (Examples.road 3) []) = Ok ((a', id'), m') ∧
    (_total_rerouting m' = incrementData 0 ↔
       reroute_decision eager_at_A (Examples.world (Examples.road 3) []) =
         Ok (true, Examples.world (Examples.road 3) [])).
Proof.
  destruct (reroute eager_at_A "AB" (Examples.world (Examples.road 3) []))
    as [[[a' id'] m']|] eqn:E; [|vm_compute in E; discriminate].
  exists a', id', m'. split; [reflexivity|].
  exact (proj1 (proj2 (reroute_counter _ _ _ _ _ _ E))).
Defined.

(** The claim C4 as the specification words it fails there: the counter is
    incremented although no path is replaced. *)
Lemma reroute_counter_counterexample :
  ¬ (∀ a id m a' id' m',
       reroute a id m = Ok ((a', id'), m') →
       (_total_rerouting m' = incrementData (_total_rerouting m) ↔ path_is_replaced a m)).
Proof.
  intros Hclaim.
  destruct (reroute eager_at_A "AB" (Examples.world (Examples.road 3) []))
    as [[[a' id'] m']|] eqn:E; [|vm_compute in E; discriminate].
  apply Hclaim in E as HE.
  assert (_total_rerouting m' = incrementData 0) as Hinc.
  { vm_compute in E. by injection E as <- <- <-. }
  apply HE in Hinc as (_ & l & n & Hl & Hn & Hlen).
  vm_compute in Hl. injection Hl as <-. vm_compute in Hn. injection Hn as <-.
  simpl in Hlen. lia.
Qed.

(** ** The shuffle of the coordinates *)

Lemma SInt_incr_small c : (0 ≤ c < 2 ^ 31 - 1)%Z → SInt.incr c = (c + 1)%Z.
Proof. intros Hc. unfold SInt.incr, SInt.wrap. rewrite Z.mod_small; lia. Qed.

Lemma shuffle_loop_length P c nodes : length (shuffle_loop P c nodes) = length nodes.
Proof.
  revert c. induction nodes as [|[k n] nodes IH]; intros c; simpl; [done|]. by rewrite IH.
Qed.

Lemma shuffle_loop_lookup P c nodes i k n :
  (0 < P)%Z → (0 ≤ c)%Z → (c + Z.of_nat (length nodes) < 2 ^ 31)%Z →
  nodes !! i = Some (k, n) →
  shuffle_loop P c nodes !! i =
    Some (k, Node.mk (Node._id n)
               (F64.add (F64.of_Z ((c + Z.of_nat i) mod P)) F64.half) F64.half
               (Node._links_out_id n) (Node._x n) (Node._y n)).
Proof.
  intros HP. revert c i. induction nodes as [|[k0 n0] nodes IH]; intros c i Hc Hlen Hi.
  - done.
  - destruct i as [|i]; simpl in *.
    + injection Hi as -> ->. unfold SInt.rem. rewrite Z.add_0_r, Z.rem_mod_nonneg by lia.
      done.
    + rewrite SInt_incr_small by lia.
      etrans; [apply (IH (c + 1)%Z i); [lia|lia|done]|].
      replace (c + 1 + Z.of_nat i)%Z with (c + Z.of_nat (S i))%Z by lia. done.
Qed.

(** C9. With P > 0 worker processes (and fewer than 2^31 nodes, so that the
    counter of the loop does not overflow), the shuffle gives the ith node
    in key order the coordinates ((i mod P) + 0.5, 0.5), keeps its former
    coordinates in its x_data and y_data, and changes nothing else; and
    running the shuffle again on the result gives every node the same
    coordinates. *)
Theorem shuffle_spec (P : Z) (net : Network) :
  (0 < P)%Z →
  (Z.of_nat (length (_Nodes net)) < 2 ^ 31)%Z →
  ∃ net', shuffleNodesCoordinates P net = Ok (tt, net') ∧
    _Links net' = _Links net ∧
    length (_Nodes net') = length (_Nodes net) ∧
    (∀ i k n, _Nodes net !! i = Some (k, n) →
       ∃ n', _Nodes net' !! i = Some (k, n') ∧
         Node._x n' = F64.add (F64.of_Z (Z.of_nat i mod P)) F64.half ∧
         Node._y n' = F64.half ∧
         Node._x_data n' = Node._x n ∧
         Node._y_data n' = Node._y n ∧
         Node._id n' = Node._id n ∧
         Node._links_out_id n' = Node._links_out_id n) ∧
    ∃ net'', shuffleNodesCoordinates P net' = Ok (tt, net'') ∧
      ∀ i k n', _Nodes net' !! i = Some (k, n') →
        ∃ n'', _Nodes net'' !! i = Some (k, n'') ∧
          Node._x n'' = Node._x n' ∧ Node._y n'' = Node._y n'.
Proof.
  intros HP Hlen.
  assert (∀ net0, shuffleNodesCoordinates P net0 =
            Ok (tt, set_Nodes (shuffle_loop P 0 (_Nodes net0)) net0)) as Hrun.
  { intros net0. unfold shuffleNodesCoordinates. rewrite bool_decide_eq_false_2; [done|].
    intros [-> _]. lia. }
  eexists. split; [apply Hrun|]. split; [done|].
  split; [apply shuffle_loop_length|]. split.
  - intros i k n Hi. eexists. split.
    + simpl. apply shuffle_loop_lookup; [done|lia|lia|done].
    + done.
  - eexists. split; [apply Hrun|]. intros i k n' Hi. simpl in *.
    destruct (lookup_lt_is_Some_2 (_Nodes net) i) as [[k0 n0] Hi0].
    { apply lookup_lt_Some in Hi. by rewrite shuffle_loop_length in Hi. }
    rewrite (shuffle_loop_lookup P 0 _ i k0 n0) in Hi by (done || lia).
    injection Hi as -> <-.
    eexists. split.
    + apply shuffle_loop_lookup; [done|lia| |].
      * rewrite shuffle_loop_length. lia.
      * apply shuffle_loop_lookup; [done|lia|lia|done].
    + done.
Qed.

Lemma shuffle_spec_witness :
  ∃ net', shuffleNodesCoordinates 2 Examples.triangle = Ok (tt, net') ∧
    ∀ i k n, _Nodes Examples.triangle !! i = Some (k, n) →
      ∃ n', _Nodes net' !! i = Some (k, n') ∧
        Node._x n' = F64.add (F64.of_Z (Z.of_nat i mod 2)) F64.half ∧
        Node._y n' = F64.half.
Proof.
  destruct (shuffle_spec 2 Examples.triangle) as (net' & Hrun & _ & _ & Hn & _).
  - lia.
  - simpl. lia.
  - exists net'. split; [exact Hrun|]. intros i k n Hi.
    destruct (Hn i k n Hi) as (n' & H1 & H2 & H3 & _). by exists n'.
Defined.

(** ** The planners on equal end points *)

Lemma run_planner_Ok {A} (c : PM A) net a net' :
  run_planner c net = Ok (a, net') → ∃ st, c (net, empty_store) = Ok (a, (net', st)).
Proof.
  unfold run_planner. destruct (c (net, empty_store)) as [[a0 [net0 st]]|]; [|done].
  intros [= -> ->]. eauto.
Qed.

Lemma computePathAStar_same fastest s net :
  computePathAStar fastest s s net = Ok ([], net).
Proof. unfold computePathAStar. by rewrite bool_decide_eq_true_2. Qed.

Lemma links_update_Ok id f net l :
  StdMap.find id (_Links net) = Some l →
  links_update id f net = Ok (tt, set_Links (StdMap.put id (f l) (_Links net)) net).
Proof. intros Hl. unfold links_update. apply at_Ok in Hl. by rewrite Hl. Qed.

Lemma dijkstra_loop_same fastest fuel s st :
  dijkstra_loop fastest fuel s s st = mret (s, st).
Proof. destruct fuel; simpl; by rewrite bool_decide_eq_false_2 by naive_solver. Qed.

Lemma computePath_same fastest s net : ¬ is_Ok (computePath fastest s s net).
Proof.
  intros [[p net'] H]. unfold computePath in H.
  apply st_bind_Ok in H as (net0 & s0 & H0 & H). inv_st H0.
  apply st_bind_Ok in H as ([curr st] & s1 & H1 & H).
  apply run_planner_Ok in H1 as (hst & H1).
  apply st_bind_Ok in H1 as ([Q Q_nodes] & [net1 st1] & _ & H1).
  apply st_bind_Ok in H1 as ([p0 Q0] & [net2 st2] & _ & H1).
  rewrite dijkstra_loop_same in H1. apply st_ret_Ok in H1 as [[= <- <-] _].
  apply st_bind_Ok in H as (net3 & s3 & H3 & H). inv_st H3.
  simpl in H. by apply st_bind_Ok in H as (? & ? & ? & _).
Qed.



(** ** The cost of the path of A* *)

(** C1 fails on the code. On the triangle S, A, D, whose links are no
    shorter than the straight lines between their ends, the plain search
    returns the path S -> A -> D of cost 12 and A*, with the L1 distance as
    the offset of its keys, returns the link S -> D of cost 13: from S the
    key of D is 13 and the key of A is 2 + 14, since L1(A, D) = 14 is more
    than the 10 the link from A to D costs; D is extracted first and the
    search stops. This is so for both cost functions. *)
Theorem astar_cost_differs (fastest : bool) :
  computePath fastest "S" "D" Examples.triangle = Ok (["AD"; "SA"], Examples.triangle) ∧
  computePathAStar fastest "S" "D" Examples.triangle = Ok (["SD"], Examples.triangle) ∧
  path_cost fastest Examples.triangle ["AD"; "SA"] = Ok (Examples.flt 12) ∧
  path_cost fastest Examples.triangle ["SD"] = Ok (Examples.flt 13).
Proof. destruct fastest; by vm_compute. Qed.

(** ** What the planners leave unchanged *)

Section SortedMap.
Context {T : Type}.
Implicit Types (m : StdMap.t T) (k : string) (v : T).

Lemma str_lt_trans k1 k2 k3 : str_lt k1 k2 → str_lt k2 k3 → str_lt k1 k3.
Proof.
  unfold str_lt. intros H1 H2.
  apply OrderedTypeEx.String_as_OT.cmp_lt in H1, H2.
  apply OrderedTypeEx.String_as_OT.cmp_lt.
  eapply OrderedTypeEx.String_as_OT.lt_trans; eauto.
Qed.

Lemma str_lt_irrefl k : ¬ str_lt k k.
Proof. unfold str_lt. by rewrite compare_refl. Qed.

Lemma compare_Gt k k' : String.compare k k' = Gt → str_lt k' k.
Proof.
  unfold str_lt. intros H.
  rewrite OrderedTypeEx.String_as_OT.cmp_antisym. unfold OrderedTypeEx.String_as_OT.cmp.
  by rewrite H.
Qed.

Lemma keys_put k v m k' : k' ∈ StdMap.keys (StdMap.put k v m) → k' = k ∨ k' ∈ StdMap.keys m.
Proof.
  unfold StdMap.keys. induction m as [|[k0 v0] m IH]; simpl.
  - intros ?%list_elem_of_singleton. by left.
  - destruct (String.compare k k0) eqn:Hc; simpl.
    + rewrite !elem_of_cons. tauto.
    + rewrite !elem_of_cons. tauto.
    + rewrite !elem_of_cons. intros [?|?]; [tauto|]. destruct IH; tauto.
Qed.

Lemma put_sorted k v m : sorted_map m → sorted_map (StdMap.put k v m).
Proof.
  induction m as [|[k0 v0] m IH]; simpl.
  - intros _. split; [constructor | done].
  - intros [Hall Hs]. destruct (String.compare k k0) eqn:Hc; simpl.
    + apply compare_Eq in Hc as ->. done.
    + split; [|done]. constructor; [done|].
      eapply Forall_impl; [exact Hall|]. intros k'. by apply str_lt_trans.
    + split; [|by apply IH]. apply Forall_forall. intros k' Hk'.
      apply keys_put in Hk' as [->|Hk']; [by apply compare_Gt|].
      by eapply Forall_forall in Hall.
Qed.

Lemma index_sorted dflt k m : sorted_map m → sorted_map (StdMap.index dflt k m).2.
Proof.
  unfold StdMap.index. destruct (StdMap.find k m); [done|]. apply put_sorted.
Qed.

Lemma find_keys k v m : StdMap.find k m = Some v → k ∈ StdMap.keys m.
Proof.
  intros H%find_elem_of. unfold StdMap.keys. apply list_elem_of_fmap. by exists (k, v).
Qed.

Lemma find_not_keys k m : k ∉ StdMap.keys m → StdMap.find k m = None.
Proof.
  intros H. destruct (StdMap.find k m) eqn:E; [|done]. by apply find_keys in E.
Qed.

Lemma sorted_NoDup m : sorted_map m → NoDup (StdMap.keys m).
Proof.
  induction m as [|[k0 v0] m IH]; simpl; [constructor|].
  intros [Hall Hs]. constructor; [|by apply IH].
  intros Hin. eapply Forall_forall in Hall; [|done]. by apply str_lt_irrefl in Hall.
Qed.
End SortedMap.

Lemma links_ext_refl ls : links_ext ls ls.
Proof. intros k. by left. Qed.

Lemma links_ext_trans ls1 ls2 ls3 : links_ext ls1 ls2 → links_ext ls2 ls3 → links_ext ls1 ls3.
Proof.
  intros H1 H2 k. destruct (H1 k) as [E1|[E1 E1']], (H2 k) as [E2|[E2 E2']].
  - left. congruence.
  - right. split; congruence.
  - right. split; congruence.
  - congruence.
Qed.

Lemma net_ext_refl net : net_ext net net.
Proof. split; [done|]. split; [apply links_ext_refl | done]. Qed.

Lemma net_ext_trans n1 n2 n3 : net_ext n1 n2 → net_ext n2 n3 → net_ext n1 n3.
Proof.
  intros (E1 & L1 & S1) (E2 & L2 & S2). split; [congruence|].
  split; [by eapply links_ext_trans | auto].
Qed.

Lemma links_index_ext id net l net' : links_index id net = Ok (l, net') → net_ext net net'.
Proof.
  unfold links_index. destruct (StdMap.index _ _ _) as [l0 ls] eqn:E. intros [= -> <-].
  assert (ls = (StdMap.index Link.default id (_Links net)).2) as -> by by rewrite E.
  split; [done|]. split; [|apply index_sorted].
  intros k. simpl. rewrite find_index. case_decide as Hk; [|by left].
  destruct Hk as [-> Hk]. by right.
Qed.

Lemma euclidian_distance_state s d net h net' :
  euclidian_distance s d net = Ok (h, net') → net' = net.
Proof.
  unfold euclidian_distance. intros H.
  apply st_bind_Ok in H as (n1 & s1 & H1 & H). inv_net H1.
  apply st_bind_Ok in H as (n2 & s2 & H2 & H). inv_net H2. by inv_st H.
Qed.

Lemma pm_frame_ret {A} (a : A) : pm_frame (mret a).
Proof. intros net st a' net' st' [_ [= <- _]]%st_ret_Ok. apply net_ext_refl. Qed.

Lemma pm_frame_throw {A} e : pm_frame (st_throw e : PM A).
Proof. by intros net st a' net' st' H. Qed.

Lemma pm_frame_bind {A B} (c : PM A) (k : A → PM B) :
  pm_frame c → (∀ a, pm_frame (k a)) → pm_frame (c ≫= k).
Proof.
  intros Hc Hk net st b net' st' H.
  apply st_bind_Ok in H as (a & [net1 st1] & H1 & H2).
  eapply net_ext_trans; [by eapply Hc | by eapply Hk].
Qed.

Lemma pm_frame_liftH {A} (c : ST (store string float) A) : pm_frame (liftH c).
Proof.
  intros net st a net' st'. unfold liftH. destruct (c st) as [[a0 st0]|]; [|done].
  intros [= _ <- _]. apply net_ext_refl.
Qed.

Lemma pm_frame_liftN {A} (c : NM A) :
  (∀ net a net', c net = Ok (a, net') → net_ext net net') → pm_frame (liftN c).
Proof.
  intros Hc net st a net' st'. unfold liftN.
  destruct (c net) as [[a0 net0]|] eqn:E; [|done]. intros [= -> <- _]. by eapply Hc.
Qed.

Lemma pm_frame_links_index id : pm_frame (liftN (links_index id)).
Proof. apply pm_frame_liftN. intros ???. apply links_index_ext. Qed.

Lemma pm_frame_nodes_at id : pm_frame (liftN (nodes_at id)).
Proof.
  apply pm_frame_liftN. intros ??? H. apply nodes_at_Ok in H as [_ ->]. apply net_ext_refl.
Qed.

Lemma pm_frame_euclidian s d : pm_frame (liftN (euclidian_distance s d)).
Proof.
  apply pm_frame_liftN. intros ??? H. apply euclidian_distance_state in H as ->.
  apply net_ext_refl.
Qed.

Create HintDb frame discriminated.
#[global] Hint Resolve pm_frame_ret pm_frame_throw pm_frame_liftH pm_frame_links_index
  pm_frame_nodes_at pm_frame_euclidian : frame.

(** Breaks a goal [pm_frame c] down along the binds and branches of [c]. *)
Ltac frame_step :=
  lazymatch goal with
  | |- pm_frame (_ ≫= _) => apply pm_frame_bind; [|intros ?]
  | |- pm_frame (match ?x with _ => _ end) => destruct x
  | |- pm_frame (if ?x then _ else _) => destruct x
  | |- pm_frame (let '(_, _) := ?x in _) => destruct x
  | |- pm_frame _ => solve [eauto with frame]
  end.

Lemma astar_relax_frame fastest links_out dest d st :
  pm_frame (astar_relax fastest links_out dest d st).
Proof.
  revert st. induction links_out as [|lid links_out IH]; intros st; simpl.
  - auto with frame.
  - repeat (frame_step || apply IH).
Qed.

Lemma astar_loop_frame fastest fuel dest curr st :
  pm_frame (astar_loop fastest fuel dest curr st).
Proof.
  revert curr st. induction fuel as [|fuel IH]; intros curr st; simpl.
  - repeat frame_step.
  - repeat (frame_step || apply IH || apply astar_relax_frame).
Qed.

Lemma reconstruct_state fuel prec s c r p net net' :
  reconstruct fuel prec s c r net = Ok (p, net') → net' = net.
Proof.
  revert c r. induction fuel as [|fuel IH]; intros c r; simpl; [done|].
  intros H. apply st_bind_Ok in H as (l & s1 & H1 & H). inv_net H1.
  apply st_bind_Ok in H as (lk & s2 & H2 & H). inv_net H2.
  destruct (bool_decide _); [by eapply IH | by inv_st H].
Qed.

Lemma run_planner_frame {A} (c : PM A) net a net' :
  pm_frame c → run_planner c net = Ok (a, net') → net_ext net net'.
Proof. intros Hc H. apply run_planner_Ok in H as [st H]. by eapply Hc. Qed.

Lemma computePathAStar_frame fastest s d net p net' :
  computePathAStar fastest s d net = Ok (p, net') → net_ext net net'.
Proof.
  unfold computePathAStar. destruct (bool_decide _).
  - intros [_ <-]%st_ret_Ok. apply net_ext_refl.
  - intros H. apply st_bind_Ok in H as (net0 & s0 & H0 & H). inv_st H0.
    apply st_bind_Ok in H as ([curr st] & net1 & H1 & H).
    apply st_bind_Ok in H as (net2 & s2 & H2 & H). inv_st H2.
    apply reconstruct_state in H as ->.
    eapply run_planner_frame; [|exact H1].
    repeat (frame_step || apply astar_loop_frame).
Qed.

(** ** The planner that avoids a link *)

Lemma links_update_inv id f net net' :
  links_update id f net = Ok (tt, net') →
  ∃ l, StdMap.find id (_Links net) = Some l ∧
    net' = set_Links (StdMap.put id (f l) (_Links net)) net.
Proof.
  unfold links_update. destruct (StdMap.at_ _ _) as [l|] eqn:E; [|done].
  apply at_Ok in E. intros [= <-]. eauto.
Qed.

Lemma link_cost_restore (fastest : bool) (l : Link.t) (v : float) :
  (if fastest return Link.t
   then Link.setFreeFlowTime (link_cost fastest l) (Link.setFreeFlowTime v l)
   else Link.setLength (link_cost fastest l) (Link.setLength v l)) = l.
Proof. by destruct fastest, l. Qed.



Lemma reroute_decision_spec_witness :
  ∃ b : bool,
    reroute_decision eager_at_A (Examples.world (Examples.road 3) []) =
      Ok (b, Examples.world (Examples.road 3) []) ∧
    (b = true ↔
       Strategy._optimized Examples.eager = true ∧
       F32.gtb (F32.div (F32.of_N 3) (Examples.flt 1)) F32.zero = true ∧
       F32.gtb (F32.sub (F32.add (F32.mul F32.zero (Examples.flt 0))
                                 (F32.mul (F32.div (F32.of_N 3) (Examples.flt 1))
                                          (Examples.flt 1)))
                        (Examples.flt 0)) F32.zero = true).
Proof.
  exact (proj2 (reroute_decision_spec (Examples.world (Examples.road 3) []) eager_at_A)
           (Examples.link "AB" "A" "B" 10 3 1).2 (Trip.mk "A" "B" F32.zero) []
           eq_refl eq_refl).
Defined.

(** ** Conservation of the occupancy *)

Lemma dijkstra_init_frame nodes Q Q_nodes : pm_frame (dijkstra_init nodes Q Q_nodes).
Proof.
  revert Q Q_nodes. induction nodes as [|[id n] nodes IH]; intros Q Q_nodes; simpl.
  - auto with frame.
  - repeat (frame_step || apply IH).
Qed.

Lemma dijkstra_relax_frame fastest links_out d st :
  pm_frame (dijkstra_relax fastest links_out d st).
Proof.
  revert st. induction links_out as [|lid links_out IH]; intros st; simpl.
  - auto with frame.
  - repeat (frame_step || apply IH).
Qed.

Lemma dijkstra_loop_frame fastest fuel dest curr st :
  pm_frame (dijkstra_loop fastest fuel dest curr st).
Proof.
  revert curr st. induction fuel as [|fuel IH]; intros curr st; simpl.
  - repeat frame_step.
  - repeat (frame_step || apply IH || apply dijkstra_relax_frame).
Qed.

Lemma computePath_frame fastest s d net p net' :
  computePath fastest s d net = Ok (p, net') → net_ext net net'.
Proof.
  unfold computePath. intros H.
  apply st_bind_Ok in H as (net0 & s0 & H0 & H). inv_st H0.
  apply st_bind_Ok in H as ([curr st] & net1 & H1 & H).
  apply st_bind_Ok in H as (net2 & s2 & H2 & H). inv_st H2.
  apply reconstruct_state in H as ->.
  eapply run_planner_frame; [|exact H1].
  repeat (frame_step || apply dijkstra_loop_frame || apply dijkstra_init_frame).
Qed.

Lemma computePath_avoid_frame fastest s d avoid net p net' :
  computePath_avoid fastest s d avoid net = Ok (p, net') → net_ext net net'.
Proof.
  unfold computePath_avoid. intros H.
  apply st_bind_Ok in H as (l & s1 & H1 & H). inv_net H1.
  apply st_bind_Ok in H as ([] & net1 & H2 & H).
  apply st_bind_Ok in H as (res & net_a & H3 & H).
  apply st_bind_Ok in H as ([] & net2 & H4 & H). inv_st H.
  assert (net1 = set_Links (StdMap.put avoid (inflate fastest l) (_Links net)) net) as ->.
  { unfold inflate. destruct fastest; apply links_update_inv in H2 as (l2 & Hl2 & ->);
      by simplify_eq. }
  apply computePathAStar_frame in H3 as (Hnodes & Hext & Hsorted). simpl in *.
  assert (StdMap.find avoid (_Links net_a) = Some (inflate fastest l)) as Ha.
  { destruct (Hext avoid) as [E|[E _]]; rewrite find_put_eq in E; [done | discriminate]. }
  assert (net' = set_Links (StdMap.put avoid l (_Links net_a)) net_a) as ->.
  { destruct fastest; apply links_update_inv in H4 as (l4 & Hl4 & ->); simplify_eq.
    - unfold inflate. by rewrite (link_cost_restore true).
    - unfold inflate. by rewrite (link_cost_restore false). }
  split; [done|]. split; simpl.
  - intros k. rewrite find_put. case_decide as Hk; [subst; by left|].
    destruct (Hext k) as [E|[E1 E2]]; rewrite find_put_ne in * by done; [by left|by right].
  - intros Hs. apply put_sorted, Hsorted. by apply put_sorted.
Qed.

Lemma occupancy_ext net net' k : net_ext net net' → occupancy net' k = occupancy net k.
Proof.
  intros (_ & Hext & _). unfold occupancy.
  destruct (Hext k) as [->|[-> ->]]; done.
Qed.

Lemma occupancy_put net k l k' :
  occupancy (set_Links (StdMap.put k l (_Links net)) net) k' =
    if decide (k = k') then N.to_nat (Link._n_agents l) else occupancy net k'.
Proof. unfold occupancy. simpl. rewrite find_put. by case_decide. Qed.

Lemma count_on_app k l1 l2 : count_on k (l1 ++ l2) = count_on k l1 + count_on k l2.
Proof. unfold count_on. apply sum_list_with_app. Qed.

Lemma count_on_cons k a l :
  count_on k (a :: l) = (if on_link k a then 1 else 0) + count_on k l.
Proof. done. Qed.

Lemma count_on_le k ags : count_on k ags ≤ length ags.
Proof.
  induction ags as [|a ags IH]; [done|]. rewrite count_on_cons. simpl.
  destruct (on_link k a); lia.
Qed.

Lemma UInt_incr_small (x : N) : (x + 1 < UInt.modulus)%N → UInt.incr x = (x + 1)%N.
Proof. intros Hx. unfold UInt.incr, UInt.add. by apply N.mod_small. Qed.

Lemma UInt_decr_small (x : N) : (1 ≤ x < UInt.modulus)%N → UInt.decr x = (x - 1)%N.
Proof.
  intros Hx. unfold UInt.decr.
  replace (x + (UInt.modulus - 1))%N with (x - 1 + 1 * UInt.modulus)%N.
  - rewrite N.Div0.mod_add. apply N.mod_small. lia.
  - unfold UInt.modulus in *. lia.
Qed.

Lemma st_bind_get {S B} (k : S → ST S B) s : (st_get ≫= k) s = k s s.
Proof. done. Qed.

Lemma reroute_fields a id m a' id' m' :
  reroute a id m = Ok ((a', id'), m') →
  _at_node a' = _at_node a ∧ _en_route a' = _en_route a ∧
  (_cur_link a = id → _cur_link a' = id') ∧
  net_ext (_network m) (_network m').
Proof.
  intros H. pose proof (reroute_cur_link _ _ _ _ _ _ H) as Hc.
  apply reroute_Ok in H as (decision & _ & H).
  destruct decision; [|destruct H as (-> & -> & ->); auto using net_ext_refl].
  destruct H as (l & n & _ & _ & H). destruct (bool_decide _).
  - destruct H as (tr & rest & new_path & net' & _ & Hp & _ & -> & ->).
    apply computePath_avoid_frame in Hp. done.
  - destruct H as (-> & -> & ->). auto using net_ext_refl.
Qed.

Lemma setNextTrip_fields a time net a' net' :
  setNextTrip a time net = Ok (a', net') →
  _at_node a' = true ∧ _en_route a' = false ∧ net_ext net net'.
Proof.
  unfold setNextTrip. destruct (_trips a) as [|tr0 trips]; [done|]. intros H.
  apply st_bind_Ok in H as (tr & s1 & H1 & H). inv_net H1.
  apply st_bind_Ok in H as (path & net1 & H2 & H). apply computePath_frame in H2.
  apply st_bind_Ok in H as (o1 & s3 & H3 & H). inv_net H3.
  apply st_bind_Ok in H as (o2 & s4 & H4 & H). inv_net H4. by inv_st H.
Qed.

Lemma decrement_occupancy id net net' n :
  decrementAgentOnLink id net = Ok (tt, net') →
  occupancy net id = S n → (N.of_nat (S n) < UInt.modulus)%N →
  (sorted_map (_Links net) → sorted_map (_Links net')) ∧
  ∀ k, occupancy net' k = if decide (id = k) then n else occupancy net k.
Proof.
  unfold decrementAgentOnLink. intros H Hocc Hn.
  apply links_update_inv in H as (l & Hl & ->). split; [apply put_sorted|].
  intros k. rewrite occupancy_put. case_decide; [|done].
  unfold occupancy in Hocc. rewrite Hl in Hocc. simpl.
  rewrite UInt_decr_small; lia.
Qed.

Lemma increment_occupancy id net l n :
  StdMap.find id (_Links net) = Some l →
  occupancy net id = n → (N.of_nat (S n) < UInt.modulus)%N →
  ∀ k, occupancy (set_Links (StdMap.put id (Link.increaseAgents l) (_Links net)) net) k =
       if decide (id = k) then S n else occupancy net k.
Proof.
  intros Hl Hocc Hn k. rewrite occupancy_put. case_decide; [|done].
  unfold occupancy in Hocc. rewrite Hl in Hocc. simpl.
  rewrite UInt_incr_small; lia.
Qed.

(** The turn of one agent keeps the invariants; [C k] is the number of the
    other agents on the link [k]. *)
Lemma agent_turn_inv g a m a' rm m1 (C : string → nat) :
  agent_turn g a m = Ok ((a', rm), m1) →
  sorted_map (_Links (_network m)) →
  (∀ k, occupancy (_network m) k = (if on_link k a then 1 else 0) + C k) →
  (∀ k, (N.of_nat (S (C k)) < UInt.modulus)%N) →
  (_at_node a = false → _en_route a = true) →
  sorted_map (_Links (_network m1)) ∧
  (∀ k, occupancy (_network m1) k =
          (if rm then 0 else if on_link k a' then 1 else 0) + C k) ∧
  (rm = false → _at_node a' = false → _en_route a' = true).
Proof.
  unfold agent_turn. intros H Hs Hocc HC Hst.
  set (a0 := decreaseRemainingTime g a) in *.
  assert (∀ k, on_link k a0 = on_link k a) as Hon by done.
  assert (_at_node a0 = _at_node a) as Hf1 by done.
  assert (_en_route a0 = _en_route a) as Hf2 by done.
  clearbody a0.
  rewrite st_bind_get in H.
  destruct (F32.leb _ _).
  2: { inv_st H. split; [done|]. split; [intros k; by rewrite Hon|].
       intros _. by rewrite Hf1, Hf2. }
  destruct (_at_node a0) eqn:Hat.
  - (* depart-node *)
    apply st_bind_Ok in H as (a2 & m2 & H & Hret). inv_st Hret.
    unfold depart_node in H.
    apply st_bind_Ok in H as (a1 & s1 & H1 & H).
    assert (_network s1 = _network m ∧ _at_node a1 = true ∧ _en_route a1 = true)
      as (Hn1 & Hat1 & Hen1).
    { destruct (_en_route a0) eqn:Hen; simpl in H1.
      - by inv_st H1.
      - rewrite st_bind_get in H1.
        apply st_bind_Ok in H1 as ([] & ? & H1 & H1'). inv_net H1.
        apply st_bind_Ok in H1' as ([] & ? & H1 & H1'). inv_net H1. by inv_st H1'. }
    apply st_bind_Ok in H as ([id0 a3] & s2 & H2 & H). inv_net H2.
    apply getNextLinkAndRemove_Ok in H2 as [_ ->].
    apply st_bind_Ok in H as ([a4 id] & s3 & H3 & H).
    apply reroute_fields in H3 as (Hat4 & Hen4 & Hc4 & Hext). simpl in *.
    apply enter_link_Ok in H as (l & Hl & -> & ->). simpl.
    specialize (Hc4 eq_refl). rewrite Hn1 in Hext.
    assert (∀ k, occupancy (_network s3) k = C k) as Hocc3.
    { intros k. rewrite (occupancy_ext _ _ _ Hext), Hocc, <- Hon.
      unfold on_link. by rewrite Hat. }
    split; [apply put_sorted; by apply Hext|]. split.
    + intros k. rewrite (increment_occupancy _ _ _ (C id)); [|done|done|done].
      unfold on_link. simpl. rewrite Hat4, Hc4. simpl.
      rewrite Hocc3. case_decide.
      * subst k. by rewrite bool_decide_eq_true_2.
      * by rewrite bool_decide_eq_false_2.
    + intros _ _. simpl. by rewrite Hen4.
  - (* arrive-node *)
    assert (∀ k, on_link k a = bool_decide (_cur_link a0 = k)) as Hon'.
    { intros k. rewrite <- Hon. unfold on_link. by rewrite Hat. }
    assert (occupancy (_network m) (_cur_link a0) = S (C (_cur_link a0))) as Hcur.
    { rewrite Hocc, Hon'. by rewrite bool_decide_eq_true_2. }
    unfold arrive_node in H. destruct (bool_decide (0 < _)).
    + apply st_bind_Ok in H as ([] & s1 & H1 & H). inv_net H1.
      apply decrement_occupancy with (n := C (_cur_link a0)) in Hnet as [Hs1 Hocc1];
        [|done|apply HC].
      apply st_bind_Ok in H as (l & s2 & H2 & H). inv_net H2.
      apply st_bind_Ok in H as (n & s3 & H3 & H). inv_net H3. inv_st H.
      rewrite !set_network_id. simpl. split; [auto|]. split; [|done].
      intros k. rewrite Hocc1. unfold on_link. simpl.
      destruct (decide (_cur_link a0 = k)) as [<-|Hne]; [done|].
      rewrite Hocc, Hon'. by rewrite bool_decide_eq_false_2.
    + rewrite st_bind_get in H.
      apply st_bind_Ok in H as (tr & s1 & H1 & H). inv_net H1.
      apply st_bind_Ok in H as ([] & s2 & H2 & H). inv_net H2.
      apply st_bind_Ok in H as ([] & s3 & H3 & H). inv_net H3.
      apply st_bind_Ok in H as ([] & s4 & H4 & H). inv_net H4.
      apply st_bind_Ok in H as ([] & s5 & H5 & H). inv_net H5.
      unfold set_total_moving_agents, set_total_trips_performed, set_map_agent_fitness
        in *. simpl in *.
      apply decrement_occupancy with (n := C (_cur_link a0)) in Hnet as [Hs1 Hocc1];
        [|done|apply HC].
      assert (∀ k, occupancy net k = C k) as Hocc2.
      { intros k. rewrite Hocc1. destruct (decide (_cur_link a0 = k)) as [<-|Hne]; [done|].
        rewrite Hocc, Hon'. by rewrite bool_decide_eq_false_2. }
      destruct (bool_decide (1 < _)).
      * rewrite st_bind_get in H.
        apply st_bind_Ok in H as (a6 & s7 & H7 & H). inv_net H7. inv_st H.
        apply setNextTrip_fields in Hnet as (Hat6 & Hen6 & Hext). simpl in *.
        split; [apply Hext; auto|]. split.
        -- intros k. rewrite (occupancy_ext _ _ _ Hext), Hocc2.
           unfold on_link. by rewrite Hat6.
        -- intros _. by rewrite Hat6.
      * inv_st H. simpl. split; [auto|]. split; [|done]. intros k. by rewrite Hocc2.
Qed.

Lemma agents_loop_inv g todo : ∀ m kept m' extra,
  agents_loop g todo m = Ok (kept, m') →
  agents_inv (_network m) (extra ++ todo) →
  agents_inv (_network m') (extra ++ kept).
Proof.
  induction todo as [|a todo IH]; intros m kept m' extra H Hinv; simpl in H.
  - by inv_st H.
  - apply st_bind_Ok in H as ([a' rm] & m1 & H1 & H).
    apply st_bind_Ok in H as (rest & m2 & H2 & H). inv_st H.
    destruct Hinv as (Hs & Hocc & Hst & Hlen).
    apply agent_turn_inv with (C := λ k, count_on k (extra ++ todo)) in H1
      as (Hs1 & Hocc1 & Hst1).
    + assert (agents_inv (_network m1) ((extra ++ (if rm then [] else [a'])) ++ todo)) as Hinv1.
      { split; [done|]. split; [|split].
        - intros k. rewrite Hocc1, !count_on_app. destruct rm; simpl; [lia|].
          unfold count_on. simpl. lia.
        - intros b Hb. rewrite !elem_of_app in Hb. destruct Hb as [[Hb|Hb]|Hb].
          + apply Hst. rewrite elem_of_app. by left.
          + destruct rm; [by apply elem_of_nil in Hb|].
            apply list_elem_of_singleton in Hb as ->. by apply Hst1.
          + apply Hst. rewrite elem_of_app, elem_of_cons. auto.
        - rewrite !length_app in *. simpl in *. destruct rm; simpl; lia. }
      apply IH with (extra := extra ++ (if rm then [] else [a'])) in H2; [|done].
      destruct rm; simpl in *.
      * by rewrite app_nil_r in H2.
      * by rewrite <- app_assoc in H2.
    + done.
    + intros k. rewrite Hocc, !count_on_app, count_on_cons. lia.
    + intros k. pose proof (count_on_le k (extra ++ todo)).
      rewrite !length_app in *. simpl in *. lia.
    + apply Hst. rewrite elem_of_app, elem_of_cons. auto.
Qed.

Lemma find_sorted_entry {T} (m : StdMap.t T) k v :
  sorted_map m → (k, v) ∈ m → StdMap.find k m = Some v.
Proof.
  induction m as [|[k0 v0] m IH]; simpl; [by intros _ ?%elem_of_nil|].
  intros [Hall Hs] Hin. apply elem_of_cons in Hin as [[= -> ->]|Hin].
  - by rewrite String.eqb_refl.
  - destruct (String.eqb k k0) eqn:E; [|by apply IH].
    apply String.eqb_eq in E as ->. exfalso.
    eapply Forall_forall in Hall; [by apply str_lt_irrefl in Hall|].
    unfold StdMap.keys. apply list_elem_of_fmap. by exists (k0, v).
Qed.

Lemma sum_list_with_eq {A} (f g : A → nat) l :
  (∀ x, x ∈ l → f x = g x) → sum_list_with f l = sum_list_with g l.
Proof.
  induction l as [|x l IH]; intros H; simpl; [done|].
  rewrite H by left. rewrite IH; [done|]. intros y Hy. apply H. by right.
Qed.

Lemma sum_list_with_map {A B} (f : B → nat) (g : A → B) l :
  sum_list_with f (g <$> l) = sum_list_with (λ x, f (g x)) l.
Proof. induction l as [|x l IH]; csimpl; [done|]. by rewrite IH. Qed.

Lemma sum_indicator (ks : list string) (x : string) :
  NoDup ks → sum_list_with (λ k, if bool_decide (x = k) then 1 else 0) ks =
             if bool_decide (x ∈ ks) then 1 else 0.
Proof.
  induction 1 as [|k ks Hk Hnd IH]; simpl; [done|]. rewrite IH.
  destruct (decide (x = k)) as [->|Hne].
  - rewrite bool_decide_eq_true_2 by done. rewrite (bool_decide_eq_false_2 (k ∈ ks)) by done.
    rewrite bool_decide_eq_true_2; [done | left].
  - rewrite bool_decide_eq_false_2 by done. simpl.
    destruct (decide (x ∈ ks)).
    + rewrite !bool_decide_eq_true_2; [done| by right | done].
    + rewrite !bool_decide_eq_false_2; [done| |done]. rewrite elem_of_cons. tauto.
Qed.

Lemma sum_count_on (ks : list string) ags :
  sum_list_with (λ k, count_on k ags) ks =
  sum_list_with (λ a, sum_list_with (λ k, if on_link k a then 1 else 0) ks) ags.
Proof.
  induction ags as [|a ags IH].
  - simpl. induction ks as [|k ks IHks]; simpl; [done|]. by rewrite IHks.
  - cbn [sum_list_with]. rewrite <- IH. clear IH.
    induction ks as [|k ks IHks]; cbn [sum_list_with]; [done|].
    rewrite IHks, count_on_cons. lia.
Qed.

(** The conservation law: under the invariants, the sum over the links of
    their occupancy is the number of agents en route and not at a node. *)
Lemma agents_inv_conservation net ags :
  agents_inv net ags → total_occupancy net = travelling ags.
Proof.
  intros (Hs & Hocc & Hst & _). unfold total_occupancy, travelling.
  rewrite (sum_list_with_eq _ (λ kl, count_on kl.1 ags)).
  2:{ intros [k l] Hkl. simpl. rewrite <- Hocc. unfold occupancy.
      by rewrite (find_sorted_entry _ _ _ Hs Hkl). }
  rewrite <- (sum_list_with_map (λ k, count_on k ags) fst).
  rewrite sum_count_on. apply sum_list_with_eq. intros a Ha.
  unfold on_link. destruct (_at_node a) eqn:Hat; simpl.
  - rewrite andb_false_r. clear. induction (_Links net).*1; simpl; [done|]. by rewrite IHl.
  - rewrite (Hst a Ha Hat). simpl.
    rewrite sum_indicator by (apply sorted_NoDup, Hs).
    rewrite bool_decide_eq_true_2; [done|].
    assert (occupancy net (_cur_link a) ≠ 0) as Hne.
    { rewrite Hocc. apply list_elem_of_split in Ha as (l1 & l2 & ->).
      rewrite count_on_app, count_on_cons. unfold on_link. rewrite Hat. simpl.
      rewrite bool_decide_eq_true_2 by done. lia. }
    unfold occupancy in Hne. destruct (StdMap.find _ _) eqn:E; [|done].
    by apply find_keys in E.
Qed.



(** ** The Fibonacci heap

    The operations are proved to return and to keep the invariant of the
    heap, by the circular lists first, then the forest, then each member
    function. *)

(** ** Circular lists *)

Section RingFacts.
Variables (N P : ptr → option ptr).
Implicit Types (l : list ptr) (a b : ptr).

Lemma path_app l1 l2 :
  path N P (l1 ++ l2) ↔
  path N P l1 ∧ path N P l2 ∧
  ∀ a b, last l1 = Some a → head l2 = Some b → adj N P a b.
Proof.
  induction l1 as [|a l1 IH]; simpl.
  - split; [intros H; split_and!; [done|done|by intros]|tauto].
  - destruct l1 as [|a' l1]; simpl in *.
    + destruct l2 as [|b l2]; simpl.
      * split; [intros _; split_and!; [done|done|by intros]|done].
      * split.
        -- intros [H1 H2]. split_and!; [done|done|]. by intros ? ? [= <-] [= <-].
        -- intros (_ & H2 & H3). split; [by apply H3 | done].
    + rewrite IH. clear IH. split.
      * intros (H1 & H2 & H3 & H4). split_and!; try done.
      * intros ((H1 & H2) & H3 & H4). split_and!; try done.
Qed.

Lemma cyc_singleton a : cyc N P [a] ↔ adj N P a a.
Proof.
  split.
  - intros (_ & _ & a' & b' & [= <-] & [= <-] & H). done.
  - intros H. split; [apply NoDup_singleton|]. split; [done|]. by exists a, a.
Qed.

Lemma last_app_nonempty {A} (l1 l2 : list A) : l2 ≠ [] → last (l1 ++ l2) = last l2.
Proof.
  intros H. destruct l2 as [|x l2 _] using rev_ind; [done|].
  by rewrite app_assoc, !last_snoc.
Qed.

Lemma cyc_rotate l1 l2 : cyc N P (l1 ++ l2) → cyc N P (l2 ++ l1).
Proof.
  destruct l1 as [|x1 l1]; [by rewrite app_nil_r|].
  destruct l2 as [|x2 l2]; [by rewrite app_nil_r|].
  intros (Hnd & Hp & a & b & Hl & Hh & Hab).
  rewrite last_app_nonempty in Hl by done. simpl in Hh. injection Hh as <-.
  apply path_app in Hp as (Hp1 & Hp2 & Hp3).
  split; [|split].
  - apply NoDup_app in Hnd as (? & ? & ?). apply NoDup_app. split_and!; [done| |done].
    intros y Hy1 Hy2. naive_solver.
  - apply path_app. split_and!; [done|done|].
    intros a' b' Ha' [= <-]. rewrite Hl in Ha'. by injection Ha' as <-.
  - destruct (last (x1 :: l1)) as [a1|] eqn:E1; [|by apply last_None in E1].
    exists a1, x2. rewrite last_app_nonempty by done. split_and!; [done|done|].
    by apply Hp3.
Qed.

Lemma cyc_rotate_to l a : cyc N P l → a ∈ l → ∃ l', cyc N P (a :: l') ∧ a :: l' ≡ₚ l.
Proof.
  intros Hc Ha. apply list_elem_of_split in Ha as (l1 & l2 & ->).
  exists (l2 ++ l1). split.
  - by apply (cyc_rotate l1 (a :: l2)).
  - rewrite (Permutation_app_comm l1). done.
Qed.

Lemma ring_cyc l a : ring N P l → a ∈ l → ∃ l', cyc N P (a :: l') ∧ a :: l' ≡ₚ l.
Proof.
  intros (l0 & Hp & Hc) Ha. rewrite <- Hp in Ha.
  destruct (cyc_rotate_to _ _ Hc Ha) as (l' & Hc' & Hp'). exists l'. split; [done|].
  by rewrite Hp'.
Qed.

Lemma cyc_ring l : cyc N P l → ring N P l.
Proof. intros H. by exists l. Qed.

Lemma ring_perm l l' : l ≡ₚ l' → ring N P l → ring N P l'.
Proof. intros Hp (l0 & Hp0 & Hc). exists l0. split; [by rewrite Hp0|done]. Qed.

(** The successor and the predecessor of the head of a circular list. *)
Lemma cyc_head_next a l : cyc N P (a :: l) → N a = Some (default a (head l)).
Proof.
  intros (_ & Hp & x & y & Hl & [= <-] & Hxy). destruct l as [|b l]; simpl in *.
  - injection Hl as <-. apply Hxy.
  - apply Hp.
Qed.

Lemma cyc_head_prev a l : cyc N P (a :: l) → P a = Some (default a (last l)).
Proof.
  intros (_ & _ & x & y & Hl & [= <-] & Hxy).
  destruct l as [|b l _] using rev_ind; simpl in *.
  - injection Hl as <-. apply Hxy.
  - rewrite last_snoc. change (a :: l ++ [b]) with ((a :: l) ++ [b]) in Hl.
    rewrite last_snoc in Hl. injection Hl as <-. apply Hxy.
Qed.
End RingFacts.

Section RingOps.
Variables (N P N' P' : ptr → option ptr).
Implicit Types (l : list ptr) (a b : ptr).

Lemma last_elem_of {A} (l : list A) x : last l = Some x → x ∈ l.
Proof.
  destruct l as [|y l _] using rev_ind; [done|]. rewrite last_snoc. intros [= ->].
  apply elem_of_app. right. left.
Qed.

Lemma head_elem_of {A} (l : list A) x : head l = Some x → x ∈ l.
Proof. destruct l; [done|]. intros [= ->]. left. Qed.

(** A path whose links are not written remains a path. *)
Lemma path_frame l :
  NoDup l →
  (∀ a, a ∈ l → last l ≠ Some a → N' a = N a) →
  (∀ b, b ∈ l → head l ≠ Some b → P' b = P b) →
  path N P l → path N' P' l.
Proof.
  induction l as [|a l IH]; [done|]. destruct l as [|b l]; [done|].
  intros Hnd HN HP [[Hab1 Hab2] Hp].
  apply NoDup_cons in Hnd as [Ha Hnd]. split.
  - split.
    + rewrite HN; [done|left|]. intros Hl. apply Ha. simpl in Hl.
      apply (last_elem_of (b :: l)). by destruct l.
    + rewrite HP; [done|right; left|]. intros [= ->]. apply Ha. left.
  - apply IH; [done| | |done].
    + intros a' Ha' Hl. apply HN; [by right|]. by destruct l.
    + intros b' Hb' Hh. apply HP; [by right|]. intros [= ->]. by apply Ha.
Qed.

(** A circular list none of whose links is written remains one. *)
Lemma cyc_frame l :
  (∀ a, a ∈ l → N' a = N a ∧ P' a = P a) → cyc N P l → cyc N' P' l.
Proof.
  intros Hf (Hnd & Hp & a & b & Hl & Hh & [H1 H2]). split; [done|]. split.
  - apply path_frame; [done| | |done]; intros; by apply Hf.
  - exists a, b. split_and!; [done|done|]. split.
    + rewrite (proj1 (Hf a (last_elem_of _ _ Hl))). done.
    + rewrite (proj2 (Hf b (head_elem_of _ _ Hh))). done.
Qed.

Lemma ring_frame l :
  (∀ a, a ∈ l → N' a = N a ∧ P' a = P a) → ring N P l → ring N' P' l.
Proof.
  intros Hf (l0 & Hp & Hc). exists l0. split; [done|].
  apply cyc_frame; [|done]. intros a Ha. apply Hf. by rewrite <- Hp.
Qed.

(** [x->insert(o)]: the circular list of [o] is put after [x]. *)
Lemma cyc_splice x l1 o l2 :
  cyc N P (x :: l1) → cyc N P (o :: l2) → (x :: l1) ## (o :: l2) →
  let tn := default x (head l1) in
  let op := default o (last l2) in
  N' x = Some o → N' op = Some tn → (∀ a, a ≠ x → a ≠ op → N' a = N a) →
  P' o = Some x → P' tn = Some op → (∀ b, b ≠ o → b ≠ tn → P' b = P b) →
  cyc N' P' (x :: o :: l2 ++ l1).
Proof.
  intros H1 H2 Hdisj tn op HNx HNop HN HPo HPtn HP.
  pose proof H1 as (Hnd1 & Hp1 & _). pose proof H2 as (Hnd2 & Hp2 & _).
  assert (op ∈ o :: l2) as Hop.
  { unfold op. destruct (last l2) eqn:E; simpl; [right; by apply last_elem_of|left]. }
  assert (tn ∈ x :: l1) as Htn.
  { unfold tn. destruct (head l1) eqn:E; simpl; [right; by apply head_elem_of|left]. }
  assert (last (o :: l2) = Some op) as Hlast2.
  { unfold op. destruct l2 as [|y l2 _] using rev_ind; [done|].
    change (o :: l2 ++ [y]) with ((o :: l2) ++ [y]). by rewrite !last_snoc. }
  split; [|split].
  - change (NoDup ((x :: o :: l2) ++ l1)).
    apply NoDup_cons in Hnd1 as [Hx Hnd1].
    apply NoDup_app. split_and!; [|  |done].
    + apply NoDup_cons. split; [|done]. intros Hin. apply (Hdisj x); [left|done].
    + intros y Hy Hy1. apply elem_of_cons in Hy as [->|Hy]; [done|].
      apply (Hdisj y); [by right|done].
  - change (path N' P' ([x] ++ (o :: l2) ++ l1)).
    apply path_app. split; [done|]. split.
    + apply path_app. split_and!.
      * apply path_frame; [done| | |done].
        -- intros a Ha Hl. apply HN.
           ++ intros ->. apply (Hdisj x); [left|done].
           ++ intros ->. by apply Hl.
        -- intros b Hb Hh. apply HP.
           ++ intros ->. by apply Hh.
           ++ intros ->. apply (Hdisj tn); done.
      * destruct l1 as [|t l1]; [done|]. apply NoDup_cons in Hnd1 as [Hx Hnd1].
        apply path_frame; [done| | |by destruct l1, Hp1].
        -- intros a Ha _. apply HN.
           ++ intros ->. done.
           ++ intros ->. apply (Hdisj op); [by right|done].
        -- intros b Hb Hh. apply HP.
           ++ intros ->. apply (Hdisj o); [by right|left].
           ++ unfold tn. simpl. intros ->. by apply Hh.
      * intros a b Ha Hb. rewrite Hlast2 in Ha. injection Ha as <-.
        destruct l1 as [|t l1]; [done|]. simpl in Hb. injection Hb as <-. done.
    + intros a b [= <-] [= <-]. done.
  - destruct l1 as [|t l1 _] using rev_ind.
    + exists op, x. rewrite app_nil_r. split_and!; [|done|done].
      change (x :: o :: l2) with ([x] ++ o :: l2). by rewrite last_app_nonempty.
    + exists t, x. split_and!; [|done|].
      * rewrite !app_comm_cons, app_assoc. by rewrite last_snoc.
      * destruct H1 as (_ & _ & a & b & Hl & [= <-] & [Hab1 Hab2]).
        change (x :: l1 ++ [t]) with ((x :: l1) ++ [t]) in Hl.
        rewrite last_snoc in Hl. injection Hl as <-.
        apply NoDup_cons in Hnd1 as [Hx Hnd1].
        split.
        -- rewrite HN; [done| |].
           ++ intros ->. apply Hx, elem_of_app. right. left.
           ++ intros ->. apply (Hdisj op); [right; apply elem_of_app; right; left|done].
        -- rewrite HP; [done| |].
           ++ intros ->. apply (Hdisj o); [left|left].
           ++ intros Heq. apply Hx. rewrite Heq. unfold tn.
              destruct l1; simpl; left.
Qed.

(** [y->remove()]: [y] leaves its circular list and is one of its own. *)
Lemma cyc_unlink y l :
  cyc N P (y :: l) →
  let tp := default y (last l) in
  let tn := default y (head l) in
  N' y = Some y → P' y = Some y →
  (tp ≠ y → N' tp = Some tn) → (tn ≠ y → P' tn = Some tp) →
  (∀ a, a ≠ y → a ≠ tp → N' a = N a) →
  (∀ b, b ≠ y → b ≠ tn → P' b = P b) →
  cyc N' P' [y] ∧ (l ≠ [] → cyc N' P' l).
Proof.
  intros H1 tp tn HNy HPy HNtp HPtn HN HP. split; [by apply cyc_singleton|].
  intros Hl. destruct H1 as (Hnd & Hp & _).
  apply NoDup_cons in Hnd as [Hy Hnd].
  destruct l as [|t l]; [done|]. simpl in tn.
  assert (last (t :: l) = Some tp) as Hlast.
  { unfold tp. by destruct (last (t :: l)) eqn:E; [|apply last_None in E]. }
  assert (tp ∈ t :: l) as Htp by by apply last_elem_of.
  split; [done|]. split.
  - apply path_frame; [done| | |by destruct Hp].
    + intros a Ha Hla. apply HN; [by intros ->|]. intros ->. done.
    + intros b Hb Hh. apply HP; [by intros ->|]. intros ->. simpl in Hh. done.
  - exists tp, tn. split_and!; [done|done|]. split.
    + apply HNtp. by intros ->.
    + apply HPtn. unfold tn. intros ->. apply Hy. left.
Qed.
End RingOps.

(** ** Reading and writing the store *)

Section StoreFacts.
Context {Data Key : Type} `{KeyOps Key}.
Implicit Types (s : store Data Key) (p q : ptr).

Lemma fld_is_Some {A} (f : FibonacciHeapNode Data Key → A) s p :
  is_Some (fld f s p) ↔ is_Some (cells s !! p).
Proof. unfold fld. by rewrite fmap_is_Some. Qed.

Lemma fld_Some_alloc {A} (f : FibonacciHeapNode Data Key → A) s p v :
  fld f s p = Some v → is_Some (cells s !! p).
Proof. intros Hf. apply (fld_is_Some f). by rewrite Hf. Qed.

Lemma fld_upd {A} (f : FibonacciHeapNode Data Key → A) u p s q :
  fld f (upd u p s) q =
    if decide (p = q) then fld (λ n, f (u n)) s q else fld f s q.
Proof.
  unfold fld, upd. simpl. rewrite lookup_alter.
  destruct (decide (p = q)) as [->|]; [|done]. by destruct (cells s !! q).
Qed.

Lemma fld_upd_ne {A} (f : FibonacciHeapNode Data Key → A) u p s q :
  p ≠ q → fld f (upd u p s) q = fld f s q.
Proof. intros Hne. rewrite fld_upd. by rewrite decide_False. Qed.

(** A write that does not change the field [f]. *)
Lemma fld_upd_ne' {A} (f : FibonacciHeapNode Data Key → A) u p s q :
  (∀ n, f (u n) = f n) → fld f (upd u p s) q = fld f s q.
Proof.
  intros Hf. rewrite fld_upd. case_decide; [|done]. subst.
  unfold fld. destruct (cells s !! q); simpl; [|done]. by rewrite Hf.
Qed.

Lemma fld_const {A} (v : A) s q :
  is_Some (cells s !! q) → fld (λ _ : FibonacciHeapNode Data Key, v) s q = Some v.
Proof. unfold fld. by intros [n ->]. Qed.

Lemma rd_spec {A} (f : FibonacciHeapNode Data Key → A) p s v :
  fld f s p = Some v → rd f p s = Ok (v, s).
Proof.
  unfold fld, rd. destruct (cells s !! p) as [n|]; [|done]. by intros [= <-].
Qed.

Lemma wr_spec u p s : is_Some (cells s !! p) → wr u p s = Ok (tt, upd u p s).
Proof.
  unfold wr, upd. intros [n Hn]. rewrite Hn. do 3 f_equal.
  apply map_eq. intros q. rewrite lookup_alter, lookup_insert.
  destruct (decide (p = q)); [subst; by rewrite Hn | done].
Qed.

Lemma upd_alloc u p s q : is_Some (cells (upd u p s) !! q) ↔ is_Some (cells s !! q).
Proof.
  unfold upd. simpl. rewrite lookup_alter. destruct (decide (p = q)) as [->|]; [|done].
  by rewrite fmap_is_Some.
Qed.

Lemma same_trans {A} (f : FibonacciHeapNode Data Key → A) s1 s2 s3 :
  same f s1 s2 → same f s2 s3 → same f s1 s3.
Proof. intros H1 H2 p. by rewrite H2, H1. Qed.

Lemma same_alloc {A} (f : FibonacciHeapNode Data Key → A) s s' p :
  same f s s' → is_Some (cells s' !! p) ↔ is_Some (cells s !! p).
Proof. intros Hs. by rewrite <- !(fld_is_Some f), Hs. Qed.

End StoreFacts.

(** Computes a field of a store that is written by [upd]. *)
Ltac fld_solve :=
  repeat (rewrite fld_upd; case_decide; simpl);
  simplify_eq; try done;
  try (apply fld_const; rewrite ?upd_alloc; done).

Section NodeOps.
Context {Data Key : Type} `{KeyOps Key}.
Implicit Types (s : store Data Key) (p q : ptr).

Lemma cyc_alloc_next (N P : ptr → option ptr) l a : cyc N P l → a ∈ l → is_Some (N a).
Proof.
  intros Hc Ha. destruct (cyc_rotate_to _ _ _ _ Hc Ha) as (l' & Hc' & _).
  apply cyc_head_next in Hc'. by rewrite Hc'.
Qed.

Lemma cyc_alloc s l a :
  cyc (fld next s) (fld previous s) l → a ∈ l → is_Some (cells s !! a).
Proof. intros Hc Ha. eapply fld_is_Some, cyc_alloc_next; eauto. Qed.

(** [x->insert(o)] on two disjoint circular lists. *)
Lemma node_insert_spec x l1 o l2 s :
  cyc (fld next s) (fld previous s) (x :: l1) →
  cyc (fld next s) (fld previous s) (o :: l2) →
  (x :: l1) ## (o :: l2) →
  ∃ s', node_insert x (Some o) s = Ok (tt, s') ∧
    cyc (fld next s') (fld previous s') (x :: o :: l2 ++ l1) ∧
    same_payload s s' ∧ same_tree s s' ∧
    (∀ p, p ∉ x :: l1 → p ∉ o :: l2 →
       fld next s' p = fld next s p ∧ fld previous s' p = fld previous s p).
Proof.
  intros H1 H2 Hdisj.
  set (tn := default x (head l1)). set (op := default o (last l2)).
  assert (fld next s x = Some tn) as Hx by by apply cyc_head_next in H1.
  assert (fld previous s o = Some op) as Ho by by apply cyc_head_prev in H2.
  assert (tn ∈ x :: l1) as Htn.
  { unfold tn. destruct (head l1) eqn:E; simpl; [right; by apply head_elem_of|left]. }
  assert (op ∈ o :: l2) as Hop.
  { unfold op. destruct (last l2) eqn:E; simpl; [right; by apply last_elem_of|left]. }
  assert (tn ≠ o) as Hne1 by (intros Heq; apply (Hdisj tn); [done|rewrite Heq; left]).
  assert (op ≠ x) as Hne2 by (intros Heq; apply (Hdisj op); [rewrite Heq; left|done]).
  assert (x ≠ o) as Hne3 by (intros Heq; apply (Hdisj x); [left|rewrite Heq; left]).
  pose proof (cyc_alloc _ _ _ H1 Htn) as Atn. pose proof (cyc_alloc _ _ _ H2 Hop) as Aop.
  assert (is_Some (cells s !! x)) as Ax by (eapply cyc_alloc; [exact H1|left]).
  assert (is_Some (cells s !! o)) as Ao by (eapply cyc_alloc; [exact H2|left]).
  set (s1 := upd (set_previous op) tn s).
  set (s2 := upd (set_next tn) op s1).
  set (s3 := upd (set_next o) x s2).
  set (s4 := upd (set_previous x) o s3).
  exists s4. split; [|split; [|split; [|split]]].
  - unfold node_insert.
    erewrite st_bind_eq; [|by apply rd_spec].
    erewrite st_bind_eq; [|by apply rd_spec].
    erewrite st_bind_eq; [|by apply wr_spec]. fold s1.
    erewrite st_bind_eq; [|apply rd_spec; unfold s1; by rewrite fld_upd_ne].
    erewrite st_bind_eq; [|apply rd_spec; unfold s1; rewrite fld_upd; by case_decide].
    erewrite st_bind_eq; [|apply wr_spec; unfold s1; by rewrite upd_alloc]. fold s2.
    erewrite st_bind_eq; [|apply wr_spec; unfold s2, s1; by rewrite !upd_alloc]. fold s3.
    apply wr_spec. unfold s3, s2, s1. by rewrite !upd_alloc.
  - apply (cyc_splice (fld next s) (fld previous s)); try done; fold tn op.
    all: try (intros a Ha1 Ha2); unfold s4, s3, s2, s1; fld_solve.
  - split; [done|]. split; intros p; unfold s4, s3, s2, s1; fld_solve.
  - split_and!; intros p; unfold s4, s3, s2, s1; fld_solve.
  - intros p Hp1 Hp2.
    assert (p ≠ x) by (intros ->; apply Hp1; left).
    assert (p ≠ o) by (intros ->; apply Hp2; left).
    assert (p ≠ tn) by (intros ->; done).
    assert (p ≠ op) by (intros ->; done).
    unfold s4, s3, s2, s1. split; fld_solve.
Qed.

(** [y->remove()] on a circular list. *)
Lemma node_remove_spec y l s :
  cyc (fld next s) (fld previous s) (y :: l) →
  ∃ s', node_remove y s = Ok (tt, s') ∧
    cyc (fld next s') (fld previous s') [y] ∧
    (l ≠ [] → cyc (fld next s') (fld previous s') l) ∧
    same_payload s s' ∧ same_tree s s' ∧
    (∀ p, p ∉ y :: l →
       fld next s' p = fld next s p ∧ fld previous s' p = fld previous s p).
Proof.
  intros H1.
  set (tp := default y (last l)). set (tn := default y (head l)).
  assert (fld next s y = Some tn) as Hn by by apply cyc_head_next in H1.
  assert (fld previous s y = Some tp) as Hp by by apply cyc_head_prev in H1.
  assert (tn ∈ y :: l) as Htn.
  { unfold tn. destruct (head l) eqn:E; simpl; [right; by apply head_elem_of|left]. }
  assert (tp ∈ y :: l) as Htp.
  { unfold tp. destruct (last l) eqn:E; simpl; [right; by apply last_elem_of|left]. }
  pose proof (cyc_alloc _ _ _ H1 Htn) as Atn. pose proof (cyc_alloc _ _ _ H1 Htp) as Atp.
  assert (is_Some (cells s !! y)) as Ay by (eapply cyc_alloc; [exact H1|left]).
  set (s1 := upd (set_next tn) tp s).
  set (s2 := upd (set_previous tp) tn s1).
  set (s3 := upd (set_previous y) y s2).
  set (s4 := upd (set_next y) y s3).
  assert (cyc (fld next s4) (fld previous s4) [y] ∧
          (l ≠ [] → cyc (fld next s4) (fld previous s4) l)) as [Hc1 Hc2].
  { apply (cyc_unlink (fld next s) (fld previous s)); try done; fold tn tp.
    all: try (intros a Ha1 Ha2); try (intros Hne); unfold s4, s3, s2, s1; fld_solve. }
  exists s4. split; [|split; [|split; [|split; [|split]]]]; try done.
  - unfold node_remove.
    erewrite st_bind_eq; [|by apply rd_spec].
    erewrite st_bind_eq; [|by apply rd_spec].
    erewrite st_bind_eq; [|by apply wr_spec]. fold s1.
    erewrite st_bind_eq; [|apply rd_spec; unfold s1; fld_solve].
    erewrite st_bind_eq; [|apply rd_spec; unfold s1; fld_solve].
    erewrite st_bind_eq; [|apply wr_spec; unfold s1; by rewrite upd_alloc]. fold s2.
    erewrite st_bind_eq; [|apply wr_spec; unfold s2, s1; by rewrite !upd_alloc]. fold s3.
    apply wr_spec. unfold s3, s2, s1. by rewrite !upd_alloc.
  - split; [done|]. split; intros p; unfold s4, s3, s2, s1; fld_solve.
  - split_and!; intros p; unfold s4, s3, s2, s1; fld_solve.
  - intros p Hp1.
    assert (p ≠ y) by (intros ->; apply Hp1; left).
    assert (p ≠ tn) by (intros ->; done).
    assert (p ≠ tp) by (intros ->; done).
    unfold s4, s3, s2, s1. split; fld_solve.
Qed.
End NodeOps.

(** ** The forest of a heap *)

Section ForestFacts.
Context {Data Key : Type} `{KeyTotal Key}.
Implicit Types (s : store Data Key) (G : forest) (p q : ptr).

Lemma set_kids_eq f p l : set_kids f p l p = l.
Proof. unfold set_kids. by rewrite decide_True. Qed.

Lemma set_kids_ne f p l q : q ≠ p → set_kids f p l q = f q.
Proof. intros. unfold set_kids. by rewrite decide_False. Qed.

Lemma wf_kid_not_top s G ex q c :
  wf s G ex → q ∈ f_live G → c ∈ f_kids G q → c ∉ f_tops G.
Proof.
  intros W Hq Hc Hin. pose proof (wf_parent_kid _ _ _ W q c Hq Hc) as Hp.
  rewrite (wf_parent_top _ _ _ W c) in Hp by auto. done.
Qed.

Lemma wf_kids_disjoint s G ex q1 q2 c :
  wf s G ex → q1 ∈ f_live G → q2 ∈ f_live G →
  c ∈ f_kids G q1 → c ∈ f_kids G q2 → q1 = q2.
Proof.
  intros W H1 H2 Hc1 Hc2.
  pose proof (wf_parent_kid _ _ _ W q1 c H1 Hc1) as Hp1.
  pose proof (wf_parent_kid _ _ _ W q2 c H2 Hc2) as Hp2. congruence.
Qed.

Lemma wf_not_own_kid s G ex q : wf s G ex → q ∈ f_live G → q ∉ f_kids G q.
Proof.
  intros W Hq Hin. destruct (wf_rank _ _ _ W) as [rk Hrk].
  specialize (Hrk q q Hq Hin). lia.
Qed.

Lemma wf_top_or_kid s G ex p :
  wf s G ex → p ∈ f_live G →
  match fld parent s p with
  | Some None => p ∈ f_tops G
  | Some (Some q) => q ∈ f_live G ∧ p ∈ f_kids G q
  | None => False
  end.
Proof.
  intros W Hp. destruct (wf_cover _ _ _ W p Hp) as [Ht|(q & Hq & Hc)].
  - by rewrite (wf_parent_top _ _ _ W p Ht).
  - by rewrite (wf_parent_kid _ _ _ W q p Hq Hc).
Qed.

Lemma kle_refl s p : is_Some (cells s !! p) → kle s p p.
Proof.
  intros [n Hn]. exists (myKey n), (myKey n). unfold fld. rewrite Hn. split_and!; [done|done|].
  by destruct (key_le_total (myKey n) (myKey n)).
Qed.

Lemma kle_trans s p q r : kle s p q → kle s q r → kle s p r.
Proof.
  intros (a & b & Ha & Hb & Hab) (b' & c & Hb' & Hc & Hbc).
  exists a, c. split_and!; [done|done|]. eapply key_le_trans; [done|]. congruence.
Qed.

Lemma kle_same s s' p q : same myKey s s' → kle s p q → kle s' p q.
Proof.
  intros Hs (a & b & Ha & Hb & Hab). exists a, b. by rewrite !Hs.
Qed.

Lemma min_root_same s s' root l : same myKey s s' → min_root s root l → min_root s' root l.
Proof.
  intros Hs. destruct root as [r|]; simpl; [|done].
  intros [Hr Hmin]. split; [done|]. intros x Hx. eapply kle_same; eauto.
Qed.

(** The invariant reads only the nodes of the forest. *)
Lemma wf_frame s s' G ex :
  (∀ p, p ∈ f_live G → cells s' !! p = cells s !! p) →
  fresh s ≤ fresh s' →
  wf s G ex → wf s' G ex.
Proof.
  intros Hag Hfr W.
  assert (∀ A (f : FibonacciHeapNode Data Key → A) p,
            p ∈ f_live G → fld f s' p = fld f s p) as Hf.
  { intros A f p Hp. unfold fld. by rewrite Hag. }
  pose proof W as []. split; try done.
  - intros p Hp. rewrite Hag by done. destruct (wf_alloc0 p Hp). split; [done|lia].
  - intros p Hp. rewrite Hf by auto. auto.
  - intros q c Hq Hc. rewrite Hf by eauto. auto.
  - intros p Hp. rewrite Hf by done. exact (wf_child0 p Hp).
  - intros p Hp. rewrite Hf by done. auto.
  - intros q c Hq Hc Hex. destruct (wf_order0 q c Hq Hc Hex) as (a & b & Ha & Hb & Hab).
    exists a, b. rewrite !Hf by eauto. done.
  - intros q Hq Hne. eapply ring_frame; [|by apply wf_ring_kids0].
    intros a Ha. rewrite !Hf by eauto. done.
  - intros q i c Hq Hi Hex. rewrite Hf; [by eapply wf_fib0|].
    eapply wf_kids_live0; [done|]. by eapply list_elem_of_lookup_2.
Qed.

(** The links of the nodes without parent are not constrained. *)
Lemma wf_relink s s' G ex :
  wf s G ex →
  same_payload s s' → same_tree s s' →
  (∀ p, p ∈ f_live G → p ∉ f_tops G →
     fld next s' p = fld next s p ∧ fld previous s' p = fld previous s p) →
  wf s' G ex.
Proof.
  intros W (Hfr & Hkey & Hdata) (Hpar & Hch & Hdeg & Hmk) Hlinks.
  pose proof W as []. split; try done.
  - intros p Hp. rewrite (same_alloc myKey s s') by done. rewrite Hfr. auto.
  - intros p Hp. rewrite Hpar. auto.
  - intros q c Hq Hc. rewrite Hpar. auto.
  - intros p Hp. rewrite Hch. exact (wf_child0 p Hp).
  - intros p Hp. rewrite Hdeg. auto.
  - intros q c Hq Hc Hex. eapply kle_same; [exact Hkey|]. eauto.
  - intros q Hq Hne. eapply ring_frame; [|by apply wf_ring_kids0].
    intros a Ha. apply Hlinks; [eauto|]. by eapply wf_kid_not_top.
  - intros q i c Hq Hi Hex. rewrite Hmk. eauto.
Qed.

(** A node that is no child is exempted from nothing. *)
Lemma wf_exempt_top s G c : c ∈ f_tops G → wf s G (Some c) → wf s G None.
Proof.
  intros Hc W. pose proof W as []. split; try done.
  - intros q c' Hq Hc' _. apply wf_order0; [done|done|]. intros [= ->].
    by eapply wf_kid_not_top.
  - intros q i c' Hq Hi _. apply (wf_fib0 q); [done|done|]. intros [= ->].
    eapply wf_kid_not_top; [done|exact Hq| |done]. by eapply list_elem_of_lookup_2.
Qed.

Lemma NoDup_app_remove {A} (l1 l2 : list A) x :
  NoDup (l1 ++ x :: l2) → NoDup (l1 ++ l2) ∧ x ∉ l1 ++ l2.
Proof.
  intros Hnd. apply NoDup_app in Hnd as (H1 & H2 & H3).
  apply NoDup_cons in H3 as [H3 H4]. split.
  - apply NoDup_app. split_and!; [done| |done]. intros y Hy Hy2. apply (H2 y Hy). by right.
  - rewrite elem_of_app. intros [Hx|Hx]; [|done]. apply (H2 x Hx). left.
Qed.

(** A node allocated at the fresh address joins the forest as a tree of
    one node, in a circular list of its own. *)
Lemma wf_new_node s G ex d k :
  wf s G ex →
  (N.of_nat (S (length (f_live G))) < UInt.modulus)%N →
  ∃ s', new_node d k s = Ok (fresh s, s') ∧
    wf s' (mkForest (fresh s :: f_tops G) (set_kids (f_kids G) (fresh s) [])
             (fresh s :: f_live G)) ex ∧
    cyc (fld next s') (fld previous s') [fresh s] ∧
    item_of s' (fresh s) = Some (d, k) ∧
    (fresh s ∉ f_live G) ∧
    (∀ q, q ≠ fresh s → cells s' !! q = cells s !! q).
Proof.
  intros W Hsmall. set (p := fresh s).
  set (s' := mkStore (<[p := mkNode k d 0%N false p p None None]> (cells s)) (S p)).
  assert (p ∉ f_live G) as Hp.
  { intros Hin. destruct (wf_alloc _ _ _ W p Hin). unfold p in *. lia. }
  assert (∀ q, q ≠ p → cells s' !! q = cells s !! q) as Hag.
  { intros q Hq. unfold s'. simpl. by rewrite lookup_insert_ne. }
  assert (cells s' !! p = Some (mkNode k d 0%N false p p None None)) as Hnew.
  { unfold s'. simpl. by rewrite lookup_insert_eq. }
  assert (∀ A (f : FibonacciHeapNode Data Key → A),
            fld f s' p = Some (f (mkNode k d 0%N false p p None None))) as Hfp.
  { intros A f. unfold fld. by rewrite Hnew. }
  exists s'. split; [done|]. split; [|split_and!; try done].
  - assert (wf s' G ex) as W'.
    { eapply wf_frame; [| |done].
      - intros q Hq. apply Hag. by intros ->.
      - simpl. unfold p. lia. }
    assert (∀ q, q ∈ f_live G → set_kids (f_kids G) p [] q = f_kids G q) as Hk.
    { intros q Hq. apply set_kids_ne. by intros ->. }
    assert (set_kids (f_kids G) p [] p = []) as Hkp by apply set_kids_eq.
    destruct W'. split; cbn [f_tops f_kids f_live].
    + done.
    + by apply NoDup_cons.
    + apply NoDup_cons. split; [|done]. intros Hin. by apply Hp, wf_tops_live0.
    + intros q Hq. apply elem_of_cons in Hq as [->|Hq]; [left|right; auto].
    + intros q Hq. apply elem_of_cons in Hq as [->|Hq].
      * rewrite Hkp. constructor.
      * rewrite Hk by done. auto.
    + intros q c Hq Hc. apply elem_of_cons in Hq as [->|Hq].
      * rewrite Hkp in Hc. by apply elem_of_nil in Hc.
      * rewrite Hk in Hc by done. right. eauto.
    + intros q Hq. apply elem_of_cons in Hq as [->|Hq].
      * left. left.
      * destruct (wf_cover0 q Hq) as [?|(q' & Hq' & Hc)].
        -- left. by right.
        -- right. exists q'. split; [by right|]. by rewrite Hk.
    + intros q Hq. apply elem_of_cons in Hq as [->|Hq].
      * split; [by rewrite Hnew|]. unfold s', p. simpl. lia.
      * auto.
    + intros q Hq. apply elem_of_cons in Hq as [->|Hq]; [|auto].
      by rewrite Hfp.
    + intros q c Hq Hc. apply elem_of_cons in Hq as [->|Hq].
      * rewrite Hkp in Hc. by apply elem_of_nil in Hc.
      * rewrite Hk in Hc by done. auto.
    + intros q Hq. apply elem_of_cons in Hq as [->|Hq].
      * by rewrite Hfp, Hkp.
      * rewrite Hk by done. exact (wf_child0 q Hq).
    + intros q Hq. apply elem_of_cons in Hq as [->|Hq].
      * by rewrite Hfp, Hkp.
      * rewrite Hk by done. auto.
    + intros q c Hq Hc Hex. apply elem_of_cons in Hq as [->|Hq].
      * rewrite Hkp in Hc. by apply elem_of_nil in Hc.
      * rewrite Hk in Hc by done. auto.
    + intros q Hq Hne. apply elem_of_cons in Hq as [->|Hq]; [by rewrite Hkp in Hne|].
      rewrite Hk in * by done. auto.
    + destruct wf_rank0 as [rk Hrk]. exists rk. intros q c Hq Hc.
      apply elem_of_cons in Hq as [->|Hq].
      * rewrite Hkp in Hc. by apply elem_of_nil in Hc.
      * rewrite Hk in Hc by done. auto.
    + intros q i c Hq Hi Hex. apply elem_of_cons in Hq as [->|Hq].
      * by rewrite Hkp in Hi.
      * rewrite Hk in Hi by done. destruct (wf_fib0 q i c Hq Hi Hex) as (mk & Hmk & Hb).
        exists mk. split; [done|]. rewrite Hk; [done|].
        eapply wf_kids_live0; [done|]. by eapply list_elem_of_lookup_2.
  - apply cyc_singleton. split; by rewrite Hfp.
  - unfold item_of. by rewrite !Hfp.
Qed.
End ForestFacts.

(** ** The operations of the heap *)

Section HeapOps.
Context {Data Key : Type} `{KeyTotal Key}.
Implicit Types (s : store Data Key) (G : forest) (p q : ptr) (h : FibonacciHeap).

Lemma key_lt_kle s p q kp kq :
  fld myKey s p = Some kp → fld myKey s q = Some kq →
  if key_lt kp kq then kle s p q else kle s q p.
Proof.
  intros Hp Hq. rewrite key_lt_le. destruct (key_le kq kp) eqn:E; simpl.
  - by exists kq, kp.
  - exists kp, kq. split_and!; [done|done|]. destruct (key_le_total kp kq); congruence.
Qed.

(** [insertNode(p)] puts the circular list [p] into the list of roots. *)
Lemma insertNode_spec s h p I :
  (I ≠ [] → ring (fld next s) (fld previous s) I) →
  min_root s (rootWithMinKey h) I →
  cyc (fld next s) (fld previous s) [p] →
  p ∉ I →
  ∃ s' h', insertNode h p s = Ok (h', s') ∧
    ring (fld next s') (fld previous s') (p :: I) ∧
    min_root s' (rootWithMinKey h') (p :: I) ∧
    count h' = count h ∧ maxDegree h' = maxDegree h ∧
    same_payload s s' ∧ same_tree s s' ∧
    (∀ q, q ∉ p :: I →
       fld next s' q = fld next s q ∧ fld previous s' q = fld previous s q).
Proof.
  intros Hring Hmin Hp HpI. unfold insertNode.
  assert (is_Some (cells s !! p)) as Ap by (eapply cyc_alloc; [done|left]).
  destruct (rootWithMinKey h) as [r|] eqn:Hr; simpl in Hmin.
  - destruct Hmin as [HrI Hmin].
    assert (I ≠ []) as HI by (intros ->; by apply elem_of_nil in HrI).
    destruct (ring_cyc _ _ _ _ (Hring HI) HrI) as (l' & Hc & Hperm).
    destruct (node_insert_spec r l' p [] s Hc Hp) as (s' & E & Hc' & Hpay & Htree & Hlinks).
    { intros x Hx1 Hx2. apply list_elem_of_singleton in Hx2 as ->. apply HpI.
      by rewrite <- Hperm. }
    simpl in Hc'.
    assert (ring (fld next s') (fld previous s') (p :: I)) as Hring'.
    { exists (r :: p :: l'). split; [|done]. rewrite <- Hperm. apply Permutation_swap. }
    destruct Hpay as (Hfr & Hkey & Hdata).
    destruct (proj2 (fld_is_Some myKey s p) Ap) as [kn Hkn].
    assert (is_Some (cells s !! r)) as Ar by (eapply cyc_alloc; [exact Hc|left]).
    destruct (proj2 (fld_is_Some myKey s r) Ar) as [kr Hkr].
    pose proof (key_lt_kle s p r kn kr Hkn Hkr) as Hcmp.
    erewrite st_bind_eq; [|exact E].
    erewrite st_bind_eq; [|apply rd_spec; by rewrite Hkey].
    erewrite st_bind_eq; [|apply rd_spec; by rewrite Hkey].
    destruct (key_lt kn kr).
    + eexists s', _. split; [done|]. simpl. split_and!; try done.
      * left.
      * intros x Hx. eapply kle_same; [exact Hkey|].
        apply elem_of_cons in Hx as [->|Hx]; [by apply kle_refl|].
        eapply kle_trans; [exact Hcmp|]. auto.
      * intros q Hq. apply Hlinks.
        -- rewrite Hperm. intros Hin. apply Hq. by right.
        -- intros Hin. apply Hq. apply list_elem_of_singleton in Hin as ->. left.
    + eexists s', _. split; [done|]. rewrite Hr. simpl. split_and!; try done.
      * by right.
      * intros x Hx. eapply kle_same; [exact Hkey|].
        apply elem_of_cons in Hx as [->|Hx]; [done|auto].
      * intros q Hq. apply Hlinks.
        -- rewrite Hperm. intros Hin. apply Hq. by right.
        -- intros Hin. apply Hq. apply list_elem_of_singleton in Hin as ->. left.
  - subst I. eexists s, _. split; [done|]. simpl. split_and!; try done.
    + by apply cyc_ring.
    + left.
    + intros x Hx. apply list_elem_of_singleton in Hx as ->. by apply kle_refl.
Qed.

(** [insert(d, k)] adds a node to the heap. *)
Lemma insert_spec s h G d k :
  heap_inv s h G →
  (N.of_nat (S (length (f_live G))) < UInt.modulus)%N →
  ∃ s' h', insert h d k s = Ok ((fresh s, h'), s') ∧
    heap_inv s' h' (mkForest (fresh s :: f_tops G) (set_kids (f_kids G) (fresh s) [])
                      (fresh s :: f_live G)) ∧
    item_of s' (fresh s) = Some (d, k) ∧
    (fresh s ∉ f_live G) ∧
    (∀ q, q ∈ f_live G → item_of s' q = item_of s q).
Proof.
  intros [W Hring Hroot Hcount Hmax] Hsmall. unfold insert.
  destruct (wf_new_node s G None d k W Hsmall) as (s1 & E1 & W1 & Hc1 & Hitem & Hfresh & Hag).
  set (p := fresh s) in *.
  assert (∀ A (f : FibonacciHeapNode Data Key → A) q, q ∈ f_live G → fld f s1 q = fld f s q) as Hf.
  { intros A f q Hq. unfold fld. rewrite Hag; [done|]. by intros ->. }
  assert (p ∉ f_tops G) as HpI by (intros Hin; by apply Hfresh, (wf_tops_live _ _ _ W)).
  destruct (insertNode_spec s1 (mkHeap (rootWithMinKey h) (UInt.incr (count h)) (maxDegree h))
              p (f_tops G)) as (s2 & h2 & E2 & Hr2 & Hm2 & Hcnt2 & Hmd2 & Hpay & Htree & Hlinks);
    [| |done|done|].
  { intros Hne. eapply ring_frame; [|by apply Hring].
    intros a Ha. rewrite !Hf; [done|by apply (wf_tops_live _ _ _ W)..]. }
  { simpl. destruct (rootWithMinKey h) as [r|]; simpl in *; [|done].
    destruct Hroot as [Hr Hmin]. split; [done|]. intros x Hx.
    destruct (Hmin x Hx) as (a & b & Ha & Hb & Hab). exists a, b.
    rewrite !Hf; [done|by apply (wf_tops_live _ _ _ W)..]. }
  erewrite st_bind_eq; [|exact E1]. erewrite st_bind_eq; [|exact E2].
  eexists s2, h2. split; [done|]. split_and!.
  - split; cbn [f_tops f_kids f_live].
    + eapply wf_relink; [exact W1|done|done|]. cbn [f_tops]. auto.
    + done.
    + done.
    + rewrite Hcnt2. simpl. rewrite Hcount. unfold UInt.incr, UInt.add.
      rewrite N.mod_small; lia.
    + by rewrite Hmd2.
  - destruct Hpay as (_ & Hk & Hd). unfold item_of. by rewrite Hk, Hd.
  - done.
  - intros q Hq. destruct Hpay as (_ & Hk & Hd). unfold item_of.
    by rewrite Hk, Hd, !Hf.
Qed.
End HeapOps.

Section RingMid.
Variables (N P : ptr → option ptr).

Lemma cyc_next_mid pre a suf :
  cyc N P (pre ++ a :: suf) →
  N a = Some (default (default a (head pre)) (head suf)).
Proof.
  intros Hc. apply (cyc_rotate _ _ pre (a :: suf)) in Hc. simpl in Hc.
  apply cyc_head_next in Hc. rewrite Hc. f_equal.
  destruct suf as [|b suf]; simpl; [|done]. by destruct pre.
Qed.

Lemma cyc_perm_ring l l' : cyc N P l → l ≡ₚ l' → ring N P l'.
Proof. intros Hc Hp. by exists l. Qed.
End RingMid.

Section LinkForest.
Context {Data Key : Type} `{KeyTotal Key}.
Implicit Types (s : store Data Key) (G : forest) (p q : ptr) (h : FibonacciHeap).

(** [y->remove()] anywhere in a circular list. *)
Lemma node_remove_mid pre y suf s :
  cyc (fld next s) (fld previous s) (pre ++ y :: suf) →
  ∃ s', node_remove y s = Ok (tt, s') ∧
    cyc (fld next s') (fld previous s') [y] ∧
    (pre ++ suf ≠ [] → cyc (fld next s') (fld previous s') (pre ++ suf)) ∧
    same_payload s s' ∧ same_tree s s' ∧
    (∀ p, p ∉ pre ++ y :: suf →
       fld next s' p = fld next s p ∧ fld previous s' p = fld previous s p).
Proof.
  intros Hc. apply (cyc_rotate _ _ pre (y :: suf)) in Hc. simpl in Hc.
  destruct (node_remove_spec y (suf ++ pre) s Hc) as (s' & E & H1 & H2 & Hpay & Htree & Hl).
  exists s'. split_and!; try done.
  - intros Hne. apply cyc_rotate. apply H2. intros Heq. apply Hne.
    apply app_eq_nil in Heq as [-> ->]. done.
  - intros p Hp. apply Hl. intros Hin. apply Hp.
    rewrite elem_of_app, elem_of_cons. rewrite elem_of_cons, elem_of_app in Hin. tauto.
Qed.

(** The tree [y] becomes the last child of the root [x]. *)
Lemma wf_link s s' G ex x y T' :
  wf s G ex →
  x ∈ f_tops G → f_tops G ≡ₚ y :: T' → x ≠ y →
  kle s x y → length (f_kids G x) = length (f_kids G y) →
  same_payload s s' →
  (∀ p, p ≠ y → fld parent s' p = fld parent s p) →
  fld parent s' y = Some (Some x) →
  (∀ p, p ≠ x → fld child s' p = fld child s p) →
  (∃ c, fld child s' x = Some (Some c) ∧ c ∈ f_kids G x ++ [y]) →
  (∀ p, p ≠ x → fld degree s' p = fld degree s p) →
  fld degree s' x = Some (N.of_nat (S (length (f_kids G x)))) →
  (∀ p, p ≠ y → fld mark s' p = fld mark s p) →
  fld mark s' y = Some false →
  (∀ p, p ∉ y :: f_kids G x →
     fld next s' p = fld next s p ∧ fld previous s' p = fld previous s p) →
  ring (fld next s') (fld previous s') (f_kids G x ++ [y]) →
  wf s' (mkForest T' (set_kids (f_kids G) x (f_kids G x ++ [y])) (f_live G)) ex.
Proof.
  intros W Hx Hperm Hxy Hle Hlen (Hfr & Hkey & Hdata) Hpar Hpary Hch Hchx Hdeg Hdegx
    Hmk Hmky Hlinks Hring.
  assert (y ∈ f_tops G) as Hy by (rewrite Hperm; left).
  assert (NoDup (y :: T')) as Hnd by (rewrite <- Hperm; by apply (wf_tops_nodup _ _ _ W)).
  apply NoDup_cons in Hnd as [HyT HndT].
  assert (∀ p, p ∈ T' → p ∈ f_tops G) as HT by (intros p Hp; rewrite Hperm; by right).
  assert (x ∈ f_live G) as Hxl by by apply (wf_tops_live _ _ _ W).
  assert (y ∈ f_live G) as Hyl by by apply (wf_tops_live _ _ _ W).
  assert (∀ q c, q ∈ f_live G → c ∈ f_kids G q → c ≠ y ∧ c ≠ x) as Hkid.
  { intros q c Hq Hc. split; intros ->; by eapply (wf_kid_not_top _ _ _ _ _ W Hq Hc). }
  set (K := set_kids (f_kids G) x (f_kids G x ++ [y])).
  assert (K x = f_kids G x ++ [y]) as HKx by apply set_kids_eq.
  assert (∀ q, q ≠ x → K q = f_kids G q) as HKne by (intros q Hq; by apply set_kids_ne).
  pose proof W as []. split; cbn [f_tops f_kids f_live]; fold K.
  - done.
  - done.
  - done.
  - auto.
  - intros q Hq. destruct (decide (q = x)) as [->|Hne].
    + rewrite HKx. apply NoDup_app. split_and!; [auto| |apply NoDup_singleton].
      intros c Hc Hc'. apply list_elem_of_singleton in Hc' as ->.
      by destruct (Hkid x y Hxl Hc).
    + rewrite HKne by done. auto.
  - intros q c Hq. destruct (decide (q = x)) as [->|Hne].
    + rewrite HKx. intros [Hc|Hc]%elem_of_app; [eauto|].
      by apply list_elem_of_singleton in Hc as ->.
    + rewrite HKne by done. eauto.
  - intros p Hp. destruct (wf_cover0 p Hp) as [Ht|(q & Hq & Hc)].
    + rewrite Hperm in Ht. apply elem_of_cons in Ht as [->|Ht]; [|by left].
      right. exists x. split; [done|]. rewrite HKx, elem_of_app. right. left.
    + right. exists q. split; [done|]. destruct (decide (q = x)) as [->|Hne].
      * rewrite HKx, elem_of_app. by left.
      * by rewrite HKne.
  - intros p Hp. rewrite (same_alloc myKey s s') by done. rewrite Hfr. auto.
  - intros p Hp. rewrite Hpar; [auto|]. by intros ->.
  - intros q c Hq. destruct (decide (q = x)) as [->|Hne].
    + rewrite HKx. intros [Hc|Hc]%elem_of_app.
      * rewrite Hpar; [auto|]. by destruct (Hkid x c Hxl Hc).
      * by apply list_elem_of_singleton in Hc as ->.
    + rewrite HKne by done. intros Hc. rewrite Hpar; [auto|]. by destruct (Hkid q c Hq Hc).
  - intros p Hp. destruct (decide (p = x)) as [->|Hne].
    + destruct Hchx as (c & -> & Hc). by rewrite HKx.
    + rewrite Hch, HKne by done. exact (wf_child0 p Hp).
  - intros p Hp. destruct (decide (p = x)) as [->|Hne].
    + rewrite Hdegx, HKx, length_app. simpl. do 2 f_equal. lia.
    + rewrite Hdeg, HKne by done. auto.
  - intros q c Hq. destruct (decide (q = x)) as [->|Hne].
    + rewrite HKx. intros [Hc|Hc]%elem_of_app Hex.
      * eapply kle_same; [exact Hkey|]. auto.
      * apply list_elem_of_singleton in Hc as ->. eapply kle_same; [exact Hkey|]. done.
    + rewrite HKne by done. intros Hc Hex. eapply kle_same; [exact Hkey|]. auto.
  - intros q Hq. destruct (decide (q = x)) as [->|Hne].
    + by rewrite HKx.
    + rewrite HKne by done. intros Hnn. eapply ring_frame; [|by apply wf_ring_kids0].
      intros a Ha. apply Hlinks. intros [->|Hin]%elem_of_cons.
      * by destruct (Hkid q y Hq Ha).
      * apply Hne. by eapply (wf_kids_disjoint _ _ _ _ _ _ W Hq Hxl Ha Hin).
  - destruct wf_rank0 as [rk Hrk].
    exists (λ p, if decide (p = x) then max (rk x) (S (rk y)) else rk p).
    intros q c Hq Hc.
    assert (c ≠ x) as Hcx.
    { intros ->. destruct (decide (q = x)) as [->|Hne].
      - rewrite HKx in Hc. apply elem_of_app in Hc as [Hc|Hc].
        + by destruct (Hkid x x Hxl Hc).
        + by apply list_elem_of_singleton in Hc.
      - rewrite HKne in Hc by done. by destruct (Hkid q x Hq Hc). }
    rewrite (decide_False (P := c = x)) by done.
    destruct (decide (q = x)) as [->|Hne].
    + rewrite HKx in Hc. apply elem_of_app in Hc as [Hc|Hc].
      * specialize (Hrk x c Hxl Hc). lia.
      * apply list_elem_of_singleton in Hc as ->. lia.
    + rewrite HKne in Hc by done. auto.
  - intros q i c Hq Hi Hex.
    assert (c ∈ K q) as Hc by by eapply list_elem_of_lookup_2.
    assert (c ≠ x) as Hcx.
    { intros ->. destruct (decide (q = x)) as [->|Hne].
      - rewrite HKx in Hc. apply elem_of_app in Hc as [Hc|Hc].
        + by destruct (Hkid x x Hxl Hc).
        + by apply list_elem_of_singleton in Hc.
      - rewrite HKne in Hc by done. by destruct (Hkid q x Hq Hc). }
    rewrite (HKne c) by done.
    destruct (decide (q = x)) as [->|Hne].
    + rewrite HKx in Hi. apply lookup_app_Some in Hi as [Hi|[Hge Hi]].
      * assert (c ≠ y) as Hcy.
        { apply list_elem_of_lookup_2 in Hi. by destruct (Hkid x c Hxl Hi). }
        rewrite Hmk by done. by apply (wf_fib0 x).
      * apply list_lookup_singleton_Some in Hi as [Hi ->].
        exists false. split; [done|]. lia.
    + rewrite HKne in Hi, Hc by done.
      rewrite Hmk; [by apply (wf_fib0 q)|]. by destruct (Hkid q c Hq Hc).
Qed.
End LinkForest.

Section LinkCode.
Context {Data Key : Type} `{KeyTotal Key}.
Implicit Types (s : store Data Key) (G : forest) (p q : ptr) (h : FibonacciHeap).

Lemma wf_kids_length s G ex q :
  wf s G ex → q ∈ f_live G → length (f_kids G q) < length (f_live G).
Proof.
  intros W Hq.
  assert (q :: f_kids G q ⊆+ f_live G) as Hsub.
  { apply NoDup_submseteq.
    - apply NoDup_cons. split; [by eapply wf_not_own_kid|by eapply wf_kids_nodup].
    - intros c [->|Hc]%elem_of_cons; [done|]. by eapply wf_kids_live. }
  apply submseteq_length in Hsub. simpl in Hsub. lia.
Qed.

Lemma UInt_incr_nat n :
  (N.of_nat (S n) < UInt.modulus)%N → UInt.incr (N.of_nat n) = N.of_nat (S n).
Proof. intros Hn. unfold UInt.incr, UInt.add. rewrite N.mod_small; lia. Qed.

Lemma UInt_decr_nat n :
  (N.of_nat (S n) < UInt.modulus)%N → UInt.decr (N.of_nat (S n)) = N.of_nat n.
Proof.
  intros Hn. unfold UInt.decr.
  replace (N.of_nat (S n) + (UInt.modulus - 1))%N with (N.of_nat n + 1 * UInt.modulus)%N by lia.
  rewrite N.Div0.mod_add. rewrite N.mod_small; lia.
Qed.

(** [x->addChild(y)] *)
Lemma addChild_spec s G ex x y T' :
  wf s G ex →
  x ∈ f_tops G → f_tops G ≡ₚ y :: T' → x ≠ y →
  cyc (fld next s) (fld previous s) [y] →
  kle s x y → length (f_kids G x) = length (f_kids G y) →
  ∃ s', addChild x y s = Ok (tt, s') ∧
    wf s' (mkForest T' (set_kids (f_kids G) x (f_kids G x ++ [y])) (f_live G)) ex ∧
    same_payload s s' ∧
    (∀ p, p ∉ y :: f_kids G x →
       fld next s' p = fld next s p ∧ fld previous s' p = fld previous s p).
Proof.
  intros W Hx Hperm Hxy Hcy Hle Hlen.
  assert (y ∈ f_tops G) as Hy by (rewrite Hperm; left).
  assert (x ∈ f_live G) as Hxl by by apply (wf_tops_live _ _ _ W).
  assert (y ∈ f_live G) as Hyl by by apply (wf_tops_live _ _ _ W).
  destruct (wf_alloc _ _ _ W x Hxl) as [Ax _]. destruct (wf_alloc _ _ _ W y Hyl) as [Ay _].
  assert (y ∉ f_kids G x) as Hyk.
  { intros Hin. by eapply (wf_kid_not_top _ _ _ _ _ W Hxl Hin). }
  assert (x ∉ f_kids G x) as Hxk by by eapply wf_not_own_kid.
  (* the list of children *)
  assert (∃ s1 c c0, fld child s x = Some c0 ∧
            match c0 with
            | None => wr (set_child (Some y)) x
            | Some c0 => node_insert c0 (Some y)
            end s = Ok (tt, s1) ∧
            same_payload s s1 ∧ same parent s s1 ∧ same degree s s1 ∧ same mark s s1 ∧
            (∀ p, p ≠ x → fld child s1 p = fld child s p) ∧
            fld child s1 x = Some (Some c) ∧ c ∈ f_kids G x ++ [y] ∧
            (∀ p, p ∉ y :: f_kids G x →
               fld next s1 p = fld next s p ∧ fld previous s1 p = fld previous s p) ∧
            ring (fld next s1) (fld previous s1) (f_kids G x ++ [y]))
    as (s1 & c & c0 & E0 & E1 & Hpay1 & Hpar1 & Hdeg1 & Hmk1 & Hch1 & Hchx1 & Hc & Hl1 & Hring1).
  { pose proof (wf_child _ _ _ W x Hxl) as Hchild.
    destruct (fld child s x) as [[c|]|] eqn:Ec; [| |done].
    - destruct (ring_cyc _ _ _ _ (wf_ring_kids _ _ _ W x Hxl ltac:(by intros Heq; rewrite Heq in Hchild; apply elem_of_nil in Hchild)) Hchild)
        as (l' & Hcyc & Hp').
      destruct (node_insert_spec c l' y [] s Hcyc Hcy) as (s1 & E & Hc' & Hpay & Htree & Hl).
      { intros a Ha1 Ha2. apply list_elem_of_singleton in Ha2 as ->. apply Hyk. by rewrite <- Hp'. }
      destruct Htree as (Hpar & Hch & Hdeg & Hmk).
      exists s1, c, (Some c). split_and!; try done.
      + by rewrite Hch.
      + rewrite elem_of_app. by left.
      + intros p Hp. apply Hl.
        * rewrite Hp'. intros Hin. apply Hp. by right.
        * intros Hin. apply list_elem_of_singleton in Hin as ->. apply Hp. left.
      + eapply cyc_perm_ring; [exact Hc'|]. simpl. rewrite <- Hp'.
        rewrite (Permutation_app_comm (c :: l') [y]). simpl. apply Permutation_swap.
    - exists (upd (set_child (Some y)) x s), y, None. rewrite Hchild. split_and!.
      + done.
      + by apply wr_spec.
      + split; [done|]. split; intros p; fld_solve.
      + intros p; fld_solve.
      + intros p; fld_solve.
      + intros p; fld_solve.
      + intros p Hp. by rewrite fld_upd_ne.
      + fld_solve.
      + left.
      + intros p Hp. split; fld_solve.
      + simpl. apply cyc_ring. eapply cyc_frame; [|exact Hcy].
        intros a Ha. split; fld_solve. }
  destruct Hpay1 as (Hfr1 & Hkey1 & Hdata1).
  assert (is_Some (cells s1 !! x)) as Ax1 by by rewrite (same_alloc myKey s s1).
  assert (is_Some (cells s1 !! y)) as Ay1 by by rewrite (same_alloc myKey s s1).
  set (s2 := upd (set_parent (Some x)) y s1).
  set (s3 := upd (set_mark false) y s2).
  set (s4 := upd (set_degree (UInt.incr (N.of_nat (length (f_kids G x))))) x s3).
  assert (N.of_nat (S (length (f_kids G x))) < UInt.modulus)%N as Hsmall.
  { pose proof (wf_kids_length _ _ _ _ W Hxl). pose proof (wf_small _ _ _ W). lia. }
  exists s4. split; [|split; [|split]].
  - unfold addChild.
    erewrite st_bind_eq; [|by apply rd_spec].
    erewrite st_bind_eq; [|exact E1].
    erewrite st_bind_eq; [|by apply wr_spec]. fold s2.
    erewrite st_bind_eq; [|apply wr_spec; unfold s2; by rewrite upd_alloc]. fold s3.
    erewrite st_bind_eq;
      [|apply rd_spec; unfold s3, s2; rewrite !fld_upd_ne by done;
        rewrite Hdeg1; by apply (wf_degree _ _ _ W)].
    apply wr_spec. unfold s3, s2. by rewrite !upd_alloc.
  - eapply (wf_link s s4); try done.
    + split; [done|]. split; intros p; unfold s4, s3, s2; fld_solve.
    + intros p Hp. unfold s4, s3, s2. fld_solve; try apply Hpar1.
    + unfold s4, s3, s2. fld_solve.
    + intros p Hp. unfold s4, s3, s2. fld_solve; try by apply Hch1.
    + exists c. split; [|done]. unfold s4, s3, s2. fld_solve.
    + intros p Hp. unfold s4, s3, s2. fld_solve; try apply Hdeg1.
    + unfold s4, s3, s2. rewrite UInt_incr_nat by done. fld_solve.
    + intros p Hp. unfold s4, s3, s2. fld_solve; try apply Hmk1.
    + unfold s4, s3, s2. fld_solve.
    + intros p Hp. unfold s4, s3, s2. destruct (Hl1 p Hp). split; fld_solve.
    + eapply ring_frame; [|exact Hring1]. intros a Ha. unfold s4, s3, s2. split; fld_solve.
  - split; [done|]. split; intros p; unfold s4, s3, s2; fld_solve.
  - intros p Hp. unfold s4, s3, s2. destruct (Hl1 p Hp). split; fld_solve.
Qed.
End LinkCode.

Section Cut.
Context {Data Key : Type} `{KeyTotal Key}.
Implicit Types (s : store Data Key) (G : forest) (p q : ptr) (h : FibonacciHeap).

(** The child [c] of [q] becomes a tree of its own. *)
Lemma wf_cut s s' G ex q c K1 K2 :
  wf s G ex → (∀ z, ex = Some z → z = c) →
  q ∈ f_live G → f_kids G q = K1 ++ c :: K2 →
  same_payload s s' →
  (∀ p, p ≠ c → fld parent s' p = fld parent s p) →
  fld parent s' c = Some None →
  (∀ p, p ≠ q → fld child s' p = fld child s p) →
  match fld child s' q with
  | Some None => K1 ++ K2 = []
  | Some (Some c') => c' ∈ K1 ++ K2
  | None => False
  end →
  (∀ p, p ≠ q → fld degree s' p = fld degree s p) →
  fld degree s' q = Some (N.of_nat (length (K1 ++ K2))) →
  (∀ p, p ≠ c → fld mark s' p = fld mark s p) →
  (∀ p, p ∉ f_kids G q →
     fld next s' p = fld next s p ∧ fld previous s' p = fld previous s p) →
  (K1 ++ K2 ≠ [] → ring (fld next s') (fld previous s') (K1 ++ K2)) →
  let G' := mkForest (c :: f_tops G) (set_kids (f_kids G) q (K1 ++ K2)) (f_live G) in
  wf s' G' (Some q) ∧ lost_child s' G' q.
Proof.
  intros W Hex Hq HK (Hfr & Hkey & Hdata) Hpar Hparc Hch Hchq Hdeg Hdegq Hmk Hlinks Hring G'. subst G'.
  assert (c ∈ f_kids G q) as Hc by (rewrite HK, elem_of_app; right; left).
  assert (NoDup (K1 ++ c :: K2)) as Hnd by (rewrite <- HK; by apply (wf_kids_nodup _ _ _ W)).
  destruct (NoDup_app_remove _ _ _ Hnd) as [Hnd' HcK].
  assert (∀ a, a ∈ K1 ++ K2 → a ∈ f_kids G q) as HKin.
  { intros a Ha. rewrite HK. rewrite elem_of_app in Ha. rewrite elem_of_app, elem_of_cons. tauto. }
  assert (c ∈ f_live G) as Hcl by by eapply wf_kids_live.
  assert (q ≠ c) as Hqc by (intros ->; by eapply wf_not_own_kid).
  assert (c ∉ f_tops G) as Hct by exact (wf_kid_not_top _ _ _ q c W Hq Hc).
  set (K := set_kids (f_kids G) q (K1 ++ K2)).
  assert (K q = K1 ++ K2) as HKq by apply set_kids_eq.
  assert (∀ p, p ≠ q → K p = f_kids G p) as HKne by (intros p Hp; by apply set_kids_ne).
  assert (∀ q' c', q' ∈ f_live G → c' ∈ K q' → c' ∈ f_kids G q' ∧ c' ≠ c) as Hkid.
  { intros q' c' Hq' Hc'. destruct (decide (q' = q)) as [->|Hne].
    - rewrite HKq in Hc'. split; [auto|]. by intros ->.
    - rewrite HKne in Hc' by done. split; [done|]. intros ->. apply Hne.
      by eapply (wf_kids_disjoint _ _ _ _ _ _ W). }
  assert (Some q ≠ ex) as Hqex by (intros Heq; symmetry in Heq; apply Hex in Heq; done).
  pose proof W as []. split.
  - split; cbn [f_tops f_kids f_live]; fold K.
    + done.
    + done.
    + by apply NoDup_cons.
    + intros p [->|Hp]%elem_of_cons; auto.
    + intros q' Hq'. destruct (decide (q' = q)) as [->|Hne].
      * by rewrite HKq.
      * rewrite HKne by done. auto.
    + intros q' c' Hq' Hc'. destruct (Hkid q' c' Hq' Hc'). eauto.
    + intros p Hp. destruct (decide (p = c)) as [->|Hpc]; [left; left|].
      destruct (wf_cover0 p Hp) as [Ht|(q' & Hq' & Hc')]; [left; by right|].
      right. exists q'. split; [done|]. destruct (decide (q' = q)) as [->|Hne].
      * rewrite HKq. rewrite HK in Hc'. rewrite elem_of_app in Hc' |- *.
        rewrite elem_of_cons in Hc'. destruct Hc' as [?|[?|?]]; [by left|done|by right].
      * by rewrite HKne.
    + intros p Hp. rewrite (same_alloc myKey s s') by done. rewrite Hfr. auto.
    + intros p [->|Hp]%elem_of_cons; [done|]. rewrite Hpar; [auto|]. by intros ->.
    + intros q' c' Hq' Hc'. destruct (Hkid q' c' Hq' Hc'). rewrite Hpar by done. auto.
    + intros p Hp. destruct (decide (p = q)) as [->|Hne].
      * by rewrite HKq.
      * rewrite Hch, HKne by done. exact (wf_child0 p Hp).
    + intros p Hp. destruct (decide (p = q)) as [->|Hne].
      * by rewrite HKq.
      * rewrite Hdeg, HKne by done. auto.
    + intros q' c' Hq' Hc' _. destruct (Hkid q' c' Hq' Hc'). eapply kle_same; [exact Hkey|].
      apply wf_order0; [done|done|]. intros Heq. symmetry in Heq. apply Hex in Heq. done.
    + intros q' Hq'. destruct (decide (q' = q)) as [->|Hne].
      * by rewrite HKq.
      * rewrite HKne by done. intros Hnn. eapply ring_frame; [|by apply wf_ring_kids0].
        intros a Ha. apply Hlinks. intros Hin. apply Hne.
        by eapply (wf_kids_disjoint _ _ _ _ _ _ W).
    + destruct wf_rank0 as [rk Hrk]. exists rk. intros q' c' Hq' Hc'.
      destruct (Hkid q' c' Hq' Hc'). auto.
    + intros q' i c' Hq' Hi Hne.
      assert (c' ≠ q) as Hcq by congruence.
      assert (c' ∈ K q') as Hc' by by eapply list_elem_of_lookup_2.
      destruct (Hkid q' c' Hq' Hc') as [Hc'' Hcc].
      rewrite (HKne c') by done. rewrite Hmk by done.
      assert (Some c' ≠ ex) as Hcex by (intros Heq; symmetry in Heq; apply Hex in Heq; done).
      destruct (decide (q' = q)) as [->|Hneq].
      * rewrite HKq in Hi. apply lookup_app_Some in Hi as [Hi|[Hge Hi]].
        -- apply (wf_fib0 q); [done| |done]. rewrite HK. by apply lookup_app_l_Some.
        -- destruct (wf_fib0 q (S i) c' Hq) as (mk & Hm & Hb); [|done|].
           { rewrite HK. rewrite lookup_app_r by lia.
             replace (S i - length K1) with (S (i - length K1)) by lia. done. }
           exists mk. split; [done|lia].
      * rewrite HKne in Hi by done. by apply (wf_fib0 q').
  - intros pp i Hpp Hi. cbn [f_kids f_live] in *. fold K in Hi |- *.
    assert (pp ≠ q) as Hppq.
    { intros ->. apply list_elem_of_lookup_2 in Hi. destruct (Hkid q q Hq Hi) as [Hin _].
      by eapply wf_not_own_kid. }
    rewrite HKne in Hi by done. rewrite HKq.
    split.
    + eapply kle_same; [exact Hkey|]. apply wf_order0; [done| |done].
      by eapply list_elem_of_lookup_2.
    + rewrite Hmk by done. destruct (wf_fib0 pp i q Hpp Hi Hqex) as (mk & Hm & Hb).
      exists mk. split; [done|]. rewrite HK in Hb. rewrite length_app in *. simpl in Hb. lia.
Qed.

(** A node that has lost a child only is marked. *)
Lemma wf_mark_lost s G q :
  wf s G (Some q) → lost_child s G q → fld mark s q = Some false →
  wf (upd (set_mark true) q s) G None.
Proof.
  intros W Hlost Hm. pose proof W as []. split; try done.
  - intros p Hp. rewrite upd_alloc. simpl. auto.
  - intros p Hp. fld_solve; auto.
  - intros q' c Hq' Hc. fld_solve; auto.
  - intros p Hp. specialize (wf_child0 p Hp). by fld_solve.
  - intros p Hp. fld_solve; auto.
  - intros q' c Hq' Hc _. eapply (kle_same s).
    { intros p. fld_solve. }
    destruct (decide (c = q)) as [->|Hne]; [|apply wf_order0; congruence].
    destruct (list_elem_of_lookup_1 _ _ Hc) as [i Hi]. by destruct (Hlost q' i Hq' Hi).
  - intros q' Hq' Hne. eapply ring_frame; [|by apply wf_ring_kids0].
    intros a Ha. split; fld_solve.
  - intros q' i c Hq' Hi _. destruct (decide (c = q)) as [->|Hne].
    + destruct (Hlost q' i Hq' Hi) as (_ & mk & Hmk & Hb). rewrite Hm in Hmk.
      injection Hmk as <-. exists true. split; [|lia].
      fld_solve. apply fld_const. eapply fld_Some_alloc; exact Hm.
    + destruct (wf_fib0 q' i c Hq' Hi) as (mk & Hmk & Hb); [congruence|].
      exists mk. split; [|done]. by rewrite fld_upd_ne.
Qed.
End Cut.

Section CutCode.
Context {Data Key : Type} `{KeyTotal Key}.
Implicit Types (s : store Data Key) (G : forest) (p q : ptr) (h : FibonacciHeap).

Lemma isSingle_spec s p n :
  fld next s p = Some n → isSingle p s = Ok (bool_decide (p = n), s).
Proof. intros Hn. unfold isSingle. erewrite st_bind_eq; [|by apply rd_spec]. done. Qed.

(** [q->removeChild(c)] *)
Lemma removeChild_spec s G ex q c :
  wf s G ex → (∀ z, ex = Some z → z = c) →
  q ∈ f_live G → c ∈ f_kids G q →
  ∃ s' K1 K2, removeChild q c s = Ok (tt, s') ∧
    f_kids G q = K1 ++ c :: K2 ∧
    wf s' (mkForest (c :: f_tops G) (set_kids (f_kids G) q (K1 ++ K2)) (f_live G)) (Some q) ∧
    lost_child s' (mkForest (c :: f_tops G) (set_kids (f_kids G) q (K1 ++ K2)) (f_live G)) q ∧
    cyc (fld next s') (fld previous s') [c] ∧
    same_payload s s' ∧
    (∀ p, p ∉ f_kids G q →
       fld next s' p = fld next s p ∧ fld previous s' p = fld previous s p) ∧
    (∀ p, p ≠ c → fld parent s' p = fld parent s p) ∧
    (∀ p, p ≠ c → fld mark s' p = fld mark s p).
Proof.
  intros W Hex Hq Hc.
  destruct (list_elem_of_split _ _ Hc) as (K1 & K2 & HK).
  assert (NoDup (K1 ++ c :: K2)) as Hnd by (rewrite <- HK; by apply (wf_kids_nodup _ _ _ W)).
  destruct (NoDup_app_remove _ _ _ Hnd) as [Hnd' HcK].
  assert (c ∈ f_live G) as Hcl by by eapply wf_kids_live.
  assert (q ≠ c) as Hqc by (intros ->; by eapply wf_not_own_kid).
  destruct (wf_alloc _ _ _ W q Hq) as [Aq _]. destruct (wf_alloc _ _ _ W c Hcl) as [Ac _].
  assert (f_kids G q ≠ []) as Hne by (intros Heq; rewrite Heq in Hc; by apply elem_of_nil in Hc).
  destruct (ring_cyc _ _ _ _ (wf_ring_kids _ _ _ W q Hq Hne) Hc) as (l & Hcyc & Hperm).
  assert (l ≡ₚ K1 ++ K2) as Hl.
  { rewrite HK in Hperm. rewrite <- Permutation_middle in Hperm.
    by apply Permutation_cons_inv in Hperm. }
  assert (∀ a, a ∈ K1 ++ K2 → a ∈ f_kids G q) as HKin.
  { intros a Ha. rewrite HK. rewrite elem_of_app in Ha. rewrite elem_of_app, elem_of_cons. tauto. }
  pose proof (cyc_head_next _ _ _ _ Hcyc) as Hnext.
  pose proof (wf_child _ _ _ W q Hq) as Hchild.
  assert (∃ s1, (if bool_decide (c = default c (head l)) then
                   c0 ← rd child q;
                   (if bool_decide (c0 = Some c) then mret tt
                    else st_throw (ThrowString "Trying to remove a non-child"));;
                   wr (set_child None) q
                 else
                   c0 ← rd child q;
                   (if bool_decide (c0 = Some c)
                    then on ← rd next c; wr (set_child (Some on)) q
                    else mret tt);;
                   node_remove c) s = Ok (tt, s1) ∧
            same_payload s s1 ∧ same parent s s1 ∧ same degree s s1 ∧ same mark s s1 ∧
            (∀ p, p ≠ q → fld child s1 p = fld child s p) ∧
            match fld child s1 q with
            | Some None => K1 ++ K2 = []
            | Some (Some c') => c' ∈ K1 ++ K2
            | None => False
            end ∧
            (∀ p, p ∉ f_kids G q →
               fld next s1 p = fld next s p ∧ fld previous s1 p = fld previous s p) ∧
            (K1 ++ K2 ≠ [] → ring (fld next s1) (fld previous s1) (K1 ++ K2)) ∧
            cyc (fld next s1) (fld previous s1) [c])
    as (s1 & E1 & Hpay1 & Hpar1 & Hdeg1 & Hmk1 & Hch1 & Hchq1 & Hl1 & Hring1 & Hcyc1).
  { destruct l as [|b l].
    - (* the only child *)
      simpl. rewrite bool_decide_eq_true_2 by done.
      apply Permutation_nil_l in Hl. rewrite <- Hl in *.
      assert (f_kids G q = [c]) as HKq.
      { rewrite HK. symmetry in Hl. apply app_eq_nil in Hl as [-> ->]. done. }
      rewrite HKq in Hchild.
      destruct (fld child s q) as [[c'|]|] eqn:Ec; [|done..].
      apply list_elem_of_singleton in Hchild as ->.
      exists (upd (set_child None) q s). split_and!.
      + erewrite st_bind_eq; [|by apply rd_spec].
        rewrite bool_decide_eq_true_2 by done.
        erewrite st_bind_eq; [|done]. by apply wr_spec.
      + split; [done|]. split; intros p; fld_solve.
      + intros p; fld_solve.
      + intros p; fld_solve.
      + intros p; fld_solve.
      + intros p Hp. by rewrite fld_upd_ne.
      + rewrite fld_upd, decide_True by done. simpl. by rewrite fld_const.
      + intros p Hp. split; fld_solve.
      + done.
      + eapply cyc_frame; [|exact Hcyc]. intros a Ha. split; fld_solve.
    - simpl in Hnext.
      assert (c ≠ b) as Hcb.
      { destruct Hcyc as [Hnd0 _]. apply NoDup_cons in Hnd0 as [Hnd0 _].
        intros ->. apply Hnd0. left. }
      simpl. rewrite bool_decide_eq_false_2 by done.
      destruct (node_remove_spec c (b :: l) s Hcyc) as (s1 & E & Hc1 & Hc2 & Hpay & Htree & Hlk).
      destruct Htree as (Hpar & Hch & Hdeg & Hmk).
      destruct (fld child s q) as [[c'|]|] eqn:Ec; [| |done].
      + destruct (decide (c' = c)) as [->|Hne'].
        * set (s0 := upd (set_child (Some b)) q s).
          destruct (node_remove_spec c (b :: l) s0) as (s1' & E' & Hc1' & Hc2' & Hpay' & Htree' & Hlk').
          { eapply cyc_frame; [|exact Hcyc]. intros a Ha. unfold s0. split; fld_solve. }
          destruct Htree' as (Hpar' & Hch' & Hdeg' & Hmk').
          destruct Hpay' as (Hfr' & Hkey' & Hdata').
          exists s1'. split_and!.
          -- erewrite st_bind_eq; [|by apply rd_spec].
             rewrite bool_decide_eq_true_2 by done.
             erewrite st_bind_eq; [exact E'|].
             erewrite st_bind_eq; [|by apply rd_spec]. by apply wr_spec.
          -- split; [done|]. split; intros p.
             ++ rewrite Hkey'. unfold s0. fld_solve.
             ++ rewrite Hdata'. unfold s0. fld_solve.
          -- intros p. rewrite Hpar'. unfold s0. fld_solve.
          -- intros p. rewrite Hdeg'. unfold s0. fld_solve.
          -- intros p. rewrite Hmk'. unfold s0. fld_solve.
          -- intros p Hp. rewrite Hch'. unfold s0. by rewrite fld_upd_ne.
          -- rewrite Hch'. unfold s0. rewrite fld_upd, decide_True by done. simpl.
             rewrite fld_const by done. rewrite <- Hl. left.
          -- intros p Hp. destruct (Hlk' p) as [-> ->]; [by rewrite Hperm|].
             unfold s0. split; fld_solve.
          -- intros _. eapply cyc_perm_ring; [|exact Hl]. by apply Hc2'.
          -- done.
        * exists s1. split_and!; try done.
          -- erewrite st_bind_eq; [|by apply rd_spec].
             rewrite bool_decide_eq_false_2 by congruence.
             erewrite st_bind_eq; [exact E|done].
          -- rewrite Hch, Ec. rewrite HK in Hchild. rewrite elem_of_app in Hchild |- *.
             rewrite elem_of_cons in Hchild. destruct Hchild as [?|[?|?]]; [by left|done|by right].
          -- intros p Hp. apply Hlk. by rewrite Hperm.
          -- intros _. eapply cyc_perm_ring; [|exact Hl]. by apply Hc2.
      + rewrite Hchild in Hc. by apply elem_of_nil in Hc. }
  destruct Hpay1 as (Hfr1 & Hkey1 & Hdata1).
  assert (is_Some (cells s1 !! q)) as Aq1 by by rewrite (same_alloc myKey s s1).
  assert (is_Some (cells s1 !! c)) as Ac1 by by rewrite (same_alloc myKey s s1).
  assert (N.of_nat (S (length (K1 ++ K2))) < UInt.modulus)%N as Hsmall.
  { pose proof (wf_kids_length _ _ _ _ W Hq) as Hlt. pose proof (wf_small _ _ _ W).
    rewrite HK in Hlt. rewrite length_app in *. simpl in Hlt. lia. }
  assert (N.of_nat (length (f_kids G q)) = N.of_nat (S (length (K1 ++ K2)))) as Hlen.
  { rewrite HK, !length_app. simpl. f_equal. lia. }
  set (s2 := upd (set_parent None) c s1).
  set (s3 := upd (set_mark false) c s2).
  set (s4 := upd (set_degree (UInt.decr (N.of_nat (S (length (K1 ++ K2)))))) q s3).
  assert (removeChild q c s = Ok (tt, s4)) as E.
  { unfold removeChild.
    erewrite st_bind_eq; [|apply rd_spec; by apply (wf_parent_kid _ _ _ W q c)].
    rewrite bool_decide_eq_true_2 by done.
    erewrite st_bind_eq; [|done].
    erewrite st_bind_eq; [|apply isSingle_spec; exact Hnext].
    erewrite st_bind_eq; [|exact E1].
    erewrite st_bind_eq; [|by apply wr_spec]. fold s2.
    erewrite st_bind_eq; [|apply wr_spec; unfold s2; by rewrite upd_alloc]. fold s3.
    erewrite st_bind_eq;
      [|apply rd_spec; unfold s3, s2; rewrite !fld_upd_ne by done;
        rewrite Hdeg1; by apply (wf_degree _ _ _ W)].
    rewrite Hlen. apply wr_spec. unfold s3, s2. by rewrite !upd_alloc. }
  assert (same_payload s s4) as Hpay4.
  { split; [done|]. split; intros p; unfold s4, s3, s2; fld_solve. }
  assert (∀ p, p ∉ f_kids G q →
            fld next s4 p = fld next s p ∧ fld previous s4 p = fld previous s p) as Hl4.
  { intros p Hp. unfold s4, s3, s2. destruct (Hl1 p Hp). split; fld_solve. }
  assert (∀ p, p ≠ c → fld parent s4 p = fld parent s p) as Hpar4.
  { intros p Hp. unfold s4, s3, s2. fld_solve; try apply Hpar1. }
  assert (∀ p, p ≠ c → fld mark s4 p = fld mark s p) as Hmk4.
  { intros p Hp. unfold s4, s3, s2. fld_solve; try apply Hmk1. }
  destruct (wf_cut s s4 G ex q c K1 K2) as [W4 Hlost]; try done.
  - unfold s4, s3, s2. fld_solve.
  - intros p Hp. unfold s4, s3, s2. fld_solve; try by apply Hch1.
  - assert (fld child s4 q = fld child s1 q) as -> by (unfold s4, s3, s2; fld_solve).
    exact Hchq1.
  - intros p Hp. unfold s4, s3, s2. fld_solve; try apply Hdeg1.
  - unfold s4, s3, s2. rewrite UInt_decr_nat by done. fld_solve.
  - intros Hnn. eapply ring_frame; [|by apply Hring1].
    intros a Ha. unfold s4, s3, s2. split; fld_solve.
  - exists s4, K1, K2. split_and!; try done.
    eapply cyc_frame; [|exact Hcyc1]. intros a Ha. unfold s4, s3, s2. split; fld_solve.
Qed.
End CutCode.

Section KeyDecrease.
Context {Data Key : Type} `{KeyTotal Key}.
Implicit Types (s : store Data Key) (G : forest) (p q : ptr) (h : FibonacciHeap).

Lemma kle_decrease s node k kold p x :
  fld myKey s node = Some kold → key_le k kold = true →
  x ≠ node → kle s p x → kle (upd (set_myKey k) node s) p x.
Proof.
  intros Hk Hle Hx (a & b & Ha & Hb & Hab).
  destruct (decide (p = node)) as [->|Hp].
  - exists k, b. split_and!.
    + fld_solve. apply fld_const. by eapply fld_Some_alloc.
    + by rewrite fld_upd_ne.
    + eapply key_le_trans; [exact Hle|]. congruence.
  - exists a, b. by rewrite !fld_upd_ne.
Qed.

(** The key of a node is decreased: the node may now have a key less than
    the key of its parent. *)
Lemma wf_set_key s G ex node k kold :
  wf s G None → node ∈ f_live G →
  fld myKey s node = Some kold → key_le k kold = true →
  (Some node ≠ ex → ∀ q kq, q ∈ f_live G → node ∈ f_kids G q →
     fld myKey s q = Some kq → key_le kq k = true) →
  wf (upd (set_myKey k) node s) G ex.
Proof.
  intros W Hnode Hk Hle Hpar. pose proof W as []. split; try done.
  - intros p Hp. rewrite upd_alloc. simpl. auto.
  - intros p Hp. fld_solve; auto.
  - intros q c Hq Hc. fld_solve; auto.
  - intros p Hp. specialize (wf_child0 p Hp). by fld_solve.
  - intros p Hp. fld_solve; auto.
  - intros q c Hq Hc Hex. destruct (decide (c = node)) as [->|Hne].
    + assert (q ≠ node) as Hqn by (intros ->; by eapply wf_not_own_kid).
      destruct (wf_order0 q node Hq Hc) as (a & b & Ha & Hb & Hab); [done|].
      exists a, k. split_and!.
      * by rewrite fld_upd_ne.
      * fld_solve. apply fld_const. by eapply fld_Some_alloc.
      * eapply Hpar; eauto.
    + eapply kle_decrease; eauto.
  - intros q Hq Hne. eapply ring_frame; [|by apply wf_ring_kids0].
    intros a Ha. split; fld_solve.
  - intros q i c Hq Hi _. destruct (wf_fib0 q i c Hq Hi) as (mk & Hmk & Hb); [done|].
    exists mk. split; [|done]. fld_solve.
Qed.

Lemma lost_child_same s s' G q :
  same_payload s s' → same_tree s s' → lost_child s G q → lost_child s' G q.
Proof.
  intros (_ & Hkey & _) (_ & _ & _ & Hmk) Hl pp i Hpp Hi.
  destruct (Hl pp i Hpp Hi) as [Hle Hb]. split.
  - eapply kle_same; eauto.
  - by rewrite Hmk.
Qed.

Lemma wf_tops_length s G ex : wf s G ex → length (f_tops G) ≤ length (f_live G).
Proof.
  intros W. apply submseteq_length, NoDup_submseteq.
  - by eapply wf_tops_nodup.
  - by eapply wf_tops_live.
Qed.

Lemma wf_kid_length s G ex q c :
  wf s G ex → q ∈ f_live G → c ∈ f_kids G q → length (f_tops G) < length (f_live G).
Proof.
  intros W Hq Hc.
  assert (c :: f_tops G ⊆+ f_live G) as Hsub.
  { apply NoDup_submseteq.
    - apply NoDup_cons. split; [exact (wf_kid_not_top _ _ _ q c W Hq Hc)|by eapply wf_tops_nodup].
    - intros x [->|Hx]%elem_of_cons; [by eapply wf_kids_live|by eapply wf_tops_live]. }
  apply submseteq_length in Hsub. simpl in Hsub. lia.
Qed.

(** The cascading cut. *)
Lemma cut_loop_spec fuel : ∀ s h G node par,
  wf s G (Some node) → par ∈ f_live G → node ∈ f_kids G par →
  (f_tops G ≠ [] → ring (fld next s) (fld previous s) (f_tops G)) →
  min_root s (rootWithMinKey h) (f_tops G) →
  length (f_live G) < fuel + length (f_tops G) →
  ∃ s' h' G', cut_loop fuel h node par s = Ok (h', s') ∧
    wf s' G' None ∧
    (f_tops G' ≠ [] → ring (fld next s') (fld previous s') (f_tops G')) ∧
    min_root s' (rootWithMinKey h') (f_tops G') ∧
    f_live G' = f_live G ∧ count h' = count h ∧ maxDegree h' = maxDegree h ∧
    same_payload s s'.
Proof.
  induction fuel as [|fuel IH]; intros s h G node par W Hpar Hnode Hring Hmin Hfuel.
  { pose proof (wf_kid_length _ _ _ _ _ W Hpar Hnode). lia. }
  simpl.
  assert (par ≠ node) as Hpn.
  { intros Heq. rewrite Heq in Hpar, Hnode. exact (wf_not_own_kid _ _ _ node W Hpar Hnode). }
  destruct (removeChild_spec s G (Some node) par node W) as
    (s1 & K1 & K2 & E1 & HK & W1 & Hlost1 & Hc1 & Hpay1 & Hl1 & Hpar1 & Hmk1); [congruence|done|done|].
  set (G1 := mkForest (node :: f_tops G) (set_kids (f_kids G) par (K1 ++ K2)) (f_live G)) in *.
  assert (node ∉ f_tops G) as Hnt by exact (wf_kid_not_top _ _ _ par node W Hpar Hnode).
  destruct (insertNode_spec s1 h node (f_tops G)) as
    (s2 & h2 & E2 & Hr2 & Hm2 & Hcnt2 & Hmd2 & Hpay2 & Htree2 & Hl2); [| |done|done|].
  { intros Hne. eapply ring_frame; [|by apply Hring].
    intros a Ha. apply Hl1. intros Hin. by eapply (wf_kid_not_top _ _ _ _ _ W Hpar Hin). }
  { eapply min_root_same; [|done]. by destruct Hpay1 as (_ & ? & _). }
  assert (wf s2 G1 (Some par)) as W2 by (eapply wf_relink; [exact W1|done|done|auto]).
  assert (lost_child s2 G1 par) as Hlost2 by by eapply lost_child_same.
  assert (same_payload s s2) as Hpay.
  { destruct Hpay1 as (? & ? & ?), Hpay2 as (? & ? & ?). split; [congruence|].
    split; eapply same_trans; eauto. }
  erewrite st_bind_eq; [|exact E1]. erewrite st_bind_eq; [|exact E2].
  pose proof (wf_top_or_kid _ _ _ par W2 Hpar) as Htk.
  destruct (fld parent s2 par) as [[pp|]|] eqn:Epp; [| |done].
  - destruct Htk as [Hpp Hin].
    erewrite st_bind_eq; [|by apply rd_spec].
    destruct (wf_alloc _ _ _ W2 par Hpar) as [Apar _].
    destruct (proj2 (fld_is_Some mark s2 par) Apar) as [m Hm].
    erewrite st_bind_eq; [|by apply rd_spec].
    destruct m; simpl.
    + destruct (IH s2 h2 G1 par pp W2 Hpp Hin) as
        (s' & h' & G' & E & W' & Hr' & Hm' & Hlive & Hcnt & Hmd & Hpay'); try done.
      { simpl. lia. }
      exists s', h', G'. split_and!; try done; try congruence.
      destruct Hpay as (? & ? & ?), Hpay' as (? & ? & ?). split; [congruence|].
      split; eapply same_trans; eauto.
    + erewrite st_bind_eq; [|by apply wr_spec].
      eexists _, h2, G1. split; [done|]. split_and!; try done.
      * by apply wf_mark_lost.
      * intros _. eapply ring_frame; [|exact Hr2]. intros a Ha. split; fld_solve.
      * eapply min_root_same; [|exact Hm2]. intros p. fld_solve.
      * destruct Hpay as (? & Hk & Hd). split; [done|].
        split; intros p; [rewrite <- Hk|rewrite <- Hd]; fld_solve.
  - erewrite st_bind_eq; [|by apply rd_spec].
    exists s2, h2, G1. split; [done|]. split_and!; try done.
    by eapply wf_exempt_top.
Qed.
End KeyDecrease.

Section DecreaseKeyCode.
Context {Data Key : Type} `{KeyTotal Key}.
Implicit Types (s : store Data Key) (G : forest) (p q : ptr) (h : FibonacciHeap).

(** The nodes of the forest are allocated: the fuel of the loops exceeds
    their number. *)
Lemma wf_live_size s G ex : wf s G ex → length (f_live G) ≤ size (cells s).
Proof.
  intros W.
  rewrite <- (size_list_to_set (C := gset ptr) (f_live G)) by by eapply wf_live_nodup.
  rewrite <- size_dom. apply subseteq_size. intros p Hp.
  apply elem_of_list_to_set in Hp. apply elem_of_dom.
  by destruct (wf_alloc _ _ _ W p Hp).
Qed.

Lemma fuel_of_spec s : fuel_of s = Ok (S (size (cells s)), s).
Proof. done. Qed.

Lemma upd_size u p s : size (cells (upd u p s)) = size (cells s).
Proof.
  unfold upd. simpl. rewrite <- !size_dom. f_equal. apply dom_alter_L.
Qed.

(** [decreaseKey(node, k)] *)
Lemma decreaseKey_spec s h G node k kold :
  heap_inv s h G → node ∈ f_live G →
  fld myKey s node = Some kold → key_le k kold = true →
  ∃ s' h' G', decreaseKey h node k s = Ok (h', s') ∧
    heap_inv s' h' G' ∧ f_live G' = f_live G ∧
    fld myKey s' node = Some k ∧
    same myData s s' ∧
    (∀ p, p ≠ node → fld myKey s' p = fld myKey s p) ∧
    fresh s' = fresh s.
Proof.
  intros [W Hring Hroot Hcount Hmax] Hnode Hk Hle.
  destruct (wf_alloc _ _ _ W node Hnode) as [An _].
  set (s1 := upd (set_myKey k) node s).
  assert (fld myKey s1 node = Some k) as Hk1.
  { unfold s1. fld_solve. }
  assert (∀ p, p ≠ node → fld myKey s1 p = fld myKey s p) as Hk1'.
  { intros p Hp. unfold s1. by rewrite fld_upd_ne. }
  assert (same myData s s1) as Hd1 by (intros p; unfold s1; fld_solve).
  assert (∀ l, (l ≠ [] → ring (fld next s) (fld previous s) l) →
            l ≠ [] → ring (fld next s1) (fld previous s1) l) as Hring1.
  { intros l Hl Hne. eapply ring_frame; [|by apply Hl]. intros a Ha. unfold s1. split; fld_solve. }
  unfold decreaseKey.
  erewrite st_bind_eq; [|by apply rd_spec].
  rewrite key_gt_le, Hle. simpl.
  erewrite st_bind_eq; [|done].
  erewrite st_bind_eq; [|by apply wr_spec]. fold s1.
  pose proof (wf_top_or_kid _ _ _ node W Hnode) as Htk.
  assert (fld parent s1 node = fld parent s node) as Hp1 by (unfold s1; fld_solve).
  destruct (fld parent s node) as [[par|]|] eqn:Epar; [| |done].
  - destruct Htk as [Hpar Hin].
    erewrite st_bind_eq; [|by apply rd_spec].
    assert (par ≠ node) as Hpn.
    { intros Heq. rewrite Heq in Hpar, Hin. exact (wf_not_own_kid _ _ _ node W Hpar Hin). }
    destruct (wf_alloc _ _ _ W par Hpar) as [Apar _].
    destruct (proj2 (fld_is_Some myKey s par) Apar) as [kp Hkp].
    erewrite st_bind_eq; [|apply rd_spec; rewrite Hk1' by done; exact Hkp].
    destruct (key_le kp k) eqn:Ecmp.
    + exists s1, h, G. split; [done|]. split_and!; try done.
      split; try done.
      * eapply (wf_set_key s G None node k kold); try done.
        intros _ q kq Hq Hin' Hkq.
        assert (q = par) as -> by (by eapply (wf_kids_disjoint _ _ _ _ _ _ W)).
        congruence.
      * by apply Hring1.
      * destruct (rootWithMinKey h) as [r|]; simpl in *; [|done].
        destruct Hroot as [Hr Hm]. split; [done|]. intros x Hx.
        eapply kle_decrease; eauto. intros ->.
        by eapply (wf_kid_not_top _ _ _ _ _ W Hpar Hin).
    + erewrite st_bind_eq; [|apply fuel_of_spec].
      destruct (cut_loop_spec (S (size (cells s1))) s1 h G node par) as
        (s' & h' & G' & E & W' & Hr' & Hm' & Hlive & Hcnt & Hmd & Hpay'); try done.
      * eapply (wf_set_key s G (Some node) node k kold); done.
      * by apply Hring1.
      * destruct (rootWithMinKey h) as [r|]; simpl in *; [|done].
        destruct Hroot as [Hr Hm]. split; [done|]. intros x Hx.
        eapply kle_decrease; eauto. intros ->.
        by eapply (wf_kid_not_top _ _ _ _ _ W Hpar Hin).
      * unfold s1. rewrite upd_size. pose proof (wf_live_size _ _ _ W). lia.
      * destruct Hpay' as (Hfr & Hkey & Hdata).
        exists s', h', G'. split; [done|]. split_and!; try done.
        -- split; try done; congruence.
        -- by rewrite Hkey.
        -- eapply same_trans; eauto.
        -- intros p Hp. rewrite Hkey. auto.
  - erewrite st_bind_eq; [|by apply rd_spec].
    assert (wf s1 G None) as W1.
    { eapply (wf_set_key s G None node k kold); try done.
      intros _ q kq Hq Hin _. by destruct (wf_kid_not_top _ _ _ _ _ W Hq Hin). }
    assert (f_tops G ≠ []) as Hne by (intros Heq; rewrite Heq in Htk; by apply elem_of_nil in Htk).
    destruct (rootWithMinKey h) as [r|] eqn:Er; simpl in Hroot; [|done].
    destruct Hroot as [Hr Hm].
    assert (is_Some (cells s1 !! r)) as Ar.
    { eapply (wf_alloc _ _ _ W1). by eapply wf_tops_live. }
    destruct (proj2 (fld_is_Some myKey s1 r) Ar) as [kr Hkr].
    erewrite st_bind_eq; [|by apply rd_spec].
    pose proof (key_lt_kle s1 node r k kr Hk1 Hkr) as Hcmp.
    assert (∀ x, x ∈ f_tops G → x ≠ node → kle s1 r x) as Hm1.
    { intros x Hx Hxn. eapply kle_decrease; eauto. }
    destruct (key_lt k kr) eqn:Elt.
    + eexists s1, _, G. split; [done|]. split_and!; try done.
      split; try done; [by apply Hring1|]. simpl. split; [done|]. intros x Hx.
      destruct (decide (x = node)) as [->|Hxn]; [apply kle_refl; unfold s1; by rewrite upd_alloc|].
      eapply kle_trans; [exact Hcmp|auto].
    + exists s1, h, G. split; [done|]. split_and!; try done.
      split; try done; [by apply Hring1|]. rewrite Er. simpl. split; [done|].
      intros x Hx. destruct (decide (x = node)) as [->|Hxn]; [done|auto].
Qed.
End DecreaseKeyCode.

Section Dissolve.
Context {Data Key : Type} `{KeyTotal Key}.
Implicit Types (s : store Data Key) (G : forest) (p q : ptr) (h : FibonacciHeap).

(** The root [r] leaves the forest and its children become roots. *)
Lemma wf_dissolve s s' G r U L' :
  wf s G None → r ∈ f_tops G → f_live G ≡ₚ r :: L' →
  NoDup U → (∀ x, x ∈ U ↔ (x ∈ f_tops G ∧ x ≠ r) ∨ x ∈ f_kids G r) →
  same_payload s s' →
  (∀ p, p ∉ f_kids G r → fld parent s' p = fld parent s p) →
  (∀ p, p ∈ f_kids G r → fld parent s' p = Some None) →
  (∀ p, p ≠ r → fld child s' p = fld child s p) →
  same degree s s' → same mark s s' →
  (∀ p, p ∉ f_tops G → p ∉ f_kids G r →
     fld next s' p = fld next s p ∧ fld previous s' p = fld previous s p) →
  wf s' (mkForest U (f_kids G) L') None.
Proof.
  intros W Hr Hperm HndU HU (Hfr & Hkey & Hdata) Hpar Hpar0 Hch Hdeg Hmk Hlinks.
  assert (r ∈ f_live G) as Hrl by by eapply wf_tops_live.
  assert (NoDup (r :: L')) as Hnd by (rewrite <- Hperm; by eapply wf_live_nodup).
  apply NoDup_cons in Hnd as [HrL HndL].
  assert (∀ p, p ∈ L' ↔ p ∈ f_live G ∧ p ≠ r) as HL.
  { intros p. rewrite Hperm, elem_of_cons. split.
    - intros Hp. split; [by right|]. by intros ->.
    - intros [[->|Hp] Hne]; done. }
  assert (∀ q c, q ∈ f_live G → c ∈ f_kids G q → c ≠ r) as Hkr.
  { intros q c Hq Hc ->. by eapply (wf_kid_not_top _ _ _ _ _ W Hq Hc). }
  pose proof W as []. split; cbn [f_tops f_kids f_live].
  - pose proof (Permutation_length Hperm) as Hlen. simpl in Hlen. lia.
  - done.
  - done.
  - intros p Hp. apply HL. apply HU in Hp as [[Hp Hne]|Hp].
    + split; [auto|done].
    + split; [eauto|]. by eapply Hkr.
  - intros q Hq. apply HL in Hq as [Hq _]. auto.
  - intros q c Hq Hc. apply HL in Hq as [Hq _]. apply HL. split; [eauto|]. by eapply Hkr.
  - intros p Hp. apply HL in Hp as [Hp Hne].
    destruct (wf_cover0 p Hp) as [Ht|(q & Hq & Hc)].
    + left. apply HU. by left.
    + destruct (decide (q = r)) as [->|Hqr].
      * left. apply HU. by right.
      * right. exists q. split; [|done]. by apply HL.
  - intros p Hp. apply HL in Hp as [Hp _].
    rewrite (same_alloc myKey s s') by done. rewrite Hfr. auto.
  - intros p Hp. apply HU in Hp as [[Hp Hne]|Hp]; [|auto].
    rewrite Hpar; [auto|]. intros Hin. by eapply (wf_kid_not_top _ _ _ _ _ W Hrl Hin).
  - intros q c Hq Hc. apply HL in Hq as [Hq Hne]. rewrite Hpar; [auto|].
    intros Hin. apply Hne. by eapply (wf_kids_disjoint _ _ _ _ _ _ W).
  - intros p Hp. apply HL in Hp as [Hp Hne]. rewrite Hch by done. exact (wf_child0 p Hp).
  - intros p Hp. apply HL in Hp as [Hp Hne]. rewrite Hdeg. auto.
  - intros q c Hq Hc _. apply HL in Hq as [Hq Hne]. eapply kle_same; [exact Hkey|]. auto.
  - intros q Hq Hnn. apply HL in Hq as [Hq Hne].
    eapply ring_frame; [|by apply wf_ring_kids0].
    intros a Ha. apply Hlinks.
    + by eapply wf_kid_not_top.
    + intros Hin. apply Hne. by eapply (wf_kids_disjoint _ _ _ _ _ _ W).
  - destruct wf_rank0 as [rk Hrk]. exists rk. intros q c Hq Hc.
    apply HL in Hq as [Hq Hne]. auto.
  - intros q i c Hq Hi _. apply HL in Hq as [Hq Hne]. rewrite Hmk. by apply (wf_fib0 q).
Qed.

Lemma clear_all_alloc l : ∀ s p,
  is_Some (cells (clear_all l s) !! p) ↔ is_Some (cells s !! p).
Proof.
  induction l as [|x l IH]; intros s p; simpl; [done|].
  rewrite IH. apply upd_alloc.
Qed.

Lemma clear_all_other {A} (f : FibonacciHeapNode Data Key → A) l :
  (∀ v n, f (set_parent v n) = f n) →
  ∀ s p, fld f (clear_all l s) p = fld f s p.
Proof.
  intros Hf. induction l as [|x l IH]; intros s p; simpl; [done|].
  rewrite IH. rewrite fld_upd. case_decide; [|done]. subst.
  unfold fld. destruct (cells s !! p); simpl; [|done]. by rewrite Hf.
Qed.

Lemma clear_all_fresh l : ∀ s, fresh (clear_all l s) = fresh s.
Proof. induction l as [|x l IH]; intros s; simpl; [done|]. by rewrite IH. Qed.

Lemma clear_all_parent_notin l : ∀ s p,
  p ∉ l → fld parent (clear_all l s) p = fld parent s p.
Proof.
  induction l as [|x l IH]; intros s p Hp; simpl; [done|].
  apply not_elem_of_cons in Hp as [Hne Hp]. rewrite IH by done. by rewrite fld_upd_ne.
Qed.

Lemma clear_all_parent_in l : ∀ s p,
  p ∈ l → is_Some (cells s !! p) → fld parent (clear_all l s) p = Some None.
Proof.
  induction l as [|x l IH]; intros s p Hp Ha; simpl.
  { by apply elem_of_nil in Hp. }
  destruct (decide (p ∈ l)) as [Hin|Hnin].
  - apply IH; [done|]. by rewrite upd_alloc.
  - apply elem_of_cons in Hp as [->|Hp]; [|done].
    rewrite clear_all_parent_notin by done. fld_solve.
Qed.

(** The loop of phase 1 walks the list of the children once. *)
Lemma clear_parents_spec r c0 : ∀ suf fuel pre c s,
  cyc (fld next s) (fld previous s) (pre ++ c :: suf) →
  head (pre ++ c :: suf) = Some c0 →
  fld child s r = Some (Some c0) →
  length suf < fuel →
  clear_parents fuel r c s = Ok (c0, clear_all (c :: suf) s).
Proof.
  induction suf as [|b suf IH]; intros fuel pre c s Hcyc Hhead Hch Hfuel.
  - destruct fuel as [|fuel]; [simpl in Hfuel; lia|]. simpl.
    assert (is_Some (cells s !! c)) as Ac.
    { eapply cyc_alloc; [exact Hcyc|]. rewrite elem_of_app. right. left. }
    set (s1 := upd (set_parent None) c s).
    erewrite st_bind_eq; [|by apply wr_spec]. fold s1.
    pose proof (cyc_next_mid _ _ _ _ _ Hcyc) as Hn. simpl in Hn.
    assert (default c (head pre) = c0) as Hc0.
    { destruct pre; simpl in *; congruence. }
    erewrite st_bind_eq; [|apply rd_spec; unfold s1; fld_solve; exact Hn].
    erewrite st_bind_eq; [|apply rd_spec; unfold s1; fld_solve; exact Hch].
    rewrite bool_decide_eq_true_2 by done. unfold mret, st_ret. do 2 f_equal. exact Hc0.
  - destruct fuel as [|fuel]; [simpl in Hfuel; lia|]. simpl in Hfuel |- *.
    assert (is_Some (cells s !! c)) as Ac.
    { eapply cyc_alloc; [exact Hcyc|]. rewrite elem_of_app. right. left. }
    set (s1 := upd (set_parent None) c s).
    erewrite st_bind_eq; [|by apply wr_spec]. fold s1.
    pose proof (cyc_next_mid _ _ _ _ _ Hcyc) as Hn. simpl in Hn.
    erewrite st_bind_eq; [|apply rd_spec; unfold s1; fld_solve; exact Hn].
    erewrite st_bind_eq; [|apply rd_spec; unfold s1; fld_solve; exact Hch].
    assert (b ≠ c0) as Hb.
    { destruct Hcyc as [Hnd _]. intros ->. destruct pre as [|a pre]; simpl in *.
      - injection Hhead as ->. apply NoDup_cons in Hnd as [Hnd _]. apply Hnd. left.
      - injection Hhead as ->. apply NoDup_cons in Hnd as [Hnd _]. apply Hnd.
        rewrite elem_of_app. right. right. left. }
    rewrite bool_decide_eq_false_2 by congruence.
    apply (IH fuel (pre ++ [c]) b s1).
    + rewrite <- app_assoc. simpl. eapply cyc_frame; [|exact Hcyc].
      intros a Ha. unfold s1. split; fld_solve.
    + rewrite <- app_assoc. simpl. done.
    + unfold s1. fld_solve.
    + lia.
Qed.
End Dissolve.

Section Phase1.
Context {Data Key : Type} `{KeyTotal Key}.
Implicit Types (s : store Data Key) (G : forest) (p q : ptr) (h : FibonacciHeap).

Lemma same_size s s' :
  (∀ p, is_Some (cells s' !! p) ↔ is_Some (cells s !! p)) → size (cells s') = size (cells s).
Proof.
  intros Ha. rewrite <- !size_dom. f_equal. apply set_eq. intros p.
  rewrite !elem_of_dom. apply Ha.
Qed.

(** Phase 1 of [deletemin]: the children of the root become roots. *)
Lemma phase1_spec s G r :
  wf s G None → ring (fld next s) (fld previous s) (f_tops G) → r ∈ f_tops G →
  ∃ s1 U L' rc,
    fld child s r = Some rc ∧
    match rc with
    | None => mret tt
    | Some c =>
        fuel ← fuel_of;
        c ← clear_parents fuel r c;
        wr (set_child None) r;;
        node_insert r (Some c)
    end s = Ok (tt, s1) ∧
    cyc (fld next s1) (fld previous s1) (r :: U) ∧
    f_live G ≡ₚ r :: L' ∧
    wf s1 (mkForest U (f_kids G) L') None ∧
    same_payload s s1 ∧
    size (cells s1) = size (cells s).
Proof.
  intros W Hring Hr.
  assert (r ∈ f_live G) as Hrl by by eapply wf_tops_live.
  destruct (ring_cyc _ _ _ _ Hring Hr) as (R' & Hcyc & HpermR).
  destruct (list_elem_of_split _ _ Hrl) as (La & Lb & HL).
  assert (f_live G ≡ₚ r :: La ++ Lb) as HpermL by (rewrite HL; by rewrite Permutation_middle).
  assert (NoDup (r :: R')) as HndR by by destruct Hcyc.
  apply NoDup_cons in HndR as [HrR HndR].
  assert (∀ x, x ∈ R' ↔ x ∈ f_tops G ∧ x ≠ r) as HR.
  { intros x. rewrite <- HpermR, elem_of_cons. split.
    - intros Hx. split; [by right|]. by intros ->.
    - intros [[->|Hx] Hne]; done. }
  pose proof (wf_child _ _ _ W r Hrl) as Hchild.
  destruct (fld child s r) as [[c0|]|] eqn:Ec; [| |done].
  - (* the root has children *)
    assert (f_kids G r ≠ []) as Hne by (intros Heq; rewrite Heq in Hchild; by apply elem_of_nil in Hchild).
    destruct (ring_cyc _ _ _ _ (wf_ring_kids _ _ _ W r Hrl Hne) Hchild) as (l & Hcl & Hperml).
    set (sa := clear_all (c0 :: l) s).
    set (sb := upd (set_child None) r sa).
    assert (∀ p, is_Some (cells sb !! p) ↔ is_Some (cells s !! p)) as Hal.
    { intros p. unfold sb, sa. by rewrite upd_alloc, clear_all_alloc. }
    assert (same next s sb) as Hn.
    { intros p. unfold sb, sa. rewrite fld_upd_ne' by done. by rewrite clear_all_other. }
    assert (same previous s sb) as Hp.
    { intros p. unfold sb, sa. rewrite fld_upd_ne' by done. by rewrite clear_all_other. }
    destruct (node_insert_spec r R' c0 l sb) as (s1 & E & Hc1 & Hpay1 & Htree1 & Hl1).
    { eapply cyc_frame; [|exact Hcyc]. intros a _. by rewrite Hn, Hp. }
    { eapply cyc_frame; [|exact Hcl]. intros a _. by rewrite Hn, Hp. }
    { intros a Ha1 Ha2. rewrite HpermR in Ha1. rewrite Hperml in Ha2.
      by eapply (wf_kid_not_top _ _ _ _ _ W Hrl Ha2). }
    destruct Hpay1 as (Hfr1 & Hkey1 & Hdata1). destruct Htree1 as (Hpar1 & Hch1 & Hdeg1 & Hmk1).
    assert (same_payload s s1) as Hpay.
    { split; [|split].
      - rewrite Hfr1. unfold sb, sa. simpl. by rewrite clear_all_fresh.
      - intros p. rewrite Hkey1. unfold sb, sa. rewrite fld_upd_ne' by done. by rewrite clear_all_other.
      - intros p. rewrite Hdata1. unfold sb, sa. rewrite fld_upd_ne' by done. by rewrite clear_all_other. }
    exists s1, (c0 :: l ++ R'), (La ++ Lb), (Some c0). split_and!; try done.
    + assert (clear_parents (S (size (cells s))) r c0 s = Ok (c0, sa)) as Ecp.
      { eapply (clear_parents_spec r c0 l _ [] c0 s); try done.
        pose proof (wf_kids_length _ _ _ _ W Hrl) as Hlt.
        pose proof (wf_live_size _ _ _ W) as Hsz.
        rewrite <- Hperml in Hlt. simpl in Hlt. lia. }
      erewrite st_bind_eq; [|apply fuel_of_spec].
      erewrite st_bind_eq; [|exact Ecp].
      erewrite st_bind_eq; [|apply wr_spec; unfold sa; rewrite clear_all_alloc;
                              by destruct (wf_alloc _ _ _ W r Hrl)].
      fold sb. exact E.
    + eapply (wf_dissolve s s1 G r); try done.
      * destruct Hc1 as [Hnd _]. by apply NoDup_cons in Hnd as [_ Hnd].
      * intros x. rewrite app_comm_cons, elem_of_app, HR, Hperml. tauto.
      * intros p Hpk. rewrite Hpar1. unfold sb, sa. rewrite fld_upd_ne' by done.
        apply clear_all_parent_notin. by rewrite Hperml.
      * intros p Hpk. rewrite Hpar1. unfold sb, sa. rewrite fld_upd_ne' by done.
        apply clear_all_parent_in; [by rewrite Hperml|].
        apply (wf_alloc _ _ _ W). by eapply wf_kids_live.
      * intros p Hpr. rewrite Hch1. unfold sb, sa. rewrite fld_upd_ne by done.
        by rewrite clear_all_other.
      * intros p. rewrite Hdeg1. unfold sb, sa. rewrite fld_upd_ne' by done. by rewrite clear_all_other.
      * intros p. rewrite Hmk1. unfold sb, sa. rewrite fld_upd_ne' by done. by rewrite clear_all_other.
      * intros p Hp1 Hp2. destruct (Hl1 p) as [-> ->].
        -- by rewrite HpermR.
        -- by rewrite Hperml.
        -- by rewrite Hn, Hp.
    + rewrite (same_size sb s1).
      * by apply same_size.
      * intros p. by apply (same_alloc myKey).
  - (* the root has no child *)
    exists s, R', (La ++ Lb), None. split_and!; try done.
    eapply (wf_dissolve s s G r); try done.
    + intros x. rewrite HR, Hchild. rewrite elem_of_nil. tauto.
    + intros p Hp. rewrite Hchild in Hp. by apply elem_of_nil in Hp.
Qed.
End Phase1.

Section Fib.

Lemma fib_pair_snd d : snd (fib_pair d) = fib_size (S d).
Proof. unfold fib_size. simpl. by destruct (fib_pair d). Qed.

Lemma fib_size_SS d : fib_size (S (S d)) = (fib_size (S d) + fib_size d)%N.
Proof.
  unfold fib_size at 1. simpl. destruct (fib_pair d) as [a b] eqn:E. simpl.
  rewrite <- fib_pair_snd. unfold fib_size. rewrite E. simpl. lia.
Qed.

Lemma fib_size_pos d : (0 < fib_size d)%N.
Proof.
  assert (0 < fib_size d ∧ 0 < fib_size (S d))%N as [? _]; [|done].
  induction d as [|d [IH1 IH2]]; [done|]. split; [done|]. rewrite fib_size_SS. lia.
Qed.

Lemma fib_size_mono_S d : (fib_size d ≤ fib_size (S d))%N.
Proof.
  destruct d as [|d]; [done|]. rewrite fib_size_SS. pose proof (fib_size_pos d). lia.
Qed.

Lemma fib_size_mono d e : d ≤ e → (fib_size d ≤ fib_size e)%N.
Proof.
  induction 1 as [|e Hle IH]; [done|]. pose proof (fib_size_mono_S e). lia.
Qed.

Lemma sum_fib_size d : (1 + sum_fib d = fib_size d)%N.
Proof.
  induction d as [|d IH]; [done|]. simpl.
  destruct d as [|d]; [done|]. rewrite fib_size_SS. simpl in *.
  rewrite Nat.sub_0_r. lia.
Qed.

Lemma sum_fib_le (l : list ptr) (f : ptr → N) :
  (∀ i c, l !! i = Some c → (fib_size (i - 1) ≤ f c)%N) →
  (sum_fib (length l) ≤ foldr (λ c a, f c + a) 0 l)%N.
Proof.
  induction l as [|c l IH] using rev_ind; intros Hl; [done|].
  rewrite length_app, foldr_app. simpl. rewrite Nat.add_1_r. simpl.
  assert (∀ (k : list ptr) a, foldr (λ c a, f c + a) a k = foldr (λ c a, f c + a) 0 k + a)%N as Hf.
  { induction k as [|x k IHk]; intros a; simpl; [lia|]. rewrite IHk. lia. }
  rewrite Hf.
  assert (fib_size (length l - 1) ≤ f c)%N.
  { apply Hl. rewrite lookup_app_r by lia. by rewrite Nat.sub_diag. }
  assert (sum_fib (length l) ≤ foldr (λ c a, f c + a) 0 l)%N.
  { apply IH. intros i c' Hi. apply Hl. by apply lookup_app_l_Some. }
  lia.
Qed.

Lemma length_bind_foldr (l : list ptr) (g : ptr → list ptr) :
  N.of_nat (length (l ≫= g)) = foldr (λ c a, N.of_nat (length (g c)) + a)%N 0%N l.
Proof.
  induction l as [|x l IH]; [done|].
  change ((x :: l) ≫= g) with (g x ++ (l ≫= g)).
  rewrite length_app, Nat2N.inj_add, IH. done.
Qed.

Lemma fib_size_46 : (UInt.modulus < fib_size 46)%N.
Proof. vm_compute. done. Qed.
End Fib.

Section Trees.
Context {Data Key : Type} `{KeyTotal Key}.
Implicit Types (s : store Data Key) (G : forest) (p q : ptr) (h : FibonacciHeap).

Lemma up_snoc par k : ∀ y c q,
  up par k y = Some c → par c = Some (Some q) → up par (S k) y = Some q.
Proof.
  induction k as [|k IH]; intros y c q Hup Hpar; simpl in *.
  - injection Hup as ->. by rewrite Hpar.
  - destruct (par y) as [[z|]|]; [|done..]. by eapply IH.
Qed.

Lemma up_add par a : ∀ b y, up par (a + b) y = up par a y ≫= up par b.
Proof.
  induction a as [|a IH]; intros b y; simpl; [done|].
  destruct (par y) as [[z|]|]; [|done..]. apply IH.
Qed.

Section WithForest.
Variables (s : store Data Key) (G : forest) (ex : option ptr) (rk : ptr → nat).
Hypothesis W : wf s G ex.
Hypothesis Hrk : ∀ q c, q ∈ f_live G → c ∈ f_kids G q → rk c < rk q.

Lemma up_live k : ∀ y a,
  y ∈ f_live G → up (fld parent s) k y = Some a → a ∈ f_live G ∧ rk y ≤ rk a.
Proof.
  induction k as [|k IH]; intros y a Hy Hup; simpl in Hup.
  - by injection Hup as ->.
  - pose proof (wf_top_or_kid _ _ _ y W Hy) as Htk.
    destruct (fld parent s y) as [[q|]|]; [|done..]. destruct Htk as [Hq Hc].
    destruct (IH q a Hq Hup) as [Ha Hle]. split; [done|].
    specialize (Hrk q y Hq Hc). lia.
Qed.

Lemma desc_up n : ∀ p y,
  p ∈ f_live G → y ∈ desc (f_kids G) n p →
  y ∈ f_live G ∧ ∃ k, up (fld parent s) k y = Some p.
Proof.
  induction n as [|n IH]; intros p y Hp Hy; simpl in Hy.
  - apply list_elem_of_singleton in Hy as ->. split; [done|]. by exists 0.
  - apply elem_of_cons in Hy as [->|Hy]; [split; [done|by exists 0]|].
    apply list_elem_of_bind in Hy as (c & Hy & Hc).
    assert (c ∈ f_live G) as Hcl by by eapply wf_kids_live.
    destruct (IH c y Hcl Hy) as (Hyl & k & Hk). split; [done|].
    exists (S k). eapply up_snoc; [done|]. by eapply wf_parent_kid.
Qed.

Lemma desc_disjoint n p c1 c2 y :
  p ∈ f_live G → c1 ∈ f_kids G p → c2 ∈ f_kids G p →
  y ∈ desc (f_kids G) n c1 → y ∈ desc (f_kids G) n c2 → c1 = c2.
Proof.
  intros Hp Hc1 Hc2 Hy1 Hy2.
  assert (c1 ∈ f_live G) as Hl1 by exact (wf_kids_live _ _ _ W p c1 Hp Hc1).
  assert (c2 ∈ f_live G) as Hl2 by exact (wf_kids_live _ _ _ W p c2 Hp Hc2).
  destruct (desc_up n c1 y Hl1 Hy1) as (Hy & k1 & Hk1).
  destruct (desc_up n c2 y Hl2 Hy2) as (_ & k2 & Hk2).
  assert (∀ a b ka kb, a ∈ f_kids G p → b ∈ f_kids G p →
            up (fld parent s) ka y = Some a → up (fld parent s) kb y = Some b →
            ka ≤ kb → a = b) as Hsym.
  { intros a b ka kb Ha Hb Hka Hkb Hle.
    replace kb with (ka + (kb - ka)) in Hkb by lia.
    rewrite up_add, Hka in Hkb. simpl in Hkb.
    destruct (kb - ka) as [|j]; simpl in Hkb; [congruence|].
    rewrite (wf_parent_kid _ _ _ W p a Hp Ha) in Hkb.
    destruct (up_live j p b Hp Hkb) as [_ Hle'].
    specialize (Hrk p b Hp Hb). lia. }
  destruct (decide (k1 ≤ k2)).
  - by eapply (Hsym c1 c2 k1 k2).
  - symmetry. eapply (Hsym c2 c1 k2 k1); try done. lia.
Qed.

Lemma desc_NoDup n : ∀ p, p ∈ f_live G → NoDup (desc (f_kids G) n p).
Proof.
  induction n as [|n IH]; intros p Hp; simpl.
  - apply NoDup_singleton.
  - apply NoDup_cons. split.
    + intros Hin. apply list_elem_of_bind in Hin as (c & Hy & Hc).
      assert (c ∈ f_live G) as Hcl by by eapply wf_kids_live.
      destruct (desc_up n c p Hcl Hy) as (_ & k & Hk).
      destruct (up_live k p c Hp Hk) as [_ Hle]. specialize (Hrk p c Hp Hc). lia.
    + apply NoDup_bind.
      * intros c1 c2 y Hc1 Hc2 Hy1 Hy2. by eapply (desc_disjoint n p).
      * intros c Hc. apply IH. by eapply wf_kids_live.
      * by eapply wf_kids_nodup.
Qed.

Lemma desc_length n p :
  p ∈ f_live G → length (desc (f_kids G) n p) ≤ length (f_live G).
Proof.
  intros Hp. apply submseteq_length, NoDup_submseteq.
  - by apply desc_NoDup.
  - intros y Hy. by destruct (desc_up n p y Hp Hy).
Qed.
End WithForest.

(** The tree of a node with [d] children has at least [fib_size d]
    nodes. *)
Lemma desc_fib s G rk :
  wf s G None →
  (∀ q c, q ∈ f_live G → c ∈ f_kids G q → rk c < rk q) →
  ∀ n p, p ∈ f_live G → rk p ≤ n →
    (fib_size (length (f_kids G p)) ≤ N.of_nat (length (desc (f_kids G) n p)))%N.
Proof.
  intros W Hrk. induction n as [|n IH]; intros p Hp Hn.
  - destruct (f_kids G p) as [|c l] eqn:E; [by vm_compute|].
    assert (c ∈ f_kids G p) as Hc by (rewrite E; left).
    specialize (Hrk p c Hp Hc). lia.
  - cbn [desc length]. rewrite Nat2N.inj_succ, length_bind_foldr.
    rewrite <- sum_fib_size.
    assert (sum_fib (length (f_kids G p))
              ≤ foldr (λ c a, N.of_nat (length (desc (f_kids G) n c)) + a) 0 (f_kids G p))%N
      as Hle; [|lia].
    apply sum_fib_le. intros i c Hi.
    assert (c ∈ f_kids G p) as Hc by by eapply list_elem_of_lookup_2.
    etrans; [|apply IH].
    + apply fib_size_mono.
      destruct (wf_fib _ _ _ W p i c Hp Hi) as (mk & _ & Hb); [done|].
      destruct mk; lia.
    + by eapply wf_kids_live.
    + specialize (Hrk p c Hp Hc). lia.
Qed.

(** No node has [degree_bound] children. *)
Lemma wf_degree_bound s G p :
  wf s G None → p ∈ f_live G → length (f_kids G p) < degree_bound.
Proof.
  intros W Hp. destruct (wf_rank _ _ _ W) as [rk Hrk].
  pose proof (desc_fib s G rk W Hrk (rk p) p Hp (le_n _)) as Hfib.
  pose proof (desc_length s G None rk W Hrk (rk p) p Hp) as Hlen.
  pose proof (wf_small _ _ _ W) as Hsmall.
  destruct (decide (length (f_kids G p) < degree_bound)) as [|Hge]; [done|].
  pose proof (fib_size_mono degree_bound (length (f_kids G p)) ltac:(lia)) as Hm.
  pose proof fib_size_46 as H46. unfold degree_bound in Hm. lia.
Qed.

(** Every node is below a root, whose key is not greater. *)
Lemma wf_top_le s G p :
  wf s G None → p ∈ f_live G → ∃ t, t ∈ f_tops G ∧ kle s t p.
Proof.
  intros W. destruct (wf_rank _ _ _ W) as [rk Hrk].
  set (M := max_list (rk <$> f_live G)).
  assert (∀ q, q ∈ f_live G → rk q ≤ M) as HM.
  { intros q Hq. apply max_list_elem_of_le. by apply list_elem_of_fmap_2. }
  assert (∀ k p, p ∈ f_live G → M - rk p ≤ k → ∃ t, t ∈ f_tops G ∧ kle s t p) as Hind.
  { induction k as [|k IH]; intros x Hx Hk.
    - destruct (wf_cover _ _ _ W x Hx) as [Ht|(q & Hq & Hc)].
      + exists x. split; [done|]. apply kle_refl. by apply (wf_alloc _ _ _ W).
      + specialize (Hrk q x Hq Hc). specialize (HM q Hq). lia.
    - destruct (wf_cover _ _ _ W x Hx) as [Ht|(q & Hq & Hc)].
      + exists x. split; [done|]. apply kle_refl. by apply (wf_alloc _ _ _ W).
      + destruct (IH q Hq) as (t & Ht & Hle).
        { specialize (Hrk q x Hq Hc). specialize (HM q Hq). lia. }
        exists t. split; [done|]. eapply kle_trans; [exact Hle|].
        by apply (wf_order _ _ _ W). }
  intros Hp. by apply (Hind (M - rk p)).
Qed.

Lemma wf_no_tops s G : wf s G None → f_tops G = [] → f_live G = [].
Proof.
  intros W Ht. destruct (f_live G) as [|p l] eqn:E; [done|].
  destruct (wf_top_le s G p W) as (t & Hin & _); [rewrite E; left|].
  rewrite Ht in Hin. by apply elem_of_nil in Hin.
Qed.

(** The root of the heap has a least key among all the nodes. *)
Lemma min_root_least s G r p :
  wf s G None → min_root s (Some r) (f_tops G) → p ∈ f_live G → kle s r p.
Proof.
  intros W [Hr Hmin] Hp. destruct (wf_top_le s G p W Hp) as (t & Ht & Hle).
  eapply kle_trans; [by apply Hmin|done].
Qed.
End Trees.

Section Table.
Implicit Types (G : forest) (D : list (option ptr)) (W : list ptr).

Lemma table_ok_perm D W W' G : W ≡ₚ W' → table_ok D W G → table_ok D W' G.
Proof.
  intros Hp [H1 H2]. split.
  - intros d p Hd. destruct (H1 d p Hd). split; [by rewrite <- Hp|done].
  - intros p Hp'. apply H2. by rewrite Hp.
Qed.

Lemma table_ok_nil n G : table_ok (replicate n None) [] G.
Proof.
  split.
  - intros d p Hd. apply lookup_replicate in Hd as [? _]. done.
  - intros p Hp. by apply elem_of_nil in Hp.
Qed.

Lemma table_ok_set D W G cur d :
  table_ok D W G → D !! d = Some None → d = length (f_kids G cur) →
  table_ok (<[d := Some cur]> D) (cur :: W) G.
Proof.
  intros [H1 H2] Hd ->. split.
  - intros e p He. destruct (decide (e = length (f_kids G cur))) as [->|Hne].
    + rewrite list_lookup_insert_eq in He by by eapply lookup_lt_Some.
      injection He as <-. split; [left|done].
    + rewrite list_lookup_insert_ne in He by done. destruct (H1 e p He). split; [by right|done].
  - intros p [->|Hp]%elem_of_cons.
    + apply list_lookup_insert_eq. by eapply lookup_lt_Some.
    + rewrite list_lookup_insert_ne; [auto|]. intros Heq. rewrite Heq in Hd.
      rewrite (H2 p Hp) in Hd. done.
Qed.

Lemma table_ok_link D W W' G G' other x d :
  table_ok D W G → W ≡ₚ other :: W' → NoDup W →
  D !! d = Some (Some other) → x ∉ W' →
  (∀ p, p ≠ x → f_kids G' p = f_kids G p) →
  table_ok (<[d := None]> D) W' G'.
Proof.
  intros [H1 H2] Hperm Hnd Hd Hx Hk.
  assert (NoDup (other :: W')) as Hnd' by by rewrite <- Hperm.
  apply NoDup_cons in Hnd' as [Ho _].
  destruct (H1 d other Hd) as [_ Hlen].
  split.
  - intros e p He. destruct (decide (e = d)) as [->|Hne].
    + rewrite list_lookup_insert_eq in He by by eapply lookup_lt_Some. done.
    + rewrite list_lookup_insert_ne in He by done. destruct (H1 e p He) as [Hp Hl].
      rewrite Hperm in Hp. apply elem_of_cons in Hp as [->|Hp]; [congruence|].
      split; [done|]. rewrite Hk; [done|]. by intros ->.
  - intros p Hp. assert (p ≠ x) as Hpx by by intros ->.
    rewrite Hk by done.
    rewrite list_lookup_insert_ne; [apply H2; rewrite Hperm; by right|].
    intros Heq. assert (D !! length (f_kids G p) = Some (Some p)) as Hp'.
    { apply H2. rewrite Hperm. by right. }
    rewrite <- Heq, Hd in Hp'. injection Hp' as ->. done.
Qed.

Lemma table_ok_app D W G : table_ok D W G → table_ok (D ++ [None]) W G.
Proof.
  intros [H1 H2]. split.
  - intros d p Hd. apply lookup_app_Some in Hd as [Hd|[_ Hd]]; [auto|].
    apply list_lookup_singleton_Some in Hd as [_ ?]. done.
  - intros p Hp. apply lookup_app_l_Some. auto.
Qed.
End Table.

Section Consolidate.
Context {Data Key : Type} `{KeyTotal Key}.
Implicit Types (s : store Data Key) (G : forest) (p q : ptr) (h : FibonacciHeap).

Lemma vec_get_spec (v : list (option ptr)) i x s :
  v !! N.to_nat i = Some x → vec_get v i s = Ok (x, s).
Proof. unfold vec_get. by intros ->. Qed.

Lemma vec_set_spec (v : list (option ptr)) i x s :
  N.to_nat i < length v → vec_set v i x s = Ok (<[N.to_nat i := x]> v, s).
Proof. unfold vec_set. intros Hi. by rewrite bool_decide_eq_true_2. Qed.

Lemma same_payload_trans s1 s2 s3 :
  same_payload s1 s2 → same_payload s2 s3 → same_payload s1 s3.
Proof.
  intros (? & ? & ?) (? & ? & ?). split; [congruence|]. split; eapply same_trans; eauto.
Qed.

(** The inner loop of phase 2 links the trees of equal degree. *)
Lemma merge_same_degree_spec r : ∀ fuel s G D d cur M W U,
  wf s G None → r ∉ f_live G →
  cyc (fld next s) (fld previous s) (r :: M ++ U) →
  f_tops G ≡ₚ M ++ U → M ≡ₚ cur :: W →
  table_ok D W G → d = N.of_nat (length (f_kids G cur)) → N.to_nat d < length D →
  length W < fuel →
  ∃ s' G' D' d' cur' M' W',
    merge_same_degree fuel D d cur s = Ok ((D', d', cur'), s') ∧
    wf s' G' None ∧
    cyc (fld next s') (fld previous s') (r :: M' ++ U) ∧
    f_tops G' ≡ₚ M' ++ U ∧ M' ≡ₚ cur' :: W' ∧
    table_ok D' W' G' ∧ d' = N.of_nat (length (f_kids G' cur')) ∧
    N.to_nat d' < length D' ∧ D' !! N.to_nat d' = Some None ∧
    f_live G' = f_live G ∧ same_payload s s' ∧ length D ≤ length D'.
Proof.
  induction fuel as [|fuel IH]; intros s G D d cur M W U Wf Hr Hcyc Htops HM HT Hd HdD Hfuel;
    [lia|].
  simpl.
  destruct (lookup_lt_is_Some_2 D (N.to_nat d) HdD) as [o Ho].
  erewrite st_bind_eq; [|by apply vec_get_spec].
  destruct o as [other|]; last first.
  { exists s, G, D, d, cur, M, W. split_and!; try done. }
  destruct HT as [HT1 HT2]. destruct (HT1 _ _ Ho) as [HoW Holen].
  rewrite Hd, Nat2N.id in Holen.
  assert (NoDup (r :: M ++ U)) as Hnd by by destruct Hcyc.
  apply NoDup_cons in Hnd as [HrMU Hnd].
  assert (NoDup M) as HndM by by apply NoDup_app in Hnd as (? & _).
  assert (NoDup (cur :: W)) as HndW by by rewrite <- HM.
  apply NoDup_cons in HndW as [HcurW HndW].
  assert (cur ≠ other) as Hco by (by intros ->).
  destruct (list_elem_of_split _ _ HoW) as (Wa & Wb & HW).
  assert (W ≡ₚ other :: (Wa ++ Wb)) as HpermW by (rewrite HW; by rewrite Permutation_middle).
  set (W' := Wa ++ Wb) in *.
  assert (∀ a, a ∈ M → a ∈ f_tops G) as HMtops.
  { intros a Ha. rewrite Htops, elem_of_app. by left. }
  assert (cur ∈ M) as HcurM by (rewrite HM; left).
  assert (other ∈ M) as HoM by (rewrite HM; by right).
  assert (cur ∈ f_live G) as Hcl by by apply (wf_tops_live _ _ _ Wf), HMtops.
  assert (other ∈ f_live G) as Hol by by apply (wf_tops_live _ _ _ Wf), HMtops.
  destruct (wf_alloc _ _ _ Wf cur Hcl) as [Acur _].
  destruct (wf_alloc _ _ _ Wf other Hol) as [Aother _].
  destruct (proj2 (fld_is_Some myKey s cur) Acur) as [kc Hkc].
  destruct (proj2 (fld_is_Some myKey s other) Aother) as [ko Hko].
  erewrite st_bind_eq; [|by apply rd_spec].
  erewrite st_bind_eq; [|by apply rd_spec].
  (* the winner [x] and the loser [y] *)
  assert (∃ x y, (if key_gt kc ko then (cur, other) else (other, cur)) = (y, x) ∧
            kle s x y ∧ x ≠ y ∧ x ∈ M ∧ y ∈ M ∧ (x = cur ∨ x = other) ∧
            y :: x :: W' ≡ₚ cur :: W ∧
            length (f_kids G x) = length (f_kids G y) ∧
            length (f_kids G x) = length (f_kids G cur))
    as (x & y & Exy & Hle & Hxy & HxM & HyM & Hxco & Hperm & Hlen & Hlenx).
  { rewrite key_gt_le. destruct (key_le kc ko) eqn:Ecmp; simpl.
    - exists cur, other. split_and!; try done.
      + by exists kc, ko.
      + by left.
      + rewrite HpermW. apply Permutation_swap.
    - exists other, cur. split_and!; try done.
      + exists ko, kc. split_and!; try done. destruct (key_le_total kc ko); congruence.
      + by right.
      + by rewrite HpermW. }
  rewrite Exy.
  destruct (list_elem_of_split _ _ HyM) as (M1 & M2 & HMsplit).
  assert (cyc (fld next s) (fld previous s) ((r :: M1) ++ y :: (M2 ++ U))) as Hcyc0.
  { rewrite HMsplit in Hcyc. rewrite <- app_assoc in Hcyc. exact Hcyc. }
  destruct (node_remove_mid (r :: M1) y (M2 ++ U) s Hcyc0) as
    (s1 & E1 & Hcy1 & Hc1 & Hpay1 & Htree1 & Hl1).
  specialize (Hc1 ltac:(done)).
  assert (f_tops G ≡ₚ y :: (M1 ++ M2 ++ U)) as HtopsY.
  { rewrite Htops, HMsplit, <- app_assoc. simpl. symmetry. apply Permutation_middle. }
  assert (∀ a, a ∈ (r :: M1) ++ y :: M2 ++ U → a = r ∨ a ∈ f_tops G) as Hring_tops.
  { intros a Ha. rewrite HtopsY. rewrite elem_of_app, !elem_of_cons, elem_of_app in Ha.
    rewrite elem_of_cons, !elem_of_app. tauto. }
  assert (wf s1 G None) as Wf1.
  { eapply wf_relink; [exact Wf|done|done|]. intros p Hpl Hpt. apply Hl1.
    intros Hin. destruct (Hring_tops p Hin) as [->|?]; done. }
  destruct (addChild_spec s1 G None x y (M1 ++ M2 ++ U) Wf1) as (s2 & E2 & Wf2 & Hpay2 & Hl2);
    try done.
  { by apply HMtops. }
  { eapply kle_same; [|exact Hle]. by destruct Hpay1 as (_ & ? & _). }
  set (G' := mkForest (M1 ++ M2 ++ U) (set_kids (f_kids G) x (f_kids G x ++ [y])) (f_live G)) in *.
  erewrite st_bind_eq; [|exact E1]. erewrite st_bind_eq; [|exact E2].
  erewrite st_bind_eq; [|by apply vec_set_spec].
  assert (x ∈ f_live G) as Hxl by by apply (wf_tops_live _ _ _ Wf), HMtops.
  assert (N.of_nat (S (length (f_kids G x))) < UInt.modulus)%N as Hsmall.
  { pose proof (wf_kids_length _ _ _ _ Wf Hxl). pose proof (wf_small _ _ _ Wf). lia. }
  assert (UInt.incr d = N.of_nat (S (length (f_kids G x)))) as Hd'.
  { rewrite Hd, <- Hlenx. by apply UInt_incr_nat. }
  set (D1 := <[N.to_nat d := None]> D).
  set (D2 := if bool_decide (length D1 ≤ N.to_nat (UInt.incr d)) then D1 ++ [None] else D1).
  assert (length D1 = length D) as HlD1 by (unfold D1; by rewrite length_insert).
  assert (N.to_nat (UInt.incr d) < length D2 ∧ length D ≤ length D2) as [HdD2 HlD2].
  { unfold D2. rewrite Hd', Nat2N.id. rewrite Hd, Nat2N.id, <- Hlenx in HdD.
    case_bool_decide; rewrite ?length_app; simpl; lia. }
  assert (y :: (M1 ++ M2) ≡ₚ y :: x :: W') as HpermM.
  { rewrite Hperm, <- HM, HMsplit. apply Permutation_middle. }
  apply Permutation_cons_inv in HpermM.
  assert (x ∉ W') as HxW'.
  { assert (NoDup (x :: W')) as Hn.
    { rewrite <- HpermM. rewrite HMsplit in HndM. by apply NoDup_app_remove in HndM as [? _]. }
    by apply NoDup_cons in Hn as [? _]. }
  assert (table_ok D2 W' G') as HT2'.
  { assert (table_ok D1 W' G') as HT1'.
    { eapply (table_ok_link D W W' G G' other x); try done.
      intros p Hp. unfold G'. simpl. by apply set_kids_ne. }
    unfold D2. case_bool_decide; [by apply table_ok_app|done]. }
  assert (y ∉ (r :: M1) ++ M2 ++ U) as HyR.
  { destruct Hcyc0 as [Hnd0 _]. by apply NoDup_app_remove in Hnd0 as [_ ?]. }
  destruct (IH s2 G' D2 (UInt.incr d) x (M1 ++ M2) W' U) as
    (s' & G'' & D' & d' & cur' & M' & W'' & E & Wf' & Hcyc' & Htops' & HM' & HT' & Hd'' & HdD'
       & Hnone & Hlive & Hpay' & HlD'); try done.
  - eapply cyc_frame; [|rewrite <- app_assoc; exact Hc1].
    intros a Ha. apply Hl2. intros [->|Hin]%elem_of_cons.
    + apply HyR. by rewrite <- app_assoc in Ha.
    + assert (a ∈ f_live G) as Hal by by eapply wf_kids_live.
      destruct (Hring_tops a) as [->|Hat]; [| done |].
      * rewrite <- app_assoc in Ha. rewrite app_comm_cons in Ha.
        rewrite elem_of_app in Ha |- *. destruct Ha as [?|?]; [by left|].
        right. by right.
      * by eapply (wf_kid_not_top _ _ _ _ _ Wf Hxl Hin).
  - unfold G'. simpl. by rewrite app_assoc.
  - unfold G'. simpl. rewrite set_kids_eq, length_app. simpl. rewrite Hd'. f_equal. lia.
  - rewrite HW in Hfuel. rewrite length_app in Hfuel. simpl in Hfuel.
    unfold W'. rewrite length_app. lia.
  - exists s', G'', D', d', cur', M', W''. split_and!; try done.
    + eapply same_payload_trans; [|exact Hpay']. by eapply same_payload_trans.
    + lia.
Qed.
End Consolidate.

Section Phases.
Context {Data Key : Type} `{KeyTotal Key}.
Implicit Types (s : store Data Key) (G : forest) (p q : ptr) (h : FibonacciHeap).

Lemma min_root_perm s root l l' : l ≡ₚ l' → min_root s root l → min_root s root l'.
Proof.
  intros Hp. destruct root as [r|]; simpl.
  - intros [Hr Hm]. split; [by rewrite <- Hp|]. intros x Hx. apply Hm. by rewrite Hp.
  - intros ->. by apply Permutation_nil_l in Hp.
Qed.

(** The outer loop of phase 2 visits the roots once. *)
Lemma consolidate_spec r : ∀ fuel s G D M c U,
  wf s G None → r ∉ f_live G →
  cyc (fld next s) (fld previous s) (r :: M ++ c :: U) →
  f_tops G ≡ₚ M ++ c :: U →
  table_ok D M G → degree_bound ≤ length D →
  length U < fuel →
  ∃ s' G' D' M',
    consolidate fuel r D c s = Ok (D', s') ∧
    wf s' G' None ∧ f_tops G' ≡ₚ M' ∧ table_ok D' M' G' ∧
    f_live G' = f_live G ∧ same_payload s s'.
Proof.
  induction fuel as [|fuel IH]; intros s G D M c U Wf Hr Hcyc Htops HT HD Hfuel; [lia|].
  simpl.
  assert (c ∈ f_tops G) as Hct by (rewrite Htops, elem_of_app; right; left).
  assert (c ∈ f_live G) as Hcl by by eapply wf_tops_live.
  erewrite st_bind_eq; [|apply rd_spec; by apply (wf_degree _ _ _ Wf)].
  pose proof (cyc_next_mid _ _ (r :: M) c U Hcyc) as Hnext. simpl in Hnext.
  erewrite st_bind_eq; [|apply rd_spec; exact Hnext].
  erewrite st_bind_eq; [|apply fuel_of_spec].
  destruct (merge_same_degree_spec r (S (size (cells s))) s G D
              (N.of_nat (length (f_kids G c))) c (M ++ [c]) M U) as
    (s' & G' & D' & d' & cur' & M' & W' & E & Wf' & Hcyc' & Htops' & HM' & HT' & Hd' & HdD'
       & Hnone & Hlive & Hpay' & HlD'); try done.
  { by rewrite <- app_assoc. }
  { by rewrite <- app_assoc. }
  { by rewrite Permutation_app_comm. }
  { rewrite Nat2N.id. pose proof (wf_degree_bound _ _ _ Wf Hcl). lia. }
  { pose proof (wf_tops_length _ _ _ Wf) as Hl1. pose proof (wf_live_size _ _ _ Wf) as Hl2.
    rewrite Htops, length_app in Hl1. lia. }
  erewrite st_bind_eq; [|exact E]. cbv beta iota.
  erewrite st_bind_eq; [|by apply vec_set_spec].
  assert (table_ok (<[N.to_nat d' := Some cur']> D') M' G') as HT''.
  { eapply table_ok_perm; [symmetry; exact HM'|]. apply table_ok_set; [done|done|].
    by rewrite Hd', Nat2N.id. }
  assert (r ∉ M ++ c :: U) as HrMU.
  { destruct Hcyc as [Hnd _]. by apply NoDup_cons in Hnd as [? _]. }
  destruct U as [|u U]; simpl.
  - rewrite bool_decide_eq_true_2 by done.
    exists s', G', (<[N.to_nat d' := Some cur']> D'), M'. split_and!; try done.
    by rewrite app_nil_r in Htops'.
  - rewrite bool_decide_eq_false_2.
    2:{ intros ->. apply HrMU. rewrite elem_of_app. right. right. left. }
    destruct (IH s' G' (<[N.to_nat d' := Some cur']> D') M' u U) as
      (s'' & G'' & D'' & M'' & E' & Wf'' & Htops'' & HT3 & Hlive' & Hpay''); try done.
    + by rewrite Hlive.
    + rewrite length_insert. lia.
    + simpl in Hfuel. lia.
    + exists s'', G'', D'', M''. split_and!; try done.
      * congruence.
      * by eapply same_payload_trans.
Qed.

Lemma table_nodes_cons_Some p D : table_nodes (Some p :: D) = p :: table_nodes D.
Proof. done. Qed.

Lemma table_nodes_cons_None D : table_nodes (None :: D) = table_nodes D.
Proof. done. Qed.

(** Phase 3 makes the list of roots anew from the table. *)
Lemma rebuild_spec G : ∀ D d h nm s I,
  wf s G None →
  (I ≠ [] → ring (fld next s) (fld previous s) I) →
  min_root s (rootWithMinKey h) I →
  NoDup (I ++ table_nodes D) →
  (∀ p, p ∈ I ++ table_nodes D → p ∈ f_tops G) →
  (∀ i p, D !! i = Some (Some p) → length (f_kids G p) = N.to_nat d + i) →
  N.to_nat nm < degree_bound →
  ∃ s' h' nm' J,
    rebuild D d h nm s = Ok ((h', nm'), s') ∧
    wf s' G None ∧ J ≡ₚ I ++ table_nodes D ∧
    (J ≠ [] → ring (fld next s') (fld previous s') J) ∧
    min_root s' (rootWithMinKey h') J ∧
    count h' = count h ∧ N.to_nat nm' < degree_bound ∧ same_payload s s'.
Proof.
  induction D as [|[p|] D IH]; intros d h nm s I Wf Hring Hmin Hnd Htops Hidx Hnm.
  - exists s, h, nm, I. simpl. rewrite app_nil_r. split_and!; try done.
  - rewrite table_nodes_cons_Some in *. simpl.
    assert (p ∈ f_tops G) as Hpt by (apply Htops; rewrite elem_of_app; right; left).
    assert (p ∈ f_live G) as Hpl by by eapply wf_tops_live.
    destruct (wf_alloc _ _ _ Wf p Hpl) as [Ap _].
    assert (p ∉ I) as HpI.
    { apply NoDup_app in Hnd as (_ & Hd & _). intros Hin. apply (Hd p Hin). left. }
    set (s1 := upd (set_previous p) p s).
    set (s2 := upd (set_next p) p s1).
    assert (same_payload s s2) as Hpay2.
    { split; [done|]. split; intros a; unfold s2, s1; fld_solve. }
    assert (same_tree s s2) as Htree2.
    { split_and!; intros a; unfold s2, s1; fld_solve. }
    assert (∀ a, a ≠ p → fld next s2 a = fld next s a ∧ fld previous s2 a = fld previous s a)
      as Hl2.
    { intros a Ha. unfold s2, s1. split; fld_solve. }
    assert (wf s2 G None) as Wf2.
    { eapply wf_relink; [exact Wf|done|done|]. intros a _ Ha. apply Hl2. by intros ->. }
    destruct (insertNode_spec s2 h p I) as
      (s3 & h3 & E3 & Hr3 & Hm3 & Hcnt3 & Hmd3 & Hpay3 & Htree3 & Hl3); try done.
    { intros Hne. eapply ring_frame; [|by apply Hring]. intros a Ha. apply Hl2. by intros ->. }
    { eapply min_root_same; [|exact Hmin]. by destruct Hpay2 as (_ & ? & _). }
    { apply cyc_singleton. unfold s2, s1. split; fld_solve. }
    assert (wf s3 G None) as Wf3.
    { eapply wf_relink; [exact Wf2|done|done|]. intros a _ Ha. apply Hl3.
      intros Hin. apply Ha. apply Htops. rewrite elem_of_app, elem_of_cons.
      apply elem_of_cons in Hin as [->|?]; [right; by left|by left]. }
    assert (length (f_kids G p) = N.to_nat d) as Hdp.
    { rewrite (Hidx 0 p) by done. lia. }
    destruct (IH (d + 1)%N h3 (if (nm <? d)%N then d else nm) s3 (p :: I)) as
      (s' & h' & nm' & J & E & Wf' & HJ & Hr' & Hm' & Hcnt' & Hnm' & Hpay'); try done.
    + simpl. rewrite Permutation_middle. exact Hnd.
    + intros a Ha. apply Htops. simpl in Ha. rewrite elem_of_app, elem_of_cons.
      rewrite elem_of_cons, elem_of_app in Ha. tauto.
    + intros i a Hi. rewrite (Hidx (S i) a) by done. lia.
    + destruct (nm <? d)%N; [|done]. rewrite <- Hdp. by eapply wf_degree_bound.
    + exists s', h', nm', J. split_and!; try done.
      * erewrite st_bind_eq; [|by apply wr_spec]. fold s1.
        erewrite st_bind_eq; [|apply wr_spec; unfold s1; by rewrite upd_alloc]. fold s2.
        erewrite st_bind_eq; [|exact E3]. exact E.
      * rewrite HJ. simpl. apply Permutation_middle.
      * congruence.
      * eapply same_payload_trans; [|exact Hpay']. by eapply same_payload_trans.
  - rewrite table_nodes_cons_None in *. simpl.
    destruct (IH (d + 1)%N h nm s I) as
      (s' & h' & nm' & J & E & Wf' & HJ & Hr' & Hm' & Hcnt' & Hnm' & Hpay'); try done.
    + intros i a Hi. rewrite (Hidx (S i) a) by done. lia.
    + exists s', h', nm', J. split_and!; done.
Qed.

(** The nodes of a table that is as it should be. *)
Lemma table_nodes_NoDup G : ∀ D d,
  (∀ i p, D !! i = Some (Some p) → length (f_kids G p) = d + i) →
  NoDup (table_nodes D).
Proof.
  induction D as [|[p|] D IH]; intros d Hidx.
  - constructor.
  - rewrite table_nodes_cons_Some. apply NoDup_cons. split.
    + intros Hin. apply list_elem_of_omap in Hin as (o & Ho & Heq). simpl in Heq. subst o.
      apply list_elem_of_lookup_1 in Ho as [i Hi].
      pose proof (Hidx 0 p eq_refl). pose proof (Hidx (S i) p Hi). lia.
    + apply (IH (S d)). intros i a Hi. rewrite (Hidx (S i) a) by done. lia.
  - rewrite table_nodes_cons_None. apply (IH (S d)).
    intros i a Hi. rewrite (Hidx (S i) a) by done. lia.
Qed.

Lemma table_nodes_perm D W G : NoDup W → table_ok D W G → table_nodes D ≡ₚ W.
Proof.
  intros Hnd [H1 H2]. apply NoDup_Permutation; [|done|].
  - apply (table_nodes_NoDup G D 0). intros i p Hi. by destruct (H1 i p Hi).
  - intros p. unfold table_nodes. rewrite list_elem_of_omap. split.
    + intros (o & Ho & Heq). simpl in Heq. subst o.
      apply list_elem_of_lookup_1 in Ho as [i Hi]. by destruct (H1 i p Hi).
    + intros Hp. exists (Some p). split; [|done]. eapply list_elem_of_lookup_2. by apply H2.
Qed.
End Phases.

Section DeleteMin.
Context {Data Key : Type} `{KeyTotal Key}.
Implicit Types (s : store Data Key) (G : forest) (p q : ptr) (h : FibonacciHeap).

Lemma delete_node_spec s r :
  is_Some (cells s !! r) →
  delete_node r s = Ok (tt, mkStore (delete r (cells s)) (fresh s)).
Proof. unfold delete_node. by intros [n ->]. Qed.

Lemma item_of_same s s' p : same_payload s s' → item_of s' p = item_of s p.
Proof. intros (_ & Hk & Hd). unfold item_of. by rewrite Hk, Hd. Qed.

(** [deletemin()] removes the root the heap points to. *)
Lemma deletemin_spec s h G r :
  heap_inv s h G → rootWithMinKey h = Some r →
  ∃ s' h' G', deletemin h s = Ok (h', s') ∧
    heap_inv s' h' G' ∧
    f_live G ≡ₚ r :: f_live G' ∧
    (∀ p, p ∈ f_live G' → item_of s' p = item_of s p).
Proof.
  intros [Wf Hring Hroot Hcount Hmax] Hr. unfold deletemin. rewrite Hr in Hroot |- *.
  destruct Hroot as [Hrt Hmin].
  assert (f_tops G ≠ []) as Hne by (intros Heq; rewrite Heq in Hrt; by apply elem_of_nil in Hrt).
  destruct (phase1_spec s G r Wf (Hring Hne) Hrt) as
    (s1 & U & L' & rc & Erc & E1 & Hcyc1 & HpermL & Wf1 & Hpay1 & Hsize1).
  erewrite st_bind_eq; [|by apply rd_spec].
  erewrite st_bind_eq; [|exact E1].
  pose proof (cyc_head_next _ _ _ _ Hcyc1) as Hnext.
  erewrite st_bind_eq; [|apply rd_spec; exact Hnext].
  assert (NoDup (r :: L')) as HndL by (rewrite <- HpermL; by eapply wf_live_nodup).
  apply NoDup_cons in HndL as [HrL HndL].
  assert (N.of_nat (S (length L')) < UInt.modulus)%N as Hsmall.
  { pose proof (wf_small _ _ _ Wf) as Hs. rewrite HpermL in Hs. done. }
  assert (UInt.decr (count h) = N.of_nat (length L')) as Hcount'.
  { rewrite Hcount, HpermL. simpl. by apply UInt_decr_nat. }
  destruct U as [|u U]; simpl.
  - (* the last node *)
    rewrite bool_decide_eq_true_2 by done.
    assert (L' = []) as HL' by (by apply (wf_no_tops s1 _ Wf1)).
    rewrite Hcount', HL'. simpl.
    eexists s1, _, (mkForest [] (f_kids G) L'). split; [done|]. split_and!.
    + split; simpl; try done. by rewrite HL'.
    + done.
    + intros p Hp. by apply item_of_same.
  - assert (u ≠ r) as Hur.
    { destruct Hcyc1 as [Hnd _]. apply NoDup_cons in Hnd as [Hnd _]. intros ->. apply Hnd. left. }
    rewrite bool_decide_eq_false_2 by done.
    erewrite st_bind_eq; [|apply rd_spec; exact Hnext]. simpl.
    erewrite st_bind_eq; [|apply fuel_of_spec].
    set (D := replicate (N.to_nat (UInt.add (maxDegree h) 250)) (None : option ptr)).
    assert (degree_bound ≤ length D) as HD.
    { unfold D. rewrite length_replicate. unfold UInt.add, degree_bound in *.
      rewrite N.mod_small; [lia|]. unfold UInt.modulus. lia. }
    destruct (consolidate_spec r (S (size (cells s1))) s1 (mkForest (u :: U) (f_kids G) L')
                D [] u U) as (s2 & G2 & D2 & M2 & E2 & Wf2 & Htops2 & HT2 & Hlive2 & Hpay2);
      try done.
    { apply table_ok_nil. }
    { pose proof (wf_tops_length _ _ _ Wf1) as Hl1. pose proof (wf_live_size _ _ _ Wf1) as Hl2.
      simpl in Hl1, Hl2. lia. }
    simpl in Hlive2.
    erewrite st_bind_eq; [|exact E2].
    assert (is_Some (cells s2 !! r)) as Ar2.
    { destruct Hpay2 as (_ & Hk & _). rewrite (same_alloc myKey s1 s2) by done.
      eapply cyc_alloc; [exact Hcyc1|left]. }
    erewrite st_bind_eq; [|by apply delete_node_spec].
    set (s3 := mkStore (delete r (cells s2)) (fresh s2)).
    assert (∀ p, p ≠ r → cells s3 !! p = cells s2 !! p) as Hag3.
    { intros p Hp. unfold s3. simpl. by rewrite lookup_delete_ne. }
    assert (wf s3 G2 None) as Wf3.
    { eapply wf_frame; [| |exact Wf2]; [|done].
      intros p Hp. apply Hag3. intros ->. apply HrL. by rewrite <- Hlive2. }
    assert (NoDup M2) as HndM2 by (rewrite <- Htops2; by eapply wf_tops_nodup).
    pose proof (table_nodes_perm D2 M2 G2 HndM2 HT2) as HpermD.
    destruct (rebuild_spec G2 D2 0%N (mkHeap None (UInt.decr (count h)) 0) 0%N s3 []) as
      (s4 & h4 & nm4 & J & E4 & Wf4 & HJ & Hr4 & Hm4 & Hcnt4 & Hnm4 & Hpay4); try done.
    { simpl. by rewrite HpermD. }
    { simpl. intros p Hp. by rewrite Htops2, <- HpermD. }
    { intros i p Hi. destruct HT2 as [H1 _]. by destruct (H1 i p Hi). }
    { unfold degree_bound. simpl. lia. }
    erewrite st_bind_eq; [|exact E4]. simpl in HJ.
    assert (J ≡ₚ f_tops G2) as HJ' by (by rewrite HJ, HpermD).
    eexists s4, _, G2. split; [done|]. split_and!.
    + split; simpl; try done.
      * intros Hnn. eapply ring_perm; [exact HJ'|]. apply Hr4. intros ->.
        apply Permutation_nil_l in HJ'. done.
      * by eapply min_root_perm.
      * by rewrite Hlive2.
    + by rewrite Hlive2.
    + intros p Hp. rewrite (item_of_same s3 s4) by done.
      assert (p ≠ r) as Hpr by (intros ->; apply HrL; by rewrite <- Hlive2).
      assert (item_of s3 p = item_of s2 p) as ->.
      { unfold item_of, fld. by rewrite Hag3. }
      rewrite (item_of_same s1 s2) by done. by apply item_of_same.
Qed.
End DeleteMin.

#[global] Instance Z_KeyTotal : KeyTotal Z.
Proof.
  split; simpl; intros.
  - destruct (Z.leb_spec a b), (Z.leb_spec b a); auto; lia.
  - apply Z.leb_le. apply Z.leb_le in H, H0. lia.
  - rewrite Z.ltb_antisym. done.
  - rewrite Z.gtb_ltb, Z.ltb_antisym. done.
  - by rewrite Z.geb_leb.
Qed.

Section Drain.
Context {Data Key : Type} `{KeyTotal Key}.
Implicit Types (s : store Data Key) (G : forest) (p q : ptr) (h : FibonacciHeap).

Lemma heap_inv_empty s h G : heap_inv s h G → empty h = true → f_live G = [].
Proof.
  intros [_ _ _ Hc _]. unfold empty. intros He%bool_decide_eq_true.
  rewrite Hc in He. destruct (f_live G); [done|simpl in He; lia].
Qed.

Lemma heap_inv_root s h G :
  heap_inv s h G → empty h = false → ∃ r, rootWithMinKey h = Some r ∧ r ∈ f_live G.
Proof.
  intros [Wf _ Hroot Hc _]. unfold empty. intros He%bool_decide_eq_false.
  destruct (rootWithMinKey h) as [r|]; simpl in Hroot.
  - exists r. split; [done|]. apply (wf_tops_live _ _ _ Wf). by destruct Hroot.
  - exfalso. apply He. rewrite Hc, (wf_no_tops s G Wf Hroot). done.
Qed.

Lemma item_of_Some s p d k :
  fld myData s p = Some d → fld myKey s p = Some k → item_of s p = Some (d, k).
Proof. intros Hd Hk. unfold item_of. by rewrite Hd, Hk. Qed.

Lemma item_of_key s p it : item_of s p = Some it → fld myKey s p = Some (snd it).
Proof.
  unfold item_of. destruct (fld myData s p); simpl; [|done].
  destruct (fld myKey s p); simpl; [|done]. by intros [= <-].
Qed.

(** The loop that empties the heap returns the items of the heap, least
    keys first. *)
Lemma drain_spec : ∀ fuel s h G,
  heap_inv s h G → length (f_live G) ≤ fuel →
  ∃ s' out, drain fuel h s = Ok (out, s') ∧
    Some <$> out ≡ₚ item_of s <$> f_live G ∧
    nondecreasing out = true.
Proof.
  induction fuel as [|fuel IH]; intros s h G Hinv Hfuel.
  - assert (f_live G = []) as Hl by (destruct (f_live G); [done|simpl in Hfuel; lia]).
    pose proof (hi_count _ _ _ Hinv) as Hc. rewrite Hl in Hc.
    exists s, []. simpl. unfold empty. rewrite bool_decide_eq_true_2 by done.
    rewrite Hl. done.
  - simpl. destruct (empty h) eqn:He.
    + exists s, []. rewrite (heap_inv_empty _ _ _ Hinv He). done.
    + destruct (heap_inv_root _ _ _ Hinv He) as (r & Hr & Hrl).
      pose proof (hi_wf _ _ _ Hinv) as Wf.
      destruct (wf_alloc _ _ _ Wf r Hrl) as [Ar _].
      destruct (proj2 (fld_is_Some myData s r) Ar) as [d Hd].
      destruct (proj2 (fld_is_Some myKey s r) Ar) as [k Hk].
      destruct (deletemin_spec s h G r Hinv Hr) as (s1 & h1 & G1 & E1 & Hinv1 & Hperm & Hitems).
      destruct (IH s1 h1 G1 Hinv1) as (s' & out & E & Hout & Hsorted).
      { rewrite Hperm in Hfuel. simpl in Hfuel. lia. }
      exists s', ((d, k) :: out). split_and!.
      * unfold minimum. rewrite Hr.
        erewrite st_bind_eq; [|done].
        erewrite st_bind_eq; [|by apply rd_spec].
        erewrite st_bind_eq; [|by apply rd_spec].
        erewrite st_bind_eq; [|exact E1].
        erewrite st_bind_eq; [|exact E]. done.
      * rewrite Hperm. csimpl. rewrite (item_of_Some s r d k) by done. f_equiv.
        rewrite Hout.
        assert (item_of s1 <$> f_live G1 = item_of s <$> f_live G1) as ->; [|done].
        apply list_fmap_ext. intros i p Hp. apply Hitems. by eapply list_elem_of_lookup_2.
      * destruct out as [|b out']; [done|].
        change (key_le k (snd b) && nondecreasing (b :: out') = true).
        rewrite Hsorted, andb_true_r.
        assert (Some b ∈ item_of s1 <$> f_live G1) as Hb by (rewrite <- Hout; left).
        apply list_elem_of_fmap in Hb as (p & Hb & Hp).
        rewrite (Hitems p Hp) in Hb. symmetry in Hb. apply item_of_key in Hb.
        assert (p ∈ f_live G) as Hpl by (rewrite Hperm; by right).
        destruct (min_root_least s G r p Wf) as (a & b' & Ha & Hb' & Hab); [|done|].
        { pose proof (hi_root _ _ _ Hinv) as Hroot. by rewrite Hr in Hroot. }
        congruence.
Qed.
End Drain.

Section Client.
Context {Data Key : Type} `{KeyTotal Key}.
Implicit Types (s : store Data Key) (G : forest) (p q : ptr) (h : FibonacciHeap).
Implicit Types (items : list (Data * Key)) (ops : list (heap_op Data Key)).

Lemma omap_id_Some {A} (l : list A) : omap id (Some <$> l) = l.
Proof. induction l as [|x l IH]; [done|]. csimpl. by rewrite IH. Qed.

Lemma wf_empty (s : store Data Key) : wf s empty_forest None.
Proof.
  split; simpl; try done; try apply NoDup_nil_2.
  all: try (intros p Hp; by apply elem_of_nil in Hp).
  all: try (intros q c Hq; by apply elem_of_nil in Hq).
  all: try (intros q i c Hq; by apply elem_of_nil in Hq).
  exists (λ _, 0). intros q c Hq. by apply elem_of_nil in Hq.
Qed.

Lemma heap_inv_new s : heap_inv s new_heap empty_forest.
Proof.
  split; simpl; try done.
  - apply wf_empty.
  - unfold degree_bound. lia.
Qed.

Lemma apply_op_length items o items' :
  apply_op items o = Some items' → length items ≤ length items'.
Proof.
  destruct o as [d k|i k]; simpl.
  - intros [= <-]. rewrite length_app. lia.
  - destruct (items !! i) as [[d k0]|]; [|done]. destruct (key_gt k k0); [done|].
    intros [= <-]. by rewrite length_insert.
Qed.

Lemma apply_ops_length ops : ∀ items items',
  apply_ops ops items = Some items' → length items ≤ length items'.
Proof.
  induction ops as [|o ops IH]; intros items items'; simpl.
  - by intros [= <-].
  - destruct (apply_op items o) as [items1|] eqn:E; [|done].
    intros Hops. apply apply_op_length in E. apply IH in Hops. lia.
Qed.

(** An operation of the client keeps its view. *)
Lemma run_op_spec s h handles items G o items' :
  client_inv s h handles items G →
  apply_op items o = Some items' →
  (N.of_nat (length items') < UInt.modulus)%N →
  ∃ s' h' handles' G',
    run_op (h, handles) o s = Ok ((h', handles'), s') ∧
    client_inv s' h' handles' items' G'.
Proof.
  intros (Hinv & Hperm & Hitems) Hop Hsmall.
  assert (length handles = length items) as Hlen.
  { apply (f_equal length) in Hitems. by rewrite !length_fmap in Hitems. }
  pose proof (hi_wf _ _ _ Hinv) as Wf.
  destruct o as [d k|i k]; simpl in Hop |- *.
  - injection Hop as <-. rewrite length_app in Hsmall. simpl in Hsmall.
    destruct (insert_spec s h G d k Hinv) as (s' & h' & E & Hinv' & Hnew & Hfresh & Hold).
    { rewrite <- Hperm, Hlen. lia. }
    erewrite st_bind_eq; [|exact E]. simpl.
    eexists s', h', _, _. split; [done|]. split_and!; [exact Hinv'|..].
    + simpl. rewrite <- Hperm. symmetry. apply Permutation_cons_append.
    + rewrite !fmap_app. simpl. rewrite Hnew. f_equal. rewrite <- Hitems.
      apply list_fmap_ext. intros j q Hq. apply Hold. rewrite <- Hperm.
      by eapply list_elem_of_lookup_2.
  - destruct (items !! i) as [[d k0]|] eqn:Ei; [|done].
    destruct (key_gt k k0) eqn:Egt; [done|]. injection Hop as <-.
    assert (key_le k k0 = true) as Hle.
    { rewrite key_gt_le in Egt. by destruct (key_le k k0). }
    assert (item_of s <$> handles !! i = Some (Some (d, k0))) as Hi.
    { by rewrite <- list_lookup_fmap, Hitems, list_lookup_fmap, Ei. }
    destruct (handles !! i) as [p|] eqn:Ep; [|done]. simpl in Hi. injection Hi as Hi.
    assert (p ∈ f_live G) as Hpl by (rewrite <- Hperm; by eapply list_elem_of_lookup_2).
    pose proof (item_of_key _ _ _ Hi) as Hk. simpl in Hk.
    destruct (decreaseKey_spec s h G p k k0 Hinv Hpl Hk Hle) as
      (s' & h' & G' & E & Hinv' & Hlive & Hk' & Hd' & Hother & _).
    erewrite st_bind_eq; [|exact E].
    exists s', h', handles, G'. split; [done|]. split_and!; [done|by rewrite Hlive|].
    assert (NoDup handles) as Hnd by (rewrite Hperm; by eapply wf_live_nodup).
    apply list_eq. intros j. rewrite !list_lookup_fmap.
    destruct (decide (j = i)) as [->|Hne].
    + rewrite Ep, list_lookup_insert_eq by (by eapply lookup_lt_Some). simpl. f_equal.
      unfold item_of in Hi |- *. rewrite Hd', Hk'.
      destruct (fld myData s p); simpl in *; [|done].
      destruct (fld myKey s p); simpl in *; [|done]. by injection Hi as -> _.
    + rewrite list_lookup_insert_ne by done.
      rewrite <- !list_lookup_fmap, <- Hitems, !list_lookup_fmap.
      destruct (handles !! j) as [q|] eqn:Eq; [|done]. simpl. f_equal.
      assert (q ≠ p) as Hqp.
      { intros ->. apply Hne. by eapply NoDup_lookup. }
      unfold item_of. by rewrite Hd', Hother.
Qed.

(** A sequence of operations of the client keeps its view. *)
Lemma run_ops_spec ops : ∀ s h handles items G items',
  client_inv s h handles items G →
  apply_ops ops items = Some items' →
  (N.of_nat (length items') < UInt.modulus)%N →
  ∃ s' h' handles' G',
    run_ops ops (h, handles) s = Ok ((h', handles'), s') ∧
    client_inv s' h' handles' items' G'.
Proof.
  induction ops as [|o ops IH]; intros s h handles items G items' Hinv Hops Hsmall; simpl in *.
  - injection Hops as <-. by exists s, h, handles, G.
  - destruct (apply_op items o) as [items1|] eqn:E; [|done].
    destruct (run_op_spec s h handles items G o items1 Hinv E) as
      (s1 & h1 & handles1 & G1 & E1 & Hinv1).
    { apply apply_ops_length in Hops. lia. }
    destruct (IH s1 h1 handles1 items1 G1 items' Hinv1 Hops Hsmall) as
      (s' & h' & handles' & G' & E' & Hinv').
    exists s', h', handles', G'. split; [|done].
    erewrite st_bind_eq; [|exact E1]. exact E'.
Qed.

(** C5. A client stores items in a new heap by a sequence of [insert] and
    [decreaseKey], the key of each [decreaseKey] being not greater than the
    key it replaces, fewer than [2^32] items in all. All the operations
    return, and the loop that reads [minimum()] and calls [deletemin()]
    until the heap is empty returns the stored items, each once, in an order
    in which the keys do not decrease. *)
Theorem heap_order ops items fuel :
  apply_ops ops [] = Some items →
  (N.of_nat (length items) < UInt.modulus)%N →
  length items ≤ fuel →
  ∃ h handles s out s',
    run_ops ops (new_heap, []) empty_store = Ok ((h, handles), s) ∧
    drain fuel h s = Ok (out, s') ∧
    nondecreasing out = true ∧
    out ≡ₚ items.
Proof.
  intros Hops Hsmall Hfuel.
  destruct (run_ops_spec ops empty_store new_heap [] [] empty_forest items) as
    (s & h & handles & G & E & Hinv & Hperm & Hitems); [|done|done|].
  { split; [apply heap_inv_new|done]. }
  assert (length (f_live G) = length items) as Hlen.
  { rewrite <- Hperm. apply (f_equal length) in Hitems. by rewrite !length_fmap in Hitems. }
  destruct (drain_spec fuel s h G Hinv) as (s' & out & Ed & Hout & Hsorted); [lia|].
  exists h, handles, s, out, s'. split_and!; try done.
  rewrite <- Hperm, Hitems in Hout.
  apply (omap_Permutation id) in Hout. by rewrite !omap_id_Some in Hout.
Qed.
End Client.

Lemma heap_order_witness :
  ∃ h handles s out s',
    run_ops [Insert "a" 5%Z; Insert "b" 3%Z; Insert "c" 8%Z; DecreaseKey 2 1%Z; Insert "d" 3%Z]
      (new_heap, []) empty_store = Ok ((h, handles), s) ∧
    drain 4 h s = Ok (out, s') ∧
    nondecreasing out = true ∧
    out ≡ₚ [("a", 5%Z); ("b", 3%Z); ("c", 1%Z); ("d", 3%Z)].
Proof.
  apply (heap_order (Data := string) (Key := Z)); [reflexivity|reflexivity|simpl; lia].
Defined.

Section Merge.
Context {Data Key : Type} `{KeyTotal Key}.
Implicit Types (s : store Data Key) (G : forest) (p q : ptr) (h : FibonacciHeap).

(** Two forests with no common node are one forest. *)
Lemma wf_union s G1 G2 :
  wf s G1 None → wf s G2 None →
  (∀ p, p ∈ f_live G1 → p ∉ f_live G2) →
  (N.of_nat (length (f_live G1) + length (f_live G2)) < UInt.modulus)%N →
  wf s (forest_union G1 G2) None.
Proof.
  intros W1 W2 Hdisj Hsmall.
  assert (∀ q, q ∈ f_live G1 →
            (if decide (q ∈ f_live G1) then f_kids G1 q else f_kids G2 q) = f_kids G1 q) as HK1.
  { intros q Hq. by rewrite decide_True. }
  assert (∀ q, q ∈ f_live G2 →
            (if decide (q ∈ f_live G1) then f_kids G1 q else f_kids G2 q) = f_kids G2 q) as HK2.
  { intros q Hq. rewrite decide_False; [done|]. intros Hin. by apply (Hdisj q). }
  destruct W1 as [S1 A1 B1 C1 D1 E1 F1 I1 J1 L1 M1 N1 O1 P1 Q1 R1].
  destruct W2 as [S2 A2 B2 C2 D2 E2 F2 I2 J2 L2 M2 N2 O2 P2 Q2 R2].
  split; cbn [forest_union f_tops f_kids f_live].
  - by rewrite length_app.
  - apply NoDup_app. split_and!; [done| |done]. intros p Hp1 Hp2. by apply (Hdisj p).
  - apply NoDup_app. split_and!; [done| |done]. intros p Hp1 Hp2. apply (Hdisj p); auto.
  - intros p [?|?]%elem_of_app; apply elem_of_app; auto.
  - intros q [Hq|Hq]%elem_of_app; [rewrite HK1|rewrite HK2]; auto.
  - intros q c [Hq|Hq]%elem_of_app; [rewrite HK1|rewrite HK2]; try done;
      intros Hc; apply elem_of_app; eauto.
  - intros p [Hp|Hp]%elem_of_app.
    + destruct (F1 p Hp) as [?|(q & Hq & Hc)]; [left; apply elem_of_app; auto|].
      right. exists q. split; [apply elem_of_app; auto|]. by rewrite HK1.
    + destruct (F2 p Hp) as [?|(q & Hq & Hc)]; [left; apply elem_of_app; auto|].
      right. exists q. split; [apply elem_of_app; auto|]. by rewrite HK2.
  - intros p [?|?]%elem_of_app; auto.
  - intros p [?|?]%elem_of_app; auto.
  - intros q c [Hq|Hq]%elem_of_app; [rewrite HK1|rewrite HK2]; auto.
  - intros p [Hp|Hp]%elem_of_app; [rewrite HK1 by done; exact (M1 p Hp)|
                                     rewrite HK2 by done; exact (M2 p Hp)].
  - intros p [Hp|Hp]%elem_of_app; [rewrite HK1|rewrite HK2]; auto.
  - intros q c [Hq|Hq]%elem_of_app; [rewrite HK1|rewrite HK2]; auto.
  - intros q [Hq|Hq]%elem_of_app; [rewrite HK1|rewrite HK2]; auto.
  - destruct Q1 as [rk1 Hrk1], Q2 as [rk2 Hrk2].
    exists (λ p, if decide (p ∈ f_live G1) then rk1 p else rk2 p).
    intros q c [Hq|Hq]%elem_of_app.
    + rewrite HK1 by done. intros Hc. rewrite !decide_True by eauto. auto.
    + rewrite HK2 by done. intros Hc.
      rewrite !decide_False; [auto|intros Hin; by apply (Hdisj q)|].
      intros Hin. apply (Hdisj c); eauto.
  - intros q i c [Hq|Hq]%elem_of_app.
    + rewrite HK1 by done. intros Hi Hex. rewrite HK1; [by apply (R1 q)|].
      eapply E1; [done|]. by eapply list_elem_of_lookup_2.
    + rewrite HK2 by done. intros Hi Hex. rewrite HK2; [by apply (R2 q)|].
      eapply E2; [done|]. by eapply list_elem_of_lookup_2.
Qed.

(** The invariant of a heap reads only its nodes. *)
Lemma heap_inv_frame s s' h G :
  (∀ p, p ∈ f_live G → cells s' !! p = cells s !! p) →
  fresh s ≤ fresh s' →
  heap_inv s h G → heap_inv s' h G.
Proof.
  intros Hag Hfr [Wf Hring Hroot Hcount Hmax].
  assert (∀ A (f : FibonacciHeapNode Data Key → A) p,
            p ∈ f_tops G → fld f s' p = fld f s p) as Hf.
  { intros A f p Hp. unfold fld. rewrite Hag; [done|]. by apply (wf_tops_live _ _ _ Wf). }
  split; try done.
  - by eapply wf_frame.
  - intros Hne. eapply ring_frame; [|by apply Hring]. intros a Ha. by rewrite !Hf.
  - destruct (rootWithMinKey h) as [r|]; simpl in *; [|done].
    destruct Hroot as [Hr Hmin]. split; [done|]. intros x Hx.
    destruct (Hmin x Hx) as (a & b & Ha & Hb & Hab). exists a, b. by rewrite !Hf.
Qed.

Lemma heap_inv_empty_root s h G :
  heap_inv s h G → (empty h = true ↔ rootWithMinKey h = None).
Proof.
  intros Hinv. split.
  - intros He. pose proof (heap_inv_empty _ _ _ Hinv He) as Hl.
    pose proof (hi_root _ _ _ Hinv) as Hroot.
    destruct (rootWithMinKey h) as [r|]; [|done]. destruct Hroot as [Hr _].
    apply (wf_tops_live _ _ _ (hi_wf _ _ _ Hinv)) in Hr. rewrite Hl in Hr.
    by apply elem_of_nil in Hr.
  - intros Hr. destruct (empty h) eqn:He; [done|].
    destruct (heap_inv_root _ _ _ Hinv He) as (r & Hr' & _). congruence.
Qed.

(** C10. [merge] on two heaps with no common node and fewer than [2^32]
    nodes together. When the receiver is empty the null root is
    dereferenced, which is an error. When it is not, [merge] returns a
    heap of the nodes of both heaps, whose items it leaves as they are; the
    count of the heap is the sum of the two counts, and its root is the root
    of one of the two heaps, with a least key among all the nodes. *)
Theorem merge_spec s h1 h2 G1 G2 :
  heap_inv s h1 G1 → heap_inv s h2 G2 →
  (∀ p, p ∈ f_live G1 → p ∉ f_live G2) →
  (N.of_nat (length (f_live G1) + length (f_live G2)) < UInt.modulus)%N →
  if empty h1 then merge h1 h2 s = Err Undefined
  else
    ∃ s' h' m, merge h1 h2 s = Ok (h', s') ∧
      heap_inv s' h' (forest_union G1 G2) ∧
      count h' = (count h1 + count h2)%N ∧
      (∀ p, item_of s' p = item_of s p) ∧
      rootWithMinKey h' = Some m ∧
      (Some m = rootWithMinKey h1 ∨ Some m = rootWithMinKey h2) ∧
      (∀ p, p ∈ f_live G1 ++ f_live G2 → kle s' m p).
Proof.
  intros Hinv1 Hinv2 Hdisj Hsmall.
  destruct (empty h1) eqn:He.
  { apply (heap_inv_empty_root _ _ _ Hinv1) in He. unfold merge. by rewrite He. }
  destruct (heap_inv_root _ _ _ Hinv1 He) as (r1 & Hr1 & Hr1l).
  destruct Hinv1 as [W1 Hring1 Hroot1 Hcount1 Hmax1].
  destruct Hinv2 as [W2 Hring2 Hroot2 Hcount2 Hmax2].
  rewrite Hr1 in Hroot1. destruct Hroot1 as [Hr1t Hmin1].
  assert (f_tops G1 ≠ []) as Hne1 by (intros Heq; rewrite Heq in Hr1t; by apply elem_of_nil in Hr1t).
  destruct (ring_cyc _ _ _ _ (Hring1 Hne1) Hr1t) as (l1 & Hc1 & Hp1).
  assert (∀ p, p ∈ f_tops G1 → p ∉ f_tops G2) as Hdt.
  { intros p Hp Hp'. apply (Hdisj p); [by apply (wf_tops_live _ _ _ W1)|
                                       by apply (wf_tops_live _ _ _ W2)]. }
  assert (count h1 + count h2 = N.of_nat (length (f_live (forest_union G1 G2))))%N as Hcnt.
  { simpl. rewrite length_app, Hcount1, Hcount2. lia. }
  assert (UInt.add (count h1) (count h2) = (count h1 + count h2)%N) as Hadd.
  { unfold UInt.add. rewrite N.mod_small; [done|]. rewrite Hcount1, Hcount2. lia. }
  assert (∀ s', same_payload s s' → same_tree s s' →
            (∀ p, p ∉ f_tops G1 → p ∉ f_tops G2 →
               fld next s' p = fld next s p ∧ fld previous s' p = fld previous s p) →
            wf s' (forest_union G1 G2) None) as Hwf.
  { intros s' Hpay Htree Hl. apply wf_union; try done.
    - eapply wf_relink; [exact W1|done|done|]. intros p Hp Hpt. apply Hl; [done|].
      intros Hin. apply (Hdisj p Hp). by apply (wf_tops_live _ _ _ W2).
    - eapply wf_relink; [exact W2|done|done|]. intros p Hp Hpt. apply Hl; [|done].
      intros Hin. apply (Hdisj p); [by apply (wf_tops_live _ _ _ W1)|done]. }
  assert (is_Some (cells s !! r1)) as Ar1 by by apply (wf_alloc _ _ _ W1).
  destruct (proj2 (fld_is_Some myKey s r1) Ar1) as [k1 Hk1].
  unfold merge. rewrite Hr1.
  destruct (rootWithMinKey h2) as [r2|] eqn:Hr2; simpl in Hroot2.
  - destruct Hroot2 as [Hr2t Hmin2].
    assert (f_tops G2 ≠ []) as Hne2 by (intros Heq; rewrite Heq in Hr2t; by apply elem_of_nil in Hr2t).
    destruct (ring_cyc _ _ _ _ (Hring2 Hne2) Hr2t) as (l2 & Hc2 & Hp2).
    destruct (node_insert_spec r1 l1 r2 l2 s Hc1 Hc2) as (s' & E & Hc' & Hpay & Htree & Hl).
    { intros a Ha1 Ha2. rewrite Hp1 in Ha1. rewrite Hp2 in Ha2. by apply (Hdt a). }
    assert (is_Some (cells s !! r2)) as Ar2.
    { apply (wf_alloc _ _ _ W2). by apply (wf_tops_live _ _ _ W2). }
    destruct (proj2 (fld_is_Some myKey s r2) Ar2) as [k2 Hk2].
    pose proof Hpay as (Hfr & Hkey & Hdata).
    erewrite st_bind_eq; [|exact E].
    erewrite st_bind_eq.
    2:{ erewrite st_bind_eq; [|apply rd_spec; by rewrite Hkey].
        erewrite st_bind_eq; [|apply rd_spec; by rewrite Hkey]. done. }
    pose proof (key_lt_kle s r2 r1 k2 k1 Hk2 Hk1) as Hcmp.
    assert (wf s' (forest_union G1 G2) None) as Wf'.
    { apply Hwf; try done. intros p Hpa Hpb. apply Hl; [by rewrite Hp1|by rewrite Hp2]. }
    assert (ring (fld next s') (fld previous s') (f_tops G1 ++ f_tops G2)) as Hring'.
    { eapply cyc_perm_ring; [exact Hc'|]. rewrite <- Hp1, <- Hp2.
      rewrite (Permutation_app_comm (r1 :: l1)). simpl.
      etrans; [apply Permutation_swap|]. f_equiv. apply Permutation_middle. }
    set (m := if key_lt k2 k1 then r2 else r1).
    assert (min_root s' (Some m) (f_tops G1 ++ f_tops G2)) as Hmin'.
    { eapply min_root_same; [exact Hkey|]. unfold m. simpl. destruct (key_lt k2 k1).
      - split; [apply elem_of_app; by right|]. intros x [Hx|Hx]%elem_of_app; [|auto].
        eapply kle_trans; [exact Hcmp|auto].
      - split; [apply elem_of_app; by left|]. intros x [Hx|Hx]%elem_of_app; [auto|].
        eapply kle_trans; [exact Hcmp|auto]. }
    eexists s', _, m. split; [done|]. simpl. split_and!.
    + split; simpl; try done.
      * unfold m in Hmin'. by destruct (key_lt k2 k1).
      * by rewrite Hadd.
    + done.
    + intros p. by apply item_of_same.
    + unfold m. by destruct (key_lt k2 k1).
    + unfold m. destruct (key_lt k2 k1); [by right|by left].
    + intros p Hp. by eapply (min_root_least s' (forest_union G1 G2)).
  - erewrite st_bind_eq; [|done]. erewrite st_bind_eq; [|done].
    assert (wf s (forest_union G1 G2) None) as Wf' by (by apply Hwf).
    assert (min_root s (Some r1) (f_tops G1 ++ f_tops G2)) as Hmin'.
    { rewrite Hroot2, app_nil_r. done. }
    eexists s, _, r1. split; [done|]. simpl. split_and!; try done.
    + split; simpl; try done.
      * intros _. rewrite Hroot2, app_nil_r. auto.
      * by rewrite Hadd.
    + by left.
    + intros p Hp. by eapply (min_root_least s (forest_union G1 G2)).
Qed.
End Merge.

(** A node that is alone in its list and has no child is a heap. *)
Lemma heap_inv_one {Data Key : Type} `{KeyTotal Key} (s : store Data Key) (p : ptr) n :
  cells s !! p = Some n → p < fresh s →
  next n = p → previous n = p → child n = None → parent n = None → degree n = 0%N →
  heap_inv s (mkHeap (Some p) 1 0) (forest_of_one p).
Proof.
  intros Hn Hfr Hnext Hprev Hchild Hpar Hdeg.
  assert (∀ A (f : FibonacciHeapNode Data Key → A), fld f s p = Some (f n)) as Hf.
  { intros A f. unfold fld. by rewrite Hn. }
  split; simpl.
  - split; simpl; try done; try apply NoDup_singleton.
    all: try (intros q c _ Hc; by apply elem_of_nil in Hc).
    all: try (intros q ->%list_elem_of_singleton).
    all: rewrite ?Hf, ?Hpar, ?Hchild, ?Hdeg, ?Hn; try done.
    + constructor.
    + left. left.
    + exists (λ _, 0). intros q c _ Hc. by apply elem_of_nil in Hc.
  - intros _. apply cyc_ring, cyc_singleton. split; by rewrite Hf, ?Hnext, ?Hprev.
  - split; [left|]. intros x ->%list_elem_of_singleton. apply kle_refl. by rewrite Hn.
  - done.
  - unfold degree_bound. lia.
Qed.

Lemma merge_spec_witness :
  ∃ s' h' m,
    merge HeapExamples.heap_a HeapExamples.heap_b HeapExamples.two_heaps_store = Ok (h', s') ∧
    heap_inv s' h' (forest_union (forest_of_one 0) (forest_of_one 1)) ∧
    count h' = 2%N ∧
    (∀ p, item_of s' p = item_of HeapExamples.two_heaps_store p) ∧
    rootWithMinKey h' = Some m ∧
    (Some m = Some 0 ∨ Some m = Some 1) ∧
    (∀ p, p ∈ [0; 1] → kle s' m p).
Proof.
  apply (merge_spec HeapExamples.two_heaps_store HeapExamples.heap_a HeapExamples.heap_b
           (forest_of_one 0) (forest_of_one 1)).
  - by eapply heap_inv_one; [reflexivity|simpl; lia|..].
  - by eapply heap_inv_one; [reflexivity|simpl; lia|..].
  - intros p ->%list_elem_of_singleton [=]%list_elem_of_singleton.
  - reflexivity.
Defined.

(** The merged heap of the example points to the node of the least key, and
    an empty receiver is an error. *)
Lemma merge_examples :
  (∃ s', merge HeapExamples.heap_a HeapExamples.heap_b HeapExamples.two_heaps_store
         = Ok (mkHeap (Some 1) 2 0, s')) ∧
  merge new_heap HeapExamples.heap_b HeapExamples.two_heaps_store = Err Undefined.
Proof. split; [eexists; vm_compute; reflexivity|reflexivity]. Qed.

(** * The operations, one by one *)

(** ** The Fibonacci heap *)

Section HeapUse.
Context {Data Key : Type} `{KeyTotal Key}.
Implicit Types (s : store Data Key) (G : forest) (p q : ptr) (h : FibonacciHeap).

Lemma heap_inv_minimum s h G :
  heap_inv s h G → empty h = false →
  ∃ m, minimum h s = Ok (m, s) ∧ rootWithMinKey h = Some m ∧ m ∈ f_live G ∧
    ∀ p, p ∈ f_live G → kle s m p.
Proof.
  intros Hinv He. destruct (heap_inv_root _ _ _ Hinv He) as (r & Hr & Hlive).
  exists r. unfold minimum. rewrite Hr. split_and!; try done.
  intros p Hp. eapply min_root_least; [apply (hi_wf _ _ _ Hinv)| |done].
  pose proof (hi_root _ _ _ Hinv) as Hroot. by rewrite Hr in Hroot.
Qed.

Lemma heap_inv_count_empty s h G :
  heap_inv s h G → f_live G ≠ [] → empty h = false.
Proof.
  intros Hinv Hne. destruct (empty h) eqn:He; [|done].
  by apply (heap_inv_empty _ _ _ Hinv) in He.
Qed.

(** X1. [insert(d, k)] on a heap of fewer than [2^32 - 1] nodes returns a
    node that was not in the heap and that holds the item [(d, k)]. The
    heap has that node more, its count is one more, the items of the other
    nodes are as they were, and [minimum()] is then a node with a least
    key among all of them. *)
Theorem insert_adds_item s h G d k :
  heap_inv s h G →
  (N.of_nat (S (length (f_live G))) < UInt.modulus)%N →
  ∃ s' h' G' m, insert h d k s = Ok ((fresh s, h'), s') ∧
    heap_inv s' h' G' ∧
    f_live G' = fresh s :: f_live G ∧
    (fresh s ∉ f_live G) ∧
    item_of s' (fresh s) = Some (d, k) ∧
    (∀ q, q ∈ f_live G → item_of s' q = item_of s q) ∧
    getCount h' = (getCount h + 1)%N ∧
    minimum h' s' = Ok (m, s') ∧
    (∀ q, q ∈ f_live G' → kle s' m q).
Proof.
  intros Hinv Hsmall.
  destruct (insert_spec s h G d k Hinv Hsmall) as (s' & h' & E & Hinv' & Hitem & Hfresh & Hold).
  destruct (heap_inv_minimum _ _ _ Hinv') as (m & Em & _ & _ & Hmin).
  { by eapply heap_inv_count_empty. }
  eexists s', h', _, m. split_and!; try done.
  unfold getCount. rewrite (hi_count _ _ _ Hinv'), (hi_count _ _ _ Hinv). simpl. lia.
Qed.

(** X2. [decreaseKey(node, k)] on a node of the heap. When [k] is greater
    than the key of the node it throws. Otherwise it returns; the heap has
    the same nodes and the same count, the key of the node is [k], the data
    of all the nodes and the keys of the other nodes are as they were, and
    [minimum()] is then a node with a least key among all of them. *)
Theorem decreaseKey_sets_key s h G node k kold :
  heap_inv s h G → node ∈ f_live G → fld myKey s node = Some kold →
  if key_gt k kold
  then decreaseKey h node k s = Err (ThrowString "Trying to decrease key to a greater key")
  else
    ∃ s' h' G' m, decreaseKey h node k s = Ok (h', s') ∧
      heap_inv s' h' G' ∧
      f_live G' = f_live G ∧
      getCount h' = getCount h ∧
      fld myKey s' node = Some k ∧
      (∀ p, p ≠ node → fld myKey s' p = fld myKey s p) ∧
      (∀ p, fld myData s' p = fld myData s p) ∧
      minimum h' s' = Ok (m, s') ∧
      (∀ p, p ∈ f_live G → kle s' m p).
Proof.
  intros Hinv Hnode Hkold. destruct (key_gt k kold) eqn:Hgt.
  - unfold decreaseKey. erewrite st_bind_eq; [|by apply rd_spec]. by rewrite Hgt.
  - rewrite key_gt_le in Hgt. apply negb_false_iff in Hgt.
    destruct (decreaseKey_spec s h G node k kold Hinv Hnode Hkold Hgt) as
      (s' & h' & G' & E & Hinv' & Hlive & Hk & Hd & Hother & _).
    destruct (heap_inv_minimum _ _ _ Hinv') as (m & Em & _ & _ & Hmin).
    { eapply heap_inv_count_empty; [done|]. rewrite Hlive. intros Heq.
      rewrite Heq in Hnode. by apply elem_of_nil in Hnode. }
    exists s', h', G', m. split_and!; try done.
    + unfold getCount. by rewrite (hi_count _ _ _ Hinv'), (hi_count _ _ _ Hinv), Hlive.
    + by rewrite <- Hlive.
Qed.

(** X3. [minimum()] throws on the empty heap, and only on it; on any other
    heap it returns a node of the heap whose key is not greater than the
    key of any node of the heap, and it changes nothing. *)
Theorem minimum_least s h G :
  heap_inv s h G →
  if empty h
  then f_live G = [] ∧ minimum h s = Err (ThrowString "no minimum element")
  else
    ∃ m, minimum h s = Ok (m, s) ∧ m ∈ f_live G ∧ ∀ p, p ∈ f_live G → kle s m p.
Proof.
  intros Hinv. destruct (empty h) eqn:He.
  - split; [by eapply heap_inv_empty|].
    apply (heap_inv_empty_root _ _ _ Hinv) in He. unfold minimum. by rewrite He.
  - destruct (heap_inv_minimum _ _ _ Hinv He) as (m & Em & _ & Hm & Hmin). by exists m.
Qed.

(** X4. [deletemin()] throws on the empty heap. On any other heap it
    returns, and the node it removes is the one [minimum()] returned: the
    heap has the other nodes, with the items they had, and its count is one
    less. *)
Theorem deletemin_removes_minimum s h G :
  heap_inv s h G →
  if empty h
  then deletemin h s = Err (ThrowString "trying to remove from an empty heap")
  else
    ∃ m s' h' G', minimum h s = Ok (m, s) ∧
      deletemin h s = Ok (h', s') ∧
      heap_inv s' h' G' ∧
      f_live G ≡ₚ m :: f_live G' ∧
      (m ∉ f_live G') ∧
      (∀ p, p ∈ f_live G' → item_of s' p = item_of s p) ∧
      (getCount h' + 1 = getCount h)%N.
Proof.
  intros Hinv. destruct (empty h) eqn:He.
  - apply (heap_inv_empty_root _ _ _ Hinv) in He. unfold deletemin. by rewrite He.
  - destruct (heap_inv_minimum _ _ _ Hinv He) as (m & Em & Hr & _ & _).
    destruct (deletemin_spec s h G m Hinv Hr) as (s' & h' & G' & E & Hinv' & Hperm & Hitems).
    exists m, s', h', G'. split_and!; try done.
    + pose proof (wf_live_nodup _ _ _ (hi_wf _ _ _ Hinv)) as Hnd.
      rewrite Hperm in Hnd. by apply NoDup_cons in Hnd as [? _].
    + unfold getCount. rewrite (hi_count _ _ _ Hinv'), (hi_count _ _ _ Hinv), Hperm.
      simpl. lia.
Qed.

(** X5. [remove(node, minusInfinity)] on a node of the heap. When
    [minusInfinity] is not less than the least key of the heap it throws.
    Otherwise it returns, and the node it removes is [node]: the heap has
    the other nodes, with the items they had, and its count is one less. *)
Theorem remove_removes_node s h G node minusInfinity :
  heap_inv s h G → node ∈ f_live G →
  ∃ m km, minimum h s = Ok (m, s) ∧ fld myKey s m = Some km ∧
    if key_ge minusInfinity km
    then remove h node minusInfinity s =
           Err (ThrowString "2nd argument to remove must be a key that is smaller than all other keys")
    else
      ∃ s' h' G', remove h node minusInfinity s = Ok (h', s') ∧
        heap_inv s' h' G' ∧
        f_live G ≡ₚ node :: f_live G' ∧
        (node ∉ f_live G') ∧
        (∀ p, p ∈ f_live G' → item_of s' p = item_of s p) ∧
        (getCount h' + 1 = getCount h)%N.
Proof.
  intros Hinv Hnode.
  destruct (heap_inv_minimum _ _ _ Hinv) as (m & Em & Hr & Hm & Hmin).
  { eapply heap_inv_count_empty; [done|]. intros Heq. rewrite Heq in Hnode.
    by apply elem_of_nil in Hnode. }
  destruct (Hmin node Hnode) as (km & kold & Hkm & Hkold & Hle).
  exists m, km. split_and!; try done.
  unfold remove. erewrite st_bind_eq; [|exact Em].
  erewrite st_bind_eq; [|by apply rd_spec].
  destruct (key_ge minusInfinity km) eqn:Hge; [done|].
  rewrite key_ge_le in Hge.
  assert (key_le minusInfinity km = true) as Hlt.
  { destruct (key_le_total minusInfinity km); congruence. }
  destruct (decreaseKey_spec s h G node minusInfinity kold Hinv Hnode Hkold) as
    (s1 & h1 & G1 & E1 & Hinv1 & Hlive1 & Hk1 & Hd1 & Hother1 & _).
  { by eapply key_le_trans. }
  assert (rootWithMinKey h1 = Some node) as Hr1.
  { destruct (heap_inv_minimum _ _ _ Hinv1) as (r1 & _ & Hr1 & Hr1live & Hmin1).
    { eapply heap_inv_count_empty; [done|]. rewrite Hlive1. intros Heq.
      rewrite Heq in Hnode. by apply elem_of_nil in Hnode. }
    destruct (decide (r1 = node)) as [->|Hne]; [done|]. exfalso.
    rewrite Hlive1 in Hr1live, Hmin1.
    destruct (Hmin1 node Hnode) as (a & b & Ha & Hb & Hab).
    rewrite Hk1 in Hb. injection Hb as <-. rewrite Hother1 in Ha by done.
    destruct (Hmin r1 Hr1live) as (km' & a' & Hkm' & Ha' & Hle').
    rewrite Hkm in Hkm'. injection Hkm' as <-. rewrite Ha in Ha'. injection Ha' as <-.
    pose proof (key_le_trans _ _ _ Hle' Hab). congruence. }
  cbv beta iota. erewrite st_bind_eq; [|done]. erewrite st_bind_eq; [|exact E1].
  destruct (deletemin_spec s1 h1 G1 node Hinv1 Hr1) as (s' & h' & G' & E & Hinv' & Hperm & Hitems).
  rewrite Hlive1 in Hperm.
  assert (node ∉ f_live G') as Hnotin.
  { pose proof (wf_live_nodup _ _ _ (hi_wf _ _ _ Hinv)) as Hnd.
    rewrite Hperm in Hnd. by apply NoDup_cons in Hnd as [? _]. }
  exists s', h', G'. split_and!; try done.
  - intros p Hp. rewrite (Hitems p Hp). unfold item_of. rewrite Hd1, Hother1; [done|].
    by intros ->.
  - unfold getCount. rewrite (hi_count _ _ _ Hinv'), (hi_count _ _ _ Hinv), Hperm.
    simpl. lia.
Qed.

(** X6. In a heap of fewer than [2^32] nodes no node has 46 children or
    more: the field [degree] of every node is less than 46, and so is
    [maxDegree], so that the table [degreeRoots] of [deletemin], of
    [maxDegree + 250] entries, is longer than any degree. *)
Theorem degree_below_46 s h G p :
  heap_inv s h G → p ∈ f_live G →
  ∃ d, fld degree s p = Some d ∧ (d < 46)%N ∧ (maxDegree h < 46)%N.
Proof.
  intros Hinv Hp. pose proof (hi_wf _ _ _ Hinv) as W.
  exists (N.of_nat (length (f_kids G p))). split; [by apply (wf_degree _ _ _ W)|].
  pose proof (wf_degree_bound s G p W Hp) as Hd.
  pose proof (hi_maxDegree _ _ _ Hinv) as Hm. unfold degree_bound in *. lia.
Qed.

(** X7. [deletemin()] on a heap of one node returns the empty heap and
    leaves the store as it is: the node it removes stays allocated. *)
Theorem deletemin_last_node s h G r :
  heap_inv s h G → f_live G = [r] →
  deletemin h s = Ok (mkHeap None 0 (maxDegree h), s) ∧ is_Some (cells s !! r).
Proof.
  intros Hinv Hlive. pose proof (hi_wf _ _ _ Hinv) as W.
  assert (r ∈ f_live G) as Hr by (rewrite Hlive; left).
  destruct (heap_inv_root _ _ _ Hinv) as (r' & Hroot & Hr').
  { eapply heap_inv_count_empty; [done|]. by rewrite Hlive. }
  rewrite Hlive in Hr'. apply list_elem_of_singleton in Hr' as ->.
  assert (f_kids G r = []) as Hkids.
  { destruct (f_kids G r) as [|c l] eqn:E; [done|]. exfalso.
    assert (c ∈ f_kids G r) as Hc by (rewrite E; left).
    pose proof (wf_kids_live _ _ _ W r c Hr Hc) as Hcl. rewrite Hlive in Hcl.
    apply list_elem_of_singleton in Hcl as ->. by eapply wf_not_own_kid. }
  assert (f_tops G = [r]) as Htops.
  { pose proof (hi_root _ _ _ Hinv) as Hmin. rewrite Hroot in Hmin. destruct Hmin as [Hin _].
    pose proof (wf_tops_nodup _ _ _ W) as Hnd.
    destruct (f_tops G) as [|a [|b l]] eqn:E.
    - by apply elem_of_nil in Hin.
    - by apply list_elem_of_singleton in Hin as ->.
    - exfalso. assert (a = r ∧ b = r) as [-> ->].
      { split; apply list_elem_of_singleton; rewrite <- Hlive; apply (wf_tops_live _ _ _ W);
          rewrite E; [left|right; left]. }
      apply NoDup_cons in Hnd as [Hnd _]. apply Hnd. left. }
  assert (fld child s r = Some None) as Hchild.
  { pose proof (wf_child _ _ _ W r Hr) as Hc. rewrite Hkids in Hc.
    destruct (fld child s r) as [[c|]|]; [by apply elem_of_nil in Hc|done|done]. }
  assert (fld next s r = Some r) as Hnext.
  { destruct (hi_ring _ _ _ Hinv) as (l' & Hperm & Hc); [by rewrite Htops|].
    rewrite Htops in Hperm. apply Permutation_singleton_r in Hperm as ->.
    apply cyc_singleton in Hc. apply Hc. }
  split; [|by apply (wf_alloc _ _ _ W)].
  unfold deletemin. rewrite Hroot.
  erewrite st_bind_eq; [|by apply rd_spec]. cbv beta iota.
  erewrite st_bind_eq; [|done].
  erewrite st_bind_eq; [|by apply rd_spec].
  rewrite bool_decide_eq_true_2 by done.
  rewrite (hi_count _ _ _ Hinv), Hlive. simpl. done.
Qed.
End HeapUse.

Lemma insert_adds_item_witness :
  ∃ s' h' G' m,
    insert HeapExamples.heap_a "c" 4%Z HeapExamples.two_heaps_store = Ok ((2, h'), s') ∧
    heap_inv s' h' G' ∧
    f_live G' = [2; 0] ∧
    (2 ∉ [0]) ∧
    item_of s' 2 = Some ("c", 4%Z) ∧
    (∀ q, q ∈ [0] → item_of s' q = item_of HeapExamples.two_heaps_store q) ∧
    getCount h' = 2%N ∧
    minimum h' s' = Ok (m, s') ∧
    (∀ q, q ∈ f_live G' → kle s' m q).
Proof.
  apply (insert_adds_item HeapExamples.two_heaps_store HeapExamples.heap_a (forest_of_one 0)).
  - by eapply heap_inv_one; [reflexivity|simpl; lia|..].
  - reflexivity.
Defined.

Lemma decreaseKey_sets_key_witness :
  ∃ s' h' G' m,
    decreaseKey HeapExamples.heap_a 0 2%Z HeapExamples.two_heaps_store = Ok (h', s') ∧
    heap_inv s' h' G' ∧
    f_live G' = [0] ∧
    getCount h' = 1%N ∧
    fld myKey s' 0 = Some 2%Z ∧
    (∀ p, p ≠ 0 → fld myKey s' p = fld myKey HeapExamples.two_heaps_store p) ∧
    (∀ p, fld myData s' p = fld myData HeapExamples.two_heaps_store p) ∧
    minimum h' s' = Ok (m, s') ∧
    (∀ p, p ∈ [0] → kle s' m p).
Proof.
  assert (heap_inv HeapExamples.two_heaps_store HeapExamples.heap_a (forest_of_one 0)) as Hinv.
  { by eapply heap_inv_one; [reflexivity|simpl; lia|..]. }
  exact (decreaseKey_sets_key HeapExamples.two_heaps_store HeapExamples.heap_a
           (forest_of_one 0) 0 2%Z 5%Z Hinv ltac:(left) eq_refl).
Defined.

Lemma minimum_least_witness :
  ∃ m, minimum HeapExamples.heap_b HeapExamples.two_heaps_store
         = Ok (m, HeapExamples.two_heaps_store) ∧
    m ∈ [1] ∧ ∀ p, p ∈ [1] → kle HeapExamples.two_heaps_store m p.
Proof.
  assert (heap_inv HeapExamples.two_heaps_store HeapExamples.heap_b (forest_of_one 1)) as Hinv.
  { by eapply heap_inv_one; [reflexivity|simpl; lia|..]. }
  exact (minimum_least HeapExamples.two_heaps_store HeapExamples.heap_b (forest_of_one 1) Hinv).
Defined.

Lemma deletemin_removes_minimum_witness :
  ∃ m s' h' G',
    minimum HeapExamples.heap_a HeapExamples.two_heaps_store
      = Ok (m, HeapExamples.two_heaps_store) ∧
    deletemin HeapExamples.heap_a HeapExamples.two_heaps_store = Ok (h', s') ∧
    heap_inv s' h' G' ∧
    [0] ≡ₚ m :: f_live G' ∧
    (m ∉ f_live G') ∧
    (∀ p, p ∈ f_live G' → item_of s' p = item_of HeapExamples.two_heaps_store p) ∧
    (getCount h' + 1 = 1)%N.
Proof.
  assert (heap_inv HeapExamples.two_heaps_store HeapExamples.heap_a (forest_of_one 0)) as Hinv.
  { by eapply heap_inv_one; [reflexivity|simpl; lia|..]. }
  exact (deletemin_removes_minimum HeapExamples.two_heaps_store HeapExamples.heap_a
           (forest_of_one 0) Hinv).
Defined.

Lemma remove_removes_node_witness :
  ∃ m km,
    minimum HeapExamples.heap_a HeapExamples.two_heaps_store
      = Ok (m, HeapExamples.two_heaps_store) ∧
    fld myKey HeapExamples.two_heaps_store m = Some km ∧
    if key_ge 1%Z km
    then remove HeapExamples.heap_a 0 1%Z HeapExamples.two_heaps_store =
           Err (ThrowString "2nd argument to remove must be a key that is smaller than all other keys")
    else
      ∃ s' h' G',
        remove HeapExamples.heap_a 0 1%Z HeapExamples.two_heaps_store = Ok (h', s') ∧
        heap_inv s' h' G' ∧
        [0] ≡ₚ 0 :: f_live G' ∧
        (0 ∉ f_live G') ∧
        (∀ p, p ∈ f_live G' → item_of s' p = item_of HeapExamples.two_heaps_store p) ∧
        (getCount h' + 1 = 1)%N.
Proof.
  assert (heap_inv HeapExamples.two_heaps_store HeapExamples.heap_a (forest_of_one 0)) as Hinv.
  { by eapply heap_inv_one; [reflexivity|simpl; lia|..]. }
  exact (remove_removes_node HeapExamples.two_heaps_store HeapExamples.heap_a
           (forest_of_one 0) 0 1%Z Hinv ltac:(left)).
Defined.

Lemma degree_below_46_witness :
  ∃ d, fld degree HeapExamples.two_heaps_store 0 = Some d ∧ (d < 46)%N ∧
    (maxDegree HeapExamples.heap_a < 46)%N.
Proof.
  assert (heap_inv HeapExamples.two_heaps_store HeapExamples.heap_a (forest_of_one 0)) as Hinv.
  { by eapply heap_inv_one; [reflexivity|simpl; lia|..]. }
  exact (degree_below_46 HeapExamples.two_heaps_store HeapExamples.heap_a
           (forest_of_one 0) 0 Hinv ltac:(left)).
Defined.

Lemma deletemin_last_node_witness :
  deletemin HeapExamples.heap_a HeapExamples.two_heaps_store
    = Ok (mkHeap None 0 0, HeapExamples.two_heaps_store) ∧
  is_Some (cells HeapExamples.two_heaps_store !! 0).
Proof.
  assert (heap_inv HeapExamples.two_heaps_store HeapExamples.heap_a (forest_of_one 0)) as Hinv.
  { by eapply heap_inv_one; [reflexivity|simpl; lia|..]. }
  exact (deletemin_last_node HeapExamples.two_heaps_store HeapExamples.heap_a
           (forest_of_one 0) 0 Hinv eq_refl).
Defined.

(** ** The planners *)

Lemma liftN_Ok {A} (c : NM A) net hs a net' hs' :
  liftN c (net, hs) = Ok (a, (net', hs')) → c net = Ok (a, net') ∧ hs' = hs.
Proof.
  unfold liftN. destruct (c net) as [[a0 net0]|]; [|done]. by intros [= -> -> ->].
Qed.

Lemma liftH_Ok {A} (c : ST (store string float) A) net hs a net' hs' :
  liftH c (net, hs) = Ok (a, (net', hs')) → c hs = Ok (a, hs') ∧ net' = net.
Proof.
  unfold liftH. destruct (c hs) as [[a0 hs0]|]; [|done]. by intros [= -> -> ->].
Qed.

Lemma links_index_find id net l net' :
  links_index id net = Ok (l, net') → StdMap.find id (_Links net') = Some l.
Proof.
  unfold links_index, StdMap.index.
  destruct (StdMap.find id (_Links net)) as [v|] eqn:E; intros [= <- <-]; simpl; [done|].
  apply find_put_eq.
Qed.

Lemma links_index_known id net l net' :
  is_Some (StdMap.find id (_Links net)) → links_index id net = Ok (l, net') → net' = net.
Proof.
  intros [v Hv]. unfold links_index, StdMap.index. rewrite Hv. intros [= _ <-]. by destruct net.
Qed.

Lemma prec_ok_nil ls : prec_ok ls [].
Proof. by intros id lid. Qed.

Lemma prec_ok_ext ls ls' prec : links_ext ls ls' → prec_ok ls prec → prec_ok ls' prec.
Proof.
  intros Hext Hok id lid Hid. destruct (Hok id lid Hid) as (lk & Hlk & Hend).
  exists lk. split; [|done]. destruct (Hext lid) as [E|[E _]]; congruence.
Qed.

Lemma prec_ok_put ls prec lid lk :
  prec_ok ls prec → StdMap.find lid ls = Some lk →
  prec_ok ls (StdMap.put (Link._end_node_id lk) lid prec).
Proof.
  intros Hok Hlk id lid'. rewrite find_put. case_decide as Hid.
  - intros [= <-]. by exists lk.
  - apply Hok.
Qed.

Lemma dijkstra_relax_inv fastest links_out : ∀ d st net hs st' net' hs',
  dijkstra_relax fastest links_out d st (net, hs) = Ok (st', (net', hs')) →
  prec_ok (_Links net) (d_prec st) →
  prec_ok (_Links net') (d_prec st') ∧ (links_known net links_out → net' = net).
Proof.
  induction links_out as [|lid links_out IH]; intros d st net hs st' net' hs' H Hok; simpl in H.
  - apply st_ret_Ok in H as [<- [= <- <-]]. done.
  - apply st_bind_Ok in H as (lk & [net1 hs1] & H1 & H).
    apply liftN_Ok in H1 as [H1 ->].
    pose proof (links_index_find _ _ _ _ H1) as Hlk.
    pose proof (links_index_ext _ _ _ _ H1) as (_ & Hext1 & _).
    assert (links_known net (lid :: links_out) → net1 = net ∧ links_known net links_out) as Hk1.
    { intros Hk. split.
      - eapply links_index_known; [|exact H1]. apply Hk. left.
      - intros l Hl. apply Hk. by right. }
    assert (prec_ok (_Links net1) (d_prec st)) as Hok1 by by eapply prec_ok_ext.
    destruct (set_mem _ _).
    { destruct (IH _ _ _ _ _ _ _ H Hok1) as [Hp Hn]. split; [done|].
      intros Hk. destruct (Hk1 Hk) as [-> Hk']. auto. }
    destruct (StdMap.find _ (d_Q_nodes st)) as [pn|]; [|done].
    apply st_bind_Ok in H as (key_j & [net2 hs2] & H2 & H). apply liftH_Ok in H2 as [_ ->].
    apply st_bind_Ok in H as (lk2 & [net3 hs3] & H3 & H). apply liftN_Ok in H3 as [H3 ->].
    assert (net3 = net1) as ->.
    { eapply links_index_known; [|exact H3]. by rewrite Hlk. }
    destruct (F32.ltb _ _).
    + apply st_bind_Ok in H as (Q & [net4 hs4] & H4 & H). apply liftH_Ok in H4 as [_ ->].
      destruct (IH _ _ _ _ _ _ _ H) as [Hp Hn]; [by apply prec_ok_put|].
      split; [done|]. intros Hk. destruct (Hk1 Hk) as [-> Hk']. auto.
    + destruct (IH _ _ _ _ _ _ _ H Hok1) as [Hp Hn]. split; [done|].
      intros Hk. destruct (Hk1 Hk) as [-> Hk']. auto.
Qed.

Lemma links_out_known_at net id n :
  links_out_known net → StdMap.find id (_Nodes net) = Some n →
  links_known net (Node._links_out_id n).
Proof. intros Hk Hn l Hl. by eapply Hk. Qed.

Lemma dijkstra_loop_inv fastest fuel dest : ∀ curr st net hs curr' st' net' hs',
  dijkstra_loop fastest fuel dest curr st (net, hs) = Ok ((curr', st'), (net', hs')) →
  prec_ok (_Links net) (d_prec st) →
  curr' = dest ∧ prec_ok (_Links net') (d_prec st') ∧ (links_out_known net → net' = net).
Proof.
  assert (∀ curr st net hs curr' st' net' hs',
    bool_decide (curr ≠ dest) = false →
    (mret (curr, st) : PM _) (net, hs) = Ok ((curr', st'), (net', hs')) →
    prec_ok (_Links net) (d_prec st) →
    curr' = dest ∧ prec_ok (_Links net') (d_prec st') ∧ (links_out_known net → net' = net))
    as Hstop.
  { intros curr st net hs curr' st' net' hs' Hb H Hok.
    apply st_ret_Ok in H as [[= <- <-] [= <- <-]].
    apply bool_decide_eq_false in Hb. split; [|done].
    by destruct (decide (curr = dest)). }
  induction fuel as [|fuel IH]; intros curr st net hs curr' st' net' hs' H Hok; simpl in H.
  - destruct (bool_decide (curr ≠ dest)) eqn:Hb; [done|]. by eapply Hstop.
  - destruct (bool_decide (curr ≠ dest)) eqn:Hb; [|by eapply Hstop].
    apply st_bind_Ok in H as (m & [net1 hs1] & H1 & H). apply liftH_Ok in H1 as [_ ->].
    apply st_bind_Ok in H as (c & [net2 hs2] & H2 & H). apply liftH_Ok in H2 as [_ ->].
    apply st_bind_Ok in H as (m' & [net3 hs3] & H3 & H). apply liftH_Ok in H3 as [_ ->].
    apply st_bind_Ok in H as (d & [net4 hs4] & H4 & H). apply liftH_Ok in H4 as [_ ->].
    apply st_bind_Ok in H as (i & [net5 hs5] & H5 & H). apply liftN_Ok in H5 as [H5 ->].
    apply nodes_at_Ok in H5 as [Hi ->].
    apply st_bind_Ok in H as (st1 & [net6 hs6] & H6 & H).
    apply dijkstra_relax_inv in H6 as [Hok6 Hn6]; [|done].
    apply st_bind_Ok in H as (Q & [net7 hs7] & H7 & H). apply liftH_Ok in H7 as [_ ->].
    apply IH in H as (-> & Hok' & Hn'); [|done].
    split; [done|]. split; [done|]. intros Hk.
    assert (net6 = net) as -> by (apply Hn6; by eapply links_out_known_at). auto.
Qed.

Lemma dijkstra_init_state nodes : ∀ Q Q_nodes net hs r net' hs',
  dijkstra_init nodes Q Q_nodes (net, hs) = Ok (r, (net', hs')) → net' = net.
Proof.
  induction nodes as [|[id n] nodes IH]; intros Q Q_nodes net hs r net' hs' H; simpl in H.
  - by apply st_ret_Ok in H as [_ [= <- _]].
  - apply st_bind_Ok in H as ([p Q1] & [net1 hs1] & H1 & H). apply liftH_Ok in H1 as [_ ->].
    by eapply IH.
Qed.

Lemma route_snoc ls from path l lk :
  route ls from path (Link._start_node_id lk) = true →
  StdMap.find l ls = Some lk →
  route ls from (path ++ [l]) (Link._end_node_id lk) = true.
Proof.
  revert from. induction path as [|l0 path IH]; intros from; simpl.
  - intros Hfrom%bool_decide_eq_true Hl. rewrite Hl.
    by rewrite !bool_decide_eq_true_2.
  - destruct (StdMap.find l0 ls) as [lk0|]; [|done].
    intros [H1 H2]%andb_true_iff Hl. rewrite H1. simpl. by apply IH.
Qed.

(** The path that the reconstruction adds to [result], read backwards, leads
    from the source to the node it starts from. *)
Lemma reconstruct_route fuel prec s : ∀ c result net p net',
  reconstruct fuel prec s c result net = Ok (p, net') →
  prec_ok (_Links net) prec →
  ∃ q, p = result ++ q ∧ q ≠ [] ∧ route (_Links net) s (rev q) c = true.
Proof.
  induction fuel as [|fuel IH]; intros c result net p net' H Hok; simpl in H; [done|].
  apply st_bind_Ok in H as (l & s1 & H1 & H). apply of_res_Ok in H1 as [H1 ->].
  apply at_Ok in H1.
  apply st_bind_Ok in H as (lk & s2 & H2 & H). apply links_at_Ok in H2 as [H2 ->].
  destruct (Hok c l H1) as (lk' & Hlk' & Hend). rewrite H2 in Hlk'. injection Hlk' as <-.
  destruct (bool_decide (Link._start_node_id lk ≠ s)) eqn:Hb.
  - apply IH in H as (q & -> & _ & Hq); [|done].
    exists (l :: q). split; [by rewrite <- app_assoc|]. split; [done|].
    simpl. rewrite <- Hend. by apply route_snoc.
  - apply st_ret_Ok in H as [<- <-]. exists [l]. split; [done|]. split; [done|].
    simpl. rewrite H2. apply bool_decide_eq_false in Hb.
    rewrite Hend. rewrite !bool_decide_eq_true_2; [done|done|].
    by destruct (decide (Link._start_node_id lk = s)).
Qed.

(** What a run of [computePath] is made of: the map [prec] that its main
    loop leaves, and the reconstruction from the destination. *)
Lemma computePath_run fastest s d net path net' :
  computePath fastest s d net = Ok (path, net') →
  (∃ prec, prec_ok (_Links net') prec ∧
     reconstruct (reconstruct_fuel net') prec s d [] net' = Ok (path, net')) ∧
  (links_out_known net → net' = net).
Proof.
  unfold computePath. intros H.
  apply st_bind_Ok in H as (net0 & s0 & H0 & H). inv_st H0.
  apply st_bind_Ok in H as ([curr st] & net1 & H1 & H).
  apply st_bind_Ok in H as (net2 & s2 & H2 & H). inv_st H2.
  pose proof (reconstruct_state _ _ _ _ _ _ _ _ H) as ->.
  apply run_planner_Ok in H1 as (hs & H1).
  apply st_bind_Ok in H1 as ([Q Q_nodes] & [net3 hs3] & H3 & H1).
  apply dijkstra_init_state in H3 as ->.
  apply st_bind_Ok in H1 as ([p Q1] & [net4 hs4] & H4 & H1). apply liftH_Ok in H4 as [_ ->].
  apply dijkstra_loop_inv in H1 as (-> & Hok & Hn); [|apply prec_ok_nil].
  split; [|done]. by exists (d_prec st).
Qed.

Lemma computePath_is_route fastest s d net path net' :
  computePath fastest s d net = Ok (path, net') →
  path ≠ [] ∧ route (_Links net') s (rev path) d = true.
Proof.
  intros H. apply computePath_run in H as [(prec & Hok & H) _].
  by apply reconstruct_route in H as (q & -> & Hq & Hroute).
Qed.

(** X8. When [computePath] returns, its result is not empty and, read
    backwards, it is a sequence of links of the network that leads from the
    source to the destination: the last link starts at the source, each
    link ends where the one pushed before it starts, and the first link
    ends at the destination. The nodes are as they were, and so are the
    links when every link that a node lists is in the network. *)
Theorem computePath_route fastest s d net path net' :
  computePath fastest s d net = Ok (path, net') →
  path ≠ [] ∧
  route (_Links net') s (rev path) d = true ∧
  _Nodes net' = _Nodes net ∧
  (links_out_known net → net' = net).
Proof.
  intros H. pose proof (computePath_frame _ _ _ _ _ _ H) as (Hnodes & _).
  pose proof (computePath_is_route _ _ _ _ _ _ H) as [Hne Hroute].
  apply computePath_run in H as [_ Hn]. done.
Qed.

Lemma computePath_route_witness :
  ∃ path net', computePath true "S" "D" Examples.triangle = Ok (path, net') ∧
    path ≠ [] ∧
    route (_Links net') "S" (rev path) "D" = true ∧
    _Nodes net' = _Nodes Examples.triangle ∧
    (links_out_known Examples.triangle → net' = Examples.triangle).
Proof.
  destruct (computePath true "S" "D" Examples.triangle) as [[path net']|] eqn:E;
    [|vm_compute in E; discriminate].
  exists path, net'. split; [reflexivity|]. exact (computePath_route _ _ _ _ _ _ E).
Defined.

Lemma astar_relax_inv fastest links_out dest : ∀ d st net hs st' net' hs',
  astar_relax fastest links_out dest d st (net, hs) = Ok (st', (net', hs')) →
  prec_ok (_Links net) (a_prec st) →
  prec_ok (_Links net') (a_prec st') ∧ (links_known net links_out → net' = net).
Proof.
  induction links_out as [|lid links_out IH]; intros d st net hs st' net' hs' H Hok; simpl in H.
  - apply st_ret_Ok in H as [<- [= <- <-]]. done.
  - apply st_bind_Ok in H as (lk & [net1 hs1] & H1 & H).
    apply liftN_Ok in H1 as [H1 ->].
    pose proof (links_index_find _ _ _ _ H1) as Hlk.
    pose proof (links_index_ext _ _ _ _ H1) as (_ & Hext1 & _).
    assert (links_known net (lid :: links_out) → net1 = net ∧ links_known net links_out) as Hk1.
    { intros Hk. split.
      - eapply links_index_known; [|exact H1]. apply Hk. left.
      - intros l Hl. apply Hk. by right. }
    assert (prec_ok (_Links net1) (a_prec st)) as Hok1 by by eapply prec_ok_ext.
    assert (∀ st1 hs2,
      astar_relax fastest links_out dest d st1 (net1, hs2) = Ok (st', (net', hs')) →
      prec_ok (_Links net1) (a_prec st1) →
      prec_ok (_Links net') (a_prec st') ∧ (links_known net (lid :: links_out) → net' = net))
      as Hrec.
    { intros st1 hs2 Hrun Hok2. destruct (IH _ _ _ _ _ _ _ Hrun Hok2) as [Hp Hn].
      split; [done|]. intros Hk. destruct (Hk1 Hk) as [-> Hk']. auto. }
    destruct (set_mem _ _); [by eapply Hrec|].
    apply st_bind_Ok in H as (lk2 & [net2 hs2] & H2 & H). apply liftN_Ok in H2 as [H2 ->].
    assert (net2 = net1) as ->.
    { eapply links_index_known; [|exact H2]. by rewrite Hlk. }
    destruct (match StdMap.find (Link._end_node_id lk) (a_Q_nodes st) with
              | Some _ => _ | None => _ end) as [better g_score].
    destruct better; [|by eapply Hrec].
    apply st_bind_Ok in H as (h & [net3 hs3] & H3 & H). apply liftN_Ok in H3 as [H3 ->].
    apply euclidian_distance_state in H3 as ->.
    destruct (StdMap.find _ (a_Q_nodes st)) as [pn|].
    + apply st_bind_Ok in H as (Q & [net4 hs4] & H4 & H). apply liftH_Ok in H4 as [_ ->].
      eapply Hrec; [exact H|]. by apply prec_ok_put.
    + apply st_bind_Ok in H as ([pn Q] & [net4 hs4] & H4 & H). apply liftH_Ok in H4 as [_ ->].
      eapply Hrec; [exact H|]. by apply prec_ok_put.
Qed.

Lemma astar_loop_inv fastest fuel dest : ∀ curr st net hs curr' st' net' hs',
  astar_loop fastest fuel dest curr st (net, hs) = Ok ((curr', st'), (net', hs')) →
  prec_ok (_Links net) (a_prec st) →
  curr' = dest ∧ prec_ok (_Links net') (a_prec st') ∧ (links_out_known net → net' = net).
Proof.
  assert (∀ curr st net hs curr' st' net' hs',
    bool_decide (curr ≠ dest) = false →
    (mret (curr, st) : PM _) (net, hs) = Ok ((curr', st'), (net', hs')) →
    prec_ok (_Links net) (a_prec st) →
    curr' = dest ∧ prec_ok (_Links net') (a_prec st') ∧ (links_out_known net → net' = net))
    as Hstop.
  { intros curr st net hs curr' st' net' hs' Hb H Hok.
    apply st_ret_Ok in H as [[= <- <-] [= <- <-]].
    apply bool_decide_eq_false in Hb. split; [|done].
    by destruct (decide (curr = dest)). }
  induction fuel as [|fuel IH]; intros curr st net hs curr' st' net' hs' H Hok; simpl in H.
  - destruct (bool_decide (curr ≠ dest)) eqn:Hb; [done|]. by eapply Hstop.
  - destruct (bool_decide (curr ≠ dest)) eqn:Hb; [|by eapply Hstop].
    apply st_bind_Ok in H as (m & [net1 hs1] & H1 & H). apply liftH_Ok in H1 as [_ ->].
    apply st_bind_Ok in H as (c & [net2 hs2] & H2 & H). apply liftH_Ok in H2 as [_ ->].
    apply st_bind_Ok in H as (i & [net3 hs3] & H3 & H). apply liftN_Ok in H3 as [H3 ->].
    apply nodes_at_Ok in H3 as [Hi ->].
    destruct (StdMap.index _ _ _) as [d g_score].
    apply st_bind_Ok in H as (Q & [net4 hs4] & H4 & H). apply liftH_Ok in H4 as [_ ->].
    apply st_bind_Ok in H as (st1 & [net5 hs5] & H5 & H).
    apply astar_relax_inv in H5 as [Hok5 Hn5]; [|done].
    apply IH in H as (-> & Hok' & Hn'); [|done].
    split; [done|]. split; [done|]. intros Hk.
    assert (net5 = net) as -> by (apply Hn5; by eapply links_out_known_at). auto.
Qed.

Lemma computePathAStar_run fastest s d net path net' :
  computePathAStar fastest s d net = Ok (path, net') →
  ((s = d ∧ path = []) ∨
   (s ≠ d ∧ ∃ prec, prec_ok (_Links net') prec ∧
      reconstruct (reconstruct_fuel net') prec s d [] net' = Ok (path, net'))) ∧
  (links_out_known net → net' = net).
Proof.
  unfold computePathAStar. intros H. destruct (bool_decide (s = d)) eqn:Hsd.
  - apply bool_decide_eq_true in Hsd as ->. apply st_ret_Ok in H as [<- <-].
    split; [by left|done].
  - apply bool_decide_eq_false in Hsd.
    apply st_bind_Ok in H as (net0 & s0 & H0 & H). inv_st H0.
    apply st_bind_Ok in H as ([curr st] & net1 & H1 & H).
    apply st_bind_Ok in H as (net2 & s2 & H2 & H). inv_st H2.
    pose proof (reconstruct_state _ _ _ _ _ _ _ _ H) as ->.
    apply run_planner_Ok in H1 as (hs & H1).
    apply st_bind_Ok in H1 as (h & [net3 hs3] & H3 & H1). apply liftN_Ok in H3 as [H3 ->].
    apply euclidian_distance_state in H3 as ->.
    apply st_bind_Ok in H1 as ([p Q1] & [net4 hs4] & H4 & H1). apply liftH_Ok in H4 as [_ ->].
    apply astar_loop_inv in H1 as (-> & Hok & Hn); [|apply prec_ok_nil].
    split; [|done]. right. split; [done|]. by exists (a_prec st).
Qed.

Lemma computePathAStar_is_route fastest s d net path net' :
  computePathAStar fastest s d net = Ok (path, net') →
  route (_Links net') s (rev path) d = true ∧ (path = [] ↔ s = d).
Proof.
  intros H. apply computePathAStar_run in H as [[[-> ->]|(Hsd & prec & Hok & H)] _].
  - simpl. by rewrite bool_decide_eq_true_2.
  - by apply reconstruct_route in H as (q & -> & Hq & Hroute).
Qed.

(** X9. When [computePathAStar] returns, its result read backwards is a
    sequence of links of the network that leads from the source to the
    destination, and it is empty only when the two are the same node. The
    nodes are as they were, and so are the links when every link that a
    node lists is in the network. *)
Theorem computePathAStar_route fastest s d net path net' :
  computePathAStar fastest s d net = Ok (path, net') →
  route (_Links net') s (rev path) d = true ∧
  (path = [] ↔ s = d) ∧
  _Nodes net' = _Nodes net ∧
  (links_out_known net → net' = net).
Proof.
  intros H. pose proof (computePathAStar_frame _ _ _ _ _ _ H) as (Hnodes & _).
  pose proof (computePathAStar_is_route _ _ _ _ _ _ H) as [Hroute Hnil].
  apply computePathAStar_run in H as [_ Hn]. done.
Qed.

Lemma computePathAStar_route_witness :
  ∃ path net', computePathAStar true "S" "D" Examples.triangle = Ok (path, net') ∧
    route (_Links net') "S" (rev path) "D" = true ∧
    (path = [] ↔ "S" = "D") ∧
    _Nodes net' = _Nodes Examples.triangle ∧
    (links_out_known Examples.triangle → net' = Examples.triangle).
Proof.
  destruct (computePathAStar true "S" "D" Examples.triangle) as [[path net']|] eqn:E;
    [|vm_compute in E; discriminate].
  exists path, net'. split; [reflexivity|]. exact (computePathAStar_route _ _ _ _ _ _ E).
Defined.

Lemma route_same_ends ls ls' :
  (∀ k lk, StdMap.find k ls = Some lk →
     ∃ lk', StdMap.find k ls' = Some lk' ∧
       Link._start_node_id lk' = Link._start_node_id lk ∧
       Link._end_node_id lk' = Link._end_node_id lk) →
  ∀ links from to, route ls from links to = true → route ls' from links to = true.
Proof.
  intros Hls links. induction links as [|l links IH]; intros from to; simpl; [done|].
  destruct (StdMap.find l ls) as [lk|] eqn:E; [|done].
  destruct (Hls l lk E) as (lk' & -> & -> & ->).
  intros [H1 H2]%andb_true_iff. rewrite H1. simpl. by apply IH.
Qed.

(** The result of the planner that avoids a link leads from the source to
    the destination: the link to avoid is made costly, not forbidden. *)
Lemma computePath_avoid_is_route fastest s d avoid net path net' :
  computePath_avoid fastest s d avoid net = Ok (path, net') →
  route (_Links net') s (rev path) d = true ∧ (path = [] ↔ s = d).
Proof.
  unfold computePath_avoid. intros H.
  apply st_bind_Ok in H as (l & s1 & H1 & H). inv_net H1.
  apply st_bind_Ok in H as ([] & net1 & H2 & H).
  apply st_bind_Ok in H as (res & net_a & H3 & H).
  apply st_bind_Ok in H as ([] & net2 & H4 & H). inv_st H.
  apply computePathAStar_is_route in H3 as (Hroute & Hnil). split; [|done].
  eapply route_same_ends; [|exact Hroute].
  intros k lk Hk.
  destruct fastest; apply links_update_inv in H4 as (l4 & Hl4 & ->); simpl;
    rewrite find_put; case_decide as Hka; subst; eauto.
  - exists (Link.setFreeFlowTime (link_cost true l) l4). rewrite Hl4 in Hk.
    injection Hk as <-. done.
  - exists (Link.setLength (link_cost false l) l4). rewrite Hl4 in Hk.
    injection Hk as <-. done.
Qed.

(** ** The paths of the agents *)

Lemma F32_max_zero x : F32.ltb (F32.max x F32.zero) F32.zero = false.
Proof. unfold F32.max. destruct (F32.ltb x F32.zero) eqn:E; [done|exact E]. Qed.

Lemma back_pop_back {A} (v : list A) x : back v = Ok x → v = pop_back v ++ [x].
Proof.
  unfold back, pop_back. induction v as [|y v IH]; [done|].
  destruct v as [|z v].
  - simpl. by intros [= ->].
  - intros Hl. change (y :: z :: v = y :: (removelast (z :: v) ++ [x])). f_equal.
    apply IH. exact Hl.
Qed.

(** X10. When the strategy part of the depart-node transition replaces the
    path of the agent, the link that the agent takes next, followed by its
    new path read backwards, leads from the node the agent is at (the start
    of the link it was about to take) to the destination of its trip. The
    link to avoid is made costly, not forbidden: the next link may be that
    very link. *)
Theorem reroute_route (a : Individual.t) (id : string) (m : Model)
    (a' : Individual.t) (id' : string) (m' : Model) :
  reroute a id m = Ok ((a', id'), m') →
  path_is_replaced a m →
  ∃ l tr rest,
    StdMap.find (_cur_link a) (_Links (_network m)) = Some l ∧
    _trips a = tr :: rest ∧
    _cur_link a' = id' ∧
    route (_Links (_network m')) (Link._start_node_id l) (id' :: rev (_path a'))
      (Trip._id_destination tr) = true.
Proof.
  intros H (Hd & l & n & Hl & Hn & Hlen).
  apply reroute_Ok in H as (decision & Hd' & H).
  rewrite Hd in Hd'. injection Hd' as <-.
  destruct H as (l2 & n2 & Hl2 & Hn2 & H).
  rewrite Hl in Hl2. injection Hl2 as <-. rewrite Hn in Hn2. injection Hn2 as <-.
  rewrite bool_decide_eq_true_2 in H by done.
  destruct H as (tr & rest & new_path & net' & Htr & Hp & Hb & -> & ->).
  exists l, tr, rest. split_and!; try done.
  apply computePath_avoid_is_route in Hp as [Hroute _].
  apply back_pop_back in Hb. rewrite Hb, rev_app_distr in Hroute. exact Hroute.
Qed.

Lemma reroute_route_witness :
  ∃ a' id' m' l tr rest,
    reroute BuildExamples.eager_at_S "SA" (Examples.world BuildExamples.busy_triangle [])
      = Ok ((a', id'), m') ∧
    StdMap.find "SA" (_Links BuildExamples.busy_triangle) = Some l ∧
    _trips BuildExamples.eager_at_S = tr :: rest ∧
    _cur_link a' = id' ∧
    route (_Links (_network m')) (Link._start_node_id l) (id' :: rev (_path a'))
      (Trip._id_destination tr) = true.
Proof.
  destruct (reroute BuildExamples.eager_at_S "SA"
              (Examples.world BuildExamples.busy_triangle []))
    as [[[a' id'] m']|] eqn:E; [|vm_compute in E; discriminate].
  destruct (reroute_route _ _ _ _ _ _ E) as (l & tr & rest & H1 & H2 & H3 & H4).
  - split; [vm_compute; reflexivity|]. eexists _, _.
    split; [vm_compute; reflexivity|]. split; [vm_compute; reflexivity|]. simpl. lia.
  - exists a', id', m', l, tr, rest.
    exact (conj eq_refl (conj H1 (conj H2 (conj H3 H4)))).
Defined.

(** X11. When [setNextTrip] returns, the agent had a trip after the one it
    drops, which is now its first trip; its path is not empty and, read
    backwards, leads from the origin to the destination of that trip. The
    agent is at a node and not en route, it has taken no link of the path,
    the theoretical duration of the trip is zero, and its remaining time is
    not negative. *)
Theorem setNextTrip_route a time net a' net' :
  setNextTrip a time net = Ok (a', net') →
  ∃ tr0 tr rest,
    _trips a = tr0 :: tr :: rest ∧ _trips a' = tr :: rest ∧
    _path a' ≠ [] ∧
    route (_Links net') (Trip._id_origin tr) (rev (_path a')) (Trip._id_destination tr) = true ∧
    _id a' = _id a ∧ _at_node a' = true ∧ _en_route a' = false ∧
    _n_link_in_path a' = 0%Z ∧ _cur_trip_duration_theo a' = F32.zero ∧
    F32.ltb (_remaining_time a') F32.zero = false.
Proof.
  unfold setNextTrip. destruct (_trips a) as [|tr0 trips] eqn:Htrips; [done|]. intros H.
  apply st_bind_Ok in H as (tr & s1 & H1 & H). inv_net H1.
  apply front_Ok in H1 as [rest ->].
  apply st_bind_Ok in H as (path & net1 & H2 & H).
  apply computePath_is_route in H2 as [Hne Hroute].
  apply st_bind_Ok in H as (o1 & s3 & H3 & H). inv_net H3.
  apply st_bind_Ok in H as (o2 & s4 & H4 & H). inv_net H4. inv_st H.
  exists tr0, tr, rest. simpl. split_and!; try done. apply F32_max_zero.
Qed.

Lemma setNextTrip_route_witness :
  ∃ a' net' tr0 tr rest,
    setNextTrip BuildExamples.two_trips F32.zero Examples.triangle = Ok (a', net') ∧
    _trips BuildExamples.two_trips = tr0 :: tr :: rest ∧ _trips a' = tr :: rest ∧
    _path a' ≠ [] ∧
    route (_Links net') (Trip._id_origin tr) (rev (_path a')) (Trip._id_destination tr) = true.
Proof.
  destruct (setNextTrip BuildExamples.two_trips F32.zero Examples.triangle)
    as [[a' net']|] eqn:E; [|vm_compute in E; discriminate].
  destruct (setNextTrip_route _ _ _ _ _ E) as (tr0 & tr & rest & H1 & H2 & H3 & H4 & _).
  exists a', net', tr0, tr, rest.
  exact (conj eq_refl (conj H1 (conj H2 (conj H3 H4)))).
Defined.

(** ** The counters of [Model::step] *)

Lemma reroute_frame a id m a' id' m' :
  reroute a id m = Ok ((a', id'), m') →
  _id a' = _id a ∧ _trips a' = _trips a ∧
  _total_moving_agents m' = _total_moving_agents m ∧
  _total_trips_performed m' = _total_trips_performed m ∧
  _time m' = _time m ∧ _time_tolerance m' = _time_tolerance m.
Proof.
  intros H. apply reroute_Ok in H as (decision & _ & H).
  destruct decision; [|by destruct H as (-> & -> & ->)].
  destruct H as (l & n & _ & _ & H). destruct (bool_decide _).
  - by destruct H as (tr & rest & new_path & net' & _ & _ & _ & -> & ->).
  - by destruct H as (-> & -> & ->).
Qed.

Lemma setNextTrip_frame a time net a' net' :
  setNextTrip a time net = Ok (a', net') →
  _id a' = _id a ∧ S (length (_trips a')) = length (_trips a).
Proof.
  unfold setNextTrip. destruct (_trips a) as [|tr0 trips]; [done|]. intros H.
  apply st_bind_Ok in H as (tr & s1 & H1 & H). inv_net H1.
  apply st_bind_Ok in H as (path & net1 & H2 & H).
  apply st_bind_Ok in H as (o1 & s3 & H3 & H). inv_net H3.
  apply st_bind_Ok in H as (o2 & s4 & H4 & H). inv_net H4. by inv_st H.
Qed.

Lemma incrementData_small c : (0 ≤ c < 2 ^ 31 - 1)%Z → incrementData c = (c + 1)%Z.
Proof. intros Hc. unfold incrementData, SInt.wrap. rewrite Z.mod_small; lia. Qed.

Lemma decrementData_small c : (0 < c < 2 ^ 31)%Z → decrementData c = (c - 1)%Z.
Proof. intros Hc. unfold decrementData, SInt.wrap. rewrite Z.mod_small; lia. Qed.

(** The turn of one agent: the agent keeps its identity, the clock is not
    touched, and the counters follow the flags of the agent. *)
Lemma agent_turn_frame g a m a' rm m1 :
  agent_turn g a m = Ok ((a', rm), m1) →
  _id a' = _id a ∧ _time m1 = _time m ∧ _time_tolerance m1 = _time_tolerance m ∧
  turn_effect a m a' rm m1.
Proof.
  unfold agent_turn, turn_effect. intros H.
  set (a0 := decreaseRemainingTime g a) in *.
  assert (_id a0 = _id a) as Hid by done.
  assert (_at_node a0 = _at_node a) as Hf1 by done.
  assert (_en_route a0 = _en_route a) as Hf2 by done.
  assert (_trips a0 = _trips a) as Hf3 by done.
  clearbody a0. rewrite <- Hid, <- Hf1, <- Hf2, <- Hf3. clear Hid Hf1 Hf2 Hf3 a.
  remember (_total_moving_agents m) as tm eqn:Htm.
  remember (_total_trips_performed m) as ttp eqn:Http.
  remember (_time m) as t eqn:Ht.
  remember (_time_tolerance m) as tt eqn:Htt.
  rewrite st_bind_get in H.
  destruct (F32.leb _ _).
  2:{ inv_st H. split_and!; try done. left. split_and!; try done. by left. }
  destruct (_at_node a0) eqn:Hat.
  - (* depart-node *)
    apply st_bind_Ok in H as (a2 & m2 & H & Hret). inv_st Hret.
    unfold depart_node in H.
    apply st_bind_Ok in H as (a1 & s1 & H1 & H).
    assert (_id a1 = _id a0 ∧ _en_route a1 = true ∧ _trips a1 = _trips a0 ∧
            _time s1 = _time m ∧ _time_tolerance s1 = _time_tolerance m ∧
            _total_trips_performed s1 = _total_trips_performed m ∧
            _total_moving_agents s1 =
              (if _en_route a0 then _total_moving_agents m
               else incrementData (_total_moving_agents m)))
      as (Hid1 & Hen1 & Htr1 & Ht1 & Htt1 & Hp1 & Hc1).
    { destruct (_en_route a0) eqn:Hen; simpl in H1.
      - by inv_st H1.
      - rewrite st_bind_get in H1.
        apply st_bind_Ok in H1 as ([] & ? & H1 & H1'). inv_net H1.
        apply st_bind_Ok in H1' as ([] & ? & H1 & H1'). inv_net H1. by inv_st H1'. }
    apply st_bind_Ok in H as ([id0 a3] & s2 & H2 & H). inv_net H2.
    apply getNextLinkAndRemove_Ok in H2 as [_ ->].
    apply st_bind_Ok in H as ([a4 id] & s3 & H3 & H).
    pose proof (reroute_fields _ _ _ _ _ _ H3) as (_ & Hen4 & _).
    apply reroute_frame in H3 as (Hid4 & Htr4 & Hc4 & Hp4 & Ht4 & Htt4). simpl in *.
    apply enter_link_Ok in H as (l & Hl & -> & ->). simpl.
    rewrite Hid4, Ht4, Htt4, Hen4, Hc4, Hp4, Htr4, Hid1, Ht1, Htt1, Hen1, Hc1, Hp1, Htr1.
    split_and!; try done. destruct (_en_route a0).
    + left. split_and!; try done. by right.
    + right. left. done.
  - (* arrive-node *)
    unfold arrive_node in H. destruct (bool_decide (0 < _)).
    + apply st_bind_Ok in H as ([] & s1 & H1 & H). inv_net H1.
      apply st_bind_Ok in H as (l & s2 & H2 & H). inv_net H2.
      apply st_bind_Ok in H as (n & s3 & H3 & H). inv_net H3. inv_st H.
      simpl. split_and!; try done. left. done.
    + rewrite st_bind_get in H.
      apply st_bind_Ok in H as (tr & s1 & H1 & H). inv_net H1.
      apply front_Ok in H1 as [rest Htrips].
      apply st_bind_Ok in H as ([] & s2 & H2 & H). inv_net H2.
      apply st_bind_Ok in H as ([] & s3 & H3 & H). inv_net H3.
      apply st_bind_Ok in H as ([] & s4 & H4 & H). inv_net H4.
      apply st_bind_Ok in H as ([] & s5 & H5 & H). inv_net H5.
      destruct (bool_decide (1 < _)) eqn:Hb.
      * rewrite st_bind_get in H.
        apply st_bind_Ok in H as (a6 & s7 & H7 & H). inv_net H7. inv_st H.
        pose proof (setNextTrip_fields _ _ _ _ _ Hnet0) as (Hat6 & Hen6 & _).
        apply setNextTrip_frame in Hnet0 as (Hid6 & Hlen6). simpl.
        split_and!; try done. right. right. split_and!; try done. by right.
      * inv_st H. simpl. split_and!; try done. right. right. split_and!; try done.
        left. split; [done|]. apply bool_decide_eq_false in Hb.
        rewrite Htrips in *. simpl in *. lia.
Qed.

Lemma moving_app l1 l2 : moving (l1 ++ l2) = moving l1 + moving l2.
Proof. unfold moving. apply sum_list_with_app. Qed.

Lemma moving_cons a l : moving (a :: l) = (if _en_route a then 1 else 0) + moving l.
Proof. done. Qed.

Lemma moving_le ags : moving ags ≤ length ags.
Proof.
  induction ags as [|a ags IH]; simpl; [done|].
  unfold moving in *. simpl. destruct (_en_route a); lia.
Qed.

Lemma remaining_trips_app l1 l2 :
  remaining_trips (l1 ++ l2) = remaining_trips l1 + remaining_trips l2.
Proof. unfold remaining_trips. apply sum_list_with_app. Qed.

(** The loop over the agents keeps their identifiers and their order, and
    does not touch the clock. *)
Lemma agents_loop_frame g todo : ∀ m kept m',
  agents_loop g todo m = Ok (kept, m') →
  sublist (_id <$> kept) (_id <$> todo) ∧
  _time m' = _time m ∧ _time_tolerance m' = _time_tolerance m.
Proof.
  induction todo as [|a todo IH]; intros m kept m' H; simpl in H.
  - by inv_st H.
  - apply st_bind_Ok in H as ([a' rm] & m1 & H1 & H).
    apply st_bind_Ok in H as (rest & m2 & H2 & H). inv_st H.
    apply agent_turn_frame in H1 as (Hid & Ht1 & Htt1 & _).
    apply IH in H2 as (Hsub & Ht2 & Htt2).
    split_and!; [destruct rm|congruence|congruence]; csimpl.
    + by apply sublist_cons.
    + rewrite Hid. by apply sublist_skip.
Qed.

(** The loop over the agents keeps the counter of the moving agents equal
    to the number of agents en route; [extra] are the agents that have had
    their turn. *)
Lemma agents_loop_moving g todo : ∀ m kept m' extra,
  agents_loop g todo m = Ok (kept, m') →
  (∀ a, a ∈ extra ++ todo → _at_node a = false → _en_route a = true) →
  (Z.of_nat (length (extra ++ todo)) < 2 ^ 31)%Z →
  _total_moving_agents m = Z.of_nat (moving (extra ++ todo)) →
  _total_moving_agents m' = Z.of_nat (moving (extra ++ kept)) ∧
  (∀ a, a ∈ extra ++ kept → _at_node a = false → _en_route a = true).
Proof.
  induction todo as [|a todo IH]; intros m kept m' extra H Hst Hlen Hc; simpl in H.
  - by inv_st H.
  - apply st_bind_Ok in H as ([a' rm] & m1 & H1 & H).
    apply st_bind_Ok in H as (rest & m2 & H2 & H). inv_st H.
    apply agent_turn_frame in H1 as (_ & _ & _ & Heff).
    assert (_at_node a = false → _en_route a = true) as Hsta.
    { apply Hst. rewrite elem_of_app, elem_of_cons. auto. }
    rewrite moving_app, moving_cons in Hc.
    pose proof (moving_le extra) as Hle1. pose proof (moving_le todo) as Hle2.
    rewrite length_app in Hlen. simpl in Hlen.
    assert (_total_moving_agents m1 =
              Z.of_nat (moving (extra ++ (if rm then [] else [a']) ++ todo)) ∧
            (rm = false → _at_node a' = false → _en_route a' = true)) as [Hc1 Hst1].
    { rewrite !moving_app.
      destruct Heff as [(Hm & _ & -> & Hen & _ & Hat)|
                        [(Hm & _ & -> & Hen & Hen' & _)|(Hm & _ & Hat & Hrm)]].
      - rewrite Hm, Hc, moving_cons, Hen. split; [simpl; f_equal; lia|].
        intros _ Hat'. destruct (Hat Hat') as [?|?]; [auto|congruence].
      - rewrite Hm, Hc, moving_cons, Hen, Hen'. split; [|done].
        rewrite incrementData_small; simpl; lia.
      - rewrite Hm, Hc, (Hsta Hat). rewrite decrementData_small by lia.
        destruct Hrm as [[-> _]|(-> & Hen' & Hat' & _)].
        + split; [|done]. simpl. lia.
        + rewrite moving_cons, Hen'. split; [simpl; lia|]. by rewrite Hat'. }
    apply IH with (extra := extra ++ (if rm then [] else [a'])) in H2 as (Hc2 & Hst2).
    + split.
      * rewrite Hc2. destruct rm; simpl; [by rewrite app_nil_r|by rewrite <- app_assoc].
      * intros b Hb. apply Hst2. destruct rm; simpl in *;
          [by rewrite app_nil_r|by rewrite <- app_assoc].
    + intros b Hb. rewrite !elem_of_app in Hb. destruct Hb as [[Hb|Hb]|Hb].
      * apply Hst. rewrite elem_of_app. by left.
      * destruct rm; [by apply elem_of_nil in Hb|].
        apply list_elem_of_singleton in Hb as ->. by apply Hst1.
      * apply Hst. rewrite elem_of_app, elem_of_cons. auto.
    + rewrite !length_app. destruct rm; simpl; lia.
    + by rewrite Hc1, <- app_assoc.
Qed.

(** The loop over the agents keeps the sum of the trips performed and of
    the trips that remain. *)
Lemma agents_loop_trips g todo : ∀ m kept m',
  agents_loop g todo m = Ok (kept, m') →
  (0 ≤ _total_trips_performed m)%Z →
  (_total_trips_performed m + Z.of_nat (remaining_trips todo) < 2 ^ 31)%Z →
  (_total_trips_performed m' + Z.of_nat (remaining_trips kept) =
   _total_trips_performed m + Z.of_nat (remaining_trips todo))%Z ∧
  (_total_trips_performed m ≤ _total_trips_performed m')%Z.
Proof.
  induction todo as [|a todo IH]; intros m kept m' H H0 Hlt; simpl in H.
  - inv_st H. lia.
  - apply st_bind_Ok in H as ([a' rm] & m1 & H1 & H).
    apply st_bind_Ok in H as (rest & m2 & H2 & H). inv_st H.
    apply agent_turn_frame in H1 as (_ & _ & _ & Heff).
    unfold remaining_trips in Hlt |- *. cbn [sum_list_with] in Hlt |- *.
    fold (remaining_trips todo) in *. fold (remaining_trips rest) in *.
    assert ((_total_trips_performed m1 +
               Z.of_nat (if rm then 0 else length (_trips a')) =
             _total_trips_performed m + Z.of_nat (length (_trips a)))%Z ∧
            (_total_trips_performed m ≤ _total_trips_performed m1)%Z) as [Hp1 Hle1].
    { destruct Heff as [(_ & Hp & -> & _ & -> & _)|
                        [(_ & Hp & -> & _ & _ & ->)|(_ & Hp & _ & Hrm)]].
      - rewrite Hp. lia.
      - rewrite Hp. lia.
      - rewrite Hp.
        destruct Hrm as [[-> Hlen]|(-> & _ & _ & Hlen)];
          rewrite incrementData_small; lia. }
    apply IH in H2 as [Hp2 Hle2]; [|lia|destruct rm; lia].
    destruct rm; cbn [sum_list_with]; fold (remaining_trips rest); lia.
Qed.







(** ** The links and the nodes of the network *)

(** X15. The counter of the agents of a link. On a link that is not in the
    network [incrementAgentOnLink] and [decrementAgentOnLink] throw
    [std::out_of_range]. On a link of the network an increment followed by
    a decrement leaves every link and node as it was; the counter is
    unsigned, and a decrement of the counter 0 gives [2^32 - 1]. *)
Theorem link_agents_counter (id : string) (net : Network) :
  match StdMap.find id (_Links net) with
  | None =>
      incrementAgentOnLink id net = Err OutOfRange ∧
      decrementAgentOnLink id net = Err OutOfRange
  | Some l =>
      (Link._n_agents l < UInt.modulus)%N →
      ∃ net1 net2 net3 l3,
        incrementAgentOnLink id net = Ok (tt, net1) ∧
        decrementAgentOnLink id net1 = Ok (tt, net2) ∧
        (∀ k, StdMap.find k (_Links net2) = StdMap.find k (_Links net)) ∧
        _Nodes net2 = _Nodes net ∧
        decrementAgentOnLink id net = Ok (tt, net3) ∧
        StdMap.find id (_Links net3) = Some l3 ∧
        Link._n_agents l3 =
          (if (Link._n_agents l =? 0)%N then 4294967295 else Link._n_agents l - 1)%N
  end.
Proof.
  destruct (StdMap.find id (_Links net)) as [l|] eqn:Hl.
  - intros Hn. unfold incrementAgentOnLink, decrementAgentOnLink.
    rewrite (links_update_Ok _ _ _ _ Hl).
    eexists _, _, _, _. split; [done|].
    erewrite links_update_Ok; [|apply find_put_eq]. split; [done|].
    rewrite (links_update_Ok _ _ _ _ Hl). simpl.
    split_and!; [|done|done|apply find_put_eq|].
    + intros k. rewrite !find_put. case_decide as Hk; [|done]. subst k. rewrite Hl.
      f_equal. destruct l as [i s e len n fft cap x y]. unfold Link.decrementAgents,
        Link.increaseAgents, Link.setNAgents. simpl in *. f_equal.
      unfold UInt.decr, UInt.incr, UInt.add, UInt.modulus in *.
      change (2 ^ 32)%N with 4294967296%N in *.
      destruct (decide (n + 1 = 4294967296)%N) as [E|E].
      * rewrite E, N.Div0.mod_same, N.mod_small; lia.
      * rewrite (N.mod_small (n + 1)) by lia.
        replace (n + 1 + (4294967296 - 1))%N with (n + 1 * 4294967296)%N by lia.
        rewrite N.Div0.mod_add. apply N.mod_small. lia.
    + simpl. unfold UInt.decr, UInt.modulus in *.
      change (2 ^ 32)%N with 4294967296%N in *.
      destruct (N.eqb_spec (Link._n_agents l) 0) as [->|Hne]; [reflexivity|].
      replace (Link._n_agents l + (4294967296 - 1))%N
        with (Link._n_agents l - 1 + 1 * 4294967296)%N by lia.
      rewrite N.Div0.mod_add. apply N.mod_small. lia.
  - unfold incrementAgentOnLink, decrementAgentOnLink, links_update, StdMap.at_.
    by rewrite Hl.
Qed.

(** ** The construction of the network *)

Lemma find_insert {T} k k' (v : T) m :
  StdMap.find k' (StdMap.insert k v m) =
    match StdMap.find k m with
    | Some _ => StdMap.find k' m
    | None => if decide (k = k') then Some v else StdMap.find k' m
    end.
Proof. unfold StdMap.insert. destruct (StdMap.find k m); [done|]. apply find_put. Qed.

Lemma elem_of_put {T} k (v : T) m kv :
  kv ∈ StdMap.put k v m → kv = (k, v) ∨ kv ∈ m.
Proof.
  induction m as [|[k0 v0] m IH]; simpl.
  - intros ?%list_elem_of_singleton. by left.
  - destruct (String.compare k k0); rewrite !elem_of_cons; [tauto|tauto|].
    intros [?|?]; [tauto|]. destruct IH; auto.
Qed.

Lemma liftB_Ok {A} (c : NM A) net b a net' b' :
  liftB c (net, b) = Ok (a, (net', b')) → c net = Ok (a, net') ∧ b' = b.
Proof.
  unfold liftB. destruct (c net) as [[a0 net0]|]; [|done]. by intros [= -> -> ->].
Qed.

(** The nodes that the loop over the elements [node] adds list no link. *)
Lemma read_nodes_no_links nodes : ∀ net b net' b',
  read_nodes nodes (net, b) = Ok (tt, (net', b')) →
  _Links net' = _Links net ∧
  ((∀ kn, kn ∈ _Nodes net → Node._links_out_id kn.2 = []) →
   ∀ kn, kn ∈ _Nodes net' → Node._links_out_id kn.2 = []).
Proof.
  induction nodes as [|ele nodes IH]; intros net b net' b' H; simpl in H.
  - by apply st_ret_Ok in H as [_ [= <- <-]].
  - apply st_bind_Ok in H as ([] & [net1 b1] & H1 & H).
    apply IH in H as [Hl Hn]. unfold addNode in H1. injection H1 as <- _.
    split; [done|]. intros Hall. apply Hn. simpl. intros kn.
    unfold StdMap.insert. destruct (StdMap.find _ _); [apply Hall|].
    intros [->|Hin]%elem_of_put; [done|by apply Hall].
Qed.

Lemma shuffle_loop_links_out P nodes : ∀ c kn,
  kn ∈ shuffle_loop P c nodes →
  ∃ n, (kn.1, n) ∈ nodes ∧ Node._links_out_id kn.2 = Node._links_out_id n.
Proof.
  induction nodes as [|[k0 n0] nodes IH]; intros c kn; simpl.
  - by intros ?%elem_of_nil.
  - intros [->|Hin]%elem_of_cons.
    + exists n0. split; [left|done].
    + destruct (IH _ _ Hin) as (n & Hn & Hout). exists n. split; [by right|done].
Qed.

(** One turn of the loop over the elements [link] keeps the two relations
    of the nodes and the links. *)
Lemma read_links_inv links : ∀ net net',
  read_links links net = Ok (tt, net') →
  links_out_known net → links_listed net →
  links_out_known net' ∧ links_listed net' ∧
  (∀ ele, ele ∈ links → is_Some (StdMap.find (le_id ele) (_Links net'))) ∧
  (∀ k n, StdMap.find k (_Nodes net) = Some n →
     ∃ n', StdMap.find k (_Nodes net') = Some n' ∧
       Node._id n' = Node._id n ∧ Node._x n' = Node._x n ∧ Node._y n' = Node._y n) ∧
  (∀ k lk, StdMap.find k (_Links net) = Some lk → StdMap.find k (_Links net') = Some lk).
Proof.
  induction links as [|ele links IH]; intros net net' H Hknown Hlisted; simpl in H.
  - apply st_ret_Ok in H as [_ <-]. split_and!; try done.
    + by intros ele ?%elem_of_nil.
    + intros k n Hn. by exists n.
  - apply st_bind_Ok in H as ([] & net1 & H1 & H).
    apply st_bind_Ok in H as (s & net2 & H2 & H). apply nodes_at_Ok in H2 as [Hs ->].
    apply st_bind_Ok in H as (e & net3 & H3 & H). apply nodes_at_Ok in H3 as [He ->].
    apply st_bind_Ok in H as ([] & net4 & H4 & H).
    unfold addLink in H4. injection H4 as <-.
    unfold addLinkOutToNode in H1.
    destruct (StdMap.index Node.default (le_from ele) (_Nodes net)) as [n0 ns] eqn:En.
    injection H1 as <-. simpl in *.
    assert (n0 = default Node.default (StdMap.find (le_from ele) (_Nodes net))) as Hn0.
    { rewrite <- index_fst. by rewrite En. }
    assert (∀ k, StdMap.find k (StdMap.put (le_from ele) (Node.addLinkOutId (le_id ele) n0) ns)
                 = if decide (le_from ele = k) then Some (Node.addLinkOutId (le_id ele) n0)
                   else StdMap.find k (_Nodes net)) as Hnodes.
    { intros k. rewrite find_put. case_decide as Hk; [done|].
      assert (ns = (StdMap.index Node.default (le_from ele) (_Nodes net)).2) as ->
        by by rewrite En.
      rewrite find_index. rewrite decide_False; [done|]. by intros [? _]. }
    set (lk0 := Link.make _ _ _ _ _ _ _ _) in *.
    set (net1 := set_Links _ _) in *.
    assert (∀ l, is_Some (StdMap.find l (_Links net)) → is_Some (StdMap.find l (_Links net1)))
      as Hkeep.
    { intros l [v Hv]. simpl. rewrite find_insert.
      destruct (StdMap.find (le_id ele) (_Links net)); [by rewrite Hv|].
      case_decide; [done|by rewrite Hv]. }
    assert (is_Some (StdMap.find (le_id ele) (_Links net1))) as Hnew.
    { simpl. rewrite find_insert.
      destruct (StdMap.find (le_id ele) (_Links net)) eqn:E; [done|].
      by rewrite decide_True. }
    assert (links_out_known net1) as Hknown1.
    { intros k n l Hn Hl. simpl in Hn. rewrite Hnodes in Hn. case_decide as Hk.
      - injection Hn as <-. simpl in Hl. apply elem_of_app in Hl as [Hl|Hl].
        + apply Hkeep. rewrite Hn0 in Hl.
          destruct (StdMap.find (le_from ele) (_Nodes net)) as [n1|] eqn:E; simpl in Hl.
          * by eapply Hknown.
          * by apply elem_of_nil in Hl.
        + by apply list_elem_of_singleton in Hl as ->.
      - apply Hkeep. by eapply Hknown. }
    assert (links_listed net1) as Hlisted1.
    { intros k lk Hlk. simpl in Hlk. rewrite find_insert in Hlk. simpl.
      assert (StdMap.find k (_Links net) = Some lk →
              ∃ n, StdMap.find (Link._start_node_id lk)
                     (StdMap.put (le_from ele) (Node.addLinkOutId (le_id ele) n0) ns) = Some n ∧
                   k ∈ Node._links_out_id n) as Hold.
      { intros Hk. destruct (Hlisted k lk Hk) as (n & Hn & Hin).
        rewrite Hnodes.
        destruct (decide (le_from ele = Link._start_node_id lk)) as [Hs'|Hs'].
        - eexists. split; [done|]. simpl. apply elem_of_app. left.
          rewrite Hn0, Hs', Hn. done.
        - by exists n. }
      destruct (StdMap.find (le_id ele) (_Links net)) eqn:E; [by apply Hold|].
      case_decide as Hk; [|by apply Hold].
      injection Hlk as <-. subst k. simpl. rewrite Hnodes, decide_True by done.
      eexists. split; [done|]. simpl. apply elem_of_app. right. left. }
    apply IH in H as (Hk' & Hl' & Hin' & Hn' & Hlk'); [|done|done].
    split_and!; try done.
    + intros x [->|Hx]%elem_of_cons; [|by apply Hin'].
      destruct Hnew as [v Hv]. apply Hlk' in Hv. by rewrite Hv.
    + intros k n Hn.
      assert (∃ n1, StdMap.find k (_Nodes net1) = Some n1 ∧ Node._id n1 = Node._id n ∧
                Node._x n1 = Node._x n ∧ Node._y n1 = Node._y n) as (n1 & Hn1 & ? & ? & ?).
      { simpl. rewrite Hnodes. case_decide as Hk.
        - eexists. split; [done|]. subst k. rewrite Hn0, Hn. done.
        - by exists n. }
      destruct (Hn' k n1 Hn1) as (n2 & Hn2 & ? & ? & ?). exists n2.
      split_and!; congruence.
    + intros k lk Hlk. apply Hlk'. simpl. rewrite find_insert.
      destruct (StdMap.find (le_id ele) (_Links net)) eqn:E; [done|].
      case_decide; [congruence|done].
Qed.

(** X16. When [Data::read_network_matsim] returns, every link that a node
    of the network lists as outgoing is in the network, every link of the
    network is listed by the node it starts from, and every element [link]
    of the file has a link of its identifier in the network. The two
    planners then leave such a network as it is: they create no link. *)
Theorem read_network_matsim_links (n_proc : Z) nodes links net b :
  read_network_matsim n_proc nodes links (new_network, new_bounds) = Ok (tt, (net, b)) →
  links_out_known net ∧ links_listed net ∧
  (∀ ele, ele ∈ links → is_Some (StdMap.find (le_id ele) (_Links net))) ∧
  (∀ fastest s d path net',
     computePath fastest s d net = Ok (path, net') ∨
     computePathAStar fastest s d net = Ok (path, net') → net' = net).
Proof.
  unfold read_network_matsim. intros H.
  apply st_bind_Ok in H as ([] & [net1 b1] & H1 & H).
  apply st_bind_Ok in H as ([] & [net2 b2] & H2 & H).
  apply liftB_Ok in H2 as [H2 ->]. apply liftB_Ok in H as [H ->].
  apply read_nodes_no_links in H1 as [Hl1 Hn1]. simpl in *.
  assert (_Links net2 = [] ∧ ∀ kn, kn ∈ _Nodes net2 → Node._links_out_id kn.2 = [])
    as [Hl2 Hn2].
  { unfold shuffleNodesCoordinates in H2. destruct (bool_decide _); [done|].
    injection H2 as <-. simpl. split; [done|]. intros kn Hkn.
    apply shuffle_loop_links_out in Hkn as (n & Hn & ->).
    apply (Hn1 ltac:(by intros ? ?%elem_of_nil) _ Hn). }
  apply read_links_inv in H as (Hknown & Hlisted & Hin & _).
  - split_and!; try done. intros fastest s d path net' [Hp|Hp].
    + apply computePath_run in Hp as [_ Hn]. auto.
    + apply computePathAStar_run in Hp as [_ Hn]. auto.
  - intros k n l Hn Hl. apply find_elem_of in Hn. apply Hn2 in Hn. simpl in Hn.
    rewrite Hn in Hl. by apply elem_of_nil in Hl.
  - intros k lk Hlk. by rewrite Hl2 in Hlk.
Qed.

Lemma read_network_matsim_links_witness :
  ∃ net b,
    read_network_matsim 1 BuildExamples.road_nodes BuildExamples.road_links
      (new_network, new_bounds) = Ok (tt, (net, b)) ∧
    links_out_known net ∧ links_listed net ∧
    (∀ ele, ele ∈ BuildExamples.road_links → is_Some (StdMap.find (le_id ele) (_Links net))) ∧
    (∀ fastest s d path net',
       computePath fastest s d net = Ok (path, net') ∨
       computePathAStar fastest s d net = Ok (path, net') → net' = net).
Proof.
  destruct (read_network_matsim 1 BuildExamples.road_nodes BuildExamples.road_links
              (new_network, new_bounds)) as [[[] [net b]]|] eqn:E;
    [|vm_compute in E; discriminate].
  exists net, b. split; [reflexivity|]. exact (read_network_matsim_links _ _ _ _ _ E).
Defined.

(** ** The bounding box *)

Lemma SFltb_trans a b c : SFltb a b = true → SFltb b c = true → SFltb a c = true.
Proof.
  unfold SFltb, SFcompare.
  destruct a as [sa|sa| |sa ma ea], b as [sb|sb| |sb mb eb], c as [sc|sc| |sc mc ec];
    try destruct sa; try destruct sb; try destruct sc; try (intros; congruence).
  all: rewrite ?Pos.compare_cont_spec; unfold Pos.switch_Eq.
  all: destruct (Z.compare_spec ea eb), (Z.compare_spec eb ec), (Z.compare_spec ea ec);
    try (intros; congruence); try (exfalso; lia).
  all: destruct (Pos.compare_spec ma mb), (Pos.compare_spec mb mc), (Pos.compare_spec ma mc);
    simpl; try (intros; congruence); exfalso; lia.
Qed.

Lemma SFltb_irrefl a : SFltb a a = false.
Proof.
  unfold SFltb, SFcompare. destruct a as [s|s| |s m e]; try destruct s; try reflexivity.
  all: rewrite Z.compare_refl, Pos.compare_cont_refl; reflexivity.
Qed.

(** A lower bound moved down to [x] when [x] is below it: [x] is not below
    the new bound, and what was not below the old bound is not below the
    new one. *)
Lemma lower_bound x m :
  let m' := if SFltb x m then x else m in
  SFltb x m' = false ∧ ∀ z, SFltb z m = false → SFltb z m' = false.
Proof.
  simpl. destruct (SFltb x m) eqn:E; [|done]. split; [apply SFltb_irrefl|].
  intros z Hz. destruct (SFltb z x) eqn:Ez; [|done].
  by rewrite (SFltb_trans _ _ _ Ez E) in Hz.
Qed.

Lemma upper_bound x m :
  let m' := if SFltb m x then x else m in
  SFltb m' x = false ∧ ∀ z, SFltb m z = false → SFltb m' z = false.
Proof.
  simpl. destruct (SFltb m x) eqn:E; [|done]. split; [apply SFltb_irrefl|].
  intros z Hz. destruct (SFltb x z) eqn:Ez; [|done].
  by rewrite (SFltb_trans _ _ _ E Ez) in Hz.
Qed.

Lemma box_le_in b b' x y : box_le b b' → in_box b x y = true → in_box b' x y = true.
Proof.
  intros (H1 & H2 & H3 & H4). unfold in_box. rewrite !andb_true_iff, !negb_true_iff.
  intros [[[? ?] ?] ?]. auto.
Qed.

Lemma addNode_bounds aNode net b net' b' :
  addNode aNode (net, b) = Ok (tt, (net', b')) →
  let x := Node._x aNode in
  let y := Node._y aNode in
  b' = mkBounds (if SFltb x (min_x b) then x else min_x b)
                (if SFltb (max_x b) x then x else max_x b)
                (if SFltb y (min_y b) then y else min_y b)
                (if SFltb (max_y b) y then y else max_y b).
Proof.
  unfold addNode. intros [= _ <-]. destruct b as [x0 x1 y0 y1].
  cbn [min_x max_x min_y max_y].
  destruct (SFltb (Node._x aNode) x0); cbn [min_x max_x min_y max_y].
  all: destruct (SFltb x1 (Node._x aNode)); cbn [min_x max_x min_y max_y].
  all: destruct (SFltb (Node._y aNode) y0); cbn [min_x max_x min_y max_y].
  all: destruct (SFltb y1 (Node._y aNode)); reflexivity.
Qed.

Lemma addNode_box aNode net b net' b' :
  addNode aNode (net, b) = Ok (tt, (net', b')) →
  _Links net' = _Links net ∧
  _Nodes net' = StdMap.insert (Node._id aNode) aNode (_Nodes net) ∧
  in_box b' (Node._x aNode) (Node._y aNode) = true ∧ box_le b b'.
Proof.
  intros H. pose proof (addNode_bounds _ _ _ _ _ H) as Hb. cbv zeta in Hb.
  unfold addNode in H. injection H as <- _. split; [done|]. split; [done|].
  pose proof (lower_bound (Node._x aNode) (min_x b)) as [A1 A2].
  pose proof (upper_bound (Node._x aNode) (max_x b)) as [B1 B2].
  pose proof (lower_bound (Node._y aNode) (min_y b)) as [C1 C2].
  pose proof (upper_bound (Node._y aNode) (max_y b)) as [D1 D2].
  cbv zeta in A1, A2, B1, B2, C1, C2, D1, D2.
  rewrite Hb. unfold in_box, box_le. cbn [min_x max_x min_y max_y].
  rewrite A1, B1, C1, D1. split; [reflexivity|]. split_and!; assumption.
Qed.

Lemma read_nodes_inv nodes : ∀ net b net' b',
  read_nodes nodes (net, b) = Ok (tt, (net', b')) →
  _Links net' = _Links net ∧
  (∀ k, StdMap.find k (_Nodes net') =
        match StdMap.find k (_Nodes net) with
        | Some n => Some n
        | None => node_of <$> first_with_id k nodes
        end) ∧
  (∀ ele, ele ∈ nodes →
     in_box b' (F64.of_f32 (ne_x ele)) (F64.of_f32 (ne_y ele)) = true) ∧
  box_le b b'.
Proof.
  induction nodes as [|ele nodes IH]; intros net b net' b' H; simpl in H.
  - apply st_ret_Ok in H as [_ [= <- <-]]. split_and!; try done.
    + intros k. by destruct (StdMap.find k (_Nodes net)).
    + by intros ele ?%elem_of_nil.
  - apply st_bind_Ok in H as ([] & [net1 b1] & H1 & H).
    apply addNode_box in H1 as (Hl1 & Hn1 & Hin1 & Hle1).
    apply IH in H as (Hl & Hn & Hin & Hle).
    split_and!.
    + congruence.
    + intros k. rewrite Hn, Hn1, find_insert. simpl.
      destruct (StdMap.find (ne_id ele) (_Nodes net)) as [n0|] eqn:E.
      * destruct (StdMap.find k (_Nodes net)) as [n|] eqn:Ek; [done|].
        destruct (String.eqb_spec k (ne_id ele)) as [->|Hne]; [congruence|done].
      * destruct (String.eqb_spec k (ne_id ele)) as [->|Hne].
        -- rewrite decide_True by done. by rewrite E.
        -- rewrite decide_False by done. done.
    + intros x [->|Hx]%elem_of_cons; [|by apply Hin].
      eapply box_le_in; [exact Hle|]. exact Hin1.
    + destruct Hle1 as (A1 & A2 & A3 & A4), Hle as (B1 & B2 & B3 & B4).
      split_and!; auto.
Qed.

(** X17. The loop of [Data::read_network_matsim] over the elements [node],
    from the empty network, returns. Each identifier then names the node
    made of the first element that has it: an element whose identifier has
    been read is ignored, but it still widens the bounding box. The box
    holds every element; its maxima start from the least positive normal
    [double] and are never below it, whatever the coordinates are. *)
Theorem read_nodes_spec nodes :
  ∃ net b, read_nodes nodes (new_network, new_bounds) = Ok (tt, (net, b)) ∧
    _Links net = [] ∧
    (∀ k, StdMap.find k (_Nodes net) = node_of <$> first_with_id k nodes) ∧
    (∀ ele, ele ∈ nodes →
       in_box b (F64.of_f32 (ne_x ele)) (F64.of_f32 (ne_y ele)) = true) ∧
    SFltb (max_x b) dbl_min = false ∧ SFltb (max_y b) dbl_min = false ∧
    SFltb dbl_max (min_x b) = false ∧ SFltb dbl_max (min_y b) = false.
Proof.
  assert (∀ nodes s, ∃ s', read_nodes nodes s = Ok (tt, s')) as Htotal.
  { clear. induction nodes as [|ele nodes IH]; intros [net b]; simpl; [by eexists|].
    unfold mbind, st_bind. simpl. apply IH. }
  destruct (Htotal nodes (new_network, new_bounds)) as [[net b] H].
  exists net, b. split; [done|].
  apply read_nodes_inv in H as (Hl & Hn & Hin & (A1 & A2 & A3 & A4)).
  split_and!; try done.
  - apply A2. reflexivity.
  - apply A4. reflexivity.
  - apply A1. reflexivity.
  - apply A3. reflexivity.
Qed.
